(** * Task manager: selection and lifecycle engine

    A shallow embedding of [src/index.ts] (class [TaskManagerServer]).

    Every public method of the class starts with [loadTasks] (re-reading the
    JSON file) and ends, on its mutating paths, with [saveTasks].  The
    persistent state is therefore the content of that file: the list of
    requests and the two counters of the metadata block.  An operation is
    modelled as a function from the file content before the call to the file
    content after the call, together with the reply.

    JavaScript objects are shared by reference: [taskMap], the candidate
    array of [getNextTask] and [req.tasks] all point to the same task
    objects.  The task list is the store and a reference to a task object
    is its index in the list, carried together with what the object holds
    at the time it is read. *)

From stdpp Require Import gmap strings list fin_maps pretty.
From Stdlib Require Import ZArith Ascii.

Open Scope string_scope.
Open Scope list_scope.
Open Scope nat_scope.

Set Warnings "-clear-no-such-hyp".

(** ** Data model *)

Inductive Status := pending | active | done | failed.
Inductive Priority := high | medium | low.

#[global] Instance Status_eq_dec : EqDecision Status.
Proof. solve_decision. Defined.
#[global] Instance Priority_eq_dec : EqDecision Priority.
Proof. solve_decision. Defined.

(** [interface Task].  An optional property ([dependsOn?], [parentId?],
    [subtaskIds?], [failureReason?]) is [None] when it is absent or
    [undefined]; JSON serialisation drops [undefined] properties, so the
    two are the same once the file has been written and read again. *)
Record Task := mkTask {
  id : string;
  title : string;
  description : string;
  status : Status;
  priority : Priority;
  dependsOn : option (list string);
  parentId : option string;
  subtaskIds : option (list string);
  failureReason : option string;
  completedDetails : string
}.

(** [interface RequestEntry]. *)
Record RequestEntry := mkRequest {
  requestId : string;
  originalRequest : string;
  splitDetails : string;
  tasks : list Task;
  completed : bool
}.

(** [interface TaskManagerFile], with the metadata block always present
    (both [loadTasks] and [saveTasks] create it when it is missing). *)
Record Store := mkStore {
  requests : list RequestEntry;
  lastRequestId : N;
  lastTaskId : N
}.

(** The file that [loadTasks] falls back to when nothing can be read. *)
Definition emptyStore : Store := mkStore [] 0 0.

(** Field updates ([task.status = ...] and the like). *)
Definition setStatus (st : Status) (t : Task) : Task :=
  mkTask (id t) (title t) (description t) st (priority t) (dependsOn t)
         (parentId t) (subtaskIds t) (failureReason t) (completedDetails t).
Definition setTitle (x : string) (t : Task) : Task :=
  mkTask (id t) x (description t) (status t) (priority t) (dependsOn t)
         (parentId t) (subtaskIds t) (failureReason t) (completedDetails t).
Definition setDescription (x : string) (t : Task) : Task :=
  mkTask (id t) (title t) x (status t) (priority t) (dependsOn t)
         (parentId t) (subtaskIds t) (failureReason t) (completedDetails t).
Definition setPriority (p : Priority) (t : Task) : Task :=
  mkTask (id t) (title t) (description t) (status t) p (dependsOn t)
         (parentId t) (subtaskIds t) (failureReason t) (completedDetails t).
Definition setDependsOn (d : option (list string)) (t : Task) : Task :=
  mkTask (id t) (title t) (description t) (status t) (priority t) d
         (parentId t) (subtaskIds t) (failureReason t) (completedDetails t).
Definition setParentId (p : option string) (t : Task) : Task :=
  mkTask (id t) (title t) (description t) (status t) (priority t) (dependsOn t)
         p (subtaskIds t) (failureReason t) (completedDetails t).
Definition setSubtaskIds (l : option (list string)) (t : Task) : Task :=
  mkTask (id t) (title t) (description t) (status t) (priority t) (dependsOn t)
         (parentId t) l (failureReason t) (completedDetails t).
Definition setFailureReason (r : option string) (t : Task) : Task :=
  mkTask (id t) (title t) (description t) (status t) (priority t) (dependsOn t)
         (parentId t) (subtaskIds t) r (completedDetails t).
Definition setCompletedDetails (d : string) (t : Task) : Task :=
  mkTask (id t) (title t) (description t) (status t) (priority t) (dependsOn t)
         (parentId t) (subtaskIds t) (failureReason t) d.

Definition setTasks (ts : list Task) (r : RequestEntry) : RequestEntry :=
  mkRequest (requestId r) (originalRequest r) (splitDetails r) ts (completed r).
Definition setCompleted (c : bool) (r : RequestEntry) : RequestEntry :=
  mkRequest (requestId r) (originalRequest r) (splitDetails r) (tasks r) c.
Definition setRequests (rs : list RequestEntry) (s : Store) : Store :=
  mkStore rs (lastRequestId s) (lastTaskId s).

(** [t.status === "done" || t.status === "failed"] *)
Definition isTerminal (t : Task) : bool :=
  bool_decide (status t = done) || bool_decide (status t = failed).

(** ** JavaScript values *)

(** Truthiness of a string-or-undefined value: [undefined] and the empty
    string are falsy. *)
Definition truthy (o : option string) : option string :=
  match o with
  | Some s => if decide (s = "") then None else Some s
  | None => None
  end.

(** [x || dflt] on a string-or-undefined [x]. *)
Definition orElse (o : option string) (dflt : string) : string :=
  default dflt (truthy o).

(** [s.replace(pat, rep)] with a string pattern: the first occurrence only. *)
Fixpoint replaceFirst (pat rep s : string) : string :=
  if String.prefix pat s
  then rep +:+ String.substring (String.length pat) (String.length s - String.length pat) s
  else match s with
       | EmptyString => EmptyString
       | String c s' => String c (replaceFirst pat rep s')
       end.

(** The white space and line terminators that [parseInt] skips.  A
    character of a string stands for a code unit below 256, and of
    these the white ones are 9 to 13, 32 and 160 (the no-break space). *)
Definition isWhite (c : ascii) : bool :=
  let n := nat_of_ascii c in
  bool_decide (n = 9%nat) || bool_decide (n = 10%nat) || bool_decide (n = 11%nat)
  || bool_decide (n = 12%nat) || bool_decide (n = 13%nat) || bool_decide (n = 32%nat)
  || bool_decide (n = 160%nat).

Definition digitOf (c : ascii) : option Z :=
  let n := nat_of_ascii c in
  if bool_decide (48 ≤ n)%nat && bool_decide (n ≤ 57)%nat
  then Some (Z.of_nat n - 48)%Z else None.

Fixpoint skipWhite (s : string) : string :=
  match s with
  | String c s' => if isWhite c then skipWhite s' else s
  | EmptyString => s
  end.

(** The digits at the front of [s], read in base ten: [acc] is the value so
    far, and the result is [None] when [s] starts with no digit. *)
Fixpoint readDigits (acc : option Z) (s : string) : option Z :=
  match s with
  | String c s' =>
      match digitOf c with
      | Some d => readDigits (Some (10 * default 0%Z acc + d)%Z) s'
      | None => acc
      end
  | EmptyString => acc
  end.

(** [parseInt(s, 10)]: leading white space is skipped, one sign is read,
    then the longest run of decimal digits; [None] is [NaN].  The result
    is the exact integer: the code's is a double, which is this integer
    as long as it is below 2^53 ([exactBound]). *)
Definition parseInt (s : string) : option Z :=
  match skipWhite s with
  | String "-" s' => Z.opp <$> readDigits None s'
  | String "+" s' => readDigits None s'
  | s' => readDigits None s'
  end.

(** The template literal [`task-${n}`].  The number is printed in full:
    so is the code's, a double, below 2^53 ([exactBound]). *)
Definition taskIdOf (n : N) : string := "task-" +:+ pretty n.
Definition requestIdOf (n : N) : string := "req-" +:+ pretty n.

(** [parseInt(t.id.replace("task-", ""), 10)] *)
Definition idNum (t : Task) : option Z := parseInt (replaceFirst "task-" "" (id t)).

(** ** References to task objects *)

(** A reference to a task object of [req.tasks]: its index, with the
    content read through it. *)
Abbreviation TaskRef := (nat * Task)%type.

(** The objects of [req.tasks], in order. *)
Definition refs (ts : list Task) : list TaskRef := imap pair ts.

(** [new Map(req.tasks.map(t => [t.id, t]))]: entries are set from left to
    right, so of two tasks with one id the later one is kept. *)
Definition mkTaskMap (ts : list Task) : gmap string TaskRef :=
  foldl (λ m r, <[id r.2 := r]> m) ∅ (refs ts).

(** [req.tasks.find(t => t.id === taskId)]: the first task with that id. *)
Definition findTask (ts : list Task) (taskId : string) : option TaskRef :=
  list_find (λ t, id t = taskId) ts.

(** [this.data.requests.find(r => r.requestId === requestId)] *)
Definition findRequest (s : Store) (rid : string) : option (nat * RequestEntry) :=
  list_find (λ r, requestId r = rid) (requests s).

(** Writing back the request object found at index [k]. *)
Definition putRequest (k : nat) (r : RequestEntry) (s : Store) : Store :=
  setRequests (<[k := r]> (requests s)) s.

(** ** Replies *)

Inductive StatusTag :=
  | error | planned | already_completed | all_tasks_terminal_request_completed
  | no_actionable_task | next_task | already_done | already_failed
  | task_marked_done | task_marked_failed | no_change | dependency_added
  | dependency_removed | validation_failed | validation_passed | task_details
  | task_not_found | requests_listed | tasks_added | task_updated
  | task_deleted | subtask_added | subtask_removed.

#[global] Instance StatusTag_eq_dec : EqDecision StatusTag.
Proof. solve_decision. Defined.

(** What a reply carries besides its free text: the [status] tag, the task
    of the reply when there is one, the new tasks of a planning reply, and
    the [issues] of a validation. *)
Record Reply := mkReply {
  tag : StatusTag;
  replyTask : option Task;
  replyTasks : list Task;
  issues : list string
}.

Definition reply (t : StatusTag) : Reply := mkReply t None [] [].
Definition replyWith (t : StatusTag) (x : Task) : Reply := mkReply t (Some x) [] [].

(** ** get_next_task *)

Section Selection.
Variable ts : list Task.

(** The helper [areDependenciesMet] of [getNextTask]. *)
Definition areDependenciesMet (task : Task) : bool :=
  match dependsOn task with
  | Some deps =>
      forallb (λ depId,
                match mkTaskMap ts !! depId with
                | Some (_, depTask) => bool_decide (status depTask = done)
                | None => false
                end) deps
  | None => true
  end.

(** [req.tasks.filter(t => t.status === "active" && t.subtaskIds &&
    t.subtaskIds.length > 0)] *)
Definition activeParentTasks : list Task :=
  filter (λ t, status t = active ∧ default [] (subtaskIds t) ≠ []) ts.

(** The first pass: pending subtasks, with their dependencies met, of the
    active parents, in the order in which they are pushed. *)
Definition passA : list TaskRef :=
  flat_map (λ parent,
    flat_map (λ subtaskId,
      match mkTaskMap ts !! subtaskId with
      | Some (i, subtask) =>
          if bool_decide (status subtask = pending) && areDependenciesMet subtask
          then [(i, subtask)] else []
      | None => []
      end) (default [] (subtaskIds parent))) activeParentTasks.

(** [task.parentId ? taskMap.get(task.parentId) : null] *)
Definition parentRef (task : Task) : option TaskRef :=
  match truthy (parentId task) with
  | Some pid => mkTaskMap ts !! pid
  | None => None
  end.

(** [task.parentId && taskMap.get(task.parentId)?.status === "active"] *)
Definition parentIsActive (task : Task) : bool :=
  match parentRef task with
  | Some (_, parent) => bool_decide (status parent = active)
  | None => false
  end.

(** The predicate of the second pass. *)
Definition passBKeep (task : Task) : bool :=
  if parentIsActive task then false
  else (bool_decide (status task = pending) || bool_decide (status task = active))
       && areDependenciesMet task.

Definition passB : list TaskRef :=
  filter (λ r : TaskRef, passBKeep r.2 = true) (refs ts).

Definition potentialNextTasks : list TaskRef :=
  match passA with
  | [] => passB
  | _ => passA
  end.

(** [priorityOrder] *)
Definition priorityOrder (p : Priority) : Z :=
  match p with high => 0 | medium => 1 | low => 2 end.

(** The comparator given to [sort]; [None] is [NaN], the difference of
    two ids of which one does not parse. *)
Definition compareTasks (a b : Task) : option Z :=
  if parentIsActive a && negb (parentIsActive b) then Some (-1)%Z
  else if negb (parentIsActive a) && parentIsActive b then Some 1%Z
  else if bool_decide (priorityOrder (priority a) ≠ priorityOrder (priority b))
       then Some (priorityOrder (priority a) - priorityOrder (priority b))%Z
  else match idNum a, idNum b with
       | Some x, Some y => Some (x - y)%Z
       | _, _ => None
       end.

(** What [sort] makes of the comparator's value: [NaN] counts as 0. *)
Definition compareRefs (a b : TaskRef) : Z := default 0%Z (compareTasks a.2 b.2).
End Selection.

(** [Array.prototype.sort] with a comparator is a stable sort: elements
    that compare equal keep their order.  The engine's algorithm is not
    fixed by the language; insertion from the right is one stable sort. *)
Section Sort.
Context {A : Type} (cmp : A → A → Z).

Fixpoint insertBy (x : A) (l : list A) : list A :=
  match l with
  | [] => [x]
  | y :: l' => if decide (cmp x y ≤ 0)%Z then x :: l else y :: insertBy x l'
  end.

Fixpoint sortBy (l : list A) : list A :=
  match l with
  | [] => []
  | x :: l' => insertBy x (sortBy l')
  end.
End Sort.

(** The status changes of [getNextTask] on a pending head [next]: its
    parent, when it has one that is pending, then the task itself. *)
Definition activateParent (ts : list Task) (next : Task) : list Task :=
  match parentRef ts next with
  | Some (p, parent) =>
      if bool_decide (status parent = pending)
      then alter (setStatus active) p ts else ts
  | None => ts
  end.

Definition activate (ts : list Task) (next : TaskRef) : list Task :=
  alter (setStatus active) next.1 (activateParent ts next.2).

(** The head of the sorted candidates. *)
Definition selectNext (ts : list Task) : option TaskRef :=
  head (sortBy (compareRefs ts) (potentialNextTasks ts)).

Definition getNextTask (rid : string) (s : Store) : Store * Reply :=
  match findRequest s rid with
  | None => (s, reply error)
  | Some (k, req) =>
      if completed req then (s, reply already_completed)
      else match selectNext (tasks req) with
           | None =>
               if forallb isTerminal (tasks req)
               then (putRequest k (setCompleted true req) s,
                     reply all_tasks_terminal_request_completed)
               else (s, reply no_actionable_task)
           | Some nextTask =>
               if bool_decide (status nextTask.2 = pending)
               then (putRequest k (setTasks (activate (tasks req) nextTask) req) s,
                     replyWith next_task (setStatus active nextTask.2))
               else (s, replyWith next_task nextTask.2)
           end
  end.

(** ** request_planning, add_tasks_to_request *)

(** An element of the [tasks] argument of [requestPlanning] and
    [addTasksToRequest]. *)
Record TaskDef := mkTaskDef {
  defTitle : string;
  defDescription : string;
  defPriority : option Priority;
  defDependsOn : option (list string)
}.

(** The loop that builds [newTasks]: the counter is incremented before
    each task is made; the result is the tasks and the counter at the end.
    The counter is a natural number; the code's is a double, and
    [taskCounter += 1] is the addition of 1 as long as the result is at
    most 2^53 ([exactBound]). *)
Fixpoint mkNewTasks (counter : N) (defs : list TaskDef) : list Task * N :=
  match defs with
  | [] => ([], counter)
  | taskDef :: defs' =>
      let c := (counter + 1)%N in
      let t := mkTask (taskIdOf c) (defTitle taskDef) (defDescription taskDef)
                      pending (default medium (defPriority taskDef))
                      (Some (default [] (defDependsOn taskDef)))
                      None None None "" in
      let '(rest, c') := mkNewTasks c defs' in
      (t :: rest, c')
  end.

Definition requestPlanning (originalReq : string) (defs : list TaskDef)
    (details : option string) (s : Store) : Store * Reply :=
  let rc := (lastRequestId s + 1)%N in
  let '(newTasks, tc) := mkNewTasks (lastTaskId s) defs in
  let req := mkRequest (requestIdOf rc) originalReq (orElse details originalReq)
                       newTasks false in
  (mkStore (requests s ++ [req]) rc tc, mkReply planned None newTasks []).

Definition addTasksToRequest (rid : string) (defs : list TaskDef) (s : Store)
    : Store * Reply :=
  match findRequest s rid with
  | None => (s, reply error)
  | Some (k, req) =>
      if completed req then (s, reply error)
      else
        let '(newTasks, tc) := mkNewTasks (lastTaskId s) defs in
        (mkStore (<[k := setTasks (tasks req ++ newTasks) req]> (requests s))
                 (lastRequestId s) tc,
         mkReply tasks_added None newTasks [])
  end.

(** ** mark_task_done, mark_task_failed *)

(** [req.tasks.find(p => p.id === task.parentId)], under
    [if (task.parentId)]. *)
Definition findParent (ts : list Task) (task : Task) : option TaskRef :=
  match truthy (parentId task) with
  | Some pid => findTask ts pid
  | None => None
  end.

(** The callback of [subtaskIds.every]: the first task with this id
    exists and is terminal. *)
Definition subtaskTerminal (ts : list Task) (subId : string) : bool :=
  match findTask ts subId with
  | Some (_, sub) => isTerminal sub
  | None => false
  end.

(** The parent auto-completion block shared by [markTaskDone] and
    [markTaskFailed]; [details] is the text each of them writes into the
    parent's [completedDetails]. [parentTask.subtaskIds?.every(...)] is
    [undefined], hence falsy, when the parent has no [subtaskIds]. *)
Definition completeParent (details : string) (ts : list Task) (task : Task)
    : list Task :=
  match findParent ts task with
  | Some (p, parentTask) =>
      if bool_decide (status parentTask = pending)
         || bool_decide (status parentTask = active)
      then
        match subtaskIds parentTask with
        | Some subs =>
            if forallb (subtaskTerminal ts) subs
            then alter (λ t, setCompletedDetails details (setStatus done t)) p ts
            else ts
        | None => ts
        end
      else ts
  | None => ts
  end.

(** The three assignments that [markTaskDone] makes to the task. *)
Definition markedDone (details : option string) (task : Task) : Task :=
  setFailureReason None
    (setCompletedDetails (orElse details "Completed successfully")
       (setStatus done task)).

(** The three assignments that [markTaskFailed] makes to the task. *)
Definition markedFailed (reason : option string) (task : Task) : Task :=
  setCompletedDetails ""
    (setFailureReason (Some (orElse reason "No reason provided"))
       (setStatus failed task)).

(** The request-completion block shared by both. *)
Definition completeRequest (req : RequestEntry) : RequestEntry :=
  if forallb isTerminal (tasks req) && negb (completed req)
  then setCompleted true req else req.

Definition markTaskDone (rid taskId : string) (details : option string)
    (s : Store) : Store * Reply :=
  match findRequest s rid with
  | None => (s, reply error)
  | Some (k, req) =>
      match findTask (tasks req) taskId with
      | None => (s, reply error)
      | Some (i, task) =>
          if bool_decide (status task = done) then (s, reply already_done)
          else if bool_decide (status task = failed) then (s, reply already_failed)
          else
            let task' := markedDone details task in
            let ts1 := <[i := task']> (tasks req) in
            let ts2 := completeParent
                         "Automatically completed as all subtasks are terminal."
                         ts1 task' in
            (putRequest k (completeRequest (setTasks ts2 req)) s,
             replyWith task_marked_done task')
      end
  end.

Definition markTaskFailed (rid taskId : string) (reason : option string)
    (s : Store) : Store * Reply :=
  match findRequest s rid with
  | None => (s, reply error)
  | Some (k, req) =>
      match findTask (tasks req) taskId with
      | None => (s, reply error)
      | Some (i, task) =>
          if bool_decide (status task = failed) then (s, reply already_failed)
          else if bool_decide (status task = done) then (s, reply already_done)
          else
            let task' := markedFailed reason task in
            let ts1 := <[i := task']> (tasks req) in
            let ts2 := completeParent
                         "Automatically completed as all subtasks are terminal (some may have failed)."
                         ts1 task' in
            (putRequest k (completeRequest (setTasks ts2 req)) s,
             replyWith task_marked_failed task')
      end
  end.

(** ** add_dependency, remove_dependency *)

Definition addDependency (rid taskId dependsOnTaskId : string) (s : Store)
    : Store * Reply :=
  match findRequest s rid with
  | None => (s, reply error)
  | Some (k, req) =>
      match findTask (tasks req) taskId, findTask (tasks req) dependsOnTaskId with
      | None, _ => (s, reply error)
      | Some _, None => (s, reply error)
      | Some (i, task), Some _ =>
          if decide (taskId = dependsOnTaskId) then (s, reply error)
          else
            let deps := default [] (dependsOn task) in
            if decide (dependsOnTaskId ∈ deps) then (s, reply no_change)
            else
              let ts' := <[i := setDependsOn (Some (deps ++ [dependsOnTaskId])%list) task]>
                           (tasks req) in
              (putRequest k (setTasks ts' req) s, reply dependency_added)
      end
  end.

(** [task.dependsOn = arr; if (arr.length === 0) delete task.dependsOn] *)
Definition orDelete (l : list string) : option (list string) :=
  match l with [] => None | _ => Some l end.

Definition removeDependency (rid taskId dependsOnTaskId : string) (s : Store)
    : Store * Reply :=
  match findRequest s rid with
  | None => (s, reply error)
  | Some (k, req) =>
      match findTask (tasks req) taskId with
      | None => (s, reply error)
      | Some (i, task) =>
          match dependsOn task with
          | Some deps =>
              if decide (dependsOnTaskId ∈ deps) then
                let deps' := filter (λ x, x ≠ dependsOnTaskId) deps in
                let ts' := <[i := setDependsOn (orDelete deps') task]> (tasks req) in
                (putRequest k (setTasks ts' req) s, reply dependency_removed)
              else (s, reply no_change)
          | None => (s, reply no_change)
          end
      end
  end.

(** ** update_task *)

Definition updateTask (rid taskId : string) (newTitle newDescription : option string)
    (newPriority : option Priority) (s : Store) : Store * Reply :=
  match findRequest s rid with
  | None => (s, reply error)
  | Some (k, req) =>
      match findTask (tasks req) taskId with
      | None => (s, reply error)
      | Some (i, task) =>
          if isTerminal task then (s, reply error)
          else
            let t1 := match truthy newTitle with Some x => setTitle x task | None => task end in
            let t2 := match truthy newDescription with
                      | Some x => setDescription x t1 | None => t1 end in
            let t3 := match newPriority with Some p => setPriority p t2 | None => t2 end in
            (putRequest k (setTasks (<[i := t3]> (tasks req)) req) s,
             replyWith task_updated t3)
      end
  end.

(** ** Cascading delete *)

Section Cascade.
Variable taskMap : gmap string TaskRef.

(** The ids that the [while] loop pushes for [currentId]: the
    [subtaskIds] of its task that are keys of [taskMap]. *)
Definition existingSubtasks (currentId : string) : list string :=
  match taskMap !! currentId with
  | Some (_, task) =>
      filter (λ subId, is_Some (taskMap !! subId)) (default [] (subtaskIds task))
  | None => []
  end.

(** The [while (queue.length > 0)] loop, one iteration per unit of
    [fuel]; [None] when the fuel runs out before the queue is empty. *)
Fixpoint collect (fuel : nat) (queue : list string) (tasksToDelete : gset string)
    : option (gset string) :=
  match queue with
  | [] => Some tasksToDelete
  | currentId :: rest =>
      match fuel with
      | O => None
      | S fuel' =>
          if decide (currentId ∈ tasksToDelete)
          then collect fuel' rest tasksToDelete
          else collect fuel' (rest ++ existingSubtasks currentId)%list
                       ({[currentId]} ∪ tasksToDelete)
      end
  end.
End Cascade.

(** A number of iterations that the loop never exceeds (see
    [collect_terminates]). *)
Definition subtaskCount (ts : list Task) : nat :=
  sum_list (map (λ t, length (default [] (subtaskIds t))) ts).
Definition collectFuel (ts : list Task) : nat :=
  S (length ts * S (subtaskCount ts)).

(** "Remove from parent's subtaskIds list". *)
Definition unlinkFromParent (ts : list Task) (taskIdToRemove : string) : list Task :=
  match mkTaskMap ts !! taskIdToRemove with
  | Some (_, taskToRemove) =>
      match truthy (parentId taskToRemove) with
      | Some pid =>
          match mkTaskMap ts !! pid with
          | Some (p, parent) =>
              match subtaskIds parent with
              | Some subs =>
                  alter (setSubtaskIds
                           (orDelete (filter (λ x, x ≠ taskIdToRemove) subs))) p ts
              | None => ts
              end
          | None => ts
          end
      | None => ts
      end
  | None => ts
  end.

(** "Clean up dependencies pointing to any deleted task", and the
    [parentId] of a task whose parent was deleted. *)
Definition cleanUp (tasksToDelete : gset string) (task : Task) : Task :=
  let t1 := match dependsOn task with
            | Some deps =>
                setDependsOn (orDelete (filter (λ depId, depId ∉ tasksToDelete) deps)) task
            | None => task
            end in
  match truthy (parentId t1) with
  | Some pid => if decide (pid ∈ tasksToDelete) then setParentId None t1 else t1
  | None => t1
  end.

(** [removeTaskAndDescendants]: the new [req.tasks] and the returned
    boolean.  The loop is run with [collectFuel] iterations, which is
    always enough; the last branch is there for totality only. *)
Definition removeTaskAndDescendants (ts : list Task) (taskIdToRemove : string)
    : list Task * bool :=
  let taskMap := mkTaskMap ts in
  if decide (is_Some (taskMap !! taskIdToRemove)) then
    match collect taskMap (collectFuel ts) [taskIdToRemove] ∅ with
    | Some tasksToDelete =>
        let ts1 := unlinkFromParent ts taskIdToRemove in
        let ts2 := filter (λ t, id t ∉ tasksToDelete) ts1 in
        let ts3 := map (cleanUp tasksToDelete) ts2 in
        (ts3, bool_decide (length ts3 < length ts))
    | None => (ts, false)
    end
  else (ts, false).

Definition deleteTask (rid taskId : string) (s : Store) : Store * Reply :=
  match findRequest s rid with
  | None => (s, reply error)
  | Some (k, req) =>
      match findTask (tasks req) taskId with
      | None => (s, reply error)
      | Some _ =>
          let '(ts', removed) := removeTaskAndDescendants (tasks req) taskId in
          if removed then (putRequest k (setTasks ts' req) s, reply task_deleted)
          else (s, reply error)
      end
  end.

Definition removeSubtask (rid subtaskId : string) (parentTaskId : option string)
    (s : Store) : Store * Reply :=
  match findRequest s rid with
  | None => (s, reply error)
  | Some (k, req) =>
      match findTask (tasks req) subtaskId with
      | None => (s, reply error)
      | Some _ =>
          let parentOk :=
            match truthy parentTaskId with
            | Some pid =>
                match findTask (tasks req) pid with
                | Some (_, parentTask) =>
                    bool_decide (subtaskId ∈ default [] (subtaskIds parentTask))
                | None => false
                end
            | None => true
            end in
          if parentOk then
            let '(ts', removed) := removeTaskAndDescendants (tasks req) subtaskId in
            if removed then (putRequest k (setTasks ts' req) s, reply subtask_removed)
            else (s, reply error)
          else (s, reply error)
      end
  end.

(** ** add_subtask *)

Definition addSubtask (rid parentTaskId subtaskTitle subtaskDescription : string)
    (prio : option Priority) (deps : option (list string)) (s : Store)
    : Store * Reply :=
  match findRequest s rid with
  | None => (s, reply error)
  | Some (k, req) =>
      if completed req then (s, reply error)
      else match findTask (tasks req) parentTaskId with
           | None => (s, reply error)
           | Some (p, parentTask) =>
               if isTerminal parentTask then (s, reply error)
               else
                 let tc := (lastTaskId s + 1)%N in
                 let newSubtask :=
                   mkTask (taskIdOf tc) subtaskTitle subtaskDescription pending
                          (default (priority parentTask) prio)
                          (Some (default [] deps)) (Some parentTaskId) (Some [])
                          None "" in
                 let ts1 := (tasks req ++ [newSubtask])%list in
                 let ts2 := alter (λ t, setSubtaskIds
                                          (Some (default [] (subtaskIds t) ++ [taskIdOf tc])%list) t)
                                  p ts1 in
                 (mkStore (<[k := setTasks ts2 req]> (requests s)) (lastRequestId s) tc,
                  replyWith subtask_added newSubtask)
           end
  end.

(** ** validate_dependencies *)

(** The two issue texts. *)
Definition danglingIssue (taskId depId : string) : string :=
  "Task " +:+ taskId +:+ " depends on non-existent task " +:+ depId +:+ ".".
Definition circularIssue (taskId depId : string) : string :=
  "Circular dependency detected: " +:+ taskId +:+ " -> ... -> " +:+ depId
  +:+ " -> " +:+ taskId.

(** The variables that [detectCycle] closes over and mutates. *)
Record CycleState := mkCycleState {
  visited : gset string;
  recursionStack : gset string;
  cycleFound : bool;
  issuesSoFar : list string
}.

(** [Array.from(new Set(issues))]: the first occurrence of each text, in
    order. *)
Fixpoint dedup (seen : list string) (l : list string) : list string :=
  match l with
  | [] => []
  | x :: l' => if decide (x ∈ seen) then dedup seen l' else x :: dedup (x :: seen) l'
  end.

Section Validate.
Variable ts : list Task.

(** The first loop: one issue per [dependsOn] entry that is no key of
    [taskMap]. *)
Definition danglingIssues : list string :=
  flat_map (λ task,
    flat_map (λ depId,
      if decide (is_Some (mkTaskMap ts !! depId)) then []
      else [danglingIssue (id task) depId])
      (default [] (dependsOn task))) ts.

(** The [for] loop of [detectCycle] over the dependencies of [taskId];
    [rec] is the recursive call.  The boolean tells whether the loop was
    left by [return]. *)
Fixpoint visitDeps (rec : string → CycleState → option CycleState)
    (taskId : string) (deps : list string) (st : CycleState)
    : option (CycleState * bool) :=
  match deps with
  | [] => Some (st, false)
  | depId :: deps' =>
      if decide (is_Some (mkTaskMap ts !! depId)) then
        if decide (depId ∈ visited st) then
          if decide (depId ∈ recursionStack st) then
            Some (mkCycleState (visited st) (recursionStack st) true
                    (issuesSoFar st ++ [circularIssue taskId depId])%list, true)
          else visitDeps rec taskId deps' st
        else
          match rec depId st with
          | Some st' =>
              if cycleFound st' then Some (st', true)
              else visitDeps rec taskId deps' st'
          | None => None
          end
      else visitDeps rec taskId deps' st
  end.

(** [detectCycle], with one unit of [fuel] per nested call; [None] when
    the fuel runs out. *)
Fixpoint detectCycle (fuel : nat) (taskId : string) (st : CycleState)
    : option CycleState :=
  match fuel with
  | O => None
  | S fuel' =>
      if cycleFound st then Some st
      else
        let st1 := mkCycleState ({[taskId]} ∪ visited st)
                                ({[taskId]} ∪ recursionStack st)
                                (cycleFound st) (issuesSoFar st) in
        let deps := match mkTaskMap ts !! taskId with
                    | Some (_, task) => default [] (dependsOn task)
                    | None => []
                    end in
        match visitDeps (detectCycle fuel') taskId deps st1 with
        | Some (st2, true) => Some st2
        | Some (st2, false) =>
            Some (mkCycleState (visited st2) (recursionStack st2 ∖ {[taskId]})
                               (cycleFound st2) (issuesSoFar st2))
        | None => None
        end
  end.

(** The last loop: [detectCycle] from every task not yet visited. *)
Fixpoint detectAll (fuel : nat) (l : list Task) (st : CycleState)
    : option CycleState :=
  match l with
  | [] => Some st
  | task :: l' =>
      if bool_decide (id task ∉ visited st) && negb (cycleFound st) then
        match detectCycle fuel (id task) st with
        | Some st' => detectAll fuel l' st'
        | None => None
        end
      else detectAll fuel l' st
  end.

(** All the issues pushed, before the duplicates are dropped. *)
Definition allIssues : option (list string) :=
  issuesSoFar <$> detectAll (S (length ts)) ts (mkCycleState ∅ ∅ false danglingIssues).
End Validate.

(** [validateDependencies]; [None] only if the traversal ran out of fuel,
    which it never does (see [allIssues_spec]). *)
Definition validateDependencies (rid : string) (s : Store) : option Reply :=
  match findRequest s rid with
  | None => Some (mkReply error None [] ["Request not found"])
  | Some (_, req) =>
      match allIssues (tasks req) with
      | Some l =>
          if decide (0 < length l)
          then Some (mkReply validation_failed None [] (dedup [] l))
          else Some (mkReply validation_passed None [] [])
      | None => None
      end
  end.

(** ** open_task_details *)

Definition openTaskDetails (taskId : string) (s : Store) : Reply :=
  match list_find (λ r, is_Some (findTask (tasks r) taskId)) (requests s) with
  | Some (_, req) =>
      match findTask (tasks req) taskId with
      | Some (_, target) => replyWith task_details target
      | None => reply task_not_found
      end
  | None => reply task_not_found
  end.

(** ** list_requests *)

(** One element of the [requests] array of the reply. *)
Record RequestSummary := mkRequestSummary {
  summaryRequestId : string;
  summaryOriginalRequest : string;
  totalTasks : nat;
  terminalTasks : nat;
  requestCompleted : bool
}.

(** The [requests] field of the reply of [listRequests]; its [message]
    renders the same numbers as text. *)
Definition listRequests (s : Store) : list RequestSummary :=
  map (λ req, mkRequestSummary (requestId req) (originalRequest req)
                (length (tasks req))
                (length (filter (λ t, isTerminal t = true) (tasks req)))
                (completed req))
      (requests s).

(** ** open_task_details: the request and the task found *)

(** The loop of [openTaskDetails]: the first request, in file order, with
    a task of that id, and the first such task of it.  The reply is made
    of the fields of the two. *)
Definition taskDetails (taskId : string) (s : Store) : option (RequestEntry * Task) :=
  match list_find (λ r, is_Some (findTask (tasks r) taskId)) (requests s) with
  | Some (_, req) =>
      match findTask (tasks req) taskId with
      | Some (_, target) => Some (req, target)
      | None => None
      end
  | None => None
  end.

(** ** loadTasks, saveTasks *)

(** The parsed file; [fileMetadata] is [None] when the [metadata] object
    is missing or one of its two fields is no number. *)
Record TaskManagerFile := mkTaskManagerFile {
  fileRequests : list RequestEntry;
  fileMetadata : option (Z * Z)
}.

(** [Number.parseInt(req.requestId.replace("req-", ""), 10)] *)
Definition requestNum (r : RequestEntry) : option Z :=
  parseInt (replaceFirst "req-" "" (requestId r)).

(** [ids.length > 0 ? Math.max(...ids) : 0] *)
Definition maxOrZero (ids : list Z) : Z :=
  match ids with
  | [] => 0%Z
  | x :: ids' => foldl Z.max x ids'
  end.

(** The counters that [loadTasks] computes when the file has no usable
    metadata: the ids that parse as numbers are collected, the others are
    skipped. *)
Definition scanCounters (rs : list RequestEntry) : Z * Z :=
  (maxOrZero (omap requestNum rs),
   maxOrZero (omap idNum (flat_map tasks rs))).

(** [loadTasks]: the requests and the two counters, from the content of
    the file; [None] stands for a file that cannot be read or parsed. *)
Definition loadTasks (content : option TaskManagerFile) : list RequestEntry * (Z * Z) :=
  match content with
  | Some file =>
      match fileMetadata file with
      | Some counters => (fileRequests file, counters)
      | None => (fileRequests file, scanCounters (fileRequests file))
      end
  | None => ([], (0%Z, 0%Z))
  end.

(** What [saveTasks] writes. *)
Definition saveTasks (s : Store) : TaskManagerFile :=
  mkTaskManagerFile (requests s) (Some (Z.of_N (lastRequestId s), Z.of_N (lastTaskId s))).

(** ** formatTaskProgressTable: the rows of the table *)

(** A row of the table: the task it shows and, for a row written by
    [formatTaskRowRecursive], the indentation level; the rows of the last
    loop are marked [[Orphaned?]].  The text of a row is made of these. *)
Inductive Row :=
  | hierarchyRow (task : Task) (level : nat)
  | orphanRow (task : Task).

Definition rowTask (r : Row) : Task :=
  match r with hierarchyRow t _ => t | orphanRow t => t end.

(** The two variables that [formatTaskRowRecursive] closes over and
    mutates: the set [processedTaskIds] and the rows appended to [table]. *)
Record TableState := mkTableState {
  processedTaskIds : gset string;
  rowsSoFar : list Row
}.

Section Table.
Variable ts : list Task.

(** [for (const subtaskId of task.subtaskIds) formatTaskRowRecursive(subtaskId, level + 1)];
    [rec] is the recursive call. *)
Fixpoint formatSubtasks (rec : string → TableState → option TableState)
    (subs : list string) (st : TableState) : option TableState :=
  match subs with
  | [] => Some st
  | subtaskId :: subs' =>
      match rec subtaskId st with
      | Some st' => formatSubtasks rec subs' st'
      | None => None
      end
  end.

(** [formatTaskRowRecursive], with one unit of [fuel] per nested call
    that writes a row; [None] when the fuel runs out. *)
Fixpoint formatTaskRowRecursive (fuel : nat) (taskId : string) (level : nat)
    (st : TableState) : option TableState :=
  if decide (taskId ∈ processedTaskIds st) then Some st
  else
    match mkTaskMap ts !! taskId with
    | None => Some st
    | Some (_, task) =>
        match fuel with
        | O => None
        | S fuel' =>
            let st1 := mkTableState ({[taskId]} ∪ processedTaskIds st)
                                    (rowsSoFar st ++ [hierarchyRow task level]) in
            formatSubtasks (λ subtaskId, formatTaskRowRecursive fuel' subtaskId (level + 1))
                           (default [] (subtaskIds task)) st1
        end
    end.

(** The comparator of the sort of the top-level tasks: the difference of
    the numeric ids, [NaN] counting as 0. *)
Definition compareIds (a b : Task) : Z :=
  match idNum a, idNum b with
  | Some x, Some y => (x - y)%Z
  | _, _ => 0%Z
  end.

(** [req.tasks.filter(t => !t.parentId).sort(...)] *)
Definition topLevelTasks : list Task :=
  sortBy compareIds (filter (λ t, truthy (parentId t) = None) ts).

(** [for (const task of topLevelTasks) formatTaskRowRecursive(task.id, 0)] *)
Fixpoint formatTopLevel (fuel : nat) (l : list Task) (st : TableState)
    : option TableState :=
  match l with
  | [] => Some st
  | task :: l' =>
      match formatTaskRowRecursive fuel (id task) 0 st with
      | Some st' => formatTopLevel fuel l' st'
      | None => None
      end
  end.

(** The last loop: a row for each task whose id was not processed. *)
Definition orphanRows (processed : gset string) : list Row :=
  map orphanRow (filter (λ t, id t ∉ processed) ts).

(** The rows of the table, from top to bottom.  The recursion is run
    with as much fuel as there are tasks, which is always enough (see
    [tableRows_total]). *)
Definition tableRows : option (list Row) :=
  match formatTopLevel (length ts) topLevelTasks (mkTableState ∅ []) with
  | Some st => Some (rowsSoFar st ++ orphanRows (processedTaskIds st))
  | None => None
  end.
End Table.

(** The result of [formatTaskProgressTable]: the text
    ["Request not found"], or the table. *)
Inductive ProgressTable :=
  | requestNotFound
  | progressTable (rows : list Row).

Definition formatTaskProgressTable (rid : string) (s : Store) : option ProgressTable :=
  match findRequest s rid with
  | None => Some requestNotFound
  | Some (_, req) => progressTable <$> tableRows (tasks req)
  end.

(** ** The operations as one transition system *)

Inductive Op :=
  | request_planning (originalReq : string) (defs : list TaskDef) (details : option string)
  | get_next_task (rid : string)
  | mark_task_done (rid taskId : string) (details : option string)
  | mark_task_failed (rid taskId : string) (reason : option string)
  | open_task_details (taskId : string)
  | list_requests
  | add_tasks_to_request (rid : string) (defs : list TaskDef)
  | update_task (rid taskId : string) (newTitle newDescription : option string)
                (newPriority : option Priority)
  | add_dependency (rid taskId dependsOnTaskId : string)
  | remove_dependency (rid taskId dependsOnTaskId : string)
  | validate_dependencies (rid : string)
  | delete_task (rid taskId : string)
  | add_subtask (rid parentTaskId subtaskTitle subtaskDescription : string)
                (prio : option Priority) (deps : option (list string))
  | remove_subtask (rid subtaskId : string) (parentTaskId : option string).

(** The file content after an operation; [openTaskDetails],
    [listRequests] and [validateDependencies] only read it. *)
Definition step (op : Op) (s : Store) : Store :=
  match op with
  | request_planning o d sd => (requestPlanning o d sd s).1
  | get_next_task rid => (getNextTask rid s).1
  | mark_task_done rid t d => (markTaskDone rid t d s).1
  | mark_task_failed rid t r => (markTaskFailed rid t r s).1
  | open_task_details _ => s
  | list_requests => s
  | add_tasks_to_request rid d => (addTasksToRequest rid d s).1
  | update_task rid t a b c => (updateTask rid t a b c s).1
  | add_dependency rid t d => (addDependency rid t d s).1
  | remove_dependency rid t d => (removeDependency rid t d s).1
  | validate_dependencies _ => s
  | delete_task rid t => (deleteTask rid t s).1
  | add_subtask rid p a b c d => (addSubtask rid p a b c d s).1
  | remove_subtask rid t p => (removeSubtask rid t p s).1
  end.

(** The states that the operations reach from the empty file. *)
Inductive reachable : Store → Prop :=
  | reachable_empty : reachable emptyStore
  | reachable_step op s : reachable s → reachable (step op s).

Definition run (ops : list Op) (s : Store) : Store := foldl (λ s op, step op s) s ops.

(** ** Notions used to state the properties *)

(** The order of the selection: tasks whose parent is active first, then
    by priority rank, then by numeric id. [precedes ts a b] says that [a]
    does not come after [b]. *)
Definition precedes (ts : list Task) (a b : Task) : Prop :=
  (parentIsActive ts a = true ∧ parentIsActive ts b = false)
  ∨ (parentIsActive ts a = parentIsActive ts b
     ∧ ((priorityOrder (priority a) < priorityOrder (priority b))%Z
        ∨ (priorityOrder (priority a) = priorityOrder (priority b)
           ∧ ∃ x y, idNum a = Some x ∧ idNum b = Some y ∧ (x ≤ y)%Z))).

(** [descendant ts root x]: the id [x] is reached from [root] by following
    [subtaskIds] through tasks of the request; [root] is reached from
    itself. *)
Inductive descendant (ts : list Task) (root : string) : string → Prop :=
  | descendant_root : descendant ts root root
  | descendant_step x subId :
      descendant ts root x →
      subId ∈ existingSubtasks (mkTaskMap ts) x →
      descendant ts root subId.

(** How a call of [detectCycle] may change the variables it closes over:
    [visited] grows, and either nothing is reported, or the flag goes from
    false to true and one circular-dependency issue is pushed. *)
Definition cycleStep (st st' : CycleState) : Prop :=
  visited st ⊆ visited st'
  ∧ ((cycleFound st' = cycleFound st ∧ issuesSoFar st' = issuesSoFar st)
     ∨ (cycleFound st = false ∧ cycleFound st' = true
        ∧ ∃ a b, issuesSoFar st' = issuesSoFar st ++ [circularIssue a b])).

(** The texts of the circular-dependency issues. *)
Definition isCircularIssue (x : string) : bool :=
  String.prefix "Circular dependency detected: " x.

(** The tasks of a store. *)
Definition allTasks (P : Task → Prop) (s : Store) : Prop :=
  Forall (λ r, Forall P (tasks r)) (requests s).

(** The two lifecycle fields agree with the status: no [failureReason]
    unless the task is failed, no [completedDetails] when it is. *)
Definition lifecycleFieldsOk (t : Task) : Prop :=
  (status t ≠ failed → failureReason t = None)
  ∧ (status t = failed → completedDetails t = "").

(** The id was made by the task counter. *)
Definition hasCounterId (t : Task) : Prop := ∃ n, id t = taskIdOf n.

(** The flag of a request is set only if all its tasks are terminal. *)
Definition completedSound (r : RequestEntry) : Prop :=
  completed r = true → Forall (λ t, isTerminal t = true) (tasks r).

(** The parent of [t], when it has one, is a task of the list and names
    [t] among its subtasks. *)
Definition linked (ts : list Task) (t : Task) : Prop :=
  ∀ pid, truthy (parentId t) = Some pid →
    ∃ parent, parent ∈ ts ∧ id parent = pid ∧ id t ∈ default [] (subtaskIds parent).

(** The structure of the task list of a request, [c] being the task
    counter: the ids are distinct, they were made by the counter, and
    every task is linked to its parent. *)
Definition wellFormedTasks (c : N) (ts : list Task) : Prop :=
  NoDup (map id ts)
  ∧ Forall (λ t, ∃ n, id t = taskIdOf n ∧ (n ≤ c)%N) ts
  ∧ Forall (linked ts) ts.

Definition wellFormed (s : Store) : Prop :=
  Forall (λ r, wellFormedTasks (lastTaskId s) (tasks r)) (requests s).

(** Two versions of a task with the same id and the same links upwards and
    downwards. *)
Definition sameLinks (t t' : Task) : Prop :=
  id t' = id t ∧ parentId t' = parentId t ∧ subtaskIds t' = subtaskIds t.

(** Used for two tasks [a] and [b] that depend on each other: as long as
    no cycle has been found, each of them, once visited, is still on the
    recursion stack. *)
Definition onStackIfVisited (a b : string) (st : CycleState) : Prop :=
  cycleFound st = true
  ∨ ((a ∈ visited st → a ∈ recursionStack st)
     ∧ (b ∈ visited st → b ∈ recursionStack st)).

(** What is used of a call of [detectCycle] on [d], from [st] to [st']. *)
Definition detectsMutual (a b : string)
    (rec : string → CycleState → option CycleState) : Prop :=
  ∀ d st st',
    rec d st = Some st' → onStackIfVisited a b st → d ∉ visited st →
    cycleFound st = false →
    onStackIfVisited a b st'
    ∧ (cycleFound st' = false → recursionStack st' ⊆ recursionStack st)
    ∧ (d = a ∨ d = b → cycleFound st' = true).

(** ** More notions used to state the properties *)

(** The request that an operation works on. *)
Definition opRequest (op : Op) : option string :=
  match op with
  | request_planning _ _ _ | open_task_details _ | list_requests => None
  | get_next_task rid | mark_task_done rid _ _ | mark_task_failed rid _ _
  | add_tasks_to_request rid _ | update_task rid _ _ _ _
  | add_dependency rid _ _ | remove_dependency rid _ _
  | validate_dependencies rid | delete_task rid _
  | add_subtask rid _ _ _ _ _ | remove_subtask rid _ _ => Some rid
  end.

(** The order of the lifecycle: pending, then active, then done or
    failed. *)
Definition statusRank (st : Status) : nat :=
  match st with pending => 0 | active => 1 | done => 2 | failed => 2 end.

(** [forward a b]: the status [b] is [a] or comes later in the lifecycle.
    Done and failed are not [forward] of each other. *)
Definition forward (a b : Status) : Prop := a = b ∨ statusRank a < statusRank b.


(** No dependency of a task is the id of no task. *)
Definition noDangling (ts : list Task) : Prop :=
  ∀ t d, t ∈ ts → d ∈ default [] (dependsOn t) → ∃ t0, t0 ∈ ts ∧ id t0 = d.

(** Two versions of a task: the same id, a status that is [forward], and
    the same parent or none any more. *)
Definition evolves (t t' : Task) : Prop :=
  id t' = id t ∧ forward (status t) (status t')
  ∧ (parentId t' = parentId t ∨ parentId t' = None).

(** How an operation may change the task list of a request, [c] and [c']
    being the task counter before and after: every task of the new list
    is a task of the old one that [evolves], or a pending task with a new
    number, whose parent, if it has one, is a task of the old list. *)
Definition taskStep (c c' : N) (ts ts' : list Task) : Prop :=
  (c ≤ c')%N
  ∧ ∀ t', t' ∈ ts' →
      (∃ t, t ∈ ts ∧ evolves t t')
      ∨ (∃ n, id t' = taskIdOf n ∧ (c < n ≤ c')%N ∧ status t' = pending
              ∧ ∀ pid, parentId t' = Some pid → ∃ p, p ∈ ts ∧ id p = pid).

(** A row written by [formatTaskRowRecursive]. *)
Definition isHierarchyRow (row : Row) : Prop :=
  match row with hierarchyRow _ _ => True | orphanRow _ => False end.

(** What the rows written so far and [processedTaskIds] have to do with
    each other: the rows were written by the recursion, they show tasks
    of the list with distinct ids, and the set holds these ids. *)
Definition tableInv (ts : list Task) (st : TableState) : Prop :=
  NoDup (map (λ row, id (rowTask row)) (rowsSoFar st))
  ∧ (∀ x, x ∈ processedTaskIds st ↔ x ∈ map (λ row, id (rowTask row)) (rowsSoFar st))
  ∧ Forall (λ row, rowTask row ∈ ts) (rowsSoFar st)
  ∧ Forall isHierarchyRow (rowsSoFar st).

(** The ids added to [processedTaskIds], from [P0] to [P1], have their
    subtasks in [P1], as far as these are ids of tasks. *)
Definition subtasksProcessed (ts : list Task) (P0 P1 : gset string) : Prop :=
  ∀ x j task sub,
    x ∈ P1 → x ∉ P0 → mkTaskMap ts !! x = Some (j, task) →
    sub ∈ default [] (subtaskIds task) → is_Some (mkTaskMap ts !! sub) → sub ∈ P1.

(** A task with a parent has a higher number than its parent: subtasks
    are made after their parents. *)
Definition parentOlder (t : Task) : Prop :=
  ∀ pid, truthy (parentId t) = Some pid →
    ∃ n m, id t = taskIdOf n ∧ pid = taskIdOf m ∧ (m < n)%N.

(** [dependsOnPath ts x y]: from the task id [x], following [dependsOn]
    through tasks of the request, one gets to [y]; every id leads to
    itself. *)
Inductive dependsOnPath (ts : list Task) : string → string → Prop :=
  | dependsOnPath_refl x : dependsOnPath ts x x
  | dependsOnPath_step x i t d y :
      mkTaskMap ts !! x = Some (i, t) → d ∈ default [] (dependsOn t) →
      dependsOnPath ts d y → dependsOnPath ts x y.

(** A dependency cycle through [x]: the task [x] depends on [y], and
    [y] leads back to [x]. *)
Definition onCycle (ts : list Task) (x y : string) : Prop :=
  ∃ i t, mkTaskMap ts !! x = Some (i, t) ∧ y ∈ default [] (dependsOn t)
         ∧ dependsOnPath ts y x.

(** For a set [C] of task ids: as long as no cycle has been found, the
    members of [C] that have been visited are still on the recursion
    stack. *)
Definition visitedOnStack (C : string → Prop) (st : CycleState) : Prop :=
  cycleFound st = true
  ∨ ∀ x, C x → x ∈ visited st → x ∈ recursionStack st.

(** What is used of a call of [detectCycle] on [d] for such a set. *)
Definition detectsIn (C : string → Prop)
    (rec : string → CycleState → option CycleState) : Prop :=
  ∀ d st st',
    rec d st = Some st' → visitedOnStack C st → d ∉ visited st →
    cycleFound st = false →
    visitedOnStack C st'
    ∧ (cycleFound st' = false → recursionStack st' ⊆ recursionStack st)
    ∧ (C d → cycleFound st' = true).

(** Every id on the recursion stack leads to [x]. *)
Definition stackLeadsTo (ts : list Task) (st : CycleState) (x : string) : Prop :=
  ∀ y, y ∈ recursionStack st → dependsOnPath ts y x.

(** A step of the traversal that reports true cycles only: either no
    cycle is found, the stack has not grown and no issue is pushed, or
    one issue is pushed, for a dependency that closes a cycle. *)
Definition soundStep (ts : list Task) (st st' : CycleState) : Prop :=
  (cycleFound st' = false →
     recursionStack st' ⊆ recursionStack st ∧ issuesSoFar st' = issuesSoFar st)
  ∧ (cycleFound st' = true →
     ∃ x y, issuesSoFar st' = issuesSoFar st ++ [circularIssue x y] ∧ onCycle ts x y).

Definition detectsSoundly (ts : list Task)
    (rec : string → CycleState → option CycleState) : Prop :=
  ∀ d st st',
    rec d st = Some st' → cycleFound st = false → stackLeadsTo ts st d →
    soundStep ts st st'.

(** The operations that write a status. *)
Definition changesStatus (op : Op) : bool :=
  match op with
  | get_next_task _ | mark_task_done _ _ _ | mark_task_failed _ _ _ => true
  | _ => false
  end.

(** Two versions of a task with the same id, status and lifecycle
    fields. *)
Definition sameLifecycle (t t' : Task) : Prop :=
  id t' = id t ∧ status t' = status t
  ∧ failureReason t' = failureReason t ∧ completedDetails t' = completedDetails t.

(** ** The notions of the specification *)

(** These are written on the fields of the tasks and on membership in the
    task list, without the look-ups that the operations use, so that the
    properties stated with them say what the look-ups find. *)

(** [parent] is the parent of [t]: the task of the list, at position [p],
    whose id is the [parentId] of [t]. *)
Definition parentAt (ts : list Task) (t : Task) (p : nat) (parent : Task) : Prop :=
  ts !! p = Some parent ∧ parentId t = Some (id parent).

(** The task has a parent that is active. *)
Definition hasActiveParent (ts : list Task) (t : Task) : Prop :=
  ∃ p parent, parentAt ts t p parent ∧ status parent = active.

(** The priority rank: high is 0, medium 1, low 2. *)
Definition rank (p : Priority) : nat :=
  match p with high => 0 | medium => 1 | low => 2 end.

(** The number of a task id: [task-n] has the number [n]. *)
Definition hasNumber (t : Task) (n : N) : Prop := id t = "task-" +:+ pretty n.

(** [comesFirst ts a b]: in the order of the selection, [a] does not
    come after [b].  Tasks with an active parent come before the others;
    then the lower rank comes first; then the lower number. *)
Definition comesFirst (ts : list Task) (a b : Task) : Prop :=
  (hasActiveParent ts a ∧ ¬ hasActiveParent ts b)
  ∨ ((hasActiveParent ts a ↔ hasActiveParent ts b)
     ∧ (rank (priority a) < rank (priority b)
        ∨ (rank (priority a) = rank (priority b)
           ∧ ∃ n m, hasNumber a n ∧ hasNumber b m ∧ (n ≤ m)%N))).

(** [reachesBySubtasks ts root x]: the id [x] is [root], or the id of a
    task of the list that is named in the [subtaskIds] of a task whose
    id is reached. *)
Inductive reachesBySubtasks (ts : list Task) (root : string) : string → Prop :=
  | reaches_root : reachesBySubtasks ts root root
  | reaches_subtask t sub :
      reachesBySubtasks ts root (id t) → t ∈ ts →
      id sub ∈ default [] (subtaskIds t) → sub ∈ ts →
      reachesBySubtasks ts root (id sub).

(** The ids of the list are distinct, and none is the empty string. *)
Definition distinctIds (ts : list Task) : Prop :=
  NoDup (map id ts) ∧ "" ∉ map id ts.

(** Below this bound the numbers of the code, which are doubles, are the
    integers of the model: every integer is a double, and adding 1 gives
    the next one. *)
Definition exactBound : N := 2 ^ 53.

(** ** Example states *)

Module Examples.
Definition def (t : string) (p : option Priority) (deps : option (list string))
    : TaskDef := mkTaskDef t "" p deps.

(** One request with the tasks A (low) and B (high). *)
Definition lowHigh : Store :=
  run [request_planning "r" [def "A" (Some low) None; def "B" (Some high) None] None]
      emptyStore.

Definition lowHighReq : RequestEntry :=
  mkRequest "req-1" "r" "r"
    [mkTask "task-1" "A" "" pending low (Some []) None None None "";
     mkTask "task-2" "B" "" pending high (Some []) None None None ""] false.

(** One request in which B depends on A, and A has been done. *)
Definition chainDone : Store :=
  run [request_planning "r" [def "A" None None; def "B" None (Some ["task-1"])] None;
       get_next_task "req-1";
       mark_task_done "req-1" "task-1" None]
      emptyStore.

(** Three levels, all active: task-1, its subtask task-2, and task-3
    under task-2. *)
Definition threeLevels : Store :=
  run [request_planning "r" [def "G" None None] None;
       add_subtask "req-1" "task-1" "P" "" None None;
       add_subtask "req-1" "task-2" "T" "" None None;
       get_next_task "req-1"; get_next_task "req-1"; get_next_task "req-1"]
      emptyStore.
Definition taskG : Task :=
  mkTask "task-1" "G" "" active medium (Some []) None (Some ["task-2"]) None "".
Definition taskP : Task :=
  mkTask "task-2" "P" "" active medium (Some []) (Some "task-1") (Some ["task-3"]) None "".
Definition taskT : Task :=
  mkTask "task-3" "T" "" active medium (Some []) (Some "task-2") (Some []) None "".
Definition threeLevelsReq : RequestEntry :=
  mkRequest "req-1" "r" "r" [taskG; taskP; taskT] false.

(** Four levels task-1, task-2, task-3, task-4, each the only subtask of
    the one before, and a top-level task-5 that depends on task-3 and on
    task-1. *)
Definition deepTasks : list Task :=
  [mkTask "task-1" "a" "" active medium (Some []) None (Some ["task-2"]) None "";
   mkTask "task-2" "b" "" active medium (Some []) (Some "task-1") (Some ["task-3"]) None "";
   mkTask "task-3" "c" "" done medium (Some []) (Some "task-2") (Some ["task-4"]) None "ok";
   mkTask "task-4" "d" "" pending medium (Some []) (Some "task-3") (Some []) None "";
   mkTask "task-5" "e" "" pending low (Some ["task-3"; "task-1"]) None None None ""].
Definition deep : Store := mkStore [mkRequest "req-1" "r" "r" deepTasks false] 1 5.

(** Two tasks that depend on each other. *)
Definition mutual : Store :=
  run [request_planning "r" [def "A" None (Some ["task-2"]);
                             def "B" None (Some ["task-1"])] None]
      emptyStore.

(** A parent (task-1) with a high-priority subtask (task-2), both pending. *)
Definition pendingParent : Store :=
  run [request_planning "r" [def "P" (Some low) None] None;
       add_subtask "req-1" "task-1" "S" "" (Some high) None]
      emptyStore.
Definition subtaskS : Task :=
  mkTask "task-2" "S" "" pending high (Some []) (Some "task-1") (Some []) None "".
Definition pendingParentReq : RequestEntry :=
  mkRequest "req-1" "r" "r"
    [mkTask "task-1" "P" "" pending low (Some []) None (Some ["task-2"]) None "";
     subtaskS] false.


(** [threeLevels] after task-3 has been marked done: its parent task-2
    is done, too, and task-1 is still active. *)
Definition doneLevels : Store := run [mark_task_done "req-1" "task-3" None] threeLevels.
Definition doneP : Task :=
  mkTask "task-2" "P" "" done medium (Some []) (Some "task-1") (Some ["task-3"]) None
    "Automatically completed as all subtasks are terminal.".
Definition doneT : Task :=
  mkTask "task-3" "T" "" done medium (Some []) (Some "task-2") (Some []) None
    "Completed successfully".
Definition doneLevelsReq : RequestEntry :=
  mkRequest "req-1" "r" "r" [taskG; doneP; doneT] false.
End Examples.

(** * Properties *)

(** ** References and the task map *)

Lemma refs_lookup (ts : list Task) i r :
  refs ts !! i = Some r ↔ ∃ t, ts !! i = Some t ∧ r = (i, t).
Proof.
  unfold refs. rewrite list_lookup_imap. destruct (ts !! i) as [t|]; simpl; split.
  - intros [= <-]. eauto.
  - intros (t' & [= ->] & ->). done.
  - done.
  - intros (t' & [=] & _).
Qed.

Lemma elem_of_refs (ts : list Task) i t :
  (i, t) ∈ refs ts ↔ ts !! i = Some t.
Proof.
  rewrite list_elem_of_lookup. split.
  - intros (j & Hj). apply refs_lookup in Hj as (t' & Ht' & [= -> ->]). done.
  - intros Ht. exists i. apply refs_lookup. eauto.
Qed.

Lemma refs_snoc (ts : list Task) t :
  refs (ts ++ [t]) = refs ts ++ [(length ts, t)].
Proof.
  unfold refs. rewrite imap_app. simpl. by rewrite Nat.add_0_r.
Qed.

Lemma mkTaskMap_snoc (ts : list Task) t :
  mkTaskMap (ts ++ [t]) = <[id t := (length ts, t)]> (mkTaskMap ts).
Proof. unfold mkTaskMap. rewrite refs_snoc, foldl_app. done. Qed.

(** A key of the task map resolves to a task object of the list that
    carries this id. *)
Lemma mkTaskMap_lookup_Some (ts : list Task) k i t :
  mkTaskMap ts !! k = Some (i, t) → ts !! i = Some t ∧ id t = k.
Proof.
  revert k i t. induction ts as [|x ts IH] using rev_ind; intros k i t.
  - unfold mkTaskMap. simpl. by rewrite lookup_empty.
  - rewrite mkTaskMap_snoc. destruct (decide (id x = k)) as [<-|Hne].
    + rewrite lookup_insert_eq. intros [= <- <-]. split; [|done].
      by rewrite lookup_app_r, Nat.sub_diag.
    + rewrite lookup_insert_ne by done. intros H. apply IH in H as [H1 H2].
      split; [|done]. by apply lookup_app_l_Some.
Qed.

(** The keys of the task map are the ids of the tasks. *)
Lemma mkTaskMap_is_Some (ts : list Task) k :
  is_Some (mkTaskMap ts !! k) ↔ ∃ t, t ∈ ts ∧ id t = k.
Proof.
  induction ts as [|x ts IH] using rev_ind.
  - unfold mkTaskMap. simpl. rewrite lookup_empty. split.
    + by intros [? [=]].
    + intros (t & Ht & _). by apply elem_of_nil in Ht.
  - rewrite mkTaskMap_snoc. destruct (decide (id x = k)) as [<-|Hne].
    + rewrite lookup_insert_eq. split; [|by eauto].
      intros _. exists x. split; [|done]. apply elem_of_app. right. by left.
    + rewrite lookup_insert_ne by done. rewrite IH. split.
      * intros (t & Ht & Hk). exists t. split; [|done]. apply elem_of_app. by left.
      * intros (t & Ht & Hk). apply elem_of_app in Ht as [Ht|Ht]; [by eauto|].
        apply list_elem_of_singleton in Ht as ->. done.
Qed.

Lemma findTask_Some (ts : list Task) k i t :
  findTask ts k = Some (i, t) → ts !! i = Some t ∧ id t = k.
Proof. intros H. apply list_find_Some in H as (H1 & H2 & _). done. Qed.

Lemma findTask_is_Some (ts : list Task) k :
  is_Some (findTask ts k) ↔ ∃ t, t ∈ ts ∧ id t = k.
Proof.
  unfold findTask. split.
  - intros [[i t] H]. apply list_find_Some in H as (H1 & H2 & _).
    exists t. split; [|done]. apply list_elem_of_lookup. eauto.
  - intros (t & Ht & Hk). destruct (list_find _ ts) as [r|] eqn:E; [by eauto|].
    apply list_find_None in E. rewrite Forall_forall in E. by destruct (E t Ht).
Qed.

Lemma findTask_mkTaskMap (ts : list Task) k :
  is_Some (findTask ts k) ↔ is_Some (mkTaskMap ts !! k).
Proof. by rewrite findTask_is_Some, mkTaskMap_is_Some. Qed.

Lemma findRequest_Some s rid k req :
  findRequest s rid = Some (k, req) → requests s !! k = Some req ∧ requestId req = rid.
Proof. intros H. apply list_find_Some in H as (H1 & H2 & _). done. Qed.

(** ** The sort *)

Section SortFacts.
Context {A : Type} (cmp : A → A → Z).

Lemma insertBy_Permutation x l : insertBy cmp x l ≡ₚ x :: l.
Proof.
  induction l as [|y l IH]; simpl; [done|].
  destruct (decide (cmp x y ≤ 0)%Z); [done|].
  rewrite IH. apply Permutation_swap.
Qed.

Lemma sortBy_Permutation l : sortBy cmp l ≡ₚ l.
Proof.
  induction l as [|x l IH]; simpl; [done|].
  by rewrite insertBy_Permutation, IH.
Qed.

Lemma sortBy_elem x l : x ∈ sortBy cmp l ↔ x ∈ l.
Proof. by rewrite sortBy_Permutation. Qed.

Lemma head_insertBy x l :
  head (insertBy cmp x l) = Some x
  ∨ ∃ y, head l = Some y ∧ head (insertBy cmp x l) = Some y ∧ ¬ (cmp x y ≤ 0)%Z.
Proof.
  destruct l as [|y l]; simpl; [by left|].
  destruct (decide (cmp x y ≤ 0)%Z); [by left|]. right. eauto.
Qed.

(** On elements that the comparator orders totally and transitively, the
    head of the sorted list is below every element. *)
Lemma head_sortBy_least (l : list A) h :
  (∀ x y, x ∈ l → y ∈ l → (cmp x y ≤ 0)%Z ∨ (cmp y x ≤ 0)%Z) →
  (∀ x y z, x ∈ l → y ∈ l → z ∈ l →
     (cmp x y ≤ 0)%Z → (cmp y z ≤ 0)%Z → (cmp x z ≤ 0)%Z) →
  head (sortBy cmp l) = Some h →
  ∀ y, y ∈ l → (cmp h y ≤ 0)%Z.
Proof.
  revert h. induction l as [|x l IH]; intros h Htot Htrans Hh y Hy.
  { by apply elem_of_nil in Hy. }
  simpl in Hh.
  assert (Hin : ∀ z, z ∈ l → z ∈ x :: l) by (intros; by right).
  assert (Hx : x ∈ x :: l) by left.
  assert (IH' : ∀ h', head (sortBy cmp l) = Some h' → ∀ z, z ∈ l → (cmp h' z ≤ 0)%Z).
  { intros h' Hh'. apply IH; eauto. }
  assert (Hhl : ∀ h', head (sortBy cmp l) = Some h' → h' ∈ l).
  { intros h' Hh'. apply (sortBy_elem h' l). by apply head_Some_elem_of. }
  destruct (head_insertBy x (sortBy cmp l)) as [E|(h' & Hh' & E & Hnle)];
    rewrite E in Hh; injection Hh as <-.
  - apply elem_of_cons in Hy as [->|Hy].
    + destruct (Htot x x Hx Hx); done.
    + destruct (head (sortBy cmp l)) as [h'|] eqn:Hh'.
      * apply (Htrans x h' y); eauto.
        destruct (sortBy cmp l) as [|? ?] eqn:Es; [done|].
        injection Hh' as ->. simpl in E.
        destruct (decide (cmp x h' ≤ 0)%Z); [done|].
        injection E as ->. destruct (Htot x x Hx Hx); done.
      * apply head_None in Hh'. apply (sortBy_elem y l) in Hy.
        rewrite Hh' in Hy. by apply elem_of_nil in Hy.
  - apply elem_of_cons in Hy as [->|Hy]; [|by eauto].
    destruct (Htot x h'); eauto. done.
Qed.
End SortFacts.

(** ** The candidates of get_next_task *)

Lemma compareRefs_precedes ts (a b : TaskRef) :
  is_Some (idNum a.2) → is_Some (idNum b.2) →
  (compareRefs ts a b ≤ 0)%Z ↔ precedes ts a.2 b.2.
Proof.
  intros [x Hx] [y Hy]. unfold compareRefs, compareTasks, precedes.
  rewrite Hx, Hy.
  destruct (parentIsActive ts a.2), (parentIsActive ts b.2); simpl.
  - case_bool_decide as Hr; simpl; split.
    + intros Hle. right. split; [done|]. left. lia.
    + intros [[? ?]|[_ [?|(? & _)]]]; [done|lia|lia].
    + intros Hle. right. split; [done|]. right. split; [lia|].
      exists x, y. repeat split; [done..|lia].
    + intros [[? ?]|[_ [?|(_ & x' & y' & ? & ? & ?)]]]; [done|lia|]. simplify_eq. lia.
  - split; [intros _; by left|intros _; lia].
  - split; [lia|]. intros [[? ?]|[? _]]; done.
  - case_bool_decide as Hr; simpl; split.
    + intros Hle. right. split; [done|]. left. lia.
    + intros [[? ?]|[_ [?|(? & _)]]]; [done|lia|lia].
    + intros Hle. right. split; [done|]. right. split; [lia|].
      exists x, y. repeat split; [done..|lia].
    + intros [[? ?]|[_ [?|(_ & x' & y' & ? & ? & ?)]]]; [done|lia|]. simplify_eq. lia.
Qed.

Lemma compareRefs_total ts (a b : TaskRef) :
  is_Some (idNum a.2) → is_Some (idNum b.2) →
  (compareRefs ts a b ≤ 0)%Z ∨ (compareRefs ts b a ≤ 0)%Z.
Proof.
  intros [x Hx] [y Hy]. unfold compareRefs, compareTasks. rewrite Hx, Hy.
  destruct (parentIsActive ts a.2), (parentIsActive ts b.2); simpl;
    repeat case_bool_decide; simpl; lia.
Qed.

Lemma compareRefs_trans ts (a b c : TaskRef) :
  is_Some (idNum a.2) → is_Some (idNum b.2) → is_Some (idNum c.2) →
  (compareRefs ts a b ≤ 0)%Z → (compareRefs ts b c ≤ 0)%Z → (compareRefs ts a c ≤ 0)%Z.
Proof.
  intros [x Hx] [y Hy] [z Hz]. unfold compareRefs, compareTasks. rewrite Hx, Hy, Hz.
  destruct (parentIsActive ts a.2), (parentIsActive ts b.2), (parentIsActive ts c.2);
    simpl; repeat case_bool_decide; simpl; lia.
Qed.

Lemma areDependenciesMet_true ts task :
  areDependenciesMet ts task = true ↔
  ∀ depId, depId ∈ default [] (dependsOn task) →
    ∃ j depTask, mkTaskMap ts !! depId = Some (j, depTask) ∧ status depTask = done.
Proof.
  unfold areDependenciesMet. destruct (dependsOn task) as [deps|]; simpl.
  - rewrite forallb_forall. split.
    + intros H depId Hin. apply list_elem_of_In, H in Hin.
      destruct (mkTaskMap ts !! depId) as [[j d]|]; [|done].
      apply bool_decide_eq_true in Hin. eauto.
    + intros H depId Hin. apply list_elem_of_In, H in Hin as (j & d & -> & Hd).
      by apply bool_decide_eq_true.
  - split; [|done]. intros _ depId Hin. by apply elem_of_nil in Hin.
Qed.

Lemma passA_elem ts (r : TaskRef) :
  r ∈ passA ts →
  ts !! r.1 = Some r.2 ∧ status r.2 = pending ∧ areDependenciesMet ts r.2 = true.
Proof.
  unfold passA. rewrite list_elem_of_In, in_flat_map.
  intros (parent & _ & Hin). apply in_flat_map in Hin as (subId & _ & Hin).
  destruct (mkTaskMap ts !! subId) as [[i sub]|] eqn:E; [|done].
  destruct (bool_decide (status sub = pending)) eqn:Ep; simpl in Hin; [|done].
  destruct (areDependenciesMet ts sub) eqn:Ed; simpl in Hin; [|done].
  destruct Hin as [<-|[]]. simpl. apply mkTaskMap_lookup_Some in E as [E _].
  by apply bool_decide_eq_true in Ep.
Qed.

Lemma passB_elem ts (r : TaskRef) :
  r ∈ passB ts →
  ts !! r.1 = Some r.2 ∧ (status r.2 = pending ∨ status r.2 = active)
  ∧ areDependenciesMet ts r.2 = true ∧ parentIsActive ts r.2 = false.
Proof.
  unfold passB. rewrite list_elem_of_filter. intros [Hk Hin].
  destruct r as [i t]. apply elem_of_refs in Hin. simpl in *.
  unfold passBKeep in Hk. destruct (parentIsActive ts t); [done|].
  apply andb_true_iff in Hk as [Hs Hd]. apply orb_true_iff in Hs.
  rewrite !bool_decide_eq_true in Hs. done.
Qed.

Lemma potentialNextTasks_elem ts (r : TaskRef) :
  r ∈ potentialNextTasks ts →
  ts !! r.1 = Some r.2 ∧ (status r.2 = pending ∨ status r.2 = active)
  ∧ areDependenciesMet ts r.2 = true.
Proof.
  unfold potentialNextTasks. destruct (passA ts) eqn:E.
  - intros H. apply passB_elem in H. tauto.
  - rewrite <- E. intros H. apply passA_elem in H. tauto.
Qed.

Lemma selectNext_elem ts r :
  selectNext ts = Some r → r ∈ potentialNextTasks ts.
Proof.
  unfold selectNext. intros H. apply head_Some_elem_of in H.
  by apply sortBy_elem in H.
Qed.

Lemma selectNext_None ts :
  selectNext ts = None ↔ potentialNextTasks ts = [].
Proof.
  unfold selectNext. rewrite head_None. split.
  - intros H. apply Permutation_nil_r. rewrite <- H. by rewrite sortBy_Permutation.
  - intros ->. done.
Qed.

Lemma setStatus_same t : setStatus (status t) t = t.
Proof. by destruct t. Qed.

(** The reply of [getNextTask] on a request that is not completed. *)
Lemma getNextTask_reply rid s k req r :
  findRequest s rid = Some (k, req) → completed req = false →
  selectNext (tasks req) = Some r →
  (getNextTask rid s).2 = replyWith next_task (setStatus active r.2).
Proof.
  intros Hf Hc Hs. unfold getNextTask. rewrite Hf, Hc, Hs.
  case_bool_decide as Hp; simpl; [done|].
  apply selectNext_elem in Hs. apply potentialNextTasks_elem in Hs as (_ & [?|Ha] & _); [done|].
  by rewrite <- Ha, setStatus_same.
Qed.

Lemma getNextTask_next_task rid s :
  tag (getNextTask rid s).2 = next_task →
  ∃ k req r, findRequest s rid = Some (k, req) ∧ completed req = false
    ∧ selectNext (tasks req) = Some r.
Proof.
  unfold getNextTask. destruct (findRequest s rid) as [[k req]|]; [|done].
  destruct (completed req) eqn:Ec; [done|].
  destruct (selectNext (tasks req)) as [r|] eqn:Es; [intros _; by exists k, req, r|].
  by destruct (forallb isTerminal (tasks req)).
Qed.

(** ** get_next_task: the choice *)

(** The head of the sorted candidates is least for the comparator: on a
    request that is not completed and has candidates, [getNextTask]
    replies with a candidate that [precedes] every candidate, when the
    ids of the candidates parse as numbers. *)
Lemma getNextTask_head_least rid s k req :
  findRequest s rid = Some (k, req) →
  completed req = false →
  potentialNextTasks (tasks req) ≠ [] →
  Forall (λ c : TaskRef, is_Some (idNum c.2)) (potentialNextTasks (tasks req)) →
  ∃ i next,
    (i, next) ∈ potentialNextTasks (tasks req)
    ∧ tasks req !! i = Some next
    ∧ (∀ c, c ∈ potentialNextTasks (tasks req) → precedes (tasks req) next c.2)
    ∧ (getNextTask rid s).2 = replyWith next_task (setStatus active next)
    ∧ (∀ c, c ∈ potentialNextTasks (tasks req) →
         (∀ c', c' ∈ potentialNextTasks (tasks req) → precedes (tasks req) c.2 c'.2) →
         parentIsActive (tasks req) c.2 = parentIsActive (tasks req) next
         ∧ priority c.2 = priority next ∧ idNum c.2 = idNum next)
    ∧ (∀ r1 r2, getNextTask rid s = r1 → getNextTask rid s = r2 → r1 = r2).
Proof.
  intros Hf Hc Hne Hnum. rewrite Forall_forall in Hnum.
  destruct (selectNext (tasks req)) as [[i next]|] eqn:Hs.
  2: { by apply selectNext_None in Hs. }
  pose proof (selectNext_elem _ _ Hs) as Hin.
  assert (Hmin : ∀ c, c ∈ potentialNextTasks (tasks req) → precedes (tasks req) next c.2).
  { intros c Hcin.
    apply (compareRefs_precedes (tasks req) (i, next) c); [by apply (Hnum (i, next))|by apply Hnum|].
    apply (head_sortBy_least (compareRefs (tasks req)) (potentialNextTasks (tasks req)));
      [| |exact Hs|exact Hcin].
    - intros x y Hx Hy. apply compareRefs_total; by apply Hnum.
    - intros x y z Hx Hy Hz. apply compareRefs_trans; by apply Hnum. }
  exists i, next. split; [done|]. split.
  { by apply potentialNextTasks_elem in Hin as (? & _). }
  split; [done|]. split.
  { by apply (getNextTask_reply rid s k req (i, next)). }
  split; [|by intros ? ? <- <-].
  intros c Hcin Hcmin.
  specialize (Hmin c Hcin). specialize (Hcmin (i, next) Hin). simpl in Hcmin.
  unfold precedes in *.
  assert (Hp : ∀ p q : Priority, priorityOrder p = priorityOrder q → p = q)
    by (by intros [] []).
  destruct Hmin as [[H1 H2]|[H1 [H2|(H2 & x & y & Hx & Hy & Hxy)]]];
    destruct Hcmin as [[H3 H4]|[H3 [H4|(H4 & x' & y' & Hx' & Hy' & Hxy')]]];
    try congruence; try lia.
  split; [done|]. split; [by apply Hp|].
  assert (x' = y) by congruence. assert (y' = x) by congruence.
  rewrite Hx, Hy. f_equal. lia.
Qed.

(** The scenario of the specification: with A low and B high, B comes
    first although its id is the larger one. *)
Example getNextTask_priority_first :
  (getNextTask "req-1" Examples.lowHigh).2
  = replyWith next_task (mkTask "task-2" "B" "" active high (Some []) None None None "").
Proof. reflexivity. Qed.

(** ** get_next_task: dependencies (C2) *)

(** C2. A task that [getNextTask] returns is a task of the request all of
    whose [dependsOn] ids resolve, in the request, to a task with status
    [done]; an id that resolves to no task therefore keeps the task from
    being returned. *)
Theorem getNextTask_dependencies_met rid s x :
  tag (getNextTask rid s).2 = next_task →
  replyTask (getNextTask rid s).2 = Some x →
  ∃ k req i x0,
    findRequest s rid = Some (k, req)
    ∧ tasks req !! i = Some x0
    ∧ x = setStatus active x0
    ∧ ∀ depId, depId ∈ default [] (dependsOn x) →
        ∃ j depTask,
          mkTaskMap (tasks req) !! depId = Some (j, depTask)
          ∧ tasks req !! j = Some depTask
          ∧ id depTask = depId
          ∧ status depTask = done.
Proof.
  intros Ht Hx.
  destruct (getNextTask_next_task _ _ Ht) as (k & req & [i x0] & Hf & Hc & Hs).
  rewrite (getNextTask_reply rid s k req (i, x0) Hf Hc Hs) in Hx.
  simpl in Hx. injection Hx as <-.
  apply selectNext_elem, potentialNextTasks_elem in Hs as (Hi & _ & Hd). simpl in *.
  exists k, req, i, x0. repeat split; [done..|].
  intros depId Hin. rewrite areDependenciesMet_true in Hd.
  destruct (Hd depId Hin) as (j & d & Hm & Hdone).
  exists j, d. split; [done|].
  apply mkTaskMap_lookup_Some in Hm as [? ?]. done.
Qed.

Lemma getNextTask_dependencies_met_witness :
  let x := mkTask "task-2" "B" "" active medium (Some ["task-1"]) None None None "" in
  ∃ k req i x0,
    findRequest Examples.chainDone "req-1" = Some (k, req)
    ∧ tasks req !! i = Some x0
    ∧ x = setStatus active x0
    ∧ ∀ depId, depId ∈ default [] (dependsOn x) →
        ∃ j depTask,
          mkTaskMap (tasks req) !! depId = Some (j, depTask)
          ∧ tasks req !! j = Some depTask
          ∧ id depTask = depId
          ∧ status depTask = done.
Proof.
  apply (getNextTask_dependencies_met "req-1" Examples.chainDone); reflexivity.
Defined.

(** A task whose dependency is not done, or does not exist, is not
    returned: here nothing is. *)
Example getNextTask_blocked :
  let s := run [request_planning "r"
                  [Examples.def "X" None (Some ["task-2"]);
                   Examples.def "Y" None (Some ["task-9"])] None] emptyStore in
  tag (getNextTask "req-1" s).2 = no_actionable_task.
Proof. reflexivity. Qed.

(** ** get_next_task: activation *)

Lemma setStatus_idemp st t : setStatus st (setStatus st t) = setStatus st t.
Proof. done. Qed.

Lemma parentRef_lookup ts next p parent :
  parentRef ts next = Some (p, parent) → ts !! p = Some parent.
Proof.
  unfold parentRef. destruct (truthy (parentId next)); [|done].
  intros H. by apply mkTaskMap_lookup_Some in H as [? _].
Qed.


(** Selecting the subtask of a pending parent activates both. *)
Example getNextTask_activates_parent :
  map status (default [] (tasks <$> requests (getNextTask "req-1" Examples.pendingParent).1 !! 0%nat))
  = [active; active].
Proof. reflexivity. Qed.

(** Selecting again returns the active task and changes nothing. *)
Example getNextTask_reselect :
  let s := (getNextTask "req-1" Examples.lowHigh).1 in
  getNextTask "req-1" s
  = (s, replyWith next_task (mkTask "task-2" "B" "" active high (Some []) None None None "")).
Proof. reflexivity. Qed.

(** ** mark_task_done, mark_task_failed: the parent *)

Example threeLevels_state : requests Examples.threeLevels = [Examples.threeLevelsReq].
Proof. reflexivity. Qed.

Lemma findParent_lookup ts task p parentTask :
  findParent ts task = Some (p, parentTask) → ts !! p = Some parentTask.
Proof.
  unfold findParent. destruct (truthy (parentId task)); [|done].
  intros H. by apply findTask_Some in H as [? _].
Qed.

(** What [completeParent] does to the list. *)
Lemma completeParent_spec details ts task :
  length (completeParent details ts task) = length ts
  ∧ (∀ p parentTask subs,
       findParent ts task = Some (p, parentTask) →
       status parentTask = pending ∨ status parentTask = active →
       subtaskIds parentTask = Some subs →
       Forall (λ subId, ∃ j sub, findTask ts subId = Some (j, sub)
                                  ∧ (status sub = done ∨ status sub = failed)) subs →
       completeParent details ts task !! p
       = Some (setCompletedDetails details (setStatus done parentTask)))
  ∧ (∀ j, (∀ parentTask, findParent ts task ≠ Some (j, parentTask)) →
       completeParent details ts task !! j = ts !! j).
Proof.
  unfold completeParent. split; [|split].
  - destruct (findParent ts task) as [[p parentTask]|]; [|done].
    destruct (_ || _); [|done]. destruct (subtaskIds parentTask); [|done].
    destruct (forallb _ _); [|done]. by rewrite length_alter.
  - intros p parentTask subs Hp Hst Hsubs Hall. rewrite Hp, Hsubs.
    assert (bool_decide (status parentTask = pending)
            || bool_decide (status parentTask = active) = true) as ->.
    { apply orb_true_iff. rewrite !bool_decide_eq_true. done. }
    assert (forallb (subtaskTerminal ts) subs = true) as ->.
    { apply forallb_forall. intros subId Hin. apply list_elem_of_In in Hin.
      rewrite Forall_forall in Hall. destruct (Hall subId Hin) as (j & sub & Hf & Hterm).
      unfold subtaskTerminal, isTerminal. rewrite Hf.
      apply orb_true_iff. rewrite !bool_decide_eq_true. done. }
    rewrite list_lookup_alter, decide_True by done.
    by rewrite (findParent_lookup _ _ _ _ Hp).
  - intros j Hj. destruct (findParent ts task) as [[p parentTask]|]; [|done].
    destruct (_ || _); [|done]. destruct (subtaskIds parentTask); [|done].
    destruct (forallb _ _); [|done].
    rewrite list_lookup_alter_ne; [done|]. intros ->. by apply (Hj parentTask).
Qed.

(** What [markTaskDone] and [markTaskFailed] write, in terms of the
    parent that [findParent] finds: when this parent is pending or
    active and all its [subtaskIds] are found, after the task's own
    change, to be done or failed, it becomes done; no task besides the
    task itself and this parent changes. *)
Lemma markTask_completeParent rid taskId s k req i task s' task' :
  findRequest s rid = Some (k, req) →
  findTask (tasks req) taskId = Some (i, task) →
  status task = pending ∨ status task = active →
  (∃ details, s' = (markTaskDone rid taskId details s).1 ∧ task' = markedDone details task)
  ∨ (∃ reason, s' = (markTaskFailed rid taskId reason s).1
               ∧ task' = markedFailed reason task) →
  ∃ ts',
    s' = putRequest k (completeRequest (setTasks ts' req)) s
    ∧ length ts' = length (tasks req)
    ∧ (∀ p parentTask subs,
         findParent (<[i := task']> (tasks req)) task' = Some (p, parentTask) →
         status parentTask = pending ∨ status parentTask = active →
         subtaskIds parentTask = Some subs →
         Forall (λ subId, ∃ j sub,
                   findTask (<[i := task']> (tasks req)) subId = Some (j, sub)
                   ∧ (status sub = done ∨ status sub = failed)) subs →
         ∃ parent', ts' !! p = Some parent' ∧ status parent' = done
                    ∧ setStatus (status parentTask) parent'
                      = setCompletedDetails (completedDetails parent') parentTask)
    ∧ (∀ j, (∀ parentTask,
               findParent (<[i := task']> (tasks req)) task' ≠ Some (j, parentTask)) →
         ts' !! j = <[i := task']> (tasks req) !! j)
    ∧ (∀ p parentTask g grand,
         findParent (<[i := task']> (tasks req)) task' = Some (p, parentTask) →
         findParent (<[i := task']> (tasks req)) parentTask = Some (g, grand) →
         g ≠ p → ts' !! g = Some grand).
Proof.
  intros Hf Ht Hst Hop.
  assert (Hnd : bool_decide (status task = done) = false)
    by (apply bool_decide_eq_false; destruct Hst; congruence).
  assert (Hnf : bool_decide (status task = failed) = false)
    by (apply bool_decide_eq_false; destruct Hst; congruence).
  assert (Hmain : ∃ details, s' = putRequest k (completeRequest (setTasks
             (completeParent details (<[i := task']> (tasks req)) task') req)) s).
  { destruct Hop as [(d & -> & ->)|(r & -> & ->)].
    - eexists. unfold markTaskDone. rewrite Hf, Ht, Hnd, Hnf. done.
    - eexists. unfold markTaskFailed. rewrite Hf, Ht, Hnd, Hnf. done. }
  destruct Hmain as (details & ->).
  destruct (completeParent_spec details (<[i := task']> (tasks req)) task')
    as (Hlen & Hpar & Hoth).
  eexists. split; [done|]. split; [by rewrite Hlen, length_insert|].
  split; [|split].
  - intros p parentTask subs Hp Hs Hsubs Hall.
    eexists. split; [by eapply Hpar|]. split; [done|]. by destruct parentTask.
  - exact Hoth.
  - intros p parentTask g grand Hp Hg Hgp. rewrite Hoth.
    + by eapply findParent_lookup.
    + intros parent'. rewrite Hp. intros [= -> ->]. done.
Qed.

(** The propagation stops at the parent: after the only subtask of
    task-2 has failed, task-2 is done, and task-1, all of whose subtasks
    are now terminal, is still active; the request is not completed. *)
Example markTaskFailed_single_level :
  let s' := (markTaskFailed "req-1" "task-3" None Examples.threeLevels).1 in
  (λ r, (map status (tasks r), completed r)) <$> requests s'
  = [([active; done; failed], false)].
Proof. reflexivity. Qed.

(** ** The cascading delete *)

Section CollectFacts.
Variable taskMap : gmap string TaskRef.

Lemma existingSubtasks_is_Some x y :
  y ∈ existingSubtasks taskMap x → is_Some (taskMap !! y).
Proof.
  unfold existingSubtasks. destruct (taskMap !! x) as [[i t]|].
  - rewrite list_elem_of_filter. tauto.
  - intros H. by apply elem_of_nil in H.
Qed.

(** Each iteration makes [size (dom taskMap ∖ tasksToDelete) * S bound +
    length queue] smaller, so that many iterations empty the queue. *)
Lemma collect_terminates_gen bound fuel queue (tasksToDelete : gset string) :
  (∀ x, length (existingSubtasks taskMap x) ≤ bound) →
  Forall (λ x, is_Some (taskMap !! x)) queue →
  size (dom taskMap ∖ tasksToDelete) * S bound + length queue ≤ fuel →
  is_Some (collect taskMap fuel queue tasksToDelete).
Proof.
  intros Hb. revert queue tasksToDelete.
  induction fuel as [|fuel IH]; intros queue D Hq Hm.
  - destruct queue; simpl in *; [by eauto|lia].
  - destruct queue as [|c rest]; simpl in *; [by eauto|].
    apply Forall_cons in Hq as [Hc Hrest].
    destruct (decide (c ∈ D)) as [Hin|Hnin].
    + apply IH; [done|lia].
    + apply IH.
      * apply Forall_app. split; [done|]. apply Forall_forall.
        intros y Hy. by eapply existingSubtasks_is_Some.
      * assert (size (dom taskMap ∖ ({[c]} ∪ D)) < size (dom taskMap ∖ D)).
        { apply subset_size. apply elem_of_dom in Hc. set_solver. }
        rewrite length_app. specialize (Hb c).
        assert (S (size (dom taskMap ∖ ({[c]} ∪ D))) * S bound
                ≤ size (dom taskMap ∖ D) * S bound)
          by (apply Nat.mul_le_mono_r; lia).
        lia.
Qed.

(** The loop keeps inside any set of ids that holds the queue and is
    closed under [existingSubtasks], and what it returns holds the queue
    and is closed. *)
Lemma collect_invariant (R : string → Prop) fuel queue (tasksToDelete D : gset string) :
  (∀ x y, R x → y ∈ existingSubtasks taskMap x → R y) →
  collect taskMap fuel queue tasksToDelete = Some D →
  Forall R queue →
  (∀ x, x ∈ tasksToDelete → R x) →
  (∀ x y, x ∈ tasksToDelete → y ∈ existingSubtasks taskMap x →
     y ∈ tasksToDelete ∨ y ∈ queue) →
  (∀ x, x ∈ D → R x)
  ∧ tasksToDelete ⊆ D
  ∧ Forall (λ x, x ∈ D) queue
  ∧ (∀ x y, x ∈ D → y ∈ existingSubtasks taskMap x → y ∈ D).
Proof.
  intros HR. revert queue tasksToDelete.
  induction fuel as [|fuel IH]; intros queue V Hc Hq HV Hcl.
  - destruct queue; simpl in Hc; [|done]. injection Hc as <-.
    repeat split; [done..|].
    intros x y Hx Hy. destruct (Hcl x y Hx Hy) as [?|Hn]; [done|].
    by apply elem_of_nil in Hn.
  - destruct queue as [|c rest]; simpl in Hc.
    { injection Hc as <-. repeat split; [done..|].
      intros x y Hx Hy. destruct (Hcl x y Hx Hy) as [?|Hn]; [done|].
      by apply elem_of_nil in Hn. }
    apply Forall_cons in Hq as [Hrc Hrest].
    destruct (decide (c ∈ V)) as [Hin|Hnin].
    + apply IH in Hc as (H1 & H2 & H3 & H4); [|done..|].
      * repeat split; [done..| |done]. apply Forall_cons. split; [|done]. by apply H2.
      * intros x y Hx Hy. destruct (Hcl x y Hx Hy) as [?|Hn]; [by left|].
        apply elem_of_cons in Hn as [->|?]; [by left|by right].
    + apply IH in Hc as (H1 & H2 & H3 & H4).
      * repeat split; [done|set_solver| |done].
        apply Forall_app in H3 as [H3 _]. apply Forall_cons. split; [|done].
        apply H2. set_solver.
      * apply Forall_app. split; [done|]. apply Forall_forall. intros y Hy. by eapply HR.
      * intros x Hx. apply elem_of_union in Hx as [Hx|Hx]; [|by apply HV].
        apply elem_of_singleton in Hx as ->. done.
      * intros x y Hx Hy. apply elem_of_union in Hx as [Hx|Hx].
        -- apply elem_of_singleton in Hx as ->. right. apply elem_of_app. by right.
        -- destruct (Hcl x y Hx Hy) as [?|Hn]; [left; set_solver|].
           apply elem_of_cons in Hn as [->|?]; [left; set_solver|].
           right. apply elem_of_app. by left.
Qed.
End CollectFacts.

Lemma size_mkTaskMap ts : size (mkTaskMap ts) ≤ length ts.
Proof.
  induction ts as [|x ts IH] using rev_ind; [done|].
  rewrite mkTaskMap_snoc, length_app, map_size_insert. simpl.
  destruct (mkTaskMap ts !! id x); simpl; lia.
Qed.

Lemma subtaskCount_bound ts t :
  t ∈ ts → length (default [] (subtaskIds t)) ≤ subtaskCount ts.
Proof.
  unfold subtaskCount. induction 1 as [|? ? ? ? IH]; simpl; lia.
Qed.

Lemma existingSubtasks_bound ts x :
  length (existingSubtasks (mkTaskMap ts) x) ≤ subtaskCount ts.
Proof.
  unfold existingSubtasks. destruct (mkTaskMap ts !! x) as [[i t]|] eqn:E; simpl; [|lia].
  etrans; [apply length_filter|].
  apply subtaskCount_bound. apply mkTaskMap_lookup_Some in E as [E _].
  apply list_elem_of_lookup. eauto.
Qed.

(** The loop of [removeTaskAndDescendants] ends within [collectFuel]
    iterations. *)
Lemma collect_terminates ts root :
  is_Some (mkTaskMap ts !! root) →
  is_Some (collect (mkTaskMap ts) (collectFuel ts) [root] ∅).
Proof.
  intros Hroot. apply (collect_terminates_gen _ (subtaskCount ts)).
  - apply existingSubtasks_bound.
  - by apply Forall_singleton.
  - unfold collectFuel. simpl.
    assert (size (dom (mkTaskMap ts) ∖ (∅ : gset string)) ≤ length ts).
    { etrans; [apply subseteq_size|]. { apply subseteq_difference_l. reflexivity. }
      rewrite size_dom. apply size_mkTaskMap. }
    assert (size (dom (mkTaskMap ts) ∖ (∅ : gset string)) * S (subtaskCount ts)
            ≤ length ts * S (subtaskCount ts)) by (apply Nat.mul_le_mono_r; lia).
    lia.
Qed.

(** What the loop returns is the set of the descendants of the root. *)
Lemma collect_descendants ts root fuel D :
  collect (mkTaskMap ts) fuel [root] ∅ = Some D →
  ∀ x, x ∈ D ↔ descendant ts root x.
Proof.
  intros Hc.
  apply (collect_invariant _ (descendant ts root)) in Hc as (H1 & _ & H3 & H4).
  - rewrite Forall_singleton in H3.
    intros x. split; [by apply H1|].
    induction 1 as [|x y _ IH Hy]; [done|by eapply H4].
  - intros x y Hx Hy. by eapply descendant_step.
  - apply Forall_singleton. constructor.
  - intros x Hx. by apply not_elem_of_empty in Hx.
  - intros x y Hx. by apply not_elem_of_empty in Hx.
Qed.

Lemma default_orDelete l : default [] (orDelete l) = l.
Proof. by destruct l. Qed.

(** [unlinkFromParent] touches the [subtaskIds] of one task object at
    most, the parent of the root. *)
Lemma unlinkFromParent_lookup ts root j t :
  ts !! j = Some t →
  ∃ t1, unlinkFromParent ts root !! j = Some t1
        ∧ t1 = setSubtaskIds (subtaskIds t1) t
        ∧ (subtaskIds t1 = subtaskIds t
           ∨ default [] (subtaskIds t1) = filter (λ x, x ≠ root) (default [] (subtaskIds t))).
Proof.
  intros Hj. unfold unlinkFromParent.
  assert (Hsame : ∃ t1, ts !! j = Some t1 ∧ t1 = setSubtaskIds (subtaskIds t1) t
                        ∧ (subtaskIds t1 = subtaskIds t
                           ∨ default [] (subtaskIds t1)
                             = filter (λ x, x ≠ root) (default [] (subtaskIds t)))).
  { exists t. split; [done|]. split; [by destruct t|by left]. }
  destruct (mkTaskMap ts !! root) as [[i rootTask]|]; [|done].
  destruct (truthy (parentId rootTask)) as [pid|]; [|done].
  destruct (mkTaskMap ts !! pid) as [[p parent]|] eqn:Ep; [|done].
  destruct (subtaskIds parent) as [subs|] eqn:Es; [|done].
  rewrite list_lookup_alter. case_decide as Hpj; [|done]. subst p.
  apply mkTaskMap_lookup_Some in Ep as [Ep _]. rewrite Hj in Ep. injection Ep as ->.
  rewrite Hj. simpl. eexists. split; [done|]. split; [done|]. right.
  simpl. by rewrite default_orDelete, Es.
Qed.

Lemma length_unlinkFromParent ts root : length (unlinkFromParent ts root) = length ts.
Proof.
  unfold unlinkFromParent.
  destruct (mkTaskMap ts !! root) as [[i rootTask]|]; [|done].
  destruct (truthy (parentId rootTask)) as [pid|]; [|done].
  destruct (mkTaskMap ts !! pid) as [[p parent]|]; [|done].
  destruct (subtaskIds parent); [|done]. by rewrite length_alter.
Qed.

Lemma map_id_unlinkFromParent ts root : map id (unlinkFromParent ts root) = map id ts.
Proof.
  apply list_eq. intros j. rewrite !list_lookup_fmap.
  destruct (ts !! j) as [t|] eqn:Hj.
  - destruct (unlinkFromParent_lookup ts root j t Hj) as (t1 & -> & -> & _). done.
  - assert (unlinkFromParent ts root !! j = None) as ->; [|done].
    apply lookup_ge_None. rewrite length_unlinkFromParent. by apply lookup_ge_None.
Qed.

(** What [cleanUp] leaves of a task. *)
Lemma cleanUp_spec (D : gset string) t :
  let t' := cleanUp D t in
  t' = setParentId (parentId t') (setDependsOn (dependsOn t') t)
  ∧ default [] (dependsOn t') = filter (λ d, d ∉ D) (default [] (dependsOn t))
  ∧ parentId t' = match truthy (parentId t) with
                  | Some pid => if decide (pid ∈ D) then None else parentId t
                  | None => parentId t
                  end.
Proof.
  unfold cleanUp. destruct t as [? ? ? ? ? deps par ? ? ?]. simpl.
  destruct deps as [deps|]; simpl;
    (destruct (truthy par) as [pid|] eqn:Ep; simpl; rewrite ?Ep;
     [destruct (decide (pid ∈ D)); simpl|];
     rewrite ?default_orDelete; done).
Qed.

Lemma map_id_cleanUp (D : gset string) ts : map id (map (cleanUp D) ts) = map id ts.
Proof.
  rewrite map_map. apply map_ext. intros t.
  destruct (cleanUp_spec D t) as (-> & _). done.
Qed.

Lemma map_filter_id (D : gset string) (ts : list Task) :
  map id (filter (λ t, id t ∉ D) ts) = filter (λ x, x ∉ D) (map id ts).
Proof.
  induction ts as [|t ts IH]; [done|]. simpl.
  rewrite !filter_cons. destruct (decide (id t ∉ D)); simpl; by rewrite IH.
Qed.

(** The two results of [removeTaskAndDescendants]. *)
Lemma removeTaskAndDescendants_unfold ts root :
  is_Some (mkTaskMap ts !! root) →
  ∃ D, (∀ x, x ∈ D ↔ descendant ts root x)
       ∧ removeTaskAndDescendants ts root
         = (map (cleanUp D) (filter (λ t, id t ∉ D) (unlinkFromParent ts root)), true).
Proof.
  intros Hr. unfold removeTaskAndDescendants. rewrite decide_True by done.
  destruct (collect_terminates ts root Hr) as [D HD]. rewrite HD.
  pose proof (collect_descendants ts root _ D HD) as Hdesc.
  exists D. split; [done|]. f_equal. apply bool_decide_eq_true.
  rewrite length_map.
  apply mkTaskMap_is_Some in Hr as (t & Ht & Hid).
  assert (Hroot : root ∈ D) by (apply Hdesc; constructor).
  rewrite <- (length_unlinkFromParent ts root).
  assert (Hin : ∃ t1, t1 ∈ unlinkFromParent ts root ∧ id t1 ∈ D).
  { apply list_elem_of_lookup in Ht as [j Hj].
    destruct (unlinkFromParent_lookup ts root j t Hj) as (t1 & H1 & H2 & _).
    exists t1. split; [apply list_elem_of_lookup; eauto|]. rewrite H2. simpl. by rewrite Hid. }
  destruct Hin as (t1 & Hin & Hd).
  clear -Hin Hd. induction Hin as [t1 l|t1 y l Hin IH].
  - rewrite filter_cons, decide_False by (intros ?; done). simpl.
    pose proof (length_filter (λ t, id t ∉ D) l). lia.
  - specialize (IH Hd). rewrite filter_cons.
    destruct (decide (id y ∉ D)); rewrite ?length_cons; lia.
Qed.

Lemma removeTaskAndDescendants_absent ts root :
  mkTaskMap ts !! root = None → removeTaskAndDescendants ts root = (ts, false).
Proof.
  intros Hr. unfold removeTaskAndDescendants. rewrite decide_False; [done|].
  rewrite Hr. by intros [? ?].
Qed.

Lemma NoDup_map_id_inj (l : list Task) x y :
  NoDup (map id l) → x ∈ l → y ∈ l → id x = id y → x = y.
Proof.
  induction l as [|z l IH]; simpl; intros Hnd Hx Hy Hid.
  { by apply elem_of_nil in Hx. }
  apply NoDup_cons in Hnd as [Hz Hnd].
  apply elem_of_cons in Hx as [->|Hx]; apply elem_of_cons in Hy as [->|Hy]; [done| | |by apply IH].
  - destruct Hz. rewrite Hid. apply list_elem_of_fmap. eauto.
  - destruct Hz. rewrite <- Hid. apply list_elem_of_fmap. eauto.
Qed.

(** The surviving tasks, one by one. *)
Lemma removeTaskAndDescendants_survivor ts root (D : gset string) t :
  t ∈ ts → id t ∉ D →
  ∃ t', t' ∈ map (cleanUp D) (filter (λ t, id t ∉ D) (unlinkFromParent ts root))
    ∧ t' = setSubtaskIds (subtaskIds t') (setParentId (parentId t') (setDependsOn (dependsOn t') t))
    ∧ default [] (dependsOn t') = filter (λ d, d ∉ D) (default [] (dependsOn t))
    ∧ parentId t' = match truthy (parentId t) with
                    | Some pid => if decide (pid ∈ D) then None else parentId t
                    | None => parentId t
                    end
    ∧ (subtaskIds t' = subtaskIds t
       ∨ default [] (subtaskIds t') = filter (λ x, x ≠ root) (default [] (subtaskIds t))).
Proof.
  intros Ht Hid. apply list_elem_of_lookup in Ht as [j Hj].
  destruct (unlinkFromParent_lookup ts root j t Hj) as (t1 & H1 & H2 & H3).
  destruct (cleanUp_spec D t1) as (C1 & C2 & C3).
  exists (cleanUp D t1). split; [|split; [|split; [|split]]].
  - apply list_elem_of_fmap. exists t1. split; [done|].
    apply list_elem_of_filter. split.
    + rewrite H2. done.
    + apply list_elem_of_lookup. eauto.
  - rewrite C1 at 1. rewrite H2 at 3. simpl. rewrite C1. simpl. done.
  - rewrite C2, H2. done.
  - rewrite C3, H2. done.
  - rewrite C1. simpl. done.
Qed.

(** The scenario of the specification: deleting task-2, which has two
    levels of descendants, removes task-2, task-3 and task-4, takes task-2
    out of the [subtaskIds] of task-1 (which loses the property, now
    empty), and takes task-3 out of the [dependsOn] of task-5. *)
Example removeTaskAndDescendants_deep :
  removeTaskAndDescendants Examples.deepTasks "task-2"
  = ([mkTask "task-1" "a" "" active medium None None None None "";
      mkTask "task-5" "e" "" pending low (Some ["task-1"]) None None None ""], true).
Proof. vm_compute. reflexivity. Qed.

(** ** delete_task *)

(** Every task left by [removeTaskAndDescendants] is a task of the list
    before, with the same fields but for the three kinds of links. *)
Lemma removeTaskAndDescendants_origin ts root t' :
  t' ∈ (removeTaskAndDescendants ts root).1 →
  ∃ t, t ∈ ts
       ∧ t' = setSubtaskIds (subtaskIds t')
                (setParentId (parentId t') (setDependsOn (dependsOn t') t)).
Proof.
  destruct (mkTaskMap ts !! root) as [r|] eqn:Hr.
  - destruct (removeTaskAndDescendants_unfold ts root) as (D & _ & ->); [by eauto|].
    simpl. intros Hin. apply list_elem_of_fmap in Hin as (t1 & -> & Hin).
    apply list_elem_of_filter in Hin as [_ Hin].
    apply list_elem_of_lookup in Hin as [j Hj].
    assert (is_Some (ts !! j)) as [t Ht].
    { apply lookup_lt_is_Some. rewrite <- (length_unlinkFromParent ts root).
      by eapply lookup_lt_Some. }
    destruct (unlinkFromParent_lookup ts root j t Ht) as (t1' & H1 & H2 & _).
    rewrite Hj in H1. injection H1 as <-.
    exists t. split; [apply list_elem_of_lookup; eauto|].
    destruct (cleanUp_spec D t1) as (C1 & _).
    rewrite C1 at 1. rewrite H2 at 3. simpl. rewrite C1. simpl. done.
  - rewrite removeTaskAndDescendants_absent by done. simpl. intros Hin.
    exists t'. split; [done|]. by destruct t'.
Qed.

(** [deleteTask] replies with an error exactly when the request or the
    task is not found, and otherwise writes the list that
    [removeTaskAndDescendants] gives; the status (and the other
    lifecycle fields) of every task that is left are what they were. *)
Lemma deleteTask_spec rid taskId s :
  (tag (deleteTask rid taskId s).2 = error ↔
     findRequest s rid = None
     ∨ ∃ k req, findRequest s rid = Some (k, req) ∧ findTask (tasks req) taskId = None)
  ∧ (tag (deleteTask rid taskId s).2 = error → (deleteTask rid taskId s).1 = s)
  ∧ (∀ k req i task,
       findRequest s rid = Some (k, req) →
       findTask (tasks req) taskId = Some (i, task) →
       ∃ ts',
         removeTaskAndDescendants (tasks req) taskId = (ts', true)
         ∧ deleteTask rid taskId s = (putRequest k (setTasks ts' req) s, reply task_deleted)
         ∧ completed (setTasks ts' req) = completed req
         ∧ (∀ t', t' ∈ ts' → id t' ≠ taskId)
         ∧ (∀ t', t' ∈ ts' →
              ∃ t, t ∈ tasks req ∧ id t' = id t ∧ status t' = status t
                   ∧ failureReason t' = failureReason t
                   ∧ completedDetails t' = completedDetails t)).
Proof.
  unfold deleteTask.
  destruct (findRequest s rid) as [[k req]|] eqn:Hf.
  2: { split; [split; [by left|done]|]. split; [done|].
       intros k' req' i' task' Hcontra. discriminate Hcontra. }
  destruct (findTask (tasks req) taskId) as [[i task]|] eqn:Ht.
  2: { split; [split; [intros _; right; by exists k, req|done]|]. split; [done|].
       intros k' req' i' task' [= <- <-] Hcontra. congruence. }
  assert (Hm : is_Some (mkTaskMap (tasks req) !! taskId)).
  { apply findTask_mkTaskMap. rewrite Ht. by eauto. }
  destruct (removeTaskAndDescendants_unfold (tasks req) taskId Hm) as (D & Hdesc & Heq).
  pose proof (removeTaskAndDescendants_origin (tasks req) taskId) as Horig.
  rewrite Heq in *. simpl in *.
  split; [split; [done|]|].
  { intros [?|(k' & req' & [= <- <-] & ?)]; congruence. }
  split; [done|].
  intros k' req' i' task' [= <- <-] _.
  eexists. split; [done|]. split; [done|]. split; [done|]. split.
  - intros t' Hin Hid.
    assert (Hroot : taskId ∈ D) by (apply Hdesc; constructor).
    apply list_elem_of_fmap in Hin as (t1 & -> & Hin).
    apply list_elem_of_filter in Hin as [Hn _].
    destruct (cleanUp_spec D t1) as (C1 & _). rewrite C1 in Hid. simpl in Hid.
    congruence.
  - intros t' Hin. destruct (Horig t' Hin) as (t & Hint & ->).
    exists t. done.
Qed.

(** Deleting the done task-3 leaves its parent task-2 active, with no
    subtask left, and the request not completed. *)
Example deleteTask_no_propagation :
  (λ r, (map (λ t, (id t, status t, subtaskIds t)) (tasks r), completed r))
    <$> requests (deleteTask "req-1" "task-3" Examples.deep).1
  = [([("task-1", active, Some ["task-2"]); ("task-2", active, None);
       ("task-5", pending, None)], false)].
Proof. vm_compute. reflexivity. Qed.

(** ** validate_dependencies (C8) *)

Lemma cycleStep_refl st : cycleStep st st.
Proof. split; [done|by left]. Qed.

Lemma cycleStep_trans st1 st2 st3 :
  cycleStep st1 st2 → cycleStep st2 st3 → cycleStep st1 st3.
Proof.
  intros [V1 H1] [V2 H2]. split; [set_solver|].
  destruct H1 as [[C1 I1]|(C1 & C1' & a & b & I1)];
    destruct H2 as [[C2 I2]|(C2 & C2' & a' & b' & I2)].
  - left. split; congruence.
  - right. split; [congruence|]. split; [done|]. exists a', b'. congruence.
  - right. split; [done|]. split; [congruence|]. exists a, b. congruence.
  - congruence.
Qed.

Section ValidateFacts.
Variable ts : list Task.

Lemma size_unvisited (V : gset string) x :
  is_Some (mkTaskMap ts !! x) → x ∉ V →
  size (dom (mkTaskMap ts) ∖ ({[x]} ∪ V)) < size (dom (mkTaskMap ts) ∖ V).
Proof.
  intros Hx Hn. apply subset_size. apply elem_of_dom in Hx. set_solver.
Qed.

(** The loop over the dependencies ends when the recursive call does. *)
Lemma visitDeps_total n rec taskId :
  (∀ depId st, is_Some (mkTaskMap ts !! depId) → depId ∉ visited st →
     cycleFound st = false → size (dom (mkTaskMap ts) ∖ visited st) ≤ n →
     ∃ st', rec depId st = Some st' ∧ cycleStep st st') →
  ∀ deps st, cycleFound st = false → size (dom (mkTaskMap ts) ∖ visited st) ≤ n →
    ∃ st' b, visitDeps ts rec taskId deps st = Some (st', b) ∧ cycleStep st st'.
Proof.
  intros Hrec. induction deps as [|depId deps IH]; intros st Hcf Hsz; simpl.
  { exists st, false. split; [done|]. apply cycleStep_refl. }
  destruct (decide (is_Some (mkTaskMap ts !! depId))) as [Hd|Hd]; [|by apply IH].
  destruct (decide (depId ∈ visited st)) as [Hv|Hv].
  - destruct (decide (depId ∈ recursionStack st)); [|by apply IH].
    eexists _, true. split; [done|].
    split; [done|]. right. simpl. split; [done|]. split; [done|]. by eauto.
  - destruct (Hrec depId st Hd Hv Hcf Hsz) as (st' & -> & Hstep).
    destruct (cycleFound st') eqn:Hcf'.
    + exists st', true. done.
    + destruct (IH st' Hcf') as (st'' & b & -> & Hstep').
      { etrans; [|exact Hsz]. apply subseteq_size. destruct Hstep as [Hv' _]. set_solver. }
      exists st'', b. split; [done|]. by eapply cycleStep_trans.
Qed.

(** [detectCycle] ends when it is given as much fuel as there are task
    ids not visited yet. *)
Lemma detectCycle_total fuel taskId st :
  is_Some (mkTaskMap ts !! taskId) → taskId ∉ visited st → cycleFound st = false →
  size (dom (mkTaskMap ts) ∖ visited st) ≤ fuel →
  ∃ st', detectCycle ts fuel taskId st = Some st' ∧ cycleStep st st'.
Proof.
  revert taskId st. induction fuel as [|fuel IH]; intros taskId st Hin Hv Hcf Hsz.
  { pose proof (size_unvisited (visited st) taskId Hin Hv). lia. }
  simpl. rewrite Hcf.
  set (st1 := mkCycleState _ _ _ _).
  set (deps := match mkTaskMap ts !! taskId with Some (_, task) => _ | None => _ end).
  destruct (visitDeps_total fuel (detectCycle ts fuel) taskId IH deps st1)
    as (st2 & b & -> & Hstep); [done| |].
  { pose proof (size_unvisited (visited st) taskId Hin Hv). simpl. lia. }
  assert (Hst1 : cycleStep st st1).
  { split; [simpl; set_solver|]. left. done. }
  destruct b; eexists; (split; [done|]).
  - by eapply cycleStep_trans.
  - eapply cycleStep_trans; [exact Hst1|]. eapply cycleStep_trans; [exact Hstep|].
    split; [done|]. by left.
Qed.

Lemma detectAll_total fuel l st :
  (∀ t, t ∈ l → t ∈ ts) → length ts ≤ fuel →
  ∃ st', detectAll ts fuel l st = Some st' ∧ cycleStep st st'.
Proof.
  intros Hl Hfuel. revert st Hl. induction l as [|task l IH]; intros st Hl; simpl.
  { exists st. split; [done|]. apply cycleStep_refl. }
  assert (Hl' : ∀ t, t ∈ l → t ∈ ts) by (intros; apply Hl; by right).
  case_bool_decide as Hv; simpl; [|by apply IH].
  destruct (cycleFound st) eqn:Hcf; simpl; [by apply IH|].
  destruct (detectCycle_total fuel (id task) st) as (st' & -> & Hstep); [|done..| |].
  - apply mkTaskMap_is_Some. exists task. split; [|done]. apply Hl. by left.
  - etrans; [|exact Hfuel]. etrans; [|apply size_mkTaskMap].
    rewrite <- size_dom. apply subseteq_size. set_solver.
  - destruct (IH st' Hl') as (st'' & -> & Hstep'). exists st''.
    split; [done|]. by eapply cycleStep_trans.
Qed.

(** The issues pushed: the dangling ones, then one circular issue at most. *)
Lemma allIssues_spec :
  ∃ cyc, allIssues ts = Some (danglingIssues ts ++ cyc)
         ∧ (cyc = [] ∨ ∃ a b, cyc = [circularIssue a b]).
Proof.
  unfold allIssues.
  destruct (detectAll_total (S (length ts)) ts (mkCycleState ∅ ∅ false (danglingIssues ts)))
    as (st' & -> & _ & Hstep); [done|lia|].
  simpl in *. destruct Hstep as [[_ ->]|(_ & _ & a & b & ->)].
  - exists []. rewrite app_nil_r. split; [done|by left].
  - exists [circularIssue a b]. split; [done|right; by eauto].
Qed.
End ValidateFacts.

Lemma dedup_elem seen l x : x ∈ dedup seen l ↔ x ∈ l ∧ x ∉ seen.
Proof.
  revert seen. induction l as [|y l IH]; intros seen; simpl.
  { split; [intros H; by apply elem_of_nil in H|intros [H _]; by apply elem_of_nil in H]. }
  destruct (decide (y ∈ seen)) as [Hy|Hy].
  - rewrite IH. split; [intros [? ?]; split; [by right|done]|].
    intros [Hx Hn]. split; [|done]. apply elem_of_cons in Hx as [->|?]; done.
  - rewrite elem_of_cons, IH. split.
    + intros [->|[Hx Hn]]; [split; [by left|done]|].
      split; [by right|]. intros ?. apply Hn. by right.
    + intros [Hx Hn]. apply elem_of_cons in Hx as [->|Hx]; [by left|].
      destruct (decide (x = y)) as [->|Hne]; [by left|]. right. split; [done|].
      intros Hc. apply elem_of_cons in Hc as [?|?]; done.
Qed.

Lemma dedup_NoDup seen l : NoDup (dedup seen l).
Proof.
  revert seen. induction l as [|y l IH]; intros seen; simpl; [constructor|].
  destruct (decide (y ∈ seen)); [done|]. apply NoDup_cons. split; [|done].
  rewrite dedup_elem. intros [_ Hn]. apply Hn. by left.
Qed.

Lemma dedup_filter_length (P : string → Prop) `{∀ x, Decision (P x)} seen l :
  length (filter P (dedup seen l)) ≤ length (filter P l).
Proof.
  revert seen. induction l as [|y l IH]; intros seen; simpl; [done|].
  rewrite (filter_cons P y l).
  destruct (decide (y ∈ seen)).
  - specialize (IH seen). destruct (decide (P y)); simpl; lia.
  - rewrite filter_cons. specialize (IH (y :: seen)).
    destruct (decide (P y)); simpl; lia.
Qed.

Lemma danglingIssues_elem ts x :
  x ∈ danglingIssues ts ↔
  ∃ task depId, task ∈ ts ∧ depId ∈ default [] (dependsOn task)
    ∧ (¬ ∃ t, t ∈ ts ∧ id t = depId) ∧ x = danglingIssue (id task) depId.
Proof.
  unfold danglingIssues. rewrite list_elem_of_In, in_flat_map. split.
  - intros (task & Ht & Hin). apply in_flat_map in Hin as (depId & Hd & Hin).
    destruct (decide (is_Some (mkTaskMap ts !! depId))) as [Hs|Hs]; [done|].
    destruct Hin as [<-|[]]. exists task, depId.
    rewrite !list_elem_of_In. rewrite <- mkTaskMap_is_Some. done.
  - intros (task & depId & Ht & Hd & Hn & ->). exists task.
    rewrite <- list_elem_of_In. split; [done|]. apply in_flat_map. exists depId.
    rewrite <- list_elem_of_In. split; [done|].
    rewrite decide_False; [by left|]. by rewrite mkTaskMap_is_Some.
Qed.

Lemma isCircularIssue_dangling a b : isCircularIssue (danglingIssue a b) = false.
Proof. reflexivity. Qed.

Lemma prefix_append s t : String.prefix s (s +:+ t) = true.
Proof.
  induction s as [|c s IH]; [by destruct t|].
  change (String c s +:+ t) with (String c (s +:+ t)). simpl.
  by destruct (ascii_dec c c).
Qed.

Lemma isCircularIssue_circular a b : isCircularIssue (circularIssue a b) = true.
Proof. apply prefix_append. Qed.

Lemma filter_circular_dangling ts :
  filter (λ x, isCircularIssue x = true) (danglingIssues ts) = [].
Proof.
  assert (H : Forall (λ x, isCircularIssue x = false) (danglingIssues ts)).
  { apply Forall_forall. intros x Hx.
    apply danglingIssues_elem in Hx as (task & depId & _ & _ & _ & ->).
    apply isCircularIssue_dangling. }
  induction H as [|x l Hx _ IH]; [done|].
  rewrite filter_cons, decide_False by congruence. done.
Qed.

(** Two tasks that depend on each other. *)

Section MutualFacts.
Variable ts : list Task.
Variables a b : string.
Variables (ia ib : nat) (A B : Task).
Hypothesis Ha : mkTaskMap ts !! a = Some (ia, A).
Hypothesis Hb : mkTaskMap ts !! b = Some (ib, B).
Hypothesis Hab : b ∈ default [] (dependsOn A).
Hypothesis Hba : a ∈ default [] (dependsOn B).

(** The loop keeps the invariant and does not grow the stack. *)
Lemma visitDeps_mutual_inv rec x deps st st' flag :
  detectsMutual a b rec →
  visitDeps ts rec x deps st = Some (st', flag) →
  onStackIfVisited a b st → cycleFound st = false →
  onStackIfVisited a b st'
  ∧ (cycleFound st' = false → recursionStack st' ⊆ recursionStack st)
  ∧ (flag = true → cycleFound st' = true).
Proof.
  intros Hrec. revert st. induction deps as [|d deps IH]; intros st Hv Hinv Hcf; simpl in Hv.
  { injection Hv as <- <-. done. }
  destruct (decide (is_Some (mkTaskMap ts !! d))) as [Hd|Hd]; [|by eapply IH].
  destruct (decide (d ∈ visited st)) as [Hvis|Hvis].
  - destruct (decide (d ∈ recursionStack st)); [|by eapply IH].
    injection Hv as <- <-. simpl. split; [by left|]. done.
  - destruct (rec d st) as [st1|] eqn:Hr; [|done].
    destruct (Hrec d st st1 Hr Hinv Hvis Hcf) as (Hinv1 & Hst1 & _).
    destruct (cycleFound st1) eqn:Hcf1.
    + injection Hv as <- <-. split; [done|]. split; [congruence|done].
    + destruct (IH st1 Hv Hinv1 Hcf1) as (H1 & H2 & H3).
      split; [done|]. split; [|done]. intros Hc. etrans; [by apply H2|by apply Hst1].
Qed.

(** When one of the two is among the dependencies looped over, the loop
    ends with a cycle found. *)
Lemma visitDeps_mutual_found rec x deps st st' flag other :
  detectsMutual a b rec →
  other ∈ deps → is_Some (mkTaskMap ts !! other) → other = a ∨ other = b →
  visitDeps ts rec x deps st = Some (st', flag) →
  onStackIfVisited a b st → cycleFound st = false →
  cycleFound st' = true.
Proof.
  intros Hrec Hin Hdom Hother. revert st.
  induction deps as [|d deps IH]; intros st Hv Hinv Hcf; simpl in Hv.
  { by apply elem_of_nil in Hin. }
  assert (Hnext : d ≠ other → other ∈ deps).
  { intros Hne. apply elem_of_cons in Hin as [->|?]; done. }
  destruct (decide (is_Some (mkTaskMap ts !! d))) as [Hd|Hd].
  2: { eapply IH; [|done..]. apply Hnext. by intros ->. }
  destruct (decide (d ∈ visited st)) as [Hvis|Hvis].
  - destruct (decide (d ∈ recursionStack st)) as [Hs|Hs].
    { by injection Hv as <- <-. }
    eapply IH; [|done..]. apply Hnext. intros ->.
    destruct Hinv as [?|[H1 H2]]; [congruence|].
    destruct Hother as [->| ->]; [by apply Hs, H1|by apply Hs, H2].
  - destruct (rec d st) as [st1|] eqn:Hr; [|done].
    destruct (Hrec d st st1 Hr Hinv Hvis Hcf) as (Hinv1 & _ & Hfound).
    destruct (cycleFound st1) eqn:Hcf1.
    + by injection Hv as <- <-.
    + eapply IH; [|done..]. apply Hnext. intros ->.
      by specialize (Hfound Hother).
Qed.

Lemma detectCycle_mutual fuel : detectsMutual a b (detectCycle ts fuel).
Proof.
  induction fuel as [|fuel IH]; intros x st st' Hv Hinv Hvis Hcf; [done|].
  simpl in Hv. rewrite Hcf in Hv.
  set (st1 := mkCycleState _ _ _ _) in Hv.
  assert (Hinv1 : onStackIfVisited a b st1).
  { destruct Hinv as [?|[H1 H2]]; [congruence|]. right. simpl. split; set_solver. }
  destruct (visitDeps ts (detectCycle ts fuel) x _ st1) as [[st2 flag]|] eqn:Hloop; [|done].
  destruct (visitDeps_mutual_inv _ _ _ _ _ _ IH Hloop Hinv1 eq_refl) as (Hinv2 & Hst2 & Hflag).
  assert (Hfound : x = a ∨ x = b → cycleFound st2 = true).
  { intros [-> | ->].
    - rewrite Ha in Hloop.
      eapply (visitDeps_mutual_found _ _ _ _ _ _ b IH Hab); [by eauto|by right|done..].
    - rewrite Hb in Hloop.
      eapply (visitDeps_mutual_found _ _ _ _ _ _ a IH Hba); [by eauto|by left|done..]. }
  destruct flag; injection Hv as <-.
  - split; [done|]. split; [|done]. intros Hc. rewrite Hflag in Hc; done.
  - simpl. destruct (cycleFound st2) eqn:Hcf2.
    + split; [by left|]. split; [done|]. done.
    + assert (x ≠ a ∧ x ≠ b) as [Hxa Hxb].
      { split; intros ->; discriminate Hfound; auto. }
      specialize (Hst2 eq_refl). simpl in Hst2.
      split; [|split].
      * destruct Hinv2 as [?|[H1 H2]]; [congruence|]. right. simpl.
        split; intros Hin; [specialize (H1 Hin)|specialize (H2 Hin)]; set_solver.
      * intros _. set_solver.
      * intros Hx. by specialize (Hfound Hx).
Qed.

Lemma detectAll_found fuel l st :
  cycleFound st = true → detectAll ts fuel l st = Some st.
Proof.
  intros Hcf. induction l as [|t l IH]; simpl; [done|].
  rewrite Hcf. simpl. by rewrite andb_false_r.
Qed.

Lemma detectAll_mutual fuel l st st' :
  detectAll ts fuel l st = Some st' →
  onStackIfVisited a b st → recursionStack st = ∅ → cycleFound st = false →
  (∃ t, t ∈ l ∧ id t = a) →
  cycleFound st' = true.
Proof.
  revert st. induction l as [|t l IH]; intros st Hv Hinv Hstack Hcf (ta & Hta & Hida).
  { by apply elem_of_nil in Hta. }
  simpl in Hv. rewrite Hcf in Hv. simpl in Hv. rewrite andb_true_r in Hv.
  assert (Hnext : id t ≠ a → ∃ t', t' ∈ l ∧ id t' = a).
  { intros Hne. exists ta. split; [|done].
    apply elem_of_cons in Hta as [->|?]; done. }
  case_bool_decide as Hvis.
  - destruct (detectCycle ts fuel (id t) st) as [st1|] eqn:Hr; [|done].
    destruct (detectCycle_mutual fuel (id t) st st1 Hr Hinv Hvis Hcf) as (Hinv1 & Hst1 & Hf).
    destruct (cycleFound st1) eqn:Hcf1.
    + rewrite detectAll_found in Hv by done. by injection Hv as <-.
    + eapply (IH st1); [done..| |done|].
      * specialize (Hst1 eq_refl). rewrite Hstack in Hst1. set_solver.
      * apply Hnext. intros Heq. by specialize (Hf (or_introl Heq)).
  - eapply (IH st); [done..|]. apply Hnext. intros Heq.
    destruct Hinv as [?|[H1 _]]; [congruence|].
    rewrite Heq in Hvis. apply H1 in Hvis.
    rewrite Hstack in Hvis. by apply not_elem_of_empty in Hvis.
Qed.

(** Two tasks that depend on each other make [validateDependencies] push
    a circular-dependency issue. *)
Lemma allIssues_mutual :
  ∃ x y, allIssues ts = Some (danglingIssues ts ++ [circularIssue x y]).
Proof.
  unfold allIssues.
  destruct (detectAll_total ts (S (length ts)) ts (mkCycleState ∅ ∅ false (danglingIssues ts)))
    as (st' & Hv & _ & Hstep); [done|lia|].
  assert (Hcf : cycleFound st' = true).
  { eapply detectAll_mutual; [exact Hv| |done|done|].
    - right. simpl. split; intros Hin; by apply not_elem_of_empty in Hin.
    - apply mkTaskMap_lookup_Some in Ha as [Hl Hid]. exists A. split; [|done].
      apply list_elem_of_lookup. eauto. }
  rewrite Hv. simpl in *. destruct Hstep as [[Hc _]|(_ & _ & x & y & ->)]; [congruence|].
  by exists x, y.
Qed.
End MutualFacts.

(** C8. On an existing request [validateDependencies] returns; the issues
    it pushes are one for each [dependsOn] entry that is the id of no
    task of the request, followed by one circular-dependency issue at
    most; the issues of the reply are these without repetition; and the
    status is [validation_passed] exactly when the reply has no issue,
    [validation_failed] otherwise.  When two tasks of the request depend
    on each other the status is [validation_failed] and the reply holds a
    circular-dependency issue. *)
Theorem validateDependencies_spec rid s k req :
  findRequest s rid = Some (k, req) →
  ∃ cyc r,
    validateDependencies rid s = Some r
    ∧ allIssues (tasks req) = Some (danglingIssues (tasks req) ++ cyc)
    ∧ (cyc = [] ∨ ∃ a b, cyc = [circularIssue a b])
    ∧ (∀ x, x ∈ danglingIssues (tasks req) ↔
         ∃ task depId, task ∈ tasks req ∧ depId ∈ default [] (dependsOn task)
           ∧ (¬ ∃ t, t ∈ tasks req ∧ id t = depId)
           ∧ x = danglingIssue (id task) depId)
    ∧ issues r = dedup [] (danglingIssues (tasks req) ++ cyc)
    ∧ NoDup (issues r)
    ∧ (∀ x, x ∈ issues r ↔ x ∈ danglingIssues (tasks req) ++ cyc)
    ∧ length (filter (λ x, isCircularIssue x = true) (issues r)) ≤ 1
    ∧ (tag r = validation_passed ∨ tag r = validation_failed)
    ∧ (tag r = validation_passed ↔ issues r = [])
    ∧ (∀ a b ia ib A B,
         mkTaskMap (tasks req) !! a = Some (ia, A) →
         mkTaskMap (tasks req) !! b = Some (ib, B) →
         b ∈ default [] (dependsOn A) → a ∈ default [] (dependsOn B) →
         tag r = validation_failed
         ∧ ∃ x y, cyc = [circularIssue x y] ∧ circularIssue x y ∈ issues r).
Proof.
  intros Hf. destruct (allIssues_spec (tasks req)) as (cyc & Hall & Hcyc).
  set (raw := danglingIssues (tasks req) ++ cyc) in *.
  assert (Hmem : ∀ x, x ∈ dedup [] raw ↔ x ∈ raw).
  { intros x. rewrite dedup_elem. split; [tauto|]. intros ?. split; [done|].
    apply not_elem_of_nil. }
  assert (Hcirc : length (filter (λ x, isCircularIssue x = true) (dedup [] raw)) ≤ 1).
  { etrans; [apply dedup_filter_length|]. unfold raw.
    rewrite filter_app, length_app, filter_circular_dangling. simpl.
    etrans; [apply length_filter|]. destruct Hcyc as [->|(a & b & ->)]; simpl; lia. }
  assert (Hr : ∃ r, validateDependencies rid s = Some r
                    ∧ issues r = dedup [] raw
                    ∧ (tag r = validation_passed ∨ tag r = validation_failed)
                    ∧ (tag r = validation_passed ↔ issues r = [])).
  { unfold validateDependencies. rewrite Hf, Hall. fold raw.
    destruct (decide (0 < length raw)) as [Hlen|Hlen].
    - eexists. split; [done|]. simpl. split; [done|]. split; [by right|].
      split; [done|]. intros Hnil. destruct raw; [simpl in Hlen; lia|]. done.
    - eexists. split; [done|]. simpl.
      assert (raw = []) as -> by (destruct raw; [done|simpl in Hlen; lia]).
      split; [done|]. split; [by left|]. done. }
  destruct Hr as (r & Hv & Hi & Ht & Hp).
  exists cyc, r. split; [done|]. split; [done|]. split; [done|].
  split; [apply danglingIssues_elem|]. split; [done|].
  rewrite Hi. split; [apply dedup_NoDup|]. split; [done|]. split; [done|].
  rewrite <- Hi. split; [done|]. split; [done|].
  intros a b ia ib A B Ha Hb Hab Hba.
  destruct (allIssues_mutual (tasks req) a b ia ib A B Ha Hb Hab Hba) as (x & y & Hxy).
  rewrite Hall in Hxy. injection Hxy as Hxy. apply app_inv_head in Hxy. subst cyc.
  assert (Hin : circularIssue x y ∈ issues r).
  { rewrite Hi. apply Hmem. apply elem_of_app. right. apply list_elem_of_here. }
  split; [|by exists x, y].
  destruct Ht as [Hpass|?]; [|done].
  apply Hp in Hpass. rewrite Hpass in Hin. by apply elem_of_nil in Hin.
Qed.

Lemma validateDependencies_spec_witness :
  ∃ r, validateDependencies "req-1" Examples.mutual = Some r
       ∧ NoDup (issues r)
       ∧ (tag r = validation_passed ↔ issues r = []).
Proof.
  destruct (validateDependencies_spec "req-1" Examples.mutual 0
              (mkRequest "req-1" "r" "r"
                 [mkTask "task-1" "A" "" pending medium (Some ["task-2"]) None None None "";
                  mkTask "task-2" "B" "" pending medium (Some ["task-1"]) None None None ""]
                 false))
    as (cyc & r & H1 & _ & _ & _ & _ & H2 & _ & _ & _ & H3 & _).
  - reflexivity.
  - exists r. split; [assumption|]. split; assumption.
Defined.

(** The scenario of the specification: two tasks that depend on each
    other give [validation_failed] with one circular-dependency issue. *)
Example validateDependencies_mutual :
  validateDependencies "req-1" Examples.mutual
  = Some (mkReply validation_failed None []
            ["Circular dependency detected: task-2 -> ... -> task-1 -> task-2"]).
Proof. vm_compute. reflexivity. Qed.

(** A dependency on an id that no task has, given twice, is reported
    once. *)
Example validateDependencies_dangling :
  validateDependencies "req-1"
    (run [request_planning "r" [Examples.def "A" None (Some ["task-7"; "task-7"])] None]
         emptyStore)
  = Some (mkReply validation_failed None []
            ["Task task-1 depends on non-existent task task-7."]).
Proof. vm_compute. reflexivity. Qed.

(** ** Invariants of the reachable states *)

Lemma allTasks_putRequest P k r s :
  allTasks P s → Forall P (tasks r) → allTasks P (putRequest k r s).
Proof. intros Hs Hr. unfold allTasks, putRequest. simpl. by apply Forall_insert. Qed.

Lemma allTasks_findRequest P s rid k req :
  allTasks P s → findRequest s rid = Some (k, req) → Forall P (tasks req).
Proof.
  intros Hs Hf. apply findRequest_Some in Hf as [Hk _].
  unfold allTasks in Hs. rewrite Forall_lookup in Hs. by eapply Hs.
Qed.

Lemma isTerminal_false t :
  isTerminal t = false ↔ status t = pending ∨ status t = active.
Proof. unfold isTerminal. destruct (status t); simpl; naive_solver. Qed.

Lemma isTerminal_true t :
  isTerminal t = true ↔ status t = done ∨ status t = failed.
Proof. unfold isTerminal. destruct (status t); simpl; naive_solver. Qed.

(** A property of single tasks is kept by every operation as soon as it
    holds of the tasks that the operations create and is kept by the
    assignments that they make. *)
Section TaskInvariant.
Variable P : Task → Prop.
Hypothesis P_new : ∀ n t d prio deps par subs,
  P (mkTask (taskIdOf n) t d pending prio (Some deps) par subs None "").
Hypothesis P_activate : ∀ t, P t → status t = pending → P (setStatus active t).
Hypothesis P_done : ∀ t details, P t → isTerminal t = false → P (markedDone details t).
Hypothesis P_failed : ∀ t reason, P t → isTerminal t = false → P (markedFailed reason t).
Hypothesis P_auto : ∀ t details,
  P t → isTerminal t = false → P (setCompletedDetails details (setStatus done t)).
Hypothesis P_links : ∀ t d p l,
  P t → P (setSubtaskIds l (setParentId p (setDependsOn d t))).
Hypothesis P_edit : ∀ t a b c,
  P t → isTerminal t = false → P (setPriority c (setDescription b (setTitle a t))).

Lemma mkNewTasks_Forall c defs : Forall P (mkNewTasks c defs).1.
Proof.
  revert c. induction defs as [|d defs IH]; intros c; simpl; [constructor|].
  specialize (IH (c + 1)%N). destruct (mkNewTasks (c + 1) defs) as [rest c'].
  simpl in *. constructor; [apply P_new|done].
Qed.

Lemma activate_Forall ts i next :
  Forall P ts → ts !! i = Some next → status next = pending →
  Forall P (activate ts (i, next)).
Proof.
  intros Hts Hi Hp. unfold activate, activateParent. simpl.
  destruct (parentRef ts next) as [[p parent]|] eqn:Ep.
  2: { apply Forall_alter; [done|]. intros x Hx HP. rewrite Hi in Hx.
       injection Hx as <-. by apply P_activate. }
  case_bool_decide as Hpp.
  2: { apply Forall_alter; [done|]. intros x Hx HP. rewrite Hi in Hx.
       injection Hx as <-. by apply P_activate. }
  pose proof (parentRef_lookup _ _ _ _ Ep) as Hpl.
  assert (Hts1 : Forall P (alter (setStatus active) p ts)).
  { apply Forall_alter; [done|]. intros x Hx HP. rewrite Hpl in Hx.
    injection Hx as <-. by apply P_activate. }
  apply Forall_alter; [done|]. intros x Hx HP.
  rewrite list_lookup_alter in Hx. case_decide as Hpi.
  - subst p. rewrite Hi in Hx. injection Hx as <-. exact HP.
  - rewrite Hi in Hx. injection Hx as <-. by apply P_activate.
Qed.

Lemma completeParent_Forall details ts task :
  Forall P ts → Forall P (completeParent details ts task).
Proof.
  intros Hts. unfold completeParent.
  destruct (findParent ts task) as [[p parentTask]|] eqn:Ep; [|done].
  destruct (_ || _) eqn:Est; [|done].
  destruct (subtaskIds parentTask); [|done]. destruct (forallb _ _); [|done].
  apply Forall_alter; [done|]. intros x Hx HP.
  rewrite (findParent_lookup _ _ _ _ Ep) in Hx. injection Hx as <-.
  apply P_auto; [done|]. apply isTerminal_false.
  apply orb_true_iff in Est. by rewrite !bool_decide_eq_true in Est.
Qed.

Lemma removeTaskAndDescendants_Forall ts root :
  Forall P ts → Forall P (removeTaskAndDescendants ts root).1.
Proof.
  intros Hts. apply Forall_forall. intros t' Hin.
  apply removeTaskAndDescendants_origin in Hin as (t & Ht & ->).
  apply P_links. rewrite Forall_forall in Hts. by apply Hts.
Qed.

Lemma step_allTasks op s : allTasks P s → allTasks P (step op s).
Proof.
  intros Hs. destruct op; simpl; try done.
  - (* request_planning *)
    unfold requestPlanning.
    pose proof (mkNewTasks_Forall (lastTaskId s) defs) as Hnew.
    destruct (mkNewTasks (lastTaskId s) defs) as [newTasks tc]. simpl in *.
    unfold allTasks. simpl. apply Forall_app. split; [done|].
    by apply Forall_singleton.
  - (* get_next_task *)
    unfold getNextTask. destruct (findRequest s rid) as [[k req]|] eqn:Hf; [|done].
    pose proof (allTasks_findRequest _ _ _ _ _ Hs Hf) as Hreq.
    destruct (completed req); [done|].
    destruct (selectNext (tasks req)) as [[i next]|] eqn:Hsel.
    + case_bool_decide as Hp; [|done]. simpl.
      apply allTasks_putRequest; [done|]. simpl.
      apply selectNext_elem, potentialNextTasks_elem in Hsel as (Hi & _).
      by apply activate_Forall.
    + destruct (forallb isTerminal (tasks req)); [|done]. simpl.
      by apply allTasks_putRequest.
  - (* mark_task_done *)
    unfold markTaskDone. destruct (findRequest s rid) as [[k req]|] eqn:Hf; [|done].
    pose proof (allTasks_findRequest _ _ _ _ _ Hs Hf) as Hreq.
    destruct (findTask (tasks req) taskId) as [[i task]|] eqn:Ht; [|done].
    case_bool_decide as Hd; [done|]. case_bool_decide as Hfl; [done|]. simpl.
    apply allTasks_putRequest; [done|].
    unfold completeRequest. simpl.
    assert (Forall P (completeParent "Automatically completed as all subtasks are terminal."
                        (<[i:=markedDone details task]> (tasks req))
                        (markedDone details task))) as Hres.
    { apply completeParent_Forall, Forall_insert; [done|].
      apply findTask_Some in Ht as [Ht _].
      apply P_done; [by eapply Forall_lookup_1|].
      apply isTerminal_false. destruct (status task); naive_solver. }
    by destruct (_ && _).
  - (* mark_task_failed *)
    unfold markTaskFailed. destruct (findRequest s rid) as [[k req]|] eqn:Hf; [|done].
    pose proof (allTasks_findRequest _ _ _ _ _ Hs Hf) as Hreq.
    destruct (findTask (tasks req) taskId) as [[i task]|] eqn:Ht; [|done].
    case_bool_decide as Hfl; [done|]. case_bool_decide as Hd; [done|]. simpl.
    apply allTasks_putRequest; [done|].
    unfold completeRequest. simpl.
    assert (Forall P (completeParent
                        "Automatically completed as all subtasks are terminal (some may have failed)."
                        (<[i:=markedFailed reason task]> (tasks req))
                        (markedFailed reason task))) as Hres.
    { apply completeParent_Forall, Forall_insert; [done|].
      apply findTask_Some in Ht as [Ht _].
      apply P_failed; [by eapply Forall_lookup_1|].
      apply isTerminal_false. destruct (status task); naive_solver. }
    by destruct (_ && _).
  - (* add_tasks_to_request *)
    unfold addTasksToRequest. destruct (findRequest s rid) as [[k req]|] eqn:Hf; [|done].
    pose proof (allTasks_findRequest _ _ _ _ _ Hs Hf) as Hreq.
    destruct (completed req); [done|].
    pose proof (mkNewTasks_Forall (lastTaskId s) defs) as Hnew.
    destruct (mkNewTasks (lastTaskId s) defs) as [newTasks tc]. simpl in *.
    unfold allTasks. simpl. apply Forall_insert; [done|]. simpl.
    by apply Forall_app.
  - (* update_task *)
    unfold updateTask. destruct (findRequest s rid) as [[k req]|] eqn:Hf; [|done].
    pose proof (allTasks_findRequest _ _ _ _ _ Hs Hf) as Hreq.
    destruct (findTask (tasks req) taskId) as [[i task]|] eqn:Ht; [|done].
    destruct (isTerminal task) eqn:Hterm; [done|]. simpl.
    apply allTasks_putRequest; [done|]. simpl. apply Forall_insert; [done|].
    apply findTask_Some in Ht as [Ht _].
    assert (HP : P task) by (by eapply Forall_lookup_1).
    pose proof (P_edit task) as Hedit.
    destruct task as [? tt dd ? pp ? ? ? ? ?]. simpl in *.
    destruct (truthy newTitle) as [a|], (truthy newDescription) as [b|],
      newPriority as [c|]; unfold setPriority, setDescription, setTitle; simpl;
      match goal with
      | |- P (mkTask _ ?x ?y _ ?z _ _ _ _ _) => exact (Hedit x y z HP Hterm)
      end.
  - (* add_dependency *)
    unfold addDependency. destruct (findRequest s rid) as [[k req]|] eqn:Hf; [|done].
    pose proof (allTasks_findRequest _ _ _ _ _ Hs Hf) as Hreq.
    destruct (findTask (tasks req) taskId) as [[i task]|] eqn:Ht; [|done].
    destruct (findTask (tasks req) dependsOnTaskId); [|done].
    destruct (decide (taskId = dependsOnTaskId)); [done|].
    destruct (decide (dependsOnTaskId ∈ _)); [done|]. simpl.
    apply allTasks_putRequest; [done|]. simpl. apply Forall_insert; [done|].
    apply findTask_Some in Ht as [Ht _].
    apply (P_links task _ (parentId task) (subtaskIds task)). by eapply Forall_lookup_1.
  - (* remove_dependency *)
    unfold removeDependency. destruct (findRequest s rid) as [[k req]|] eqn:Hf; [|done].
    pose proof (allTasks_findRequest _ _ _ _ _ Hs Hf) as Hreq.
    destruct (findTask (tasks req) taskId) as [[i task]|] eqn:Ht; [|done].
    destruct (dependsOn task) as [deps|]; [|done].
    destruct (decide (dependsOnTaskId ∈ deps)); [|done]. simpl.
    apply allTasks_putRequest; [done|]. simpl. apply Forall_insert; [done|].
    apply findTask_Some in Ht as [Ht _].
    apply (P_links task _ (parentId task) (subtaskIds task)). by eapply Forall_lookup_1.
  - (* delete_task *)
    unfold deleteTask. destruct (findRequest s rid) as [[k req]|] eqn:Hf; [|done].
    pose proof (allTasks_findRequest _ _ _ _ _ Hs Hf) as Hreq.
    destruct (findTask (tasks req) taskId); [|done].
    pose proof (removeTaskAndDescendants_Forall (tasks req) taskId Hreq) as Hrem.
    destruct (removeTaskAndDescendants (tasks req) taskId) as [ts' removed].
    destruct removed; [|done]. simpl. by apply allTasks_putRequest.
  - (* add_subtask *)
    unfold addSubtask. destruct (findRequest s rid) as [[k req]|] eqn:Hf; [|done].
    pose proof (allTasks_findRequest _ _ _ _ _ Hs Hf) as Hreq.
    destruct (completed req); [done|].
    destruct (findTask (tasks req) parentTaskId) as [[p parentTask]|] eqn:Ht; [|done].
    destruct (isTerminal parentTask); [done|]. simpl.
    unfold allTasks. simpl. apply Forall_insert; [done|]. simpl.
    apply Forall_alter.
    + apply Forall_app. split; [done|]. apply Forall_singleton, P_new.
    + intros x _ HP. by apply (P_links x (dependsOn x) (parentId x)).
  - (* remove_subtask *)
    unfold removeSubtask. destruct (findRequest s rid) as [[k req]|] eqn:Hf; [|done].
    pose proof (allTasks_findRequest _ _ _ _ _ Hs Hf) as Hreq.
    destruct (findTask (tasks req) subtaskId); [|done].
    destruct (match truthy parentTaskId with Some _ => _ | None => _ end); [|done].
    pose proof (removeTaskAndDescendants_Forall (tasks req) subtaskId Hreq) as Hrem.
    destruct (removeTaskAndDescendants (tasks req) subtaskId) as [ts' removed].
    destruct removed; [|done]. simpl. by apply allTasks_putRequest.
Qed.

Lemma reachable_allTasks s : reachable s → allTasks P s.
Proof.
  induction 1 as [|op s _ IH]; [constructor|by apply step_allTasks].
Qed.
End TaskInvariant.

Lemma reachable_run ops s : reachable s → reachable (run ops s).
Proof.
  revert s. induction ops as [|op ops IH]; intros s Hs; [done|].
  simpl. apply IH. by constructor.
Qed.

(** ** The lifecycle fields (C9) *)

Lemma reachable_lifecycleFieldsOk s : reachable s → allTasks lifecycleFieldsOk s.
Proof.
  apply reachable_allTasks; unfold lifecycleFieldsOk.
  - intros. simpl. done.
  - intros t [H1 H2] Hp. simpl. split; [|done]. intros _. apply H1. congruence.
  - intros t details _ _. simpl. done.
  - intros t reason _ _. simpl. done.
  - intros t details [H1 H2] Ht. simpl. split; [|done]. intros _. apply H1.
    apply isTerminal_false in Ht. destruct Ht; congruence.
  - intros t d p l H. simpl. done.
  - intros t a b c H _. simpl. done.
Qed.

(** C9. In every state that the operations reach from the empty file, a
    task that is done has no [failureReason] and a task that is failed
    has an empty [completedDetails]; a parent completed by propagation is
    among the done tasks. *)
Theorem lifecycle_fields_exclusive s r t :
  reachable s → r ∈ requests s → t ∈ tasks r →
  (status t = done → failureReason t = None)
  ∧ (status t = failed → completedDetails t = "").
Proof.
  intros Hs Hr Ht. apply reachable_lifecycleFieldsOk in Hs.
  unfold allTasks in Hs. rewrite Forall_forall in Hs. specialize (Hs r Hr).
  rewrite Forall_forall in Hs. destruct (Hs t Ht) as [H1 H2].
  split; [|done]. intros Hd. apply H1. congruence.
Qed.

Lemma lifecycle_fields_exclusive_witness :
  let t := mkTask "task-2" "P" "" done medium (Some []) (Some "task-1") (Some ["task-3"])
             None "Automatically completed as all subtasks are terminal (some may have failed)." in
  (status t = done → failureReason t = None)
  ∧ (status t = failed → completedDetails t = "").
Proof.
  apply (lifecycle_fields_exclusive
           (run [mark_task_failed "req-1" "task-3" None] Examples.threeLevels)
           (mkRequest "req-1" "r" "r"
              [Examples.taskG;
               mkTask "task-2" "P" "" done medium (Some []) (Some "task-1") (Some ["task-3"])
                 None "Automatically completed as all subtasks are terminal (some may have failed).";
               markedFailed None Examples.taskT] false)).
  - apply reachable_run. unfold Examples.threeLevels. apply reachable_run. constructor.
  - vm_compute. apply list_elem_of_here.
  - apply list_elem_of_further, list_elem_of_here.
Defined.

(** ** The ids made by the counter parse as numbers *)

Lemma digitOf_pretty_N_char d :
  (d < 10)%N → digitOf (pretty_N_char d) = Some (Z.of_N d).
Proof.
  intros Hd. rewrite <- (N2Nat.id d). assert (N.to_nat d < 10) as Hn by lia.
  revert Hn. generalize (N.to_nat d). intros n Hn.
  do 10 (destruct n as [|n]; [reflexivity|]). lia.
Qed.

Lemma readDigits_pretty_N_go x s :
  (0 < x)%N → readDigits None (pretty_N_go x s) = readDigits (Some (Z.of_N x)) s.
Proof.
  revert s. induction (N.lt_wf_0 x) as [x _ IH]. intros s Hx.
  rewrite pretty_N_go_step by done.
  assert (Hd : digitOf (pretty_N_char (x `mod` 10)) = Some (Z.of_N (x `mod` 10))).
  { apply digitOf_pretty_N_char. by apply N.mod_lt. }
  assert (Hdiv : (Z.of_N x = 10 * Z.of_N (x `div` 10) + Z.of_N (x `mod` 10))%Z).
  { rewrite (N.div_mod x 10) at 1 by done.
    by rewrite N2Z.inj_add, N2Z.inj_mul. }
  destruct (decide (x `div` 10 = 0)%N) as [H0|H0].
  - rewrite H0 in *. rewrite pretty_N_go_0. simpl. rewrite Hd. simpl.
    by rewrite Hdiv.
  - rewrite IH; [|apply N.div_lt; [exact Hx|reflexivity]|by apply N.neq_0_lt_0].
    simpl. rewrite Hd. simpl. by rewrite Hdiv.
Qed.

Lemma pretty_N_go_head x s :
  (0 < x)%N → ∃ c rest d, pretty_N_go x s = String c rest ∧ digitOf c = Some d.
Proof.
  revert s. induction (N.lt_wf_0 x) as [x _ IH]. intros s Hx.
  rewrite pretty_N_go_step by done.
  destruct (decide (x `div` 10 = 0)%N) as [H0|H0].
  - rewrite H0, pretty_N_go_0. eexists _, _, _. split; [done|].
    apply digitOf_pretty_N_char. by apply N.mod_lt.
  - apply IH; [apply N.div_lt; [exact Hx|reflexivity]|by apply N.neq_0_lt_0].
Qed.

Lemma parseInt_digit c rest d :
  digitOf c = Some d → parseInt (String c rest) = readDigits None (String c rest).
Proof.
  destruct c as [[] [] [] [] [] [] [] []]; intros H; try discriminate H; reflexivity.
Qed.

Lemma parseInt_pretty (n : N) : parseInt (pretty n) = Some (Z.of_N n).
Proof.
  unfold pretty, pretty_N. destruct (decide (n = 0%N)) as [->|Hn]; [reflexivity|].
  destruct (pretty_N_go_head n "") as (c & rest & d & Hc & Hd); [lia|].
  rewrite Hc, (parseInt_digit c rest d Hd), <- Hc.
  rewrite readDigits_pretty_N_go by lia. done.
Qed.

Lemma substring_all s : String.substring 0 (String.length s) s = s.
Proof. induction s as [|c s IH]; simpl; [done|]. by rewrite IH. Qed.

Lemma replaceFirst_taskIdOf n : replaceFirst "task-" "" (taskIdOf n) = pretty n.
Proof.
  unfold taskIdOf.
  change ("task-" +:+ pretty n)
    with (String "t" (String "a" (String "s" (String "k" (String "-" (pretty n)))))).
  cbn -[pretty String.substring String.length].
  assert (String.prefix "" (pretty n) = true) as -> by (by destruct (pretty n)).
  cbn -[pretty]. rewrite Nat.sub_0_r. apply substring_all.
Qed.

(** A task with an id from the counter has a numeric id. *)
Lemma idNum_hasCounterId t : hasCounterId t → is_Some (idNum t).
Proof.
  intros [n Hn]. unfold idNum. rewrite Hn, replaceFirst_taskIdOf, parseInt_pretty.
  by eauto.
Qed.

Lemma reachable_hasCounterId s : reachable s → allTasks hasCounterId s.
Proof.
  apply reachable_allTasks; unfold hasCounterId; simpl; try done.
  intros n **. by exists n.
Qed.

(** In the reachable states the candidates of [getNextTask] have numeric
    ids, as the comparator of the sort needs them to be. *)
Lemma reachable_numeric_ids s r :
  reachable s → r ∈ requests s →
  Forall (λ c : TaskRef, is_Some (idNum c.2)) (potentialNextTasks (tasks r)).
Proof.
  intros Hs Hr. apply reachable_hasCounterId in Hs.
  unfold allTasks in Hs. rewrite Forall_forall in Hs. specialize (Hs r Hr).
  apply Forall_forall. intros [i t] Hc.
  apply potentialNextTasks_elem in Hc as (Hi & _). simpl in *.
  apply idNum_hasCounterId. by eapply Forall_lookup_1.
Qed.

(** ** The completed flag (C5) *)

Lemma forallb_isTerminal ts :
  forallb isTerminal ts = true ↔ Forall (λ t, isTerminal t = true) ts.
Proof.
  rewrite forallb_forall, Forall_forall. by setoid_rewrite list_elem_of_In.
Qed.

Lemma completedSound_putRequest k r s :
  Forall completedSound (requests s) → completedSound r →
  Forall completedSound (requests (putRequest k r s)).
Proof. intros Hs Hr. simpl. by apply Forall_insert. Qed.

Lemma completedSound_findRequest s rid k req :
  Forall completedSound (requests s) → findRequest s rid = Some (k, req) →
  completedSound req.
Proof.
  intros Hs Hf. apply findRequest_Some in Hf as [Hk _]. by eapply Forall_lookup_1.
Qed.

(** Replacing a task by one of the same status. *)
Lemma terminal_insert_same ts i t t' :
  ts !! i = Some t → status t' = status t →
  Forall (λ t, isTerminal t = true) ts →
  Forall (λ t, isTerminal t = true) (<[i := t']> ts).
Proof.
  intros Hi Hst Hts. apply Forall_insert; [done|].
  unfold isTerminal. rewrite Hst. by eapply (Forall_lookup_1 _ _ _ _ Hts).
Qed.

Lemma completedSound_not_terminal req i t :
  completedSound req → tasks req !! i = Some t → isTerminal t = false →
  completed req = false.
Proof.
  intros Hs Hi Ht. destruct (completed req) eqn:Hc; [|done].
  specialize (Hs Hc). apply (Forall_lookup_1 _ _ _ _ Hs) in Hi. congruence.
Qed.

Lemma completeRequest_sound req :
  completed req = false → completedSound (completeRequest req).
Proof.
  intros Hc. unfold completeRequest, completedSound.
  destruct (forallb isTerminal (tasks req)) eqn:Hall; rewrite Hc; simpl.
  - intros _. by apply forallb_isTerminal.
  - by rewrite Hc.
Qed.

Lemma step_completedSound op s :
  Forall completedSound (requests s) → Forall completedSound (requests (step op s)).
Proof.
  intros Hs. destruct op; simpl; try done.
  - unfold requestPlanning.
    destruct (mkNewTasks (lastTaskId s) defs) as [newTasks tc]. simpl.
    apply Forall_app. split; [done|]. apply Forall_singleton. by intros ?.
  - unfold getNextTask. destruct (findRequest s rid) as [[k req]|] eqn:Hf; [|done].
    destruct (completed req) eqn:Hc; [done|].
    destruct (selectNext (tasks req)) as [[i next]|].
    + case_bool_decide; [|done]. simpl. apply Forall_insert; [done|].
      unfold completedSound. simpl. by rewrite Hc.
    + destruct (forallb isTerminal (tasks req)) eqn:Hall; [|done]. simpl.
      apply Forall_insert; [done|]. intros _. simpl. by apply forallb_isTerminal.
  - unfold markTaskDone. destruct (findRequest s rid) as [[k req]|] eqn:Hf; [|done].
    pose proof (completedSound_findRequest _ _ _ _ Hs Hf) as Hreq.
    destruct (findTask (tasks req) taskId) as [[i task]|] eqn:Ht; [|done].
    case_bool_decide as Hd; [done|]. case_bool_decide as Hfl; [done|]. simpl.
    apply Forall_insert; [done|]. apply completeRequest_sound. simpl.
    apply findTask_Some in Ht as [Ht _].
    eapply completedSound_not_terminal; [done..|].
    apply isTerminal_false. destruct (status task); naive_solver.
  - unfold markTaskFailed. destruct (findRequest s rid) as [[k req]|] eqn:Hf; [|done].
    pose proof (completedSound_findRequest _ _ _ _ Hs Hf) as Hreq.
    destruct (findTask (tasks req) taskId) as [[i task]|] eqn:Ht; [|done].
    case_bool_decide as Hfl; [done|]. case_bool_decide as Hd; [done|]. simpl.
    apply Forall_insert; [done|]. apply completeRequest_sound. simpl.
    apply findTask_Some in Ht as [Ht _].
    eapply completedSound_not_terminal; [done..|].
    apply isTerminal_false. destruct (status task); naive_solver.
  - unfold addTasksToRequest. destruct (findRequest s rid) as [[k req]|] eqn:Hf; [|done].
    destruct (completed req) eqn:Hc; [done|].
    destruct (mkNewTasks (lastTaskId s) defs) as [newTasks tc]. simpl.
    apply Forall_insert; [done|]. unfold completedSound. simpl. by rewrite Hc.
  - unfold updateTask. destruct (findRequest s rid) as [[k req]|] eqn:Hf; [|done].
    pose proof (completedSound_findRequest _ _ _ _ Hs Hf) as Hreq.
    destruct (findTask (tasks req) taskId) as [[i task]|] eqn:Ht; [|done].
    destruct (isTerminal task) eqn:Hterm; [done|]. simpl.
    apply Forall_insert; [done|]. unfold completedSound. simpl.
    apply findTask_Some in Ht as [Ht _].
    by rewrite (completedSound_not_terminal req i task Hreq Ht Hterm).
  - unfold addDependency. destruct (findRequest s rid) as [[k req]|] eqn:Hf; [|done].
    pose proof (completedSound_findRequest _ _ _ _ Hs Hf) as Hreq.
    destruct (findTask (tasks req) taskId) as [[i task]|] eqn:Ht; [|done].
    destruct (findTask (tasks req) dependsOnTaskId); [|done].
    destruct (decide (taskId = dependsOnTaskId)); [done|].
    destruct (decide (dependsOnTaskId ∈ _)); [done|]. simpl.
    apply Forall_insert; [done|]. intros Hc. simpl in *.
    apply findTask_Some in Ht as [Ht _].
    eapply terminal_insert_same; [done|done|by apply Hreq].
  - unfold removeDependency. destruct (findRequest s rid) as [[k req]|] eqn:Hf; [|done].
    pose proof (completedSound_findRequest _ _ _ _ Hs Hf) as Hreq.
    destruct (findTask (tasks req) taskId) as [[i task]|] eqn:Ht; [|done].
    destruct (dependsOn task) as [deps|]; [|done].
    destruct (decide (dependsOnTaskId ∈ deps)); [|done]. simpl.
    apply Forall_insert; [done|]. intros Hc. simpl in *.
    apply findTask_Some in Ht as [Ht _].
    eapply terminal_insert_same; [done|done|by apply Hreq].
  - unfold deleteTask. destruct (findRequest s rid) as [[k req]|] eqn:Hf; [|done].
    pose proof (completedSound_findRequest _ _ _ _ Hs Hf) as Hreq.
    destruct (findTask (tasks req) taskId); [|done].
    pose proof (removeTaskAndDescendants_origin (tasks req) taskId) as Horig.
    destruct (removeTaskAndDescendants (tasks req) taskId) as [ts' removed].
    destruct removed; [|done]. simpl. apply Forall_insert; [done|].
    intros Hc. simpl in *. apply Forall_forall. intros t' Hin.
    destruct (Horig t' Hin) as (t & Ht & ->). unfold isTerminal. simpl.
    specialize (Hreq Hc). rewrite Forall_forall in Hreq. by apply Hreq.
  - unfold addSubtask. destruct (findRequest s rid) as [[k req]|] eqn:Hf; [|done].
    destruct (completed req) eqn:Hc; [done|].
    destruct (findTask (tasks req) parentTaskId) as [[p parentTask]|] eqn:Ht; [|done].
    destruct (isTerminal parentTask); [done|]. simpl.
    apply Forall_insert; [done|]. unfold completedSound. simpl. by rewrite Hc.
  - unfold removeSubtask. destruct (findRequest s rid) as [[k req]|] eqn:Hf; [|done].
    pose proof (completedSound_findRequest _ _ _ _ Hs Hf) as Hreq.
    destruct (findTask (tasks req) subtaskId); [|done].
    destruct (match truthy parentTaskId with Some _ => _ | None => _ end); [|done].
    pose proof (removeTaskAndDescendants_origin (tasks req) subtaskId) as Horig.
    destruct (removeTaskAndDescendants (tasks req) subtaskId) as [ts' removed].
    destruct removed; [|done]. simpl. apply Forall_insert; [done|].
    intros Hc. simpl in *. apply Forall_forall. intros t' Hin.
    destruct (Horig t' Hin) as (t & Ht & ->). unfold isTerminal. simpl.
    specialize (Hreq Hc). rewrite Forall_forall in Hreq. by apply Hreq.
Qed.

Lemma reachable_completedSound s : reachable s → Forall completedSound (requests s).
Proof.
  induction 1 as [|op s _ IH]; [constructor|by apply step_completedSound].
Qed.

Lemma putRequest_lookup k r s req :
  requests s !! k = Some req → requests (putRequest k r s) !! k = Some r.
Proof. intros Hk. simpl. apply list_lookup_insert_eq. by eapply lookup_lt_Some. Qed.

(** After [getNextTask] the flag of the request tells whether all its
    tasks are terminal. *)
Lemma getNextTask_completed_iff rid s k req :
  completedSound req → findRequest s rid = Some (k, req) →
  ∃ r', requests (getNextTask rid s).1 !! k = Some r'
        ∧ (completed r' = true ↔ Forall (λ t, isTerminal t = true) (tasks r')).
Proof.
  intros Hsound Hf. pose proof Hf as Hf'. apply findRequest_Some in Hf' as [Hk _].
  unfold getNextTask. rewrite Hf.
  destruct (completed req) eqn:Hc.
  { simpl. exists req. split; [done|].
    rewrite Hc. split; [by intros _; apply Hsound|done]. }
  destruct (selectNext (tasks req)) as [[i next]|] eqn:Hsel.
  - apply selectNext_elem, potentialNextTasks_elem in Hsel as (Hi & Hst & _).
    simpl in Hi, Hst. case_bool_decide as Hp; simpl.
    + eexists. split; [by apply (putRequest_lookup k _ s req)|]. simpl. rewrite Hc.
      split; [done|]. intros Hall.
      assert (Hact : activate (tasks req) (i, next) !! i
                     = Some (setStatus active (setStatus active next))
                     ∨ activate (tasks req) (i, next) !! i = Some (setStatus active next)).
      { unfold activate, activateParent. simpl.
        rewrite list_lookup_alter, decide_True by done.
        destruct (parentRef (tasks req) next) as [[p parent]|]; [|by rewrite Hi; right].
        case_bool_decide; [|by rewrite Hi; right].
        rewrite list_lookup_alter. case_decide; simplify_eq; rewrite Hi; [by left|by right]. }
      destruct Hact as [Hact|Hact]; by apply (Forall_lookup_1 _ _ _ _ Hall) in Hact.
    + exists req. split; [done|]. rewrite Hc. split; [done|]. intros Hall.
      apply (Forall_lookup_1 _ _ _ _ Hall) in Hi. unfold isTerminal in Hi.
      destruct Hst as [?|Ha]; [done|]. rewrite Ha in Hi. done.
  - destruct (forallb isTerminal (tasks req)) eqn:Hall; simpl.
    + eexists. split; [by apply (putRequest_lookup k _ s req)|]. simpl.
      split; [|done]. intros _. by apply forallb_isTerminal.
    + exists req. split; [done|]. rewrite Hc. split; [done|].
      intros H. apply forallb_isTerminal in H. congruence.
Qed.

(** And so it does after a [markTaskDone] or [markTaskFailed] that marks
    a task. *)
Lemma completeRequest_iff req :
  completed req = false →
  completed (completeRequest req) = true
  ↔ Forall (λ t, isTerminal t = true) (tasks (completeRequest req)).
Proof.
  intros Hc. unfold completeRequest.
  destruct (forallb isTerminal (tasks req)) eqn:Hall; rewrite Hc; simpl.
  - split; [|done]. intros _. by apply forallb_isTerminal.
  - rewrite Hc. split; [done|]. intros H. apply forallb_isTerminal in H. congruence.
Qed.

Lemma markTaskDone_completed_iff rid taskId details s k req :
  completedSound req → findRequest s rid = Some (k, req) →
  tag (markTaskDone rid taskId details s).2 = task_marked_done →
  ∃ r', requests (markTaskDone rid taskId details s).1 !! k = Some r'
        ∧ (completed r' = true ↔ Forall (λ t, isTerminal t = true) (tasks r')).
Proof.
  intros Hsound Hf. pose proof Hf as Hf'. apply findRequest_Some in Hf' as [Hk _].
  unfold markTaskDone. rewrite Hf.
  destruct (findTask (tasks req) taskId) as [[i task]|] eqn:Ht; [|done].
  case_bool_decide as Hd; [done|]. case_bool_decide as Hfl; [done|]. simpl. intros _.
  eexists. split; [by apply list_lookup_insert_eq; eapply lookup_lt_Some|].
  apply completeRequest_iff. simpl. apply findTask_Some in Ht as [Ht _].
  eapply completedSound_not_terminal; [done..|].
  apply isTerminal_false. destruct (status task); naive_solver.
Qed.

Lemma markTaskFailed_completed_iff rid taskId reason s k req :
  completedSound req → findRequest s rid = Some (k, req) →
  tag (markTaskFailed rid taskId reason s).2 = task_marked_failed →
  ∃ r', requests (markTaskFailed rid taskId reason s).1 !! k = Some r'
        ∧ (completed r' = true ↔ Forall (λ t, isTerminal t = true) (tasks r')).
Proof.
  intros Hsound Hf. pose proof Hf as Hf'. apply findRequest_Some in Hf' as [Hk _].
  unfold markTaskFailed. rewrite Hf.
  destruct (findTask (tasks req) taskId) as [[i task]|] eqn:Ht; [|done].
  case_bool_decide as Hfl; [done|]. case_bool_decide as Hd; [done|]. simpl. intros _.
  eexists. split; [by apply list_lookup_insert_eq; eapply lookup_lt_Some|].
  apply completeRequest_iff. simpl. apply findTask_Some in Ht as [Ht _].
  eapply completedSound_not_terminal; [done..|].
  apply isTerminal_false. destruct (status task); naive_solver.
Qed.

(** C5, as stated, fails: the flag is not always in step with the
    tasks.  A request planned with no task has all its tasks terminal and
    is not completed. *)
Lemma completed_flag_not_iff :
  ∃ r, r ∈ requests (step (request_planning "r" [] None) emptyStore)
       ∧ Forall (λ t, isTerminal t = true) (tasks r)
       ∧ ¬ (completed r = true ↔ Forall (λ t, isTerminal t = true) (tasks r)).
Proof.
  exists (mkRequest "req-1" "r" "r" [] false).
  split; [apply list_elem_of_here|]. split; [constructor|].
  simpl. intros [_ H]. discriminate H. constructor.
Qed.

(** Nor is it after [deleteTask] has removed the last task that was not
    terminal: the request keeps [completed = false] until the next
    [getNextTask]. *)
Example deleteTask_leaves_flag :
  let s := run [request_planning "r" [Examples.def "A" None None; Examples.def "B" None None] None;
                mark_task_done "req-1" "task-1" None;
                delete_task "req-1" "task-2"] emptyStore in
  (λ r, (map status (tasks r), completed r)) <$> requests s = [([done], false)]
  ∧ (λ r, (map status (tasks r), completed r)) <$> requests (step (get_next_task "req-1") s)
    = [([done], true)].
Proof. split; vm_compute; reflexivity. Qed.

(** C5, amended. In every state that the operations reach from the empty
    file, a request whose [completed] flag is true has only terminal
    tasks; and right after [getNextTask] on a request, or after a
    [markTaskDone] or [markTaskFailed] that marks one of its tasks, the
    flag of that request is true exactly when all its tasks are
    terminal. *)
Theorem completed_flag_sound s :
  reachable s →
  (∀ r, r ∈ requests s → completed r = true →
        Forall (λ t, isTerminal t = true) (tasks r))
  ∧ (∀ rid k req, findRequest s rid = Some (k, req) →
       (∃ r', requests (getNextTask rid s).1 !! k = Some r'
              ∧ (completed r' = true ↔ Forall (λ t, isTerminal t = true) (tasks r')))
       ∧ (∀ taskId details,
            tag (markTaskDone rid taskId details s).2 = task_marked_done →
            ∃ r', requests (markTaskDone rid taskId details s).1 !! k = Some r'
                  ∧ (completed r' = true
                     ↔ Forall (λ t, isTerminal t = true) (tasks r')))
       ∧ (∀ taskId reason,
            tag (markTaskFailed rid taskId reason s).2 = task_marked_failed →
            ∃ r', requests (markTaskFailed rid taskId reason s).1 !! k = Some r'
                  ∧ (completed r' = true
                     ↔ Forall (λ t, isTerminal t = true) (tasks r')))).
Proof.
  intros Hs. apply reachable_completedSound in Hs. split.
  - intros r Hr Hc. rewrite Forall_forall in Hs. by apply (Hs r Hr).
  - intros rid k req Hf.
    pose proof (completedSound_findRequest _ _ _ _ Hs Hf) as Hreq.
    split; [by apply (getNextTask_completed_iff rid s k req)|]. split.
    + intros taskId details. by apply (markTaskDone_completed_iff rid taskId details s k req).
    + intros taskId reason. by apply (markTaskFailed_completed_iff rid taskId reason s k req).
Qed.

Lemma completed_flag_sound_witness :
  let s := run [get_next_task "req-1"; mark_task_done "req-1" "task-2" None]
               Examples.chainDone in
  (∀ r, r ∈ requests s → completed r = true →
        Forall (λ t, isTerminal t = true) (tasks r))
  ∧ (∀ rid k req, findRequest s rid = Some (k, req) →
       (∃ r', requests (getNextTask rid s).1 !! k = Some r'
              ∧ (completed r' = true ↔ Forall (λ t, isTerminal t = true) (tasks r')))
       ∧ (∀ taskId details,
            tag (markTaskDone rid taskId details s).2 = task_marked_done →
            ∃ r', requests (markTaskDone rid taskId details s).1 !! k = Some r'
                  ∧ (completed r' = true
                     ↔ Forall (λ t, isTerminal t = true) (tasks r')))
       ∧ (∀ taskId reason,
            tag (markTaskFailed rid taskId reason s).2 = task_marked_failed →
            ∃ r', requests (markTaskFailed rid taskId reason s).1 !! k = Some r'
                  ∧ (completed r' = true
                     ↔ Forall (λ t, isTerminal t = true) (tasks r')))).
Proof.
  apply (completed_flag_sound
           (run [get_next_task "req-1"; mark_task_done "req-1" "task-2" None]
                Examples.chainDone)).
  apply reachable_run. unfold Examples.chainDone. apply reachable_run. constructor.
Defined.

(** The state of the witness: both tasks done, the request completed. *)
Example completed_after_last_done :
  (λ r, (map status (tasks r), completed r))
    <$> requests (run [get_next_task "req-1"; mark_task_done "req-1" "task-2" None]
                      Examples.chainDone)
  = [([done; done], true)].
Proof. vm_compute. reflexivity. Qed.

(** ** Self-dependencies (C6) *)

(** [addDependency] refuses to make a task depend on itself. *)
Lemma addDependency_rejects_self rid taskId s :
  addDependency rid taskId taskId s = (s, reply error).
Proof.
  unfold addDependency. destruct (findRequest s rid) as [[k req]|]; [|done].
  destruct (findTask (tasks req) taskId) as [[i task]|]; [|done].
  by rewrite decide_True.
Qed.

(** C6, on the code: [requestPlanning] stores the [dependsOn] array it is
    given; on the empty file, a first task given [dependsOn = ["task-1"]]
    is created with the id task-1 and depends on itself. *)
Lemma requestPlanning_self_dependency :
  let s := step (request_planning "r" [Examples.def "A" None (Some ["task-1"])] None)
                emptyStore in
  ∃ r t, r ∈ requests s ∧ t ∈ tasks r ∧ id t ∈ default [] (dependsOn t).
Proof.
  exists (mkRequest "req-1" "r" "r"
            [mkTask "task-1" "A" "" pending medium (Some ["task-1"]) None None None ""] false),
         (mkTask "task-1" "A" "" pending medium (Some ["task-1"]) None None None "").
  split; [apply list_elem_of_here|]. split; apply list_elem_of_here.
Qed.

(** The same holds of [addTasksToRequest] and of [addSubtask]. *)
Example addTasksToRequest_self_dependency :
  let s := run [request_planning "r" [Examples.def "A" None None] None;
                add_tasks_to_request "req-1" [Examples.def "B" None (Some ["task-2"])]]
               emptyStore in
  (λ r, map (λ t, (id t, dependsOn t)) (tasks r)) <$> requests s
  = [[("task-1", Some []); ("task-2", Some ["task-2"])]].
Proof. vm_compute. reflexivity. Qed.

Example addSubtask_self_dependency :
  let s := run [request_planning "r" [Examples.def "A" None None] None;
                add_subtask "req-1" "task-1" "B" "" None (Some ["task-2"])]
               emptyStore in
  (λ r, map (λ t, (id t, dependsOn t)) (tasks r)) <$> requests s
  = [[("task-1", Some []); ("task-2", Some ["task-2"])]].
Proof. vm_compute. reflexivity. Qed.

(** Such a task is never returned by [getNextTask], and
    [validateDependencies] reports it as a circular dependency. *)
Example self_dependency_consequences :
  let s := step (request_planning "r" [Examples.def "A" None (Some ["task-1"])] None)
                emptyStore in
  tag (getNextTask "req-1" s).2 = no_actionable_task
  ∧ validateDependencies "req-1" s
    = Some (mkReply validation_failed None []
              ["Circular dependency detected: task-1 -> ... -> task-1 -> task-1"]).
Proof. split; vm_compute; reflexivity. Qed.

(** ** The structure of the reachable states *)

Lemma taskIdOf_inj n m : taskIdOf n = taskIdOf m → n = m.
Proof.
  unfold taskIdOf. intros H. apply (inj (String.append "task-")) in H.
  by apply (inj pretty) in H.
Qed.

Lemma taskIdOf_truthy n : truthy (Some (taskIdOf n)) = Some (taskIdOf n).
Proof. unfold truthy. by rewrite decide_False. Qed.

Lemma sameLinks_refl t : sameLinks t t.
Proof. done. Qed.

Lemma sameLinks_map_id ts ts' : Forall2 sameLinks ts ts' → map id ts' = map id ts.
Proof.
  induction 1 as [|t t' ts ts' (Hid & _) _ IH]; [done|]. simpl. by rewrite Hid, IH.
Qed.

Lemma sameLinks_insert ts i t t' :
  ts !! i = Some t → sameLinks t t' → Forall2 sameLinks ts (<[i := t']> ts).
Proof.
  intros Hi Hs. apply Forall2_same_length_lookup. split; [by rewrite length_insert|].
  intros j x y Hx Hy. destruct (decide (i = j)) as [->|Hne].
  - rewrite list_lookup_insert_eq in Hy by (by eapply lookup_lt_Some).
    by simplify_eq.
  - rewrite list_lookup_insert_ne in Hy by done. by simplify_eq.
Qed.

Lemma sameLinks_alter (f : Task → Task) ts i :
  (∀ t, sameLinks t (f t)) → Forall2 sameLinks ts (alter f i ts).
Proof.
  intros Hf. apply Forall2_same_length_lookup. split; [by rewrite length_alter|].
  intros j x y Hx Hy. rewrite list_lookup_alter in Hy. case_decide.
  - simplify_eq. rewrite Hx in Hy. simpl in Hy. by simplify_eq.
  - by simplify_eq.
Qed.

Lemma sameLinks_trans ts1 ts2 ts3 :
  Forall2 sameLinks ts1 ts2 → Forall2 sameLinks ts2 ts3 → Forall2 sameLinks ts1 ts3.
Proof.
  intros H12. revert ts3. induction H12 as [|a b l1 l2 Hab _ IH]; intros ts3 H23.
  - by inversion H23.
  - inversion H23 as [|? c ? l3 Hbc H23']; subst. constructor; [|by apply IH].
    destruct Hab as (? & ? & ?), Hbc as (? & ? & ?). repeat split; congruence.
Qed.

(** The structure depends on the ids and the links only. *)
Lemma wellFormedTasks_sameLinks c ts ts' :
  Forall2 sameLinks ts ts' → wellFormedTasks c ts → wellFormedTasks c ts'.
Proof.
  intros H2 (Hnd & Hids & Hlink).
  pose proof (sameLinks_map_id _ _ H2) as Hmap.
  rewrite Forall2_same_length_lookup in H2. destruct H2 as [Hlen H2].
  assert (Hback : ∀ t', t' ∈ ts' → ∃ t, t ∈ ts ∧ sameLinks t t').
  { intros t' [j Hj]%list_elem_of_lookup.
    assert (is_Some (ts !! j)) as [t Ht].
    { apply lookup_lt_is_Some. rewrite Hlen. by eapply lookup_lt_Some. }
    exists t. split; [apply list_elem_of_lookup; eauto|by eapply H2]. }
  assert (Hforth : ∀ t, t ∈ ts → ∃ t', t' ∈ ts' ∧ sameLinks t t').
  { intros t [j Hj]%list_elem_of_lookup.
    assert (is_Some (ts' !! j)) as [t' Ht'].
    { apply lookup_lt_is_Some. rewrite <- Hlen. by eapply lookup_lt_Some. }
    exists t'. split; [apply list_elem_of_lookup; eauto|by eapply H2]. }
  split; [by rewrite Hmap|]. split.
  - apply Forall_forall. intros t' Ht'. destruct (Hback t' Ht') as (t & Ht & Hid & _).
    rewrite Forall_forall in Hids. rewrite Hid. by apply Hids.
  - apply Forall_forall. intros t' Ht'. destruct (Hback t' Ht') as (t & Ht & Hid & Hpar & _).
    rewrite Forall_forall in Hlink. intros pid Hpid. rewrite Hpar in Hpid.
    destruct (Hlink t Ht pid Hpid) as (parent & Hp & Hpid' & Hsub).
    destruct (Hforth parent Hp) as (parent' & Hp' & Hid' & _ & Hsub').
    exists parent'. split; [done|]. split; [congruence|]. by rewrite Hid, Hsub'.
Qed.

Lemma wellFormedTasks_mono c c' ts :
  (c ≤ c')%N → wellFormedTasks c ts → wellFormedTasks c' ts.
Proof.
  intros Hc (Hnd & Hids & Hlink). split; [done|]. split; [|done].
  eapply Forall_impl; [exact Hids|]. intros t (n & Hn & Hle). exists n. split; [done|lia].
Qed.

(** The tasks made by [mkNewTasks]. *)
Lemma mkNewTasks_spec c defs :
  (c ≤ (mkNewTasks c defs).2)%N
  ∧ Forall (λ t, ∃ n, id t = taskIdOf n ∧ (c < n ≤ (mkNewTasks c defs).2)%N
                      ∧ parentId t = None) (mkNewTasks c defs).1
  ∧ NoDup (map id (mkNewTasks c defs).1).
Proof.
  revert c. induction defs as [|d defs IH]; intros c; simpl.
  { split; [lia|]. split; constructor. }
  destruct (IH (c + 1)%N) as (Hle & Hall & Hnd).
  destruct (mkNewTasks (c + 1) defs) as [rest c']. simpl in *.
  split; [lia|]. split.
  - constructor.
    + exists (c + 1)%N. split; [done|]. split; [lia|done].
    + eapply Forall_impl; [exact Hall|]. intros t (n & Hn & Hr & Hp).
      exists n. split; [done|]. split; [lia|done].
  - apply NoDup_cons. split; [|done]. intros Hin.
    apply list_elem_of_fmap in Hin as (t & Hid & Ht).
    rewrite Forall_forall in Hall. destruct (Hall t Ht) as (n & Hn & Hr & _).
    rewrite Hn in Hid. apply taskIdOf_inj in Hid. lia.
Qed.

Lemma sameLinks_activate ts next : Forall2 sameLinks ts (activate ts next).
Proof.
  unfold activate, activateParent.
  assert (Hact : ∀ t, sameLinks t (setStatus active t)) by done.
  destruct (parentRef ts next.2) as [[p parent]|].
  - case_bool_decide.
    + eapply sameLinks_trans; by apply sameLinks_alter.
    + by apply sameLinks_alter.
  - by apply sameLinks_alter.
Qed.

Lemma sameLinks_completeParent details ts task :
  Forall2 sameLinks ts (completeParent details ts task).
Proof.
  assert (Hrefl : Forall2 sameLinks ts ts).
  { apply Forall_Forall2_diag, Forall_forall. intros t _. apply sameLinks_refl. }
  unfold completeParent.
  destruct (findParent ts task) as [[p parentTask]|]; [|done].
  destruct (_ || _); [|done]. destruct (subtaskIds parentTask); [|done].
  destruct (forallb _ _); [|done]. by apply sameLinks_alter.
Qed.

(** Appending the tasks that [mkNewTasks] makes. *)
Lemma wellFormedTasks_app c ts defs :
  wellFormedTasks c ts →
  wellFormedTasks (mkNewTasks c defs).2 (ts ++ (mkNewTasks c defs).1).
Proof.
  intros (Hnd & Hids & Hlink).
  destruct (mkNewTasks_spec c defs) as (Hle & Hnew & Hndnew).
  rewrite Forall_forall in Hids, Hlink, Hnew.
  split; [|split].
  - rewrite map_app. apply NoDup_app. split; [done|]. split; [|done].
    intros x Hx Hx'.
    apply list_elem_of_fmap in Hx as (t & -> & Ht).
    apply list_elem_of_fmap in Hx' as (t' & Hid & Ht').
    destruct (Hids t Ht) as (n & Hn & Hnc).
    destruct (Hnew t' Ht') as (m & Hm & Hmc & _).
    rewrite Hn, Hm in Hid. apply taskIdOf_inj in Hid. lia.
  - apply Forall_app. split; apply Forall_forall.
    + intros t Ht. destruct (Hids t Ht) as (n & Hn & Hnc). exists n. split; [done|lia].
    + intros t Ht. destruct (Hnew t Ht) as (n & Hn & Hnc & _). exists n. split; [done|lia].
  - apply Forall_app. split; apply Forall_forall.
    + intros t Ht pid Hpid. destruct (Hlink t Ht pid Hpid) as (parent & Hp & Hrest).
      exists parent. split; [|done]. apply elem_of_app. by left.
    + intros t Ht pid Hpid. destruct (Hnew t Ht) as (n & _ & _ & Hpar).
      by rewrite Hpar in Hpid.
Qed.

(** Appending a subtask and recording it in its parent. *)
Lemma wellFormedTasks_addSubtask c ts p parentTask newSubtask :
  wellFormedTasks c ts →
  ts !! p = Some parentTask →
  id newSubtask = taskIdOf (c + 1) →
  parentId newSubtask = Some (id parentTask) →
  wellFormedTasks (c + 1)
    (alter (λ t, setSubtaskIds
                   (Some (default [] (subtaskIds t) ++ [taskIdOf (c + 1)])%list) t)
           p (ts ++ [newSubtask])).
Proof.
  intros (Hnd & Hids & Hlink) Hp Hnew Hpar.
  set (g := λ t, setSubtaskIds
                   (Some (default [] (subtaskIds t) ++ [taskIdOf (c + 1)])%list) t).
  rewrite Forall_forall in Hids, Hlink.
  assert (Hmap : map id (alter g p (ts ++ [newSubtask])) = map id ts ++ [taskIdOf (c + 1)]).
  { transitivity (map id (ts ++ [newSubtask])); [|by rewrite map_app, <- Hnew].
    apply list_eq. intros j. rewrite !list_lookup_fmap, list_lookup_alter.
    case_decide; [|done]. subst j. by destruct ((ts ++ [newSubtask]) !! p). }
  assert (Hkeep : ∀ t, t ∈ ts ++ [newSubtask] →
            ∃ t2, t2 ∈ alter g p (ts ++ [newSubtask]) ∧ id t2 = id t
                  ∧ parentId t2 = parentId t
                  ∧ (∀ x, x ∈ default [] (subtaskIds t) → x ∈ default [] (subtaskIds t2))).
  { intros t [j Hj]%list_elem_of_lookup. destruct (decide (p = j)) as [->|Hne].
    - exists (g t). split; [|split; [done|split; [done|]]].
      + apply list_elem_of_lookup. exists j.
        by rewrite list_lookup_alter, decide_True, Hj.
      + intros x Hx. simpl. apply elem_of_app. by left.
    - exists t. split; [|done]. apply list_elem_of_lookup. exists j.
      by rewrite list_lookup_alter, decide_False. }
  assert (Hfrom : ∀ t2, t2 ∈ alter g p (ts ++ [newSubtask]) →
            (∃ t, t ∈ ts ∧ id t2 = id t ∧ parentId t2 = parentId t) ∨ t2 = newSubtask).
  { intros t2 [j Hj]%list_elem_of_lookup. rewrite list_lookup_alter in Hj.
    destruct (decide (p = j)) as [<-|Hne].
    - rewrite lookup_app_l, Hp in Hj by (by eapply lookup_lt_Some).
      injection Hj as <-. left. exists parentTask.
      split; [apply list_elem_of_lookup; eauto|done].
    - assert (Hin : t2 ∈ ts ++ [newSubtask]) by (apply list_elem_of_lookup; eauto).
      apply elem_of_app in Hin as [Hin|Hin%list_elem_of_singleton]; [|by right].
      left. by exists t2. }
  split; [|split].
  - rewrite Hmap. apply NoDup_app. split; [done|]. split; [|apply NoDup_singleton].
    intros x Hx Hx'%list_elem_of_singleton. subst x.
    apply list_elem_of_fmap in Hx as (t & Hid & Ht).
    destruct (Hids t Ht) as (n & Hn & Hle). rewrite Hn in Hid.
    apply taskIdOf_inj in Hid. lia.
  - apply Forall_forall. intros t2 Ht2. destruct (Hfrom t2 Ht2) as [(t & Ht & Hid & _)| ->].
    + destruct (Hids t Ht) as (n & Hn & Hle). exists n. split; [congruence|lia].
    + exists (c + 1)%N. split; [done|lia].
  - apply Forall_forall. intros t2 Ht2 pid Hpid.
    destruct (Hfrom t2 Ht2) as [(t & Ht & Hid & Hpt)| ->].
    + rewrite Hpt in Hpid. destruct (Hlink t Ht pid Hpid) as (parent & Hin & Hpid' & Hsub).
      destruct (Hkeep parent) as (parent2 & Hin2 & Hid2 & _ & Hsub2).
      { apply elem_of_app. by left. }
      exists parent2. split; [done|]. split; [congruence|].
      rewrite Hid. by apply Hsub2.
    + exists (g parentTask). split; [|split].
      * apply list_elem_of_lookup. exists p.
        rewrite list_lookup_alter, decide_True by done.
        rewrite lookup_app_l by (by eapply lookup_lt_Some). by rewrite Hp.
      * rewrite Hpar in Hpid. unfold truthy in Hpid. case_decide; [done|].
        by simplify_eq.
      * simpl. rewrite Hnew. apply elem_of_app. right. by apply list_elem_of_singleton.
Qed.

(** The cascading delete. *)
Lemma wellFormedTasks_remove c ts root :
  wellFormedTasks c ts → wellFormedTasks c (removeTaskAndDescendants ts root).1.
Proof.
  intros Hwf. destruct (mkTaskMap ts !! root) as [r|] eqn:Hr.
  2: { by rewrite removeTaskAndDescendants_absent. }
  destruct Hwf as (Hnd & Hids & Hlink). rewrite Forall_forall in Hids, Hlink.
  pose proof (removeTaskAndDescendants_origin ts root) as Horigin.
  destruct (removeTaskAndDescendants_unfold ts root) as (D & Hdesc & Heq); [by eauto|].
  rewrite Heq in *. simpl in *.
  assert (Hroot : root ∈ D) by (apply Hdesc; constructor).
  split; [|split].
  - rewrite map_id_cleanUp, map_filter_id, map_id_unlinkFromParent. by apply NoDup_filter.
  - apply Forall_forall. intros t' Ht'. destruct (Horigin t' Ht') as (t & Ht & Heq').
    destruct (Hids t Ht) as (n & Hn & Hle). exists n. split; [|done].
    rewrite Heq'. done.
  - apply Forall_forall. intros t' Ht' pid Hpid.
    assert (HidD : id t' ∉ D).
    { apply list_elem_of_fmap in Ht' as (t1 & -> & Hin).
      apply list_elem_of_filter in Hin as [Hin _].
      destruct (cleanUp_spec D t1) as (-> & _). done. }
    assert (HpidD : (pid ∉ D)
                    ∧ (∃ t, t ∈ ts ∧ id t = id t' ∧ truthy (parentId t) = Some pid)).
    { apply list_elem_of_fmap in Ht' as (t1 & -> & Hin).
      apply list_elem_of_filter in Hin as [_ Hin].
      apply list_elem_of_lookup in Hin as [j Hj].
      assert (is_Some (ts !! j)) as [t Ht].
      { apply lookup_lt_is_Some. rewrite <- (length_unlinkFromParent ts root).
        by eapply lookup_lt_Some. }
      destruct (unlinkFromParent_lookup ts root j t Ht) as (t1' & H1 & H2 & _).
      rewrite Hj in H1. injection H1 as <-.
      destruct (cleanUp_spec D t1) as (C1 & _ & C3).
      assert (Hpar1 : parentId t1 = parentId t) by (by rewrite H2).
      assert (Hid1 : id (cleanUp D t1) = id t) by (rewrite C1; simpl; by rewrite H2).
      rewrite C3 in Hpid. rewrite Hpar1 in Hpid.
      destruct (truthy (parentId t)) as [pid0|] eqn:E0.
      - destruct (decide (pid0 ∈ D)); [done|].
        rewrite E0 in Hpid. injection Hpid as <-.
        split; [done|]. exists t. split; [apply list_elem_of_lookup; eauto|]. by split.
      - by rewrite E0 in Hpid. }
    destruct HpidD as (HpidD & t & Ht & Hid & Hpar).
    destruct (Hlink t Ht pid Hpar) as (parent & Hp & Hpid' & Hsub).
    destruct (removeTaskAndDescendants_survivor ts root D parent Hp)
      as (parent' & Hin' & Heq' & _ & _ & Hsub'); [by rewrite Hpid'|].
    exists parent'. split; [done|]. split; [rewrite Heq'; done|].
    rewrite <- Hid. destruct Hsub' as [->|Hsub']; [done|].
    rewrite Hsub'. apply list_elem_of_filter. split; [|done].
    intros Heq''. apply HidD. by rewrite <- Hid, Heq''.
Qed.

Lemma wellFormed_findRequest s rid k req :
  wellFormed s → findRequest s rid = Some (k, req) →
  wellFormedTasks (lastTaskId s) (tasks req).
Proof.
  intros Hs Hf. apply findRequest_Some in Hf as [Hk _].
  by apply (Forall_lookup_1 _ _ _ _ Hs Hk).
Qed.

Lemma wellFormed_putRequest k r s :
  wellFormed s → wellFormedTasks (lastTaskId s) (tasks r) →
  wellFormed (putRequest k r s).
Proof. intros Hs Hr. unfold wellFormed. simpl. by apply Forall_insert. Qed.

(** A change of the task list that keeps ids and links pointwise. *)
Lemma wellFormed_sameLinks k req ts' s :
  wellFormed s → requests s !! k = Some req → Forall2 sameLinks (tasks req) ts' →
  wellFormedTasks (lastTaskId s) ts'.
Proof.
  intros Hs Hk H2. eapply wellFormedTasks_sameLinks; [exact H2|].
  by apply (Forall_lookup_1 _ _ _ _ Hs Hk).
Qed.

Lemma wellFormed_mono s c :
  wellFormed s → (lastTaskId s ≤ c)%N →
  Forall (λ r, wellFormedTasks c (tasks r)) (requests s).
Proof.
  intros Hs Hc. eapply Forall_impl; [exact Hs|]. intros r Hr.
  by eapply wellFormedTasks_mono.
Qed.

Lemma wellFormedTasks_nil c : wellFormedTasks c [].
Proof. split; [constructor|]. split; constructor. Qed.

(** Every operation keeps the structure. *)
Lemma step_wellFormed op s : wellFormed s → wellFormed (step op s).
Proof.
  intros Hs. destruct op; simpl; try done.
  - (* request_planning *)
    unfold requestPlanning.
    pose proof (wellFormedTasks_app (lastTaskId s) [] defs (wellFormedTasks_nil _)) as Hnew.
    destruct (mkNewTasks_spec (lastTaskId s) defs) as (Hle & _).
    destruct (mkNewTasks (lastTaskId s) defs) as [newTasks tc]. simpl in *.
    unfold wellFormed. simpl. apply Forall_app. split; [by apply wellFormed_mono|].
    by apply Forall_singleton.
  - (* get_next_task *)
    unfold getNextTask. destruct (findRequest s rid) as [[k req]|] eqn:Hf; [|done].
    destruct (completed req); [done|].
    destruct (selectNext (tasks req)) as [[i next]|] eqn:Hsel.
    + case_bool_decide as Hp; [|done]. simpl.
      apply wellFormed_putRequest; [done|]. simpl.
      apply findRequest_Some in Hf as [Hk _].
      eapply wellFormed_sameLinks; [done|done|]. apply sameLinks_activate.
    + destruct (forallb isTerminal (tasks req)); [|done]. simpl.
      apply wellFormed_putRequest; [done|]. simpl.
      by eapply wellFormed_findRequest.
  - (* mark_task_done *)
    unfold markTaskDone. destruct (findRequest s rid) as [[k req]|] eqn:Hf; [|done].
    destruct (findTask (tasks req) taskId) as [[i task]|] eqn:Ht; [|done].
    case_bool_decide as Hd; [done|]. case_bool_decide as Hfl; [done|]. simpl.
    apply wellFormed_putRequest; [done|].
    apply findRequest_Some in Hf as [Hk _]. apply findTask_Some in Ht as [Ht _].
    assert (wellFormedTasks (lastTaskId s)
              (completeParent "Automatically completed as all subtasks are terminal."
                 (<[i:=markedDone details task]> (tasks req))
                 (markedDone details task))) as Hres.
    { eapply wellFormed_sameLinks; [done|done|].
      eapply sameLinks_trans; [|apply sameLinks_completeParent].
      by eapply sameLinks_insert. }
    unfold completeRequest. simpl. by destruct (_ && _).
  - (* mark_task_failed *)
    unfold markTaskFailed. destruct (findRequest s rid) as [[k req]|] eqn:Hf; [|done].
    destruct (findTask (tasks req) taskId) as [[i task]|] eqn:Ht; [|done].
    case_bool_decide as Hfl; [done|]. case_bool_decide as Hd; [done|]. simpl.
    apply wellFormed_putRequest; [done|].
    apply findRequest_Some in Hf as [Hk _]. apply findTask_Some in Ht as [Ht _].
    assert (wellFormedTasks (lastTaskId s)
              (completeParent
                 "Automatically completed as all subtasks are terminal (some may have failed)."
                 (<[i:=markedFailed reason task]> (tasks req))
                 (markedFailed reason task))) as Hres.
    { eapply wellFormed_sameLinks; [done|done|].
      eapply sameLinks_trans; [|apply sameLinks_completeParent].
      by eapply sameLinks_insert. }
    unfold completeRequest. simpl. by destruct (_ && _).
  - (* add_tasks_to_request *)
    unfold addTasksToRequest. destruct (findRequest s rid) as [[k req]|] eqn:Hf; [|done].
    destruct (completed req); [done|].
    pose proof (wellFormedTasks_app (lastTaskId s) (tasks req) defs
                  (wellFormed_findRequest _ _ _ _ Hs Hf)) as Hnew.
    destruct (mkNewTasks_spec (lastTaskId s) defs) as (Hle & _).
    destruct (mkNewTasks (lastTaskId s) defs) as [newTasks tc]. simpl in *.
    unfold wellFormed. simpl. apply Forall_insert; [by apply wellFormed_mono|done].
  - (* update_task *)
    unfold updateTask. destruct (findRequest s rid) as [[k req]|] eqn:Hf; [|done].
    destruct (findTask (tasks req) taskId) as [[i task]|] eqn:Ht; [|done].
    destruct (isTerminal task) eqn:Hterm; [done|]. simpl.
    apply wellFormed_putRequest; [done|]. simpl.
    apply findRequest_Some in Hf as [Hk _]. apply findTask_Some in Ht as [Ht _].
    eapply wellFormed_sameLinks; [done|done|]. eapply sameLinks_insert; [done|].
    by destruct (truthy newTitle), (truthy newDescription), newPriority.
  - (* add_dependency *)
    unfold addDependency. destruct (findRequest s rid) as [[k req]|] eqn:Hf; [|done].
    destruct (findTask (tasks req) taskId) as [[i task]|] eqn:Ht; [|done].
    destruct (findTask (tasks req) dependsOnTaskId); [|done].
    destruct (decide (taskId = dependsOnTaskId)); [done|].
    destruct (decide (dependsOnTaskId ∈ _)); [done|]. simpl.
    apply wellFormed_putRequest; [done|]. simpl.
    apply findRequest_Some in Hf as [Hk _]. apply findTask_Some in Ht as [Ht _].
    eapply wellFormed_sameLinks; [done|done|]. by eapply sameLinks_insert.
  - (* remove_dependency *)
    unfold removeDependency. destruct (findRequest s rid) as [[k req]|] eqn:Hf; [|done].
    destruct (findTask (tasks req) taskId) as [[i task]|] eqn:Ht; [|done].
    destruct (dependsOn task) as [deps|]; [|done].
    destruct (decide (dependsOnTaskId ∈ deps)); [|done]. simpl.
    apply wellFormed_putRequest; [done|]. simpl.
    apply findRequest_Some in Hf as [Hk _]. apply findTask_Some in Ht as [Ht _].
    eapply wellFormed_sameLinks; [done|done|]. by eapply sameLinks_insert.
  - (* delete_task *)
    unfold deleteTask. destruct (findRequest s rid) as [[k req]|] eqn:Hf; [|done].
    destruct (findTask (tasks req) taskId); [|done].
    pose proof (wellFormedTasks_remove _ _ taskId (wellFormed_findRequest _ _ _ _ Hs Hf))
      as Hrem.
    destruct (removeTaskAndDescendants (tasks req) taskId) as [ts' removed].
    destruct removed; [|done]. simpl. by apply wellFormed_putRequest.
  - (* add_subtask *)
    unfold addSubtask. destruct (findRequest s rid) as [[k req]|] eqn:Hf; [|done].
    destruct (completed req); [done|].
    destruct (findTask (tasks req) parentTaskId) as [[p parentTask]|] eqn:Ht; [|done].
    destruct (isTerminal parentTask); [done|]. simpl.
    unfold wellFormed. simpl. apply Forall_insert; [apply wellFormed_mono; [done|lia]|].
    simpl. apply findTask_Some in Ht as [Ht Hid].
    eapply wellFormedTasks_addSubtask; [by eapply wellFormed_findRequest|done|done|].
    simpl. by rewrite Hid.
  - (* remove_subtask *)
    unfold removeSubtask. destruct (findRequest s rid) as [[k req]|] eqn:Hf; [|done].
    destruct (findTask (tasks req) subtaskId); [|done].
    destruct (match truthy parentTaskId with Some _ => _ | None => _ end); [|done].
    pose proof (wellFormedTasks_remove _ _ subtaskId (wellFormed_findRequest _ _ _ _ Hs Hf))
      as Hrem.
    destruct (removeTaskAndDescendants (tasks req) subtaskId) as [ts' removed].
    destruct removed; [|done]. simpl. by apply wellFormed_putRequest.
Qed.

Lemma reachable_wellFormed s : reachable s → wellFormed s.
Proof.
  induction 1 as [|op s _ IH]; [constructor|by apply step_wellFormed].
Qed.

(** X1. In a state that the operations reach, the ids of the tasks of
    a request are distinct. *)
Lemma reachable_unique_ids s r :
  reachable s → r ∈ requests s → NoDup (map id (tasks r)).
Proof.
  intros Hs Hr. apply reachable_wellFormed in Hs.
  unfold wellFormed in Hs. rewrite Forall_forall in Hs. by destruct (Hs r Hr).
Qed.

(** X2. In a state that the operations reach, a task with a [parentId]
    has its parent in the same request, [findParent] finds it, and the
    parent lists the task among its [subtaskIds]. *)
Lemma reachable_parent_link s r t pid :
  reachable s → r ∈ requests s → t ∈ tasks r → truthy (parentId t) = Some pid →
  ∃ p parentTask subs,
    findParent (tasks r) t = Some (p, parentTask)
    ∧ id parentTask = pid
    ∧ subtaskIds parentTask = Some subs
    ∧ id t ∈ subs.
Proof.
  intros Hs Hr Ht Hpid. apply reachable_wellFormed in Hs.
  unfold wellFormed in Hs. rewrite Forall_forall in Hs.
  destruct (Hs r Hr) as (Hnd & _ & Hlink). rewrite Forall_forall in Hlink.
  destruct (Hlink t Ht pid Hpid) as (parent & Hp & Hid & Hsub).
  assert (is_Some (findTask (tasks r) pid)) as [[p parentTask] Hfind].
  { apply findTask_is_Some. eauto. }
  pose proof Hfind as Hfind'. apply findTask_Some in Hfind' as [Hl Hid'].
  assert (parentTask = parent) as ->.
  { eapply NoDup_map_id_inj; [done| |done|congruence]. apply list_elem_of_lookup. eauto. }
  destruct (subtaskIds parent) as [subs|] eqn:Es.
  - exists p, parent, subs. unfold findParent. by rewrite Hpid.
  - by apply elem_of_nil in Hsub.
Qed.

Lemma reachable_unique_ids_witness : NoDup (map id (tasks Examples.threeLevelsReq)).
Proof.
  apply (reachable_unique_ids Examples.threeLevels Examples.threeLevelsReq).
  - apply reachable_run. constructor.
  - apply list_elem_of_singleton. reflexivity.
Defined.

Lemma reachable_parent_link_witness :
  ∃ p parentTask subs,
    findParent (tasks Examples.threeLevelsReq) Examples.taskT = Some (p, parentTask)
    ∧ id parentTask = "task-2"
    ∧ subtaskIds parentTask = Some subs
    ∧ id Examples.taskT ∈ subs.
Proof.
  apply (reachable_parent_link Examples.threeLevels Examples.threeLevelsReq
           Examples.taskT "task-2").
  - apply reachable_run. constructor.
  - apply list_elem_of_singleton. reflexivity.
  - do 2 apply list_elem_of_further. apply list_elem_of_here.
  - reflexivity.
Defined.

(** ** The shape of a step *)

Lemma forward_refl a : forward a a.
Proof. by left. Qed.

Lemma forward_trans a b c : forward a b → forward b c → forward a c.
Proof. unfold forward. intros [->|H1] [->|H2]; auto. right. lia. Qed.

Lemma forward_terminal a b :
  forward a b → a = done ∨ a = failed → b = a.
Proof.
  intros [->|H] Ha; [done|]. destruct Ha as [-> | ->], b; simpl in H; lia.
Qed.

Lemma evolves_refl t : evolves t t.
Proof. split; [done|]. split; [apply forward_refl|by left]. Qed.

(** A change of fields other than the id, the status and the parent. *)
Lemma evolves_same t t' :
  id t' = id t → status t' = status t → parentId t' = parentId t → evolves t t'.
Proof. intros H1 H2 H3. split; [done|]. split; [rewrite H2; by left|by left]. Qed.

Lemma evolves_status t st :
  statusRank (status t) < statusRank st → evolves t (setStatus st t).
Proof. intros H. split; [done|]. split; [by right|by left]. Qed.

Lemma evolves_Forall2_refl ts : Forall2 evolves ts ts.
Proof. apply Forall_Forall2_diag, Forall_forall. intros t _. apply evolves_refl. Qed.

Lemma evolves_trans1 a b c : evolves a b → evolves b c → evolves a c.
Proof.
  intros (H1 & H2 & H3) (H4 & H5 & H6). split; [congruence|].
  split; [by eapply forward_trans|].
  destruct H6 as [H6|H6]; [|by right]. rewrite H6. done.
Qed.

Lemma evolves_trans ts1 ts2 ts3 :
  Forall2 evolves ts1 ts2 → Forall2 evolves ts2 ts3 → Forall2 evolves ts1 ts3.
Proof.
  intros H12. revert ts3. induction H12 as [|a b l1 l2 Hab _ IH]; intros ts3 H23.
  - by inversion H23.
  - inversion H23 as [|? c ? l3 Hbc H23']; subst. constructor; [|by apply IH].
    by eapply evolves_trans1.
Qed.

Lemma evolves_insert ts i t t' :
  ts !! i = Some t → evolves t t' → Forall2 evolves ts (<[i := t']> ts).
Proof.
  intros Hi Hs. apply Forall2_same_length_lookup. split; [by rewrite length_insert|].
  intros j x y Hx Hy. destruct (decide (i = j)) as [->|Hne].
  - rewrite list_lookup_insert_eq in Hy by (by eapply lookup_lt_Some). by simplify_eq.
  - rewrite list_lookup_insert_ne in Hy by done. simplify_eq. apply evolves_refl.
Qed.

Lemma evolves_alter (f : Task → Task) ts i t :
  ts !! i = Some t → evolves t (f t) → Forall2 evolves ts (alter f i ts).
Proof.
  intros Hi Hf. apply Forall2_same_length_lookup. split; [by rewrite length_alter|].
  intros j x y Hx Hy. rewrite list_lookup_alter in Hy. case_decide.
  - subst j. rewrite Hi in Hy, Hx. simpl in Hy. by simplify_eq.
  - simplify_eq. apply evolves_refl.
Qed.

Lemma evolves_activate ts i next :
  ts !! i = Some next → status next = pending →
  Forall2 evolves ts (activate ts (i, next)).
Proof.
  intros Hi Hp. unfold activate, activateParent. simpl.
  assert (Hact : ∀ t, status t = pending ∨ status t = active →
                      evolves t (setStatus active t)).
  { intros t [Ht|Ht].
    - apply evolves_status. rewrite Ht. simpl. lia.
    - by apply evolves_same. }
  destruct (parentRef ts next) as [[p parent]|] eqn:Ep.
  2: { eapply evolves_alter; [done|]. apply Hact. by left. }
  case_bool_decide as Hpp.
  2: { eapply evolves_alter; [done|]. apply Hact. by left. }
  pose proof (parentRef_lookup _ _ _ _ Ep) as Hpl.
  eapply evolves_trans.
  { eapply evolves_alter; [exact Hpl|]. apply Hact. by left. }
  destruct (decide (p = i)) as [->|Hne].
  - eapply evolves_alter.
    + by rewrite list_lookup_alter, decide_True, Hi.
    + apply Hact. by right.
  - eapply evolves_alter.
    + by rewrite list_lookup_alter, decide_False.
    + apply Hact. by left.
Qed.

Lemma evolves_completeParent details ts task :
  Forall2 evolves ts (completeParent details ts task).
Proof.
  unfold completeParent.
  destruct (findParent ts task) as [[p parentTask]|] eqn:Ep; [|apply evolves_Forall2_refl].
  destruct (_ || _) eqn:Est; [|apply evolves_Forall2_refl].
  destruct (subtaskIds parentTask); [|apply evolves_Forall2_refl].
  destruct (forallb _ _); [|apply evolves_Forall2_refl].
  eapply evolves_alter; [by eapply findParent_lookup|].
  split; [done|]. split; [|by left]. right. simpl.
  apply orb_true_iff in Est. rewrite !bool_decide_eq_true in Est.
  destruct Est as [-> | ->]; simpl; lia.
Qed.

(** What [markTaskDone] and [markTaskFailed] do to the task itself. *)
Lemma evolves_marked t :
  isTerminal t = false →
  (∀ d, evolves t (markedDone d t)) ∧ (∀ r, evolves t (markedFailed r t)).
Proof.
  intros Ht. apply isTerminal_false in Ht.
  split; intros x; (split; [done|]); (split; [|by left]); right; simpl;
    destruct Ht as [-> | ->]; simpl; lia.
Qed.

Lemma taskStep_evolves c ts ts' : Forall2 evolves ts ts' → taskStep c c ts ts'.
Proof.
  intros H2. split; [lia|]. intros t' [j Hj]%list_elem_of_lookup. left.
  destruct (Forall2_lookup_r _ _ _ _ _ H2 Hj) as (t & Ht & He).
  exists t. split; [apply list_elem_of_lookup; eauto|done].
Qed.

Lemma mkNewTasks_pending c defs :
  Forall (λ t, status t = pending) (mkNewTasks c defs).1.
Proof.
  revert c. induction defs as [|d defs IH]; intros c; simpl; [constructor|].
  specialize (IH (c + 1)%N). destruct (mkNewTasks (c + 1) defs) as [rest c'].
  simpl in *. by constructor.
Qed.

Lemma taskStep_app c ts defs :
  taskStep c (mkNewTasks c defs).2 ts (ts ++ (mkNewTasks c defs).1).
Proof.
  destruct (mkNewTasks_spec c defs) as (Hle & Hnew & _).
  pose proof (mkNewTasks_pending c defs) as Hpend.
  rewrite Forall_forall in Hnew, Hpend.
  split; [done|]. intros t' [Ht'|Ht']%elem_of_app.
  - left. exists t'. split; [done|]. apply evolves_refl.
  - right. destruct (Hnew t' Ht') as (n & Hn & Hr & Hpar). exists n.
    split; [done|]. split; [done|]. split; [by apply Hpend|].
    intros pid Hpid. congruence.
Qed.

(** Every task left by [removeTaskAndDescendants] is a task of the list
    before, with its id and status, and its parent or none. *)
Lemma removeTaskAndDescendants_evolves ts root t' :
  t' ∈ (removeTaskAndDescendants ts root).1 → ∃ t, t ∈ ts ∧ evolves t t'.
Proof.
  destruct (mkTaskMap ts !! root) as [r|] eqn:Hr.
  - destruct (removeTaskAndDescendants_unfold ts root) as (D & _ & ->); [by eauto|].
    simpl. intros Hin. apply list_elem_of_fmap in Hin as (t1 & -> & Hin).
    apply list_elem_of_filter in Hin as [_ Hin].
    apply list_elem_of_lookup in Hin as [j Hj].
    assert (is_Some (ts !! j)) as [t Ht].
    { apply lookup_lt_is_Some. rewrite <- (length_unlinkFromParent ts root).
      by eapply lookup_lt_Some. }
    destruct (unlinkFromParent_lookup ts root j t Ht) as (t1' & H1 & H2 & _).
    rewrite Hj in H1. injection H1 as <-.
    exists t. split; [apply list_elem_of_lookup; eauto|].
    destruct (cleanUp_spec D t1) as (C1 & _ & C3).
    assert (Hid1 : id t1 = id t) by (by rewrite H2).
    assert (Hst1 : status t1 = status t) by (by rewrite H2).
    assert (Hpar1 : parentId t1 = parentId t) by (by rewrite H2).
    split; [rewrite C1; done|]. split; [rewrite C1; simpl; rewrite Hst1; by left|].
    rewrite C3, Hpar1.
    destruct (truthy (parentId t)); [|by left].
    destruct (decide (_ ∈ D)); [by right|by left].
  - rewrite removeTaskAndDescendants_absent by done. simpl. intros Hin.
    exists t'. split; [done|apply evolves_refl].
Qed.

Lemma taskStep_remove c ts root :
  taskStep c c ts (removeTaskAndDescendants ts root).1.
Proof.
  split; [lia|]. intros t' Ht'. left. by apply (removeTaskAndDescendants_evolves ts root).
Qed.

Lemma taskStep_addSubtask c ts p parentTask newSubtask (g : Task → Task) :
  ts !! p = Some parentTask →
  id newSubtask = taskIdOf (c + 1) → status newSubtask = pending →
  parentId newSubtask = Some (id parentTask) →
  (∀ t, id (g t) = id t ∧ status (g t) = status t ∧ parentId (g t) = parentId t) →
  taskStep c (c + 1) ts (alter g p (ts ++ [newSubtask])).
Proof.
  intros Hp Hid Hst Hpar Hg. split; [lia|]. intros t' [j Hj]%list_elem_of_lookup.
  assert (Hfrom : ∃ t, t ∈ ts ++ [newSubtask] ∧ id t' = id t ∧ status t' = status t
                       ∧ parentId t' = parentId t).
  { rewrite list_lookup_alter in Hj. case_decide.
    - subst j. destruct ((ts ++ [newSubtask]) !! p) as [t|] eqn:Ep; [|done].
      simpl in Hj. injection Hj as <-. exists t. split; [|apply Hg].
      apply list_elem_of_lookup. eauto.
    - exists t'. split; [apply list_elem_of_lookup; eauto|done]. }
  destruct Hfrom as (t & [Ht|Ht%list_elem_of_singleton]%elem_of_app & Hev & Hfw & Hpt).
  - left. exists t. split; [done|]. by apply evolves_same.
  - subst t. right. exists (c + 1)%N. split; [congruence|]. split; [lia|].
    split; [congruence|]. intros pid Hpid. exists parentTask.
    split; [apply list_elem_of_lookup; eauto|congruence].
Qed.

(** Every operation leaves the file as it is, or appends a request made
    of new tasks, or replaces the task list, the flag and the task counter
    of the one request it names. *)
Lemma step_cases op s :
  step op s = s
  ∨ (∃ o defs d,
       op = request_planning o defs d
       ∧ step op s
         = mkStore (requests s
                    ++ [mkRequest (requestIdOf (lastRequestId s + 1)) o (orElse d o)
                          (mkNewTasks (lastTaskId s) defs).1 false])
                   (lastRequestId s + 1) (mkNewTasks (lastTaskId s) defs).2)
  ∨ (∃ k req ts' fl c',
       requests s !! k = Some req
       ∧ opRequest op = Some (requestId req)
       ∧ step op s
         = mkStore (<[k := mkRequest (requestId req) (originalRequest req)
                              (splitDetails req) ts' fl]> (requests s))
                   (lastRequestId s) c'
       ∧ taskStep (lastTaskId s) c' (tasks req) ts'
       ∧ (completed req = true → fl = true ∧ c' = lastTaskId s)).
Proof.
  assert (Hput : ∀ rid k req ts' fl c',
            findRequest s rid = Some (k, req) →
            taskStep (lastTaskId s) c' (tasks req) ts' →
            (completed req = true → fl = true ∧ c' = lastTaskId s) →
            ∃ k0 req0 ts0 fl0 c0,
              requests s !! k0 = Some req0
              ∧ Some rid = Some (requestId req0)
              ∧ mkStore (<[k := mkRequest (requestId req) (originalRequest req)
                                   (splitDetails req) ts' fl]> (requests s))
                        (lastRequestId s) c'
                = mkStore (<[k0 := mkRequest (requestId req0) (originalRequest req0)
                                     (splitDetails req0) ts0 fl0]> (requests s))
                          (lastRequestId s) c0
              ∧ taskStep (lastTaskId s) c0 (tasks req0) ts0
              ∧ (completed req0 = true → fl0 = true ∧ c0 = lastTaskId s)).
  { intros rid k req ts' fl c' Hf Hts Hfl. apply findRequest_Some in Hf as [Hk <-].
    by exists k, req, ts', fl, c'. }
  destruct op; simpl; try (by left).
  - (* request_planning *)
    right. left. exists originalReq, defs, details. split; [done|].
    unfold requestPlanning. by destruct (mkNewTasks (lastTaskId s) defs).
  - (* get_next_task *)
    unfold getNextTask. destruct (findRequest s rid) as [[k req]|] eqn:Hf; [|by left].
    destruct (completed req) eqn:Hc; [by left|].
    destruct (selectNext (tasks req)) as [[i next]|] eqn:Hsel.
    + case_bool_decide as Hp; [|by left]. right. right. simpl.
      eapply (Hput _ k req); [done| |by rewrite Hc].
      apply taskStep_evolves, evolves_activate; [|done].
      by apply selectNext_elem, potentialNextTasks_elem in Hsel as (Hi & _).
    + destruct (forallb isTerminal (tasks req)); [|by left]. right. right. simpl.
      eapply (Hput _ k req _ true); [done| |done].
      apply taskStep_evolves, evolves_Forall2_refl.
  - (* mark_task_done *)
    unfold markTaskDone. destruct (findRequest s rid) as [[k req]|] eqn:Hf; [|by left].
    destruct (findTask (tasks req) taskId) as [[i task]|] eqn:Ht; [|by left].
    case_bool_decide as Hd; [by left|]. case_bool_decide as Hfl; [by left|].
    right. right. simpl. apply findTask_Some in Ht as [Ht _].
    assert (Hts : Forall2 evolves (tasks req)
              (completeParent "Automatically completed as all subtasks are terminal."
                 (<[i:=markedDone details task]> (tasks req)) (markedDone details task))).
    { eapply evolves_trans; [|apply evolves_completeParent].
      eapply evolves_insert; [done|]. apply evolves_marked, isTerminal_false.
      destruct (status task); naive_solver. }
    unfold completeRequest. simpl. destruct (_ && _) eqn:E; simpl.
    + eapply (Hput _ k req); [done|by apply taskStep_evolves|done].
    + eapply (Hput _ k req); [done|by apply taskStep_evolves|done].
  - (* mark_task_failed *)
    unfold markTaskFailed. destruct (findRequest s rid) as [[k req]|] eqn:Hf; [|by left].
    destruct (findTask (tasks req) taskId) as [[i task]|] eqn:Ht; [|by left].
    case_bool_decide as Hfl; [by left|]. case_bool_decide as Hd; [by left|].
    right. right. simpl. apply findTask_Some in Ht as [Ht _].
    assert (Hts : Forall2 evolves (tasks req)
              (completeParent
                 "Automatically completed as all subtasks are terminal (some may have failed)."
                 (<[i:=markedFailed reason task]> (tasks req)) (markedFailed reason task))).
    { eapply evolves_trans; [|apply evolves_completeParent].
      eapply evolves_insert; [done|]. apply evolves_marked, isTerminal_false.
      destruct (status task); naive_solver. }
    unfold completeRequest. simpl. destruct (_ && _) eqn:E; simpl.
    + eapply (Hput _ k req); [done|by apply taskStep_evolves|done].
    + eapply (Hput _ k req); [done|by apply taskStep_evolves|done].
  - (* add_tasks_to_request *)
    unfold addTasksToRequest. destruct (findRequest s rid) as [[k req]|] eqn:Hf; [|by left].
    destruct (completed req) eqn:Hc; [by left|].
    pose proof (taskStep_app (lastTaskId s) (tasks req) defs) as Happ.
    destruct (mkNewTasks (lastTaskId s) defs) as [newTasks tc]. simpl in *.
    right. right. eapply (Hput _ k req); [done|done|by rewrite Hc].
  - (* update_task *)
    unfold updateTask. destruct (findRequest s rid) as [[k req]|] eqn:Hf; [|by left].
    destruct (findTask (tasks req) taskId) as [[i task]|] eqn:Ht; [|by left].
    destruct (isTerminal task) eqn:Hterm; [by left|]. right. right. simpl.
    apply findTask_Some in Ht as [Ht _].
    eapply (Hput _ k req); [done| |done]. apply taskStep_evolves.
    eapply evolves_insert; [done|].
    destruct (truthy newTitle), (truthy newDescription), newPriority;
      by apply evolves_same.
  - (* add_dependency *)
    unfold addDependency. destruct (findRequest s rid) as [[k req]|] eqn:Hf; [|by left].
    destruct (findTask (tasks req) taskId) as [[i task]|] eqn:Ht; [|by left].
    destruct (findTask (tasks req) dependsOnTaskId); [|by left].
    destruct (decide (taskId = dependsOnTaskId)); [by left|].
    destruct (decide (dependsOnTaskId ∈ _)); [by left|]. right. right. simpl.
    apply findTask_Some in Ht as [Ht _].
    eapply (Hput _ k req); [done| |done]. apply taskStep_evolves.
    eapply evolves_insert; [done|]. by apply evolves_same.
  - (* remove_dependency *)
    unfold removeDependency. destruct (findRequest s rid) as [[k req]|] eqn:Hf; [|by left].
    destruct (findTask (tasks req) taskId) as [[i task]|] eqn:Ht; [|by left].
    destruct (dependsOn task) as [deps|]; [|by left].
    destruct (decide (dependsOnTaskId ∈ deps)); [|by left]. right. right. simpl.
    apply findTask_Some in Ht as [Ht _].
    eapply (Hput _ k req); [done| |done]. apply taskStep_evolves.
    eapply evolves_insert; [done|]. by apply evolves_same.
  - (* delete_task *)
    unfold deleteTask. destruct (findRequest s rid) as [[k req]|] eqn:Hf; [|by left].
    destruct (findTask (tasks req) taskId); [|by left].
    pose proof (taskStep_remove (lastTaskId s) (tasks req) taskId) as Hrem.
    destruct (removeTaskAndDescendants (tasks req) taskId) as [ts' removed].
    destruct removed; [|by left]. right. right. simpl. by eapply (Hput _ k req).
  - (* add_subtask *)
    unfold addSubtask. destruct (findRequest s rid) as [[k req]|] eqn:Hf; [|by left].
    destruct (completed req) eqn:Hc; [by left|].
    destruct (findTask (tasks req) parentTaskId) as [[p parentTask]|] eqn:Ht; [|by left].
    destruct (isTerminal parentTask); [by left|]. right. right. simpl.
    eapply (Hput _ k req); [done| |by rewrite Hc].
    apply findTask_Some in Ht as [Ht Hid].
    eapply taskStep_addSubtask; [done|done|done| |done]. simpl. by rewrite Hid.
  - (* remove_subtask *)
    unfold removeSubtask. destruct (findRequest s rid) as [[k req]|] eqn:Hf; [|by left].
    destruct (findTask (tasks req) subtaskId); [|by left].
    destruct (match truthy parentTaskId with Some _ => _ | None => _ end); [|by left].
    pose proof (taskStep_remove (lastTaskId s) (tasks req) subtaskId) as Hrem.
    destruct (removeTaskAndDescendants (tasks req) subtaskId) as [ts' removed].
    destruct removed; [|by left]. right. right. simpl. by eapply (Hput _ k req).
Qed.

Lemma run_snoc ops op s : run (ops ++ [op]) s = step op (run ops s).
Proof. unfold run. by rewrite foldl_app. Qed.

Lemma step_counters op s :
  (lastTaskId s ≤ lastTaskId (step op s))%N
  ∧ (lastRequestId s ≤ lastRequestId (step op s))%N
  ∧ length (requests s) ≤ length (requests (step op s)).
Proof.
  destruct (step_cases op s) as [->|[(o & defs & d & _ & ->)|(k & req & ts' & fl & c' & _ & _ & -> & [Hc _] & _)]];
    simpl.
  - done.
  - destruct (mkNewTasks_spec (lastTaskId s) defs) as (Hle & _).
    rewrite length_app. simpl. split; [done|]. split; lia.
  - rewrite length_insert. split; [done|]. split; lia.
Qed.

Lemma run_counters ops s :
  (lastTaskId s ≤ lastTaskId (run ops s))%N
  ∧ (lastRequestId s ≤ lastRequestId (run ops s))%N
  ∧ length (requests s) ≤ length (requests (run ops s)).
Proof.
  induction ops as [|op ops IH] using rev_ind; [done|].
  rewrite run_snoc. destruct (step_counters op (run ops s)) as (? & ? & ?).
  destruct IH as (? & ? & ?). split; [lia|]. split; lia.
Qed.

(** Where a task of the state after a step comes from. *)
Lemma step_task_origin op s k r' t' :
  requests (step op s) !! k = Some r' → t' ∈ tasks r' →
  (∃ r t, requests s !! k = Some r ∧ t ∈ tasks r ∧ evolves t t')
  ∨ (∃ n, id t' = taskIdOf n ∧ (lastTaskId s < n ≤ lastTaskId (step op s))%N
          ∧ status t' = pending
          ∧ ∀ pid, parentId t' = Some pid →
              ∃ r p, requests s !! k = Some r ∧ p ∈ tasks r ∧ id p = pid).
Proof.
  destruct (step_cases op s)
    as [->|[(o & defs & d & _ & ->)|(k0 & req & ts' & fl & c' & Hk0 & _ & -> & [Hc Hts] & _)]];
    simpl; intros Hk Ht'.
  - left. exists r', t'. split; [done|]. split; [done|apply evolves_refl].
  - destruct (decide (k < length (requests s))) as [Hlt|Hge].
    + rewrite lookup_app_l in Hk by done. left. exists r', t'.
      split; [done|]. split; [done|apply evolves_refl].
    + rewrite lookup_app_r in Hk by lia.
      apply list_lookup_singleton_Some in Hk as [_ <-]. simpl in Ht'. right.
      destruct (mkNewTasks_spec (lastTaskId s) defs) as (_ & Hnew & _).
      pose proof (mkNewTasks_pending (lastTaskId s) defs) as Hpend.
      rewrite Forall_forall in Hnew, Hpend.
      destruct (Hnew t' Ht') as (n & Hn & Hr & Hpar). exists n.
      split; [done|]. split; [done|]. split; [by apply Hpend|].
      intros pid Hpid. congruence.
  - destruct (decide (k0 = k)) as [->|Hne].
    + rewrite list_lookup_insert_eq in Hk by (by eapply lookup_lt_Some).
      injection Hk as <-. simpl in Ht'.
      destruct (Hts t' Ht') as [(t & Ht & He)|(n & Hn & Hr & Hst & Hpar)].
      * left. by exists req, t.
      * right. exists n. split; [done|]. split; [done|]. split; [done|].
        intros pid Hpid. destruct (Hpar pid Hpid) as (p & Hp & Hidp). by exists req, p.
    + rewrite list_lookup_insert_ne in Hk by done. left. exists r', t'.
      split; [done|]. split; [done|apply evolves_refl].
Qed.

(** X3. An operation changes nothing in the requests other than the one
    it names: every request with another id is, after the operation, where
    it was and as it was. *)
Theorem step_other_requests op s k r :
  requests s !! k = Some r → opRequest op ≠ Some (requestId r) →
  requests (step op s) !! k = Some r.
Proof.
  intros Hk Hop.
  destruct (step_cases op s)
    as [->|[(o & defs & d & _ & ->)|(k0 & req & ts' & fl & c' & Hk0 & Hreq & -> & _)]];
    simpl.
  - done.
  - rewrite lookup_app_l; [done|]. by eapply lookup_lt_Some.
  - destruct (decide (k0 = k)) as [->|Hne].
    + rewrite Hk in Hk0. injection Hk0 as <-. done.
    + by rewrite list_lookup_insert_ne.
Qed.

Lemma step_other_requests_witness :
  let s := run [request_planning "r" [Examples.def "A" None None] None;
                request_planning "q" [Examples.def "B" None None] None] emptyStore in
  let r := mkRequest "req-1" "r" "r"
             [mkTask "task-1" "A" "" pending medium (Some []) None None None ""] false in
  requests s !! 0 = Some r
  ∧ requests (step (mark_task_done "req-2" "task-2" None) s) !! 0 = Some r.
Proof.
  intros s r. split; [reflexivity|].
  apply (step_other_requests (mark_task_done "req-2" "task-2" None) s 0 r).
  - reflexivity.
  - simpl. discriminate.
Defined.

Lemma wellFormed_task_id s k r t :
  wellFormed s → requests s !! k = Some r → t ∈ tasks r →
  ∃ n, id t = taskIdOf n ∧ (n ≤ lastTaskId s)%N.
Proof.
  intros Hs Hk Ht. pose proof (Forall_lookup_1 _ _ _ _ Hs Hk) as (_ & Hids & _).
  rewrite Forall_forall in Hids. by apply Hids.
Qed.

Lemma wellFormed_same_task s k r t t' :
  wellFormed s → requests s !! k = Some r → t ∈ tasks r → t' ∈ tasks r →
  id t' = id t → t' = t.
Proof.
  intros Hs Hk Ht Ht' Hid. pose proof (Forall_lookup_1 _ _ _ _ Hs Hk) as (Hnd & _).
  by eapply NoDup_map_id_inj.
Qed.

(** X4. The status of a task only moves forward, from pending to active
    to done or failed, whatever operations are run: a task that is done
    or failed keeps its status for as long as it exists.  Its parent is
    never changed for another: the [parentId] stays or is dropped. *)
Theorem status_moves_forward ops s k r r' t t' :
  reachable s →
  requests s !! k = Some r → requests (run ops s) !! k = Some r' →
  t ∈ tasks r → t' ∈ tasks r' → id t' = id t →
  forward (status t) (status t')
  ∧ (status t = done ∨ status t = failed → status t' = status t)
  ∧ (parentId t' = parentId t ∨ parentId t' = None).
Proof.
  intros Hs Hk Hk' Ht Ht' Hid.
  assert (Hev : evolves t t').
  2: { destruct Hev as (_ & Hfw & Hpar). split; [done|].
       split; [by apply forward_terminal|done]. }
  pose proof (reachable_wellFormed s Hs) as Hwf.
  revert r' t' Hk' Ht' Hid. induction ops as [|op ops IH] using rev_ind;
    intros r' t' Hk' Ht' Hid.
  - simpl in Hk'. rewrite Hk in Hk'. injection Hk' as <-.
    assert (t' = t) as -> by (by eapply wellFormed_same_task). apply evolves_refl.
  - rewrite run_snoc in Hk'.
    destruct (step_task_origin _ _ _ _ _ Hk' Ht')
      as [(r0 & t0 & Hk0 & Ht0 & Hev0)|(n & Hn & Hr & _)].
    + eapply evolves_trans1; [|exact Hev0].
      eapply IH; [done|done|]. destruct Hev0 as [Hid0 _]. congruence.
    + destruct (wellFormed_task_id s k r t Hwf Hk Ht) as (m & Hm & Hle).
      assert (n = m) as -> by (apply taskIdOf_inj; congruence).
      destruct (run_counters ops s) as (Hc & _). lia.
Qed.

Lemma status_moves_forward_witness :
  let t := mkTask "task-1" "A" "" done medium (Some []) None None None
             "Completed successfully" in
  forward done (status t)
  ∧ (done = done ∨ done = failed → status t = done)
  ∧ (parentId t = None ∨ parentId t = None).
Proof.
  intros t.
  set (s := run [request_planning "r" [Examples.def "A" None None] None;
                 mark_task_done "req-1" "task-1" None] emptyStore).
  apply (status_moves_forward [mark_task_failed "req-1" "task-1" None;
                               get_next_task "req-1"] s 0
           (mkRequest "req-1" "r" "r" [t] true) (mkRequest "req-1" "r" "r" [t] true) t t).
  - apply reachable_run. constructor.
  - reflexivity.
  - reflexivity.
  - apply list_elem_of_singleton. reflexivity.
  - apply list_elem_of_singleton. reflexivity.
  - reflexivity.
Defined.

(** X5. No operation removes, moves or renames a request: after any
    operations the request is at the same position, with its id, its
    original text and its split details. *)
Theorem requests_are_kept ops s k r :
  requests s !! k = Some r →
  ∃ r', requests (run ops s) !! k = Some r'
        ∧ requestId r' = requestId r
        ∧ originalRequest r' = originalRequest r
        ∧ splitDetails r' = splitDetails r.
Proof.
  intros Hk. induction ops as [|op ops IH] using rev_ind; [by exists r|].
  destruct IH as (r1 & Hk1 & Hid & Ho & Hd). rewrite run_snoc.
  destruct (step_cases op (run ops s))
    as [->|[(o & defs & d & _ & ->)|(k0 & req & ts' & fl & c' & Hk0 & _ & -> & _)]];
    simpl.
  - by exists r1.
  - exists r1. split; [|done]. rewrite lookup_app_l; [done|]. by eapply lookup_lt_Some.
  - destruct (decide (k0 = k)) as [->|Hne].
    + rewrite Hk1 in Hk0. injection Hk0 as <-. eexists.
      rewrite list_lookup_insert_eq by (by eapply lookup_lt_Some). done.
    + exists r1. by rewrite list_lookup_insert_ne.
Qed.

Lemma requests_are_kept_witness :
  ∃ r', requests (run [delete_task "req-1" "task-1"; delete_task "req-1" "task-2";
                       get_next_task "req-1"] Examples.lowHigh) !! 0 = Some r'
        ∧ requestId r' = "req-1" ∧ originalRequest r' = "r" ∧ splitDetails r' = "r".
Proof.
  apply (requests_are_kept [delete_task "req-1" "task-1"; delete_task "req-1" "task-2";
                            get_next_task "req-1"] Examples.lowHigh 0 Examples.lowHighReq).
  reflexivity.
Defined.

(** X6. Task ids are never used again, as long as the task counter stays
    below [exactBound]: an id that the counter has passed and that no
    task has, the id of a deleted task for one, is the id of no task
    after any further operations. *)
Theorem ids_never_reused ops s n :
  (lastTaskId (run ops s) < exactBound)%N →
  (n ≤ lastTaskId s)%N →
  (∀ r t, r ∈ requests s → t ∈ tasks r → id t ≠ taskIdOf n) →
  ∀ r t, r ∈ requests (run ops s) → t ∈ tasks r → id t ≠ taskIdOf n.
Proof.
  intros _ Hn Hs. induction ops as [|op ops IH] using rev_ind; [done|].
  intros r' t' [k Hk]%list_elem_of_lookup Ht' Hid. rewrite run_snoc in Hk.
  destruct (step_task_origin _ _ _ _ _ Hk Ht')
    as [(r0 & t0 & Hk0 & Ht0 & Hid0 & _)|(m & Hm & Hr & _)].
  - apply (IH r0 t0); [apply list_elem_of_lookup; eauto|done|congruence].
  - assert (m = n) as -> by (apply taskIdOf_inj; congruence).
    destruct (run_counters ops s) as (Hc & _). lia.
Qed.

Lemma ids_never_reused_witness :
  let s := (deleteTask "req-1" "task-5" Examples.deep).1 in
  let s' := run [add_tasks_to_request "req-1" [Examples.def "N" None None]] s in
  (lastTaskId s' < exactBound)%N ∧ (5 ≤ lastTaskId s)%N
  ∧ Forall (λ r, Forall (λ t, id t ≠ taskIdOf 5) (tasks r)) (requests s').
Proof.
  intros s s'. split; [reflexivity|]. split; [vm_compute; discriminate|].
  apply Forall_forall. intros r Hr. apply Forall_forall. intros t Ht. revert r t Hr Ht.
  apply (ids_never_reused _ s 5).
  - reflexivity.
  - vm_compute. discriminate.
  - intros r t Hr Ht. vm_compute in Hr.
    apply list_elem_of_singleton in Hr. subst r. vm_compute in Ht.
    repeat (apply elem_of_cons in Ht as [->|Ht]; [vm_compute; discriminate|]).
    by apply elem_of_nil in Ht.
Defined.

(** X7. A completed request stays completed: after any operations it is
    still there with its flag set, no task has been added to it, and the
    tasks it still has have the status they had. *)
Theorem completed_is_final ops s k r :
  reachable s → requests s !! k = Some r → completed r = true →
  ∃ r', requests (run ops s) !! k = Some r'
        ∧ requestId r' = requestId r
        ∧ completed r' = true
        ∧ Forall (λ t', ∃ t, t ∈ tasks r ∧ id t' = id t ∧ status t' = status t) (tasks r').
Proof.
  intros Hs Hk Hc.
  assert (Hterm : Forall (λ t, isTerminal t = true) (tasks r)).
  { pose proof (reachable_completedSound s Hs) as Hsound.
    by apply (Forall_lookup_1 _ _ _ _ Hsound Hk). }
  rewrite Forall_forall in Hterm.
  induction ops as [|op ops IH] using rev_ind.
  { exists r. split; [done|]. split; [done|]. split; [done|].
    apply Forall_forall. intros t Ht. by exists t. }
  destruct IH as (r1 & Hk1 & Hid1 & Hc1 & Hts1). rewrite Forall_forall in Hts1.
  rewrite run_snoc. set (s1 := run ops s) in *.
  destruct (step_cases op s1)
    as [->|[(o & defs & d & _ & ->)
           |(k0 & req & ts' & fl & c' & Hk0 & _ & -> & [_ Hts] & Hfl)]]; simpl.
  - exists r1. split; [done|]. split; [done|]. split; [done|]. by apply Forall_forall.
  - exists r1. split; [|split; [done|split; [done|by apply Forall_forall]]].
    rewrite lookup_app_l; [done|]. by eapply lookup_lt_Some.
  - destruct (decide (k0 = k)) as [->|Hne].
    2: { exists r1. rewrite list_lookup_insert_ne by done.
         split; [done|]. split; [done|]. split; [done|]. by apply Forall_forall. }
    rewrite Hk1 in Hk0. injection Hk0 as <-.
    destruct (Hfl Hc1) as [-> ->].
    eexists. rewrite list_lookup_insert_eq by (by eapply lookup_lt_Some).
    split; [done|]. simpl. split; [done|]. split; [done|].
    apply Forall_forall. intros t' Ht'.
    destruct (Hts t' Ht') as [(t1 & Ht1 & Hid & Hfw & _)|(n & _ & Hr & _)]; [|lia].
    destruct (Hts1 t1 Ht1) as (t & Ht & Hidt & Hst).
    exists t. split; [done|]. split; [congruence|].
    rewrite <- Hst. apply forward_terminal; [done|].
    rewrite Hst. apply isTerminal_true. by apply Hterm.
Qed.

Lemma completed_is_final_witness :
  let s := run [request_planning "r" [Examples.def "A" None None] None;
                mark_task_done "req-1" "task-1" None] emptyStore in
  let t := mkTask "task-1" "A" "" done medium (Some []) None None None
             "Completed successfully" in
  let r := mkRequest "req-1" "r" "r" [t] true in
  ∃ r', requests (run [add_tasks_to_request "req-1" [Examples.def "B" None None];
                       mark_task_failed "req-1" "task-1" None] s) !! 0 = Some r'
        ∧ requestId r' = requestId r
        ∧ completed r' = true
        ∧ Forall (λ t', ∃ t, t ∈ tasks r ∧ id t' = id t ∧ status t' = status t) (tasks r').
Proof.
  intros s t r. apply (completed_is_final _ s 0 r).
  - apply reachable_run. constructor.
  - reflexivity.
  - reflexivity.
Defined.

(** ** Request ids *)

Lemma requestIdOf_inj n m : requestIdOf n = requestIdOf m → n = m.
Proof.
  unfold requestIdOf. intros H. apply (inj (String.append "req-")) in H.
  by apply (inj pretty) in H.
Qed.

Lemma step_requests_numbered op s :
  lastRequestId s = N.of_nat (length (requests s)) →
  (∀ k r, requests s !! k = Some r → requestId r = requestIdOf (N.of_nat (S k))) →
  lastRequestId (step op s) = N.of_nat (length (requests (step op s)))
  ∧ (∀ k r, requests (step op s) !! k = Some r →
            requestId r = requestIdOf (N.of_nat (S k))).
Proof.
  intros Hlen Hnum.
  destruct (step_cases op s)
    as [->|[(o & defs & d & _ & ->)
           |(k0 & req & ts' & fl & c' & Hk0 & _ & -> & _)]]; simpl.
  - done.
  - rewrite length_app. simpl. split; [lia|]. intros k r Hk.
    destruct (decide (k < length (requests s))) as [Hlt|Hge].
    + rewrite lookup_app_l in Hk by done. by apply Hnum.
    + rewrite lookup_app_r in Hk by lia.
      apply list_lookup_singleton_Some in Hk as [Hk <-]. simpl. f_equal. lia.
  - rewrite length_insert. split; [done|]. intros k r Hk.
    destruct (decide (k0 = k)) as [->|Hne].
    + rewrite list_lookup_insert_eq in Hk by (by eapply lookup_lt_Some).
      injection Hk as <-. simpl. by apply Hnum.
    + rewrite list_lookup_insert_ne in Hk by done. by apply Hnum.
Qed.

Lemma reachable_requests_numbered s :
  reachable s →
  lastRequestId s = N.of_nat (length (requests s))
  ∧ (∀ k r, requests s !! k = Some r → requestId r = requestIdOf (N.of_nat (S k))).
Proof.
  induction 1 as [|op s _ [IH1 IH2]].
  - split; [done|]. intros k r Hk. by destruct k.
  - by apply step_requests_numbered.
Qed.

(** X8. Requests are numbered in the order of the file: the request at
    position [k] (from 0) has the id req-(k+1), the request counter is the
    number of requests, and looking a request up by its id finds it. *)
Theorem findRequest_reachable s k r :
  reachable s → requests s !! k = Some r →
  requestId r = requestIdOf (N.of_nat (S k))
  ∧ lastRequestId s = N.of_nat (length (requests s))
  ∧ findRequest s (requestId r) = Some (k, r).
Proof.
  intros Hs Hk. destruct (reachable_requests_numbered s Hs) as [Hlen Hnum].
  split; [by apply Hnum|]. split; [done|].
  apply list_find_Some. split; [done|]. split; [done|].
  intros j r0 Hj Hlt Heq. rewrite (Hnum _ _ Hj), (Hnum _ _ Hk) in Heq.
  apply requestIdOf_inj in Heq. lia.
Qed.

Lemma findRequest_reachable_witness :
  let s := run [request_planning "r" [Examples.def "A" None None] None;
                request_planning "q" [Examples.def "B" None None] None] emptyStore in
  let r := mkRequest "req-2" "q" "q"
             [mkTask "task-2" "B" "" pending medium (Some []) None None None ""] false in
  requestId r = requestIdOf (N.of_nat 2)
  ∧ lastRequestId s = N.of_nat (length (requests s))
  ∧ findRequest s (requestId r) = Some (1, r).
Proof.
  intros s r. apply (findRequest_reachable s 1 r).
  - apply reachable_run. constructor.
  - reflexivity.
Defined.

(** ** Task ids across requests *)

Lemma step_ids_across op s :
  wellFormed s →
  (∀ k1 k2 r1 r2 t1 t2,
     requests s !! k1 = Some r1 → requests s !! k2 = Some r2 →
     t1 ∈ tasks r1 → t2 ∈ tasks r2 → id t1 = id t2 → k1 = k2) →
  ∀ k1 k2 r1 r2 t1 t2,
    requests (step op s) !! k1 = Some r1 → requests (step op s) !! k2 = Some r2 →
    t1 ∈ tasks r1 → t2 ∈ tasks r2 → id t1 = id t2 → k1 = k2.
Proof.
  intros Hwf IH k1 k2 r1 r2 t1 t2 Hk1 Hk2 Ht1 Ht2 Hid.
  assert (Hlen : ∀ k r, requests (step op s) !! k = Some r →
            k < length (requests s)
            ∨ (k = length (requests s) ∧ ∀ t, t ∈ tasks r →
                 ∃ n, id t = taskIdOf n ∧ (lastTaskId s < n)%N)).
  { intros k r Hk.
    destruct (step_cases op s)
      as [Heq|[(o & defs & d & _ & Heq)
             |(k0 & req & ts' & fl & c' & Hk0 & _ & Heq & _)]];
      rewrite Heq in Hk; simpl in Hk.
    - left. by eapply lookup_lt_Some.
    - destruct (decide (k < length (requests s))) as [Hlt|Hge]; [by left|]. right.
      rewrite lookup_app_r in Hk by lia.
      apply list_lookup_singleton_Some in Hk as [Hk <-]. split; [lia|]. simpl.
      intros t Ht. destruct (mkNewTasks_spec (lastTaskId s) defs) as (_ & Hnew & _).
      rewrite Forall_forall in Hnew. destruct (Hnew t Ht) as (n & Hn & Hr & _).
      exists n. split; [done|lia].
    - left. apply lookup_lt_Some in Hk. by rewrite length_insert in Hk. }
  destruct (step_task_origin _ _ _ _ _ Hk1 Ht1)
    as [(q1 & u1 & Hq1 & Hu1 & Hid1 & _)|(n1 & Hn1 & Hr1 & _)];
  destruct (step_task_origin _ _ _ _ _ Hk2 Ht2)
    as [(q2 & u2 & Hq2 & Hu2 & Hid2 & _)|(n2 & Hn2 & Hr2 & _)].
  - apply (IH k1 k2 q1 q2 u1 u2); [done..|congruence].
  - destruct (wellFormed_task_id s k1 q1 u1 Hwf Hq1 Hu1) as (m & Hm & Hle).
    assert (n2 = m) as -> by (apply taskIdOf_inj; congruence). lia.
  - destruct (wellFormed_task_id s k2 q2 u2 Hwf Hq2 Hu2) as (m & Hm & Hle).
    assert (n1 = m) as -> by (apply taskIdOf_inj; congruence). lia.
  - (* both are new: they are in the one request that the step writes *)
    assert (Hold : ∀ k r t n, requests (step op s) !! k = Some r → t ∈ tasks r →
              id t = taskIdOf n → (lastTaskId s < n)%N →
              requests s !! k = Some r → False).
    { intros k r t n _ Ht Hn Hlt Hk.
      destruct (wellFormed_task_id s k r t Hwf Hk Ht) as (m & Hm & Hle).
      assert (n = m) as -> by (apply taskIdOf_inj; congruence). lia. }
    destruct (step_cases op s)
      as [Heq|[(o & defs & d & _ & Heq)
             |(k0 & req & ts' & fl & c' & Hk0 & _ & Heq & _)]].
    + destruct (Hold k1 r1 t1 n1 Hk1 Ht1 Hn1); [lia|]. by rewrite Heq in Hk1.
    + destruct (decide (k1 < length (requests s))) as [Hlt1|Hge1].
      { destruct (Hold k1 r1 t1 n1 Hk1 Ht1 Hn1); [lia|].
        rewrite Heq in Hk1. simpl in Hk1. by rewrite lookup_app_l in Hk1. }
      destruct (decide (k2 < length (requests s))) as [Hlt2|Hge2].
      { destruct (Hold k2 r2 t2 n2 Hk2 Ht2 Hn2); [lia|].
        rewrite Heq in Hk2. simpl in Hk2. by rewrite lookup_app_l in Hk2. }
      destruct (Hlen _ _ Hk1) as [?|[-> _]]; [lia|].
      destruct (Hlen _ _ Hk2) as [?|[-> _]]; [lia|]. done.
    + destruct (decide (k1 = k0)) as [->|Hne1].
      2: { destruct (Hold k1 r1 t1 n1 Hk1 Ht1 Hn1); [lia|].
           rewrite Heq in Hk1. simpl in Hk1. by rewrite list_lookup_insert_ne in Hk1. }
      destruct (decide (k2 = k0)) as [->|Hne2]; [done|].
      destruct (Hold k2 r2 t2 n2 Hk2 Ht2 Hn2); [lia|].
      rewrite Heq in Hk2. simpl in Hk2. by rewrite list_lookup_insert_ne in Hk2.
Qed.

Lemma reachable_ids_across s :
  reachable s →
  ∀ k1 k2 r1 r2 t1 t2,
    requests s !! k1 = Some r1 → requests s !! k2 = Some r2 →
    t1 ∈ tasks r1 → t2 ∈ tasks r2 → id t1 = id t2 → k1 = k2.
Proof.
  induction 1 as [|op s Hs IH].
  - intros k1 k2 r1 r2 t1 t2 Hk1. by destruct k1.
  - apply step_ids_across; [by apply reachable_wellFormed|done].
Qed.

(** X9. A task id is the id of one task in the whole file, so
    [openTaskDetails] finds every task by its id, whichever request it is
    in, and reports it with that request. *)
Theorem taskDetails_finds s k r t :
  reachable s → requests s !! k = Some r → t ∈ tasks r →
  taskDetails (id t) s = Some (r, t)
  ∧ openTaskDetails (id t) s = replyWith task_details t.
Proof.
  intros Hs Hk Ht. pose proof (reachable_wellFormed s Hs) as Hwf.
  assert (Hhas : is_Some (findTask (tasks r) (id t))).
  { apply findTask_is_Some. by exists t. }
  assert (Hfind : list_find (λ r0, is_Some (findTask (tasks r0) (id t))) (requests s)
                  = Some (k, r)).
  { apply list_find_Some. split; [done|]. split; [done|].
    intros j r0 Hj Hlt Hsome. apply findTask_is_Some in Hsome as (t0 & Ht0 & Hid0).
    pose proof (reachable_ids_across s Hs j k r0 r t0 t Hj Hk Ht0 Ht Hid0). lia. }
  destruct Hhas as [[i t0] Hi]. pose proof Hi as Hi'.
  apply findTask_Some in Hi' as [Hl Hid0].
  assert (t0 = t) as ->.
  { eapply wellFormed_same_task; [done|done|done| |done]. apply list_elem_of_lookup. eauto. }
  unfold taskDetails, openTaskDetails. by rewrite Hfind, Hi.
Qed.

Lemma taskDetails_finds_witness :
  let s := run [request_planning "r" [Examples.def "A" None None] None;
                request_planning "q" [Examples.def "B" None None] None] emptyStore in
  let t := mkTask "task-2" "B" "" pending medium (Some []) None None None "" in
  let r := mkRequest "req-2" "q" "q" [t] false in
  taskDetails (id t) s = Some (r, t)
  ∧ openTaskDetails (id t) s = replyWith task_details t.
Proof.
  intros s t r. apply (taskDetails_finds s 1 r t).
  - apply reachable_run. constructor.
  - reflexivity.
  - apply list_elem_of_singleton. reflexivity.
Defined.

(** ** Operations one after the other *)

Lemma list_find_insert_same {A} (P : A → Prop) `{∀ x, Decision (P x)} (l : list A) i x y :
  list_find P l = Some (i, x) → P y → list_find P (<[i := y]> l) = Some (i, y).
Proof.
  intros Hfind Hy. apply list_find_Some in Hfind as (Hi & Hx & Hbefore).
  apply list_find_Some. split; [|split; [done|]].
  - apply list_lookup_insert_eq. by eapply lookup_lt_Some.
  - intros j z Hj Hlt. rewrite list_lookup_insert_ne in Hj by lia. by eapply Hbefore.
Qed.

Lemma findRequest_putRequest s rid k req req' :
  findRequest s rid = Some (k, req) → requestId req' = requestId req →
  findRequest (putRequest k req' s) rid = Some (k, req').
Proof.
  intros Hf Hid. unfold findRequest, putRequest. simpl.
  eapply list_find_insert_same; [exact Hf|].
  apply findRequest_Some in Hf as [_ Hr]. congruence.
Qed.

Lemma findTask_insert ts taskId i t t' :
  findTask ts taskId = Some (i, t) → id t' = id t →
  findTask (<[i := t']> ts) taskId = Some (i, t').
Proof.
  intros Hf Hid. unfold findTask. eapply list_find_insert_same; [exact Hf|].
  apply findTask_Some in Hf as [_ Ht]. congruence.
Qed.

Lemma findTask_evolves ts ts' taskId i t :
  Forall2 evolves ts ts' → findTask ts taskId = Some (i, t) →
  ∃ t', findTask ts' taskId = Some (i, t') ∧ evolves t t'.
Proof.
  intros H2 Hf. apply list_find_Some in Hf as (Hi & Hid & Hbefore).
  destruct (Forall2_lookup_l _ _ _ _ _ H2 Hi) as (t' & Hi' & He).
  exists t'. split; [|done]. apply list_find_Some. split; [done|].
  split; [destruct He; congruence|].
  intros j z Hj Hlt Hz.
  destruct (Forall2_lookup_r _ _ _ _ _ H2 Hj) as (z0 & Hj0 & (Hidz & _)).
  apply (Hbefore j z0 Hj0 Hlt). congruence.
Qed.

Lemma putRequest_putRequest k r1 r2 s :
  putRequest k r2 (putRequest k r1 s) = putRequest k r2 s.
Proof. unfold putRequest, setRequests. simpl. by rewrite list_insert_insert_eq. Qed.

Lemma putRequest_same s k req :
  requests s !! k = Some req → putRequest k req s = s.
Proof.
  intros Hk. unfold putRequest, setRequests. rewrite list_insert_id by done.
  by destruct s.
Qed.

Lemma filter_ne_snoc (deps : list string) b :
  b ∉ deps → filter (λ x, x ≠ b) (deps ++ [b]) = deps.
Proof.
  intros Hb. rewrite filter_app, filter_cons, decide_False by (intros ?; done).
  rewrite filter_nil, app_nil_r. induction deps as [|d deps IH]; [done|].
  apply not_elem_of_cons in Hb as [Hne Hb].
  rewrite filter_cons, decide_True by done. by rewrite IH.
Qed.

(** X10. After [addDependency] has added a dependency, adding it again
    changes nothing and replies [no_change], and [removeDependency] takes
    it out again: the file is then as before the two calls, except that a
    [dependsOn] that was the empty list is now absent. *)
Theorem addDependency_then rid a b s k req i task :
  findRequest s rid = Some (k, req) →
  findTask (tasks req) a = Some (i, task) →
  tag (addDependency rid a b s).2 = dependency_added →
  let s1 := (addDependency rid a b s).1 in
  addDependency rid a b s1 = (s1, reply no_change)
  ∧ removeDependency rid a b s1
    = (putRequest k (setTasks (<[i := setDependsOn (orDelete (default [] (dependsOn task)))
                                       task]> (tasks req)) req) s,
       reply dependency_removed)
  ∧ (dependsOn task ≠ Some [] → (removeDependency rid a b s1).1 = s).
Proof.
  intros Hf Ht Htag.
  assert (Hs1 : a ≠ b ∧ (b ∉ default [] (dependsOn task))
                ∧ is_Some (findTask (tasks req) b)
                ∧ (addDependency rid a b s).1
                  = putRequest k (setTasks (<[i := setDependsOn
                       (Some (default [] (dependsOn task) ++ [b])) task]> (tasks req)) req) s).
  { revert Htag. unfold addDependency. rewrite Hf, Ht.
    destruct (findTask (tasks req) b) as [rb|]; [|done].
    destruct (decide (a = b)); [done|].
    destruct (decide (b ∈ default [] (dependsOn task))); [done|]. simpl. by eauto. }
  destruct Hs1 as (Hab & Hnb & Hb & Hs1). simpl. rewrite Hs1.
  set (deps := default [] (dependsOn task)) in *.
  set (task1 := setDependsOn (Some (deps ++ [b])) task).
  set (ts1 := <[i := task1]> (tasks req)).
  assert (Hf1 : findRequest (putRequest k (setTasks ts1 req) s) rid
                = Some (k, setTasks ts1 req))
    by (by apply (findRequest_putRequest s rid k req)).
  assert (Ht1 : findTask ts1 a = Some (i, task1))
    by (by apply (findTask_insert _ _ _ task)).
  assert (Hb1 : is_Some (findTask ts1 b)).
  { apply findTask_is_Some. apply findTask_is_Some in Hb as (tb & [j Hj]%list_elem_of_lookup & Hidb).
    exists tb. split; [|done]. apply list_elem_of_lookup. exists j.
    unfold ts1. rewrite list_lookup_insert_ne; [done|]. intros ->.
    apply findTask_Some in Ht as [Hi Hida]. congruence. }
  assert (Hrem : removeDependency rid a b (putRequest k (setTasks ts1 req) s)
                 = (putRequest k (setTasks (<[i := setDependsOn (orDelete deps) task]>
                                              (tasks req)) req) s,
                    reply dependency_removed)).
  { unfold removeDependency. rewrite Hf1. simpl. rewrite Ht1. simpl.
    rewrite decide_True by (apply elem_of_app; right; by apply list_elem_of_singleton).
    rewrite filter_ne_snoc by done. unfold ts1.
    rewrite list_insert_insert_eq. rewrite putRequest_putRequest. done. }
  split; [|split; [exact Hrem|]].
  - unfold addDependency. rewrite Hf1. simpl. rewrite Ht1.
    destruct Hb1 as [rb ->]. rewrite decide_False by done.
    rewrite decide_True; [done|]. simpl. apply elem_of_app. right.
    by apply list_elem_of_singleton.
  - intros Hne. rewrite Hrem. cbn [fst].
    apply findRequest_Some in Hf as [Hk _]. apply findTask_Some in Ht as [Hi _].
    assert (setDependsOn (orDelete deps) task = task) as ->.
    { unfold deps. destruct task as [? ? ? ? ? [[|d l]|] ? ? ? ?]; simpl in *; done. }
    rewrite list_insert_id by done.
    assert (setTasks (tasks req) req = req) as -> by (by destruct req).
    by apply putRequest_same.
Qed.

Lemma addDependency_then_witness :
  (removeDependency "req-1" "task-5" "task-2"
     (addDependency "req-1" "task-5" "task-2" Examples.deep).1).1 = Examples.deep.
Proof.
  destruct (addDependency_then "req-1" "task-5" "task-2" Examples.deep 0
              (mkRequest "req-1" "r" "r" Examples.deepTasks false) 4
              (mkTask "task-5" "e" "" pending low (Some ["task-3"; "task-1"])
                 None None None ""))
    as (_ & _ & H).
  - reflexivity.
  - reflexivity.
  - reflexivity.
  - apply H. discriminate.
Defined.

(** The state after [markTaskDone] or [markTaskFailed] has marked a task. *)
Lemma markTask_after rid taskId s k req i task task' details :
  findRequest s rid = Some (k, req) →
  findTask (tasks req) taskId = Some (i, task) →
  id task' = id task → status task' = done ∨ status task' = failed →
  let s1 := putRequest k (completeRequest
              (setTasks (completeParent details (<[i := task']> (tasks req)) task') req)) s in
  ∃ req1 t1, findRequest s1 rid = Some (k, req1)
             ∧ findTask (tasks req1) taskId = Some (i, t1)
             ∧ status t1 = status task'.
Proof.
  intros Hf Ht Hid Hst s1.
  set (ts2 := completeParent details (<[i := task']> (tasks req)) task') in *.
  assert (Ht1 : findTask (<[i := task']> (tasks req)) taskId = Some (i, task'))
    by (by apply (findTask_insert _ _ _ task)).
  destruct (findTask_evolves _ ts2 _ _ _ (evolves_completeParent details _ task') Ht1)
    as (t1 & Ht2 & _ & Hfw & _).
  exists (completeRequest (setTasks ts2 req)), t1. split; [|split].
  - apply (findRequest_putRequest s rid k req); [done|].
    unfold completeRequest. by destruct (_ && _).
  - unfold completeRequest. by destruct (_ && _).
  - by apply forward_terminal.
Qed.

(** X11. Once [markTaskDone] or [markTaskFailed] has marked a task, the
    task is closed: marking it again either way changes nothing and
    replies [already_done] or [already_failed], according to the first
    mark, and [updateTask] and [addSubtask] on it are refused. *)
Theorem markTask_is_final rid taskId s s1 fin :
  (∃ d, s1 = (markTaskDone rid taskId d s).1
        ∧ tag (markTaskDone rid taskId d s).2 = task_marked_done ∧ fin = already_done)
  ∨ (∃ r, s1 = (markTaskFailed rid taskId r s).1
          ∧ tag (markTaskFailed rid taskId r s).2 = task_marked_failed
          ∧ fin = already_failed) →
  (∀ d, markTaskDone rid taskId d s1 = (s1, reply fin))
  ∧ (∀ r, markTaskFailed rid taskId r s1 = (s1, reply fin))
  ∧ (∀ a b c, updateTask rid taskId a b c s1 = (s1, reply error))
  ∧ (∀ a b c d, addSubtask rid taskId a b c d s1 = (s1, reply error)).
Proof.
  intros Hop.
  assert (Hafter : ∃ k req1 i t1,
            findRequest s1 rid = Some (k, req1)
            ∧ findTask (tasks req1) taskId = Some (i, t1)
            ∧ ((status t1 = done ∧ fin = already_done)
               ∨ (status t1 = failed ∧ fin = already_failed))).
  { destruct Hop as [(d & -> & Htag & ->)|(r & -> & Htag & ->)].
    - revert Htag. unfold markTaskDone.
      destruct (findRequest s rid) as [[k req]|] eqn:Hf; [|done].
      destruct (findTask (tasks req) taskId) as [[i task]|] eqn:Ht; [|done].
      case_bool_decide; [done|]. case_bool_decide; [done|]. intros _. cbn [fst].
      destruct (markTask_after rid taskId s k req i task (markedDone d task)
                  "Automatically completed as all subtasks are terminal." Hf Ht)
        as (req1 & t1 & H1 & H2 & H3); [done|by left|].
      exists k, req1, i, t1. split; [done|]. split; [done|]. left. by rewrite H3.
    - revert Htag. unfold markTaskFailed.
      destruct (findRequest s rid) as [[k req]|] eqn:Hf; [|done].
      destruct (findTask (tasks req) taskId) as [[i task]|] eqn:Ht; [|done].
      case_bool_decide; [done|]. case_bool_decide; [done|]. intros _. cbn [fst].
      destruct (markTask_after rid taskId s k req i task (markedFailed r task)
                  "Automatically completed as all subtasks are terminal (some may have failed)."
                  Hf Ht)
        as (req1 & t1 & H1 & H2 & H3); [done|by right|].
      exists k, req1, i, t1. split; [done|]. split; [done|]. right. by rewrite H3. }
  destruct Hafter as (k & req1 & i & t1 & Hf1 & Ht1 & Hst).
  split; [|split; [|split]].
  - intros d. unfold markTaskDone. rewrite Hf1, Ht1.
    destruct Hst as [[Hst ->]|[Hst ->]]; rewrite Hst; done.
  - intros r. unfold markTaskFailed. rewrite Hf1, Ht1.
    destruct Hst as [[Hst ->]|[Hst ->]]; rewrite Hst; done.
  - intros a b c. unfold updateTask. rewrite Hf1, Ht1.
    assert (isTerminal t1 = true) as ->; [|done].
    apply isTerminal_true. destruct Hst as [[Hst _]|[Hst _]]; auto.
  - intros a b c d. unfold addSubtask. rewrite Hf1. destruct (completed req1); [done|].
    rewrite Ht1.
    assert (isTerminal t1 = true) as ->; [|done].
    apply isTerminal_true. destruct Hst as [[Hst _]|[Hst _]]; auto.
Qed.

Lemma markTask_is_final_witness :
  let s1 := (markTaskFailed "req-1" "task-2" (Some "no") Examples.lowHigh).1 in
  markTaskDone "req-1" "task-2" None s1 = (s1, reply already_failed)
  ∧ updateTask "req-1" "task-2" (Some "C") None None s1 = (s1, reply error).
Proof.
  intros s1.
  destruct (markTask_is_final "req-1" "task-2" Examples.lowHigh s1 already_failed)
    as (H1 & _ & H2 & _).
  - right. exists (Some "no"). split; [reflexivity|]. split; reflexivity.
  - split; [apply H1|apply H2].
Defined.

(** ** get_next_task when the ids are distinct *)

Lemma mkTaskMap_NoDup_lookup ts i t :
  NoDup (map id ts) → ts !! i = Some t → mkTaskMap ts !! id t = Some (i, t).
Proof.
  intros Hnd Hi.
  assert (is_Some (mkTaskMap ts !! id t)) as [[j t'] Hj].
  { apply mkTaskMap_is_Some. exists t. split; [|done]. apply list_elem_of_lookup. eauto. }
  rewrite Hj. apply mkTaskMap_lookup_Some in Hj as [Hj Hid].
  assert (j = i) as ->.
  { eapply NoDup_lookup; [exact Hnd| |].
    - by rewrite list_lookup_fmap, Hj.
    - rewrite list_lookup_fmap, Hi. simpl. by rewrite Hid. }
  congruence.
Qed.

Lemma areDependenciesMet_false ts task :
  areDependenciesMet ts task = false →
  ∃ depId, depId ∈ default [] (dependsOn task)
           ∧ ∀ j depTask, mkTaskMap ts !! depId = Some (j, depTask) → status depTask ≠ done.
Proof.
  unfold areDependenciesMet. destruct (dependsOn task) as [deps|]; [|done]. simpl.
  induction deps as [|d deps IH]; [done|]. simpl. intros H.
  apply andb_false_iff in H as [H|H].
  - exists d. split; [by left|]. intros j depTask Hl. rewrite Hl in H.
    by apply bool_decide_eq_false in H.
  - destruct (IH H) as (x & Hx & Hn). exists x. split; [by right|done].
Qed.

(** X12. In a state that the operations reach, [getNextTask] replies
    [no_actionable_task] only when every pending task of the request is
    held back by a dependency that is not done (or is the id of no task);
    the file is left as it is, and some task is not terminal. *)
Theorem getNextTask_no_actionable rid s k req :
  reachable s → findRequest s rid = Some (k, req) →
  tag (getNextTask rid s).2 = no_actionable_task →
  (getNextTask rid s).1 = s
  ∧ (∃ t, t ∈ tasks req ∧ isTerminal t = false)
  ∧ ∀ t, t ∈ tasks req → status t = pending →
      ∃ depId, depId ∈ default [] (dependsOn t)
               ∧ ∀ dep, dep ∈ tasks req → id dep = depId → status dep ≠ done.
Proof.
  intros Hs Hf Htag. pose proof (reachable_wellFormed s Hs) as Hwf.
  pose proof (wellFormed_findRequest _ _ _ _ Hwf Hf) as (Hnd & _ & Hlink).
  rewrite Forall_forall in Hlink.
  revert Htag. unfold getNextTask. rewrite Hf.
  destruct (completed req); [done|].
  destruct (selectNext (tasks req)) as [r|] eqn:Hsel; [by case_bool_decide|].
  destruct (forallb isTerminal (tasks req)) eqn:Hall; [done|]. intros _.
  split; [done|]. split.
  { assert (¬ Forall (λ t, isTerminal t = true) (tasks req)) as Hn.
    { rewrite <- forallb_isTerminal. congruence. }
    apply not_Forall_Exists in Hn; [|intros t; apply _].
    apply Exists_exists in Hn as (t & Ht & Hnt). exists t. split; [done|].
    simpl in Hnt. by destruct (isTerminal t). }
  apply selectNext_None in Hsel. unfold potentialNextTasks in Hsel.
  destruct (passA (tasks req)) as [|? ?] eqn:HA; [|done].
  intros t Ht Hpend. apply list_elem_of_lookup in Ht as [i Hi].
  pose proof (mkTaskMap_NoDup_lookup _ _ _ Hnd Hi) as Hmap.
  destruct (areDependenciesMet (tasks req) t) eqn:Hdeps.
  - exfalso. destruct (parentIsActive (tasks req) t) eqn:Hpa.
    + (* the parent is active and lists the task: the first pass has it *)
      unfold parentIsActive, parentRef in Hpa.
      destruct (truthy (parentId t)) as [pid|] eqn:Hpid; [|done].
      destruct (mkTaskMap (tasks req) !! pid) as [[p parent]|] eqn:Hp; [|done].
      apply bool_decide_eq_true in Hpa.
      apply mkTaskMap_lookup_Some in Hp as [Hp Hidp].
      assert (Ht : t ∈ tasks req) by (apply list_elem_of_lookup; eauto).
      destruct (Hlink t Ht pid Hpid) as (parent0 & Hin0 & Hid0 & Hsub).
      assert (parent0 = parent) as ->.
      { eapply NoDup_map_id_inj; [exact Hnd|done| |congruence].
        apply list_elem_of_lookup. eauto. }
      assert (Hin : (i, t) ∈ passA (tasks req)).
      { unfold passA. apply list_elem_of_In, in_flat_map. exists parent. split.
        - apply list_elem_of_In, list_elem_of_filter. split; [|done].
          split; [done|]. intros Hnil. rewrite Hnil in Hsub. by apply elem_of_nil in Hsub.
        - apply in_flat_map. exists (id t). split; [by apply list_elem_of_In|].
          rewrite Hmap, Hdeps. rewrite bool_decide_eq_true_2 by done. simpl. by left. }
      rewrite HA in Hin. by apply elem_of_nil in Hin.
    + assert (Hin : (i, t) ∈ passB (tasks req)).
      { unfold passB. apply list_elem_of_filter. split; [|by apply elem_of_refs].
        simpl. unfold passBKeep. rewrite Hpa, Hdeps.
        by rewrite (bool_decide_eq_true_2 (status t = pending)). }
      rewrite Hsel in Hin. by apply elem_of_nil in Hin.
  - destruct (areDependenciesMet_false _ _ Hdeps) as (depId & Hin & Hno).
    exists depId. split; [done|]. intros dep [j Hj]%list_elem_of_lookup Hid.
    apply (Hno j). rewrite <- Hid. by apply mkTaskMap_NoDup_lookup.
Qed.

Lemma getNextTask_no_actionable_witness :
  let s := run [request_planning "r" [Examples.def "A" None (Some ["task-1"])] None]
               emptyStore in
  (getNextTask "req-1" s).1 = s.
Proof.
  intros s.
  destruct (getNextTask_no_actionable "req-1" s 0
              (mkRequest "req-1" "r" "r"
                 [mkTask "task-1" "A" "" pending medium (Some ["task-1"]) None None None ""]
                 false))
    as (H & _).
  - apply reachable_run. constructor.
  - reflexivity.
  - reflexivity.
  - exact H.
Defined.

(** X13. [getNextTask] returns no done or failed task: the task of the
    reply is active, it is a task of the request that was pending or
    active, and none of its dependencies is its own id when the ids of
    the request are distinct. *)
Theorem getNextTask_returns_active rid s x :
  replyTask (getNextTask rid s).2 = Some x →
  status x = active
  ∧ ∃ k req i t,
      findRequest s rid = Some (k, req) ∧ tasks req !! i = Some t
      ∧ (status t = pending ∨ status t = active) ∧ x = setStatus active t
      ∧ (∃ req', requests (getNextTask rid s).1 !! k = Some req' ∧ tasks req' !! i = Some x)
      ∧ (NoDup (map id (tasks req)) → id x ∉ default [] (dependsOn x)).
Proof.
  unfold getNextTask. destruct (findRequest s rid) as [[k req]|] eqn:Hf; [|done].
  destruct (completed req); [done|].
  destruct (selectNext (tasks req)) as [[i next]|] eqn:Hsel.
  2: { by destruct (forallb isTerminal (tasks req)). }
  pose proof Hsel as Hel.
  apply selectNext_elem, potentialNextTasks_elem in Hel as (Hi & Hst & Hdeps).
  simpl in Hi, Hst, Hdeps.
  assert (Hself : NoDup (map id (tasks req)) → id next ∉ default [] (dependsOn next)).
  { intros Hnd Hin. rewrite areDependenciesMet_true in Hdeps.
    destruct (Hdeps _ Hin) as (j & dep & Hl & Hdone).
    rewrite (mkTaskMap_NoDup_lookup _ _ _ Hnd Hi) in Hl. injection Hl as <- <-.
    destruct Hst; congruence. }
  pose proof (findRequest_Some _ _ _ _ Hf) as [Hk _].
  case_bool_decide as Hp; simpl; intros [= <-].
  - split; [done|]. exists k, req, i, next. split; [done|]. split; [done|].
    split; [done|]. split; [done|]. split; [|done].
    eexists. split; [apply list_lookup_insert_eq; by eapply lookup_lt_Some|].
    simpl. unfold activate. simpl. rewrite list_lookup_alter, decide_True by done.
    unfold activateParent. destruct (parentRef (tasks req) next) as [[p parent]|] eqn:Ep.
    + case_bool_decide as Hpp.
      * rewrite list_lookup_alter. case_decide as Hpi.
        -- subst p. pose proof (parentRef_lookup _ _ _ _ Ep) as Hl.
           rewrite Hi. simpl. done.
        -- by rewrite Hi.
      * by rewrite Hi.
    + by rewrite Hi.
  - destruct Hst as [?|Ha]; [done|]. split; [done|].
    exists k, req, i, next. split; [done|]. split; [done|]. split; [by right|].
    split; [by rewrite <- Ha, setStatus_same|]. split; [|done].
    exists req. done.
Qed.

Lemma getNextTask_returns_active_witness :
  let x := mkTask "task-2" "B" "" active high (Some []) None None None "" in
  status x = active
  ∧ ∃ k req i t,
      findRequest Examples.lowHigh "req-1" = Some (k, req) ∧ tasks req !! i = Some t
      ∧ (status t = pending ∨ status t = active) ∧ x = setStatus active t
      ∧ (∃ req', requests (getNextTask "req-1" Examples.lowHigh).1 !! k = Some req'
                 ∧ tasks req' !! i = Some x)
      ∧ (NoDup (map id (tasks req)) → id x ∉ default [] (dependsOn x)).
Proof.
  intros x. apply (getNextTask_returns_active "req-1" Examples.lowHigh x). reflexivity.
Defined.

(** ** Deleting and the dependencies *)

Lemma danglingIssues_nil ts : danglingIssues ts = [] ↔ noDangling ts.
Proof.
  split.
  - intros Hnil t d Ht Hd.
    destruct (decide (is_Some (mkTaskMap ts !! d))) as [Hs|Hs].
    + by apply mkTaskMap_is_Some in Hs.
    + assert (Hin : danglingIssue (id t) d ∈ danglingIssues ts).
      { apply danglingIssues_elem. exists t, d. split; [done|]. split; [done|].
        split; [|done]. by rewrite <- mkTaskMap_is_Some. }
      rewrite Hnil in Hin. by apply elem_of_nil in Hin.
  - intros Hno. destruct (danglingIssues ts) as [|x l] eqn:E; [done|].
    assert (Hin : x ∈ danglingIssues ts) by (rewrite E; by left).
    apply danglingIssues_elem in Hin as (t & d & Ht & Hd & Hn & _).
    destruct Hn. by eapply Hno.
Qed.

(** X14. The cascading delete leaves no dangling dependency behind: if
    every dependency of every task is the id of a task before
    [removeTaskAndDescendants], so it is after, and [validateDependencies]
    has no [non-existent task] issue to report. *)
Theorem removeTaskAndDescendants_no_dangling ts root :
  danglingIssues ts = [] →
  danglingIssues (removeTaskAndDescendants ts root).1 = [].
Proof.
  rewrite !danglingIssues_nil. intros Hno.
  destruct (mkTaskMap ts !! root) as [r|] eqn:Hr.
  2: { by rewrite removeTaskAndDescendants_absent. }
  destruct (removeTaskAndDescendants_unfold ts root) as (D & _ & ->); [by eauto|].
  simpl. intros t' d Ht' Hd.
  apply list_elem_of_fmap in Ht' as (t1 & -> & Hin).
  apply list_elem_of_filter in Hin as [_ Hin].
  apply list_elem_of_lookup in Hin as [j Hj].
  assert (is_Some (ts !! j)) as [t Ht].
  { apply lookup_lt_is_Some. rewrite <- (length_unlinkFromParent ts root).
    by eapply lookup_lt_Some. }
  destruct (unlinkFromParent_lookup ts root j t Ht) as (t1' & H1 & H2 & _).
  rewrite Hj in H1. injection H1 as <-.
  destruct (cleanUp_spec D t1) as (_ & C2 & _).
  rewrite C2 in Hd. apply list_elem_of_filter in Hd as [HdD Hd].
  assert (Hd' : d ∈ default [] (dependsOn t)) by (by rewrite H2 in Hd).
  destruct (Hno t d) as (t0 & Ht0 & Hid0); [apply list_elem_of_lookup; eauto|done|].
  destruct (removeTaskAndDescendants_survivor ts root D t0 Ht0)
    as (t0' & Hin' & Heq' & _); [by rewrite Hid0|].
  exists t0'. split; [done|]. rewrite Heq'. done.
Qed.

Lemma removeTaskAndDescendants_no_dangling_witness :
  danglingIssues (removeTaskAndDescendants Examples.deepTasks "task-2").1 = [].
Proof.
  apply (removeTaskAndDescendants_no_dangling Examples.deepTasks "task-2").
  reflexivity.
Defined.

(** ** Ids and counters *)

Lemma replaceFirst_requestIdOf n : replaceFirst "req-" "" (requestIdOf n) = pretty n.
Proof.
  unfold requestIdOf.
  change ("req-" +:+ pretty n) with (String "r" (String "e" (String "q" (String "-" (pretty n))))).
  cbn -[pretty String.substring String.length].
  assert (String.prefix "" (pretty n) = true) as -> by (by destruct (pretty n)).
  cbn -[pretty]. rewrite Nat.sub_0_r. apply substring_all.
Qed.

Lemma parseInt_taskIdOf n :
  parseInt (replaceFirst "task-" "" (taskIdOf n)) = Some (Z.of_N n).
Proof. by rewrite replaceFirst_taskIdOf, parseInt_pretty. Qed.

Lemma parseInt_requestIdOf n :
  parseInt (replaceFirst "req-" "" (requestIdOf n)) = Some (Z.of_N n).
Proof. by rewrite replaceFirst_requestIdOf, parseInt_pretty. Qed.

(** X15. The ids that the counters make are read back as the counters,
    for a counter below [exactBound]: [parseInt] of [task-n] without its
    prefix is [n], and the same for [req-n]. *)
Theorem counter_ids_roundtrip (n : N) :
  (n < exactBound)%N →
  parseInt (replaceFirst "task-" "" (taskIdOf n)) = Some (Z.of_N n)
  ∧ parseInt (replaceFirst "req-" "" (requestIdOf n)) = Some (Z.of_N n).
Proof. intros _. split; [apply parseInt_taskIdOf|apply parseInt_requestIdOf]. Qed.

Lemma counter_ids_roundtrip_witness :
  (1207 < exactBound)%N
  ∧ parseInt (replaceFirst "task-" "" "task-1207") = Some 1207%Z
  ∧ parseInt (replaceFirst "req-" "" "req-1207") = Some 1207%Z.
Proof.
  split; [reflexivity|]. apply (counter_ids_roundtrip 1207). reflexivity.
Defined.

Lemma maxOrZero_spec (l : list Z) :
  (l = [] ∧ maxOrZero l = 0%Z)
  ∨ (maxOrZero l ∈ l ∧ ∀ x, x ∈ l → (x ≤ maxOrZero l)%Z).
Proof.
  destruct l as [|x l]; [by left|]. right. simpl.
  revert x. induction l as [|y l IH]; intros x; simpl.
  - split; [by left|]. intros z Hz%list_elem_of_singleton. lia.
  - destruct (IH (x `max` y)%Z) as [Hin Hmax]. split.
    + apply elem_of_cons in Hin as [Hin|Hin]; [|by do 2 right].
      rewrite Hin. destruct (Z.max_spec x y) as [[_ ->]|[_ ->]]; [right|]; by left.
    + intros z Hz. apply elem_of_cons in Hz as [->|Hz].
      * etrans; [|apply Hmax; by left]. lia.
      * apply elem_of_cons in Hz as [->|Hz].
        -- etrans; [|apply Hmax; by left]. lia.
        -- apply Hmax. by right.
Qed.

(** X16. What [saveTasks] writes is read back by [loadTasks] with the
    same requests and counters.  A file written by the operations and
    read without its metadata gives the request counter back exactly; the
    task counter that is recovered is at most the one that was saved and
    at least the number of every task in the file. *)
Theorem loadTasks_without_metadata s :
  reachable s →
  loadTasks (Some (saveTasks s))
  = (requests s, (Z.of_N (lastRequestId s), Z.of_N (lastTaskId s)))
  ∧ ∃ tc, loadTasks (Some (mkTaskManagerFile (requests s) None))
          = (requests s, (Z.of_N (lastRequestId s), tc))
          ∧ (0 ≤ tc ≤ Z.of_N (lastTaskId s))%Z
          ∧ ∀ r t n, r ∈ requests s → t ∈ tasks r → id t = taskIdOf n →
                     (Z.of_N n ≤ tc)%Z.
Proof.
  intros Hs. split; [done|]. simpl. unfold scanCounters.
  destruct (reachable_requests_numbered s Hs) as [Hlen Hnum].
  pose proof (reachable_wellFormed s Hs) as Hwf.
  exists (maxOrZero (omap idNum (flat_map tasks (requests s)))). split; [|split].
  - f_equal. f_equal.
    assert (Hreq : ∀ x, x ∈ omap requestNum (requests s) ↔
              ∃ k, k < length (requests s) ∧ x = Z.of_nat (S k)).
    { intros x. rewrite list_elem_of_omap. split.
      - intros (r & [k Hk]%list_elem_of_lookup & Hx). exists k.
        split; [by eapply lookup_lt_Some|].
        unfold requestNum in Hx. rewrite (Hnum _ _ Hk) in Hx.
        rewrite parseInt_requestIdOf in Hx. injection Hx as <-. lia.
      - intros (k & Hlt & ->). apply lookup_lt_is_Some in Hlt as [r Hk].
        exists r. split; [apply list_elem_of_lookup; eauto|].
        unfold requestNum. rewrite (Hnum _ _ Hk).
        rewrite parseInt_requestIdOf. f_equal; lia. }
    rewrite Hlen.
    destruct (maxOrZero_spec (omap requestNum (requests s))) as [[Hnil ->]|[Hin Hmax]].
    + destruct (requests s) as [|r rs] eqn:E; [done|].
      assert (Hx : Z.of_nat 1 ∈ omap requestNum (r :: rs)).
      { apply Hreq. exists 0. simpl. split; [lia|done]. }
      rewrite Hnil in Hx. by apply elem_of_nil in Hx.
    + apply Hreq in Hin as (k & Hlt & Heq).
      destruct (length (requests s)) as [|L] eqn:EL; [lia|].
      assert (Hx : Z.of_nat (S L) ∈ omap requestNum (requests s)).
      { apply Hreq. exists L. split; [lia|done]. }
      apply Hmax in Hx. lia.
  - assert (Hall : ∀ x, x ∈ omap idNum (flat_map tasks (requests s)) →
              (0 ≤ x ≤ Z.of_N (lastTaskId s))%Z).
    { intros x. rewrite list_elem_of_omap. intros (t & Ht & Hx).
      apply list_elem_of_In, in_flat_map in Ht as (r & Hr & Ht).
      apply list_elem_of_In, list_elem_of_lookup in Hr as [k Hk].
      apply list_elem_of_In in Ht.
      destruct (wellFormed_task_id s k r t Hwf Hk Ht) as (n & Hn & Hle).
      unfold idNum in Hx. rewrite Hn in Hx.
      rewrite parseInt_taskIdOf in Hx. injection Hx as <-. lia. }
    destruct (maxOrZero_spec (omap idNum (flat_map tasks (requests s))))
      as [[_ ->]|[Hin _]]; [lia|by apply Hall].
  - intros r t n Hr Ht Hid.
    assert (Hx : Z.of_N n ∈ omap idNum (flat_map tasks (requests s))).
    { apply list_elem_of_omap. exists t. split.
      - apply list_elem_of_In, in_flat_map. exists r. by rewrite <- !list_elem_of_In.
      - unfold idNum. rewrite Hid. apply parseInt_taskIdOf. }
    destruct (maxOrZero_spec (omap idNum (flat_map tasks (requests s))))
      as [[Hnil _]|[_ Hmax]]; [|by apply Hmax].
    rewrite Hnil in Hx. by apply elem_of_nil in Hx.
Qed.

Lemma loadTasks_without_metadata_witness :
  ∃ tc, loadTasks (Some (mkTaskManagerFile (requests Examples.threeLevels) None))
        = (requests Examples.threeLevels, (Z.of_N (lastRequestId Examples.threeLevels), tc))
        ∧ (0 ≤ tc ≤ Z.of_N (lastTaskId Examples.threeLevels))%Z.
Proof.
  destruct (loadTasks_without_metadata Examples.threeLevels) as (_ & tc & H1 & H2 & _).
  - apply reachable_run. constructor.
  - exists tc. split; assumption.
Defined.

(** The recovered task counter is lower than the saved one when the
    task with the highest number has been deleted. *)
Example loadTasks_after_delete :
  let s := (deleteTask "req-1" "task-2" Examples.lowHigh).1 in
  lastTaskId s = 2%N
  ∧ loadTasks (Some (mkTaskManagerFile (requests s) None)) = (requests s, (1, 1)%Z).
Proof. split; reflexivity. Qed.

(** ** list_requests *)

(** X17. In a state that the operations reach, [listRequests] has one row
    for each request ever planned, in order, with the ids req-1, req-2,
    and so on; a row never counts more terminal tasks than tasks, and a
    row marked completed counts all its tasks as terminal. *)
Theorem listRequests_reachable s :
  reachable s →
  length (listRequests s) = N.to_nat (lastRequestId s)
  ∧ (∀ k row, listRequests s !! k = Some row →
       summaryRequestId row = requestIdOf (N.of_nat (S k))
       ∧ terminalTasks row ≤ totalTasks row
       ∧ (requestCompleted row = true → terminalTasks row = totalTasks row)).
Proof.
  intros Hs. destruct (reachable_requests_numbered s Hs) as [Hlen Hnum].
  pose proof (reachable_completedSound s Hs) as Hsound.
  unfold listRequests. split; [rewrite length_map; lia|].
  intros k row Hk. rewrite list_lookup_fmap in Hk.
  destruct (requests s !! k) as [req|] eqn:Hreq; [|done].
  injection Hk as <-. simpl. split; [by apply Hnum|]. split.
  - apply length_filter.
  - intros Hc. pose proof (Forall_lookup_1 _ _ _ _ Hsound Hreq Hc) as Hall.
    clear -Hall. induction Hall as [|t l Ht _ IH]; [done|].
    rewrite filter_cons, decide_True by done. simpl. by rewrite IH.
Qed.

Lemma listRequests_reachable_witness :
  length (listRequests Examples.chainDone) = N.to_nat (lastRequestId Examples.chainDone).
Proof.
  destruct (listRequests_reachable Examples.chainDone) as [H _].
  - apply reachable_run. constructor.
  - exact H.
Defined.

(** ** The progress table *)

Lemma subtasksProcessed_trans ts (P0 P1 P2 : gset string) :
  P1 ⊆ P2 → subtasksProcessed ts P0 P1 → subtasksProcessed ts P1 P2 →
  subtasksProcessed ts P0 P2.
Proof.
  intros Hsub H01 H12 x j task sub Hx Hx0 Hl Hs Hm.
  destruct (decide (x ∈ P1)) as [Hx1|Hx1].
  - apply Hsub. by eapply H01.
  - by eapply H12.
Qed.

Lemma subtasksProcessed_refl ts (P : gset string) : subtasksProcessed ts P P.
Proof. intros x j task sub Hx Hx0. done. Qed.

Section TableFacts.
Variable ts : list Task.

Lemma formatSubtasks_total n (rec : string → TableState → option TableState) :
  (∀ sub st, tableInv ts st → size (dom (mkTaskMap ts) ∖ processedTaskIds st) ≤ n →
     ∃ st', rec sub st = Some st' ∧ tableInv ts st'
            ∧ processedTaskIds st ⊆ processedTaskIds st'
            ∧ subtasksProcessed ts (processedTaskIds st) (processedTaskIds st')
            ∧ (is_Some (mkTaskMap ts !! sub) → sub ∈ processedTaskIds st')) →
  ∀ subs st, tableInv ts st → size (dom (mkTaskMap ts) ∖ processedTaskIds st) ≤ n →
    ∃ st', formatSubtasks rec subs st = Some st' ∧ tableInv ts st'
           ∧ processedTaskIds st ⊆ processedTaskIds st'
           ∧ subtasksProcessed ts (processedTaskIds st) (processedTaskIds st')
           ∧ ∀ sub, sub ∈ subs → is_Some (mkTaskMap ts !! sub) →
                    sub ∈ processedTaskIds st'.
Proof.
  intros Hrec. induction subs as [|sub subs IH]; intros st Hinv Hsz; simpl.
  { exists st. split; [done|]. split; [done|]. split; [done|].
    split; [apply subtasksProcessed_refl|]. intros sub Hin. by apply elem_of_nil in Hin. }
  destruct (Hrec sub st Hinv Hsz) as (st1 & -> & Hinv1 & Hsub1 & Hcl1 & Hin1).
  destruct (IH st1 Hinv1) as (st2 & -> & Hinv2 & Hsub2 & Hcl2 & Hin2).
  { etrans; [|exact Hsz]. apply subseteq_size. set_solver. }
  exists st2. split; [done|]. split; [done|]. split; [set_solver|].
  split; [by eapply subtasksProcessed_trans|].
  intros x [->|Hx]%elem_of_cons Hm; [|by apply Hin2]. apply Hsub2. by apply Hin1.
Qed.

(** [formatTaskRowRecursive] ends when it is given as much fuel as there
    are task ids not processed yet; the id it is called on is processed
    then, if it is the id of a task, and so are the subtasks of all the
    tasks it has processed. *)
Lemma formatTaskRowRecursive_total fuel taskId level st :
  tableInv ts st → size (dom (mkTaskMap ts) ∖ processedTaskIds st) ≤ fuel →
  ∃ st', formatTaskRowRecursive ts fuel taskId level st = Some st' ∧ tableInv ts st'
         ∧ processedTaskIds st ⊆ processedTaskIds st'
         ∧ subtasksProcessed ts (processedTaskIds st) (processedTaskIds st')
         ∧ (is_Some (mkTaskMap ts !! taskId) → taskId ∈ processedTaskIds st').
Proof.
  revert taskId level st. induction fuel as [|fuel IH]; intros taskId level st Hinv Hsz.
  - simpl. destruct (decide (taskId ∈ processedTaskIds st)) as [Hp|Hp].
    { exists st. split; [done|]. split; [done|]. split; [done|].
      split; [apply subtasksProcessed_refl|done]. }
    destruct (mkTaskMap ts !! taskId) as [[j task]|] eqn:Hl.
    2: { exists st. split; [done|]. split; [done|]. split; [done|].
         split; [apply subtasksProcessed_refl|]. by intros [? ?]. }
    pose proof (size_unvisited ts (processedTaskIds st) taskId (mk_is_Some _ _ Hl) Hp). lia.
  - simpl. destruct (decide (taskId ∈ processedTaskIds st)) as [Hp|Hp].
    { exists st. split; [done|]. split; [done|]. split; [done|].
      split; [apply subtasksProcessed_refl|done]. }
    destruct (mkTaskMap ts !! taskId) as [[j task]|] eqn:Hl.
    2: { exists st. split; [done|]. split; [done|]. split; [done|].
         split; [apply subtasksProcessed_refl|]. by intros [? ?]. }
    pose proof (size_unvisited ts (processedTaskIds st) taskId (mk_is_Some _ _ Hl) Hp) as Hlt.
    pose proof Hl as Hl'. apply mkTaskMap_lookup_Some in Hl' as [Hj Hid].
    set (st1 := mkTableState _ _).
    assert (Hinv1 : tableInv ts st1).
    { destruct Hinv as (Hnd & Hset & Hall & Hhier). unfold st1.
      split; [|split; [|split]]; simpl.
      - rewrite map_app. simpl. apply NoDup_app. split; [done|].
        split; [|apply NoDup_singleton].
        intros x Hx Hx'%list_elem_of_singleton. subst x. rewrite Hid in Hx.
        by apply Hset in Hx.
      - intros x. rewrite map_app, elem_of_app, elem_of_union, Hset. simpl.
        rewrite list_elem_of_singleton, elem_of_singleton, Hid. tauto.
      - apply Forall_app. split; [done|]. apply Forall_singleton. simpl.
        apply list_elem_of_lookup. eauto.
      - apply Forall_app. split; [done|]. by apply Forall_singleton. }
    destruct (formatSubtasks_total fuel
                (λ subtaskId, formatTaskRowRecursive ts fuel subtaskId (level + 1))
                (λ sub st0, IH sub (level + 1) st0)
                (default [] (subtaskIds task)) st1 Hinv1)
      as (st2 & -> & Hinv2 & Hsub2 & Hcl2 & Hin2).
    { unfold st1. simpl. lia. }
    unfold st1 in Hsub2, Hcl2. simpl in Hsub2, Hcl2.
    exists st2. split; [done|]. split; [done|]. split; [set_solver|]. split.
    + intros x j' task' sub Hx Hx0 Hlx Hs Hm.
      destruct (decide (x = taskId)) as [->|Hne].
      * rewrite Hl in Hlx. injection Hlx as <- <-. by apply Hin2.
      * apply (Hcl2 x j' task' sub); [done|set_solver|done..].
    + intros _. set_solver.
Qed.

Lemma formatTopLevel_total fuel l st :
  length ts ≤ fuel → tableInv ts st →
  ∃ st', formatTopLevel ts fuel l st = Some st' ∧ tableInv ts st'
         ∧ processedTaskIds st ⊆ processedTaskIds st'
         ∧ subtasksProcessed ts (processedTaskIds st) (processedTaskIds st')
         ∧ ∀ t, t ∈ l → is_Some (mkTaskMap ts !! id t) → id t ∈ processedTaskIds st'.
Proof.
  intros Hfuel. revert st. induction l as [|task l IH]; intros st Hinv; simpl.
  { exists st. split; [done|]. split; [done|]. split; [done|].
    split; [apply subtasksProcessed_refl|]. intros t Hin. by apply elem_of_nil in Hin. }
  destruct (formatTaskRowRecursive_total fuel (id task) 0 st Hinv)
    as (st1 & -> & Hinv1 & Hsub1 & Hcl1 & Hin1).
  { etrans; [|exact Hfuel]. etrans; [|apply size_mkTaskMap].
    rewrite <- size_dom. apply subseteq_size. set_solver. }
  destruct (IH st1 Hinv1) as (st2 & -> & Hinv2 & Hsub2 & Hcl2 & Hin2).
  exists st2. split; [done|]. split; [done|]. split; [set_solver|].
  split; [by eapply subtasksProcessed_trans|].
  intros t [->|Ht]%elem_of_cons Hm; [|by apply Hin2]. apply Hsub2. by apply Hin1.
Qed.

(** The table is always made: the fuel given to the recursion suffices. *)
Lemma tableRows_total :
  ∃ st, tableRows ts = Some (rowsSoFar st ++ orphanRows ts (processedTaskIds st))
        ∧ tableInv ts st
        ∧ subtasksProcessed ts ∅ (processedTaskIds st)
        ∧ ∀ t, t ∈ ts → truthy (parentId t) = None → id t ∈ processedTaskIds st.
Proof.
  destruct (formatTopLevel_total (length ts) (topLevelTasks ts) (mkTableState ∅ []))
    as (st & Hst & Hinv & _ & Hcl & Hin); [done| |].
  { split; [constructor|]. split; [|split; constructor]. simpl. intros x. set_solver. }
  exists st. split; [unfold tableRows; by rewrite Hst|]. split; [done|]. split; [done|].
  intros t Ht Htop. apply Hin.
  - unfold topLevelTasks. apply sortBy_elem. by apply list_elem_of_filter.
  - apply mkTaskMap_is_Some. by exists t.
Qed.

(** With distinct ids the rows show each task once. *)
Lemma tableRows_Permutation st :
  NoDup (map id ts) → tableInv ts st →
  map rowTask (rowsSoFar st ++ orphanRows ts (processedTaskIds st)) ≡ₚ ts.
Proof.
  intros Hnd (Hndr & Hset & Hall & _).
  assert (Hndts : NoDup ts) by (by apply (NoDup_fmap_1 id)).
  rewrite map_app. unfold orphanRows. rewrite map_map. simpl. rewrite map_id.
  rewrite Forall_forall in Hall.
  apply NoDup_Permutation; [|done|].
  - apply NoDup_app. split; [|split].
    + apply (NoDup_fmap_1 id). by rewrite <- list_fmap_compose.
    + intros t Ht Ht'. apply list_elem_of_filter in Ht' as [Hnp _]. apply Hnp, Hset.
      apply list_elem_of_fmap in Ht as (row & -> & Hrow).
      apply list_elem_of_fmap. by exists row.
    + by apply NoDup_filter.
  - intros t. rewrite elem_of_app, list_elem_of_filter. split.
    + intros [Ht|[_ Ht]]; [|done].
      apply list_elem_of_fmap in Ht as (row & -> & Hrow). by apply Hall.
    + intros Ht. destruct (decide (id t ∈ processedTaskIds st)) as [Hp|Hp]; [|by right].
      left. apply Hset in Hp. apply list_elem_of_fmap in Hp as (row & Hid & Hrow).
      assert (rowTask row = t) as <-.
      { eapply NoDup_map_id_inj; [exact Hnd|by apply Hall|done|done]. }
      apply list_elem_of_fmap. by exists row.
Qed.
End TableFacts.

(** X18. The progress table is always produced, and when the ids of the
    request are distinct it has exactly one row for each task: the rows
    written by the recursion and the rows of the last loop, taken
    together, show the tasks of the request, each once. *)
Theorem tableRows_each_task_once ts :
  (∃ rows, tableRows ts = Some rows)
  ∧ (NoDup (map id ts) →
     ∃ rows, tableRows ts = Some rows ∧ map rowTask rows ≡ₚ ts).
Proof.
  destruct (tableRows_total ts) as (st & -> & Hinv & _).
  split; [by eexists|]. intros Hnd.
  eexists. split; [done|]. by apply tableRows_Permutation.
Qed.

Lemma tableRows_each_task_once_witness :
  ∃ rows, tableRows Examples.deepTasks = Some rows ∧ map rowTask rows ≡ₚ Examples.deepTasks.
Proof.
  destruct (tableRows_each_task_once Examples.deepTasks) as [_ H].
  apply H. refine (bool_decide_unpack _ _). vm_compute. exact I.
Defined.

(** The table of the four-level example: the rows follow the hierarchy,
    each level one step further in. *)
Example tableRows_deep :
  tableRows Examples.deepTasks
  = Some [hierarchyRow (mkTask "task-1" "a" "" active medium (Some []) None
                          (Some ["task-2"]) None "") 0;
          hierarchyRow (mkTask "task-2" "b" "" active medium (Some []) (Some "task-1")
                          (Some ["task-3"]) None "") 1;
          hierarchyRow (mkTask "task-3" "c" "" done medium (Some []) (Some "task-2")
                          (Some ["task-4"]) None "ok") 2;
          hierarchyRow (mkTask "task-4" "d" "" pending medium (Some []) (Some "task-3")
                          (Some []) None "") 3;
          hierarchyRow (mkTask "task-5" "e" "" pending low (Some ["task-3"; "task-1"])
                          None None None "") 0].
Proof. vm_compute. reflexivity. Qed.

(** A task whose parent was never told of it gets an orphan row. *)
Example tableRows_orphan :
  tableRows [mkTask "task-1" "a" "" pending medium None None None None "";
             mkTask "task-2" "b" "" pending medium None (Some "task-1") None None ""]
  = Some [hierarchyRow (mkTask "task-1" "a" "" pending medium None None None None "") 0;
          orphanRow (mkTask "task-2" "b" "" pending medium None (Some "task-1") None
                       None "")].
Proof. vm_compute. reflexivity. Qed.

(** *** No orphan rows in the states that the operations reach *)

Lemma truthy_Some o x : truthy o = Some x → o = Some x.
Proof. unfold truthy. destruct o as [s|]; [|done]. by case_decide; intros [= <-]. Qed.

Lemma step_parentOlder op s :
  wellFormed s → allTasks parentOlder s → allTasks parentOlder (step op s).
Proof.
  intros Hwf Hs. apply Forall_forall. intros r' [k Hk]%list_elem_of_lookup.
  apply Forall_forall. intros t' Ht' pid Hpid.
  destruct (step_task_origin _ _ _ _ _ Hk Ht')
    as [(r & t & Hr & Ht & Hid & _ & Hpar)|(n & Hn & Hlt & _ & Hpar)].
  - destruct Hpar as [Hpar|Hpar]; [|by rewrite Hpar in Hpid].
    rewrite Hpar in Hpid.
    pose proof (Forall_lookup_1 _ _ _ _ Hs Hr) as Hall. rewrite Forall_forall in Hall.
    destruct (Hall t Ht pid Hpid) as (n & m & Hn & Hm & Hlt).
    exists n, m. split; [congruence|done].
  - destruct (Hpar pid (truthy_Some _ _ Hpid)) as (r & p & Hr & Hp & Hidp).
    destruct (wellFormed_task_id s k r p Hwf Hr Hp) as (m & Hm & Hle).
    exists n, m. split; [done|]. split; [congruence|lia].
Qed.

Lemma reachable_parentOlder s : reachable s → allTasks parentOlder s.
Proof.
  induction 1 as [|op s Hs IH]; [constructor|].
  apply step_parentOlder; [by apply reachable_wellFormed|done].
Qed.

(** When every task with a parent is listed by it and has a higher
    number, the recursion from the top-level tasks reaches every task. *)
Lemma tableRows_all_processed ts c (P : gset string) :
  wellFormedTasks c ts → Forall parentOlder ts →
  subtasksProcessed ts ∅ P →
  (∀ t, t ∈ ts → truthy (parentId t) = None → id t ∈ P) →
  ∀ t, t ∈ ts → id t ∈ P.
Proof.
  intros (Hnd & Hids & Hlink) Hold Hcl Htop.
  rewrite Forall_forall in Hids, Hlink, Hold.
  assert (Hind : ∀ b t n, N.to_nat n < b → t ∈ ts → id t = taskIdOf n → id t ∈ P).
  { induction b as [|b IH]; intros t n Hb Ht Hn; [lia|].
    destruct (truthy (parentId t)) as [pid|] eqn:Hpid; [|by apply Htop].
    destruct (Hlink t Ht pid Hpid) as (parent & Hp & Hidp & Hsub).
    destruct (Hold t Ht pid Hpid) as (n' & m & Hn' & Hm & Hlt).
    assert (n' = n) as -> by (apply taskIdOf_inj; congruence).
    assert (Hpp : id parent ∈ P).
    { apply (IH parent m); [lia|done|congruence]. }
    apply list_elem_of_lookup in Hp as [j Hj].
    apply (Hcl (id parent) j parent (id t)); [done|set_solver| |done|].
    - by apply mkTaskMap_NoDup_lookup.
    - apply mkTaskMap_is_Some. by exists t. }
  intros t Ht. destruct (Hids t Ht) as (n & Hn & _).
  by apply (Hind (S (N.to_nat n)) t n); [lia|..].
Qed.

(** X19. In a state that the operations reach, the progress table of a
    request has one row for each task, all of them written by the
    recursion from the top-level tasks: no row is marked [[Orphaned?]]. *)
Theorem formatTaskProgressTable_reachable rid s k req :
  reachable s → findRequest s rid = Some (k, req) →
  ∃ rows, formatTaskProgressTable rid s = Some (progressTable rows)
          ∧ map rowTask rows ≡ₚ tasks req
          ∧ Forall isHierarchyRow rows.
Proof.
  intros Hs Hf. pose proof (wellFormed_findRequest _ _ _ _ (reachable_wellFormed s Hs) Hf) as Hwf.
  pose proof (reachable_parentOlder s Hs) as Hold.
  pose proof (findRequest_Some _ _ _ _ Hf) as [Hk _].
  pose proof (Forall_lookup_1 _ _ _ _ Hold Hk) as Hold'.
  unfold formatTaskProgressTable. rewrite Hf.
  destruct (tableRows_total (tasks req)) as (st & -> & Hinv & Hcl & Htop).
  pose proof (tableRows_all_processed _ _ _ Hwf Hold' Hcl Htop) as Hall.
  assert (Horph : orphanRows (tasks req) (processedTaskIds st) = []).
  { unfold orphanRows.
    assert (filter (λ t, id t ∉ processedTaskIds st) (tasks req) = []) as ->; [|done].
    clear -Hall. induction (tasks req) as [|t l IH]; [done|].
    rewrite filter_cons, decide_False by (intros Hn; apply Hn, Hall; by left).
    apply IH. intros t' Ht'. apply Hall. by right. }
  eexists. split; [done|]. split.
  - apply tableRows_Permutation; [by destruct Hwf|done].
  - rewrite Horph, app_nil_r. by destruct Hinv as (_ & _ & _ & ?).
Qed.

Lemma formatTaskProgressTable_reachable_witness :
  ∃ rows, formatTaskProgressTable "req-1" Examples.threeLevels = Some (progressTable rows)
          ∧ map rowTask rows ≡ₚ tasks Examples.threeLevelsReq
          ∧ Forall isHierarchyRow rows.
Proof.
  apply (formatTaskProgressTable_reachable "req-1" Examples.threeLevels 0
           Examples.threeLevelsReq).
  - apply reachable_run. constructor.
  - reflexivity.
Defined.

(** ** Planning, then asking for a task *)

Lemma mkNewTasks_elem c defs td :
  td ∈ defs →
  ∃ t, t ∈ (mkNewTasks c defs).1 ∧ status t = pending ∧ parentId t = None
       ∧ dependsOn t = Some (default [] (defDependsOn td)).
Proof.
  revert c. induction defs as [|d defs IH]; intros c Hin; [by apply elem_of_nil in Hin|].
  simpl. specialize (IH (c + 1)%N). destruct (mkNewTasks (c + 1) defs) as [rest c'].
  simpl in *. apply elem_of_cons in Hin as [->|Hin].
  - eexists. split; [by left|]. done.
  - destruct (IH Hin) as (t & Ht & Hrest). exists t. split; [by right|done].
Qed.

(** X20. The request that [requestPlanning] makes is found under the id
    it was given, with the new tasks and not completed.  If no task was
    given, the first [getNextTask] on it replies that all tasks are
    terminal and sets the [completed] flag of the request in the store,
    leaving the other requests as they are; if one of the tasks has no
    dependencies, [getNextTask] returns a task, which is active. *)
Theorem requestPlanning_then_next o defs d s :
  reachable s →
  let s1 := (requestPlanning o defs d s).1 in
  let rid := requestIdOf (lastRequestId s + 1) in
  (∃ req, findRequest s1 rid = Some (length (requests s), req)
          ∧ tasks req = (mkNewTasks (lastTaskId s) defs).1 ∧ completed req = false)
  ∧ (defs = [] →
     tag (getNextTask rid s1).2 = all_tasks_terminal_request_completed
     ∧ ∃ req', requests (getNextTask rid s1).1
               = <[length (requests s) := req']> (requests s1)
               ∧ requests (getNextTask rid s1).1 !! length (requests s) = Some req'
               ∧ requestId req' = rid ∧ tasks req' = [] ∧ completed req' = true)
  ∧ ((∃ td, td ∈ defs ∧ default [] (defDependsOn td) = []) →
     tag (getNextTask rid s1).2 = next_task
     ∧ ∃ t, replyTask (getNextTask rid s1).2 = Some t ∧ status t = active).
Proof.
  intros Hs s1 rid.
  assert (Hs1 : reachable s1) by (apply (reachable_step (request_planning o defs d)); done).
  set (req := mkRequest rid o (orElse d o) (mkNewTasks (lastTaskId s) defs).1 false).
  assert (Hk : requests s1 !! length (requests s) = Some req).
  { unfold s1, requestPlanning, req. destruct (mkNewTasks (lastTaskId s) defs). simpl.
    rewrite lookup_app_r by lia. by rewrite Nat.sub_diag. }
  assert (Hf : findRequest s1 rid = Some (length (requests s), req)).
  { destruct (reachable_requests_numbered s1 Hs1) as [_ Hnum].
    apply list_find_Some. split; [done|]. split; [done|].
    intros j r0 Hj Hlt Heq. rewrite (Hnum _ _ Hj) in Heq. unfold rid in Heq.
    apply requestIdOf_inj in Heq.
    destruct (reachable_requests_numbered s Hs) as [Hlen _]. lia. }
  split; [by exists req|]. split.
  - intros ->. unfold getNextTask. rewrite Hf. simpl. split; [done|].
    eexists. split; [done|]. split; [|done].
    apply list_lookup_insert_eq. by eapply lookup_lt_Some.
  - intros (td & Htd & Hdeps).
    destruct (mkNewTasks_elem (lastTaskId s) defs td Htd) as (t & Ht & Hst & Hpar & Hdep).
    rewrite Hdeps in Hdep. apply list_elem_of_lookup in Ht as [i Hi].
    assert (Hin : (i, t) ∈ passB (tasks req)).
    { unfold passB. apply list_elem_of_filter. split; [|by apply elem_of_refs].
      simpl. unfold passBKeep, parentIsActive, parentRef, areDependenciesMet.
      rewrite Hpar, Hdep. simpl. by rewrite (bool_decide_eq_true_2 (status t = pending)). }
    destruct (selectNext (tasks req)) as [r|] eqn:Hsel.
    + rewrite (getNextTask_reply rid s1 _ req r Hf eq_refl Hsel).
      split; [done|]. by eexists.
    + apply selectNext_None in Hsel. unfold potentialNextTasks in Hsel.
      destruct (passA (tasks req)); [|done]. rewrite Hsel in Hin.
      by apply elem_of_nil in Hin.
Qed.

Lemma requestPlanning_then_next_witness :
  (∃ t, replyTask
          (getNextTask (requestIdOf (lastRequestId Examples.lowHigh + 1))
             (requestPlanning "q" [Examples.def "C" None None] None
                Examples.lowHigh).1).2 = Some t
        ∧ status t = active)
  ∧ (∃ req', requests
               (getNextTask (requestIdOf (lastRequestId Examples.lowHigh + 1))
                  (requestPlanning "q" [] None Examples.lowHigh).1).1 !! 1
             = Some req'
             ∧ requestId req' = "req-2" ∧ completed req' = true).
Proof.
  split.
  - destruct (requestPlanning_then_next "q" [Examples.def "C" None None] None
                Examples.lowHigh) as (_ & _ & H).
    + apply reachable_run. constructor.
    + apply H. exists (Examples.def "C" None None). split; [by left|reflexivity].
  - destruct (requestPlanning_then_next "q" [] None Examples.lowHigh) as (_ & H & _).
    + apply reachable_run. constructor.
    + destruct (H eq_refl) as (_ & req' & _ & Hk & Hid & _ & Hc).
      exists req'. split; [exact Hk|]. split; [exact Hid|exact Hc].
Defined.

(** ** After a delete *)

Lemma findTask_None ts x : findTask ts x = None ↔ x ∉ map id ts.
Proof.
  destruct (findTask ts x) as [r|] eqn:E.
  - split; [done|]. intros Hn. destruct Hn.
    assert (is_Some (findTask ts x)) as Hs by eauto.
    apply findTask_is_Some in Hs as (t & Ht & <-). apply list_elem_of_fmap. eauto.
  - split; [|done]. intros _ Hin. apply list_elem_of_fmap in Hin as (t & -> & Ht).
    assert (is_Some (findTask ts (id t))) as [? Hs].
    { apply findTask_is_Some. eauto. }
    congruence.
Qed.

(** X21. A deleted task is gone, and its descendants with it: after
    [deleteTask] has replied [task_deleted], no task of the request has
    the id of the task or of one of its descendants, so deleting,
    marking or updating it, or adding a subtask to it, is an error that
    changes nothing. *)
Theorem deleteTask_is_final rid taskId s k req :
  findRequest s rid = Some (k, req) →
  tag (deleteTask rid taskId s).2 = task_deleted →
  let s1 := (deleteTask rid taskId s).1 in
  ∃ req1, findRequest s1 rid = Some (k, req1)
    ∧ (∀ x, descendant (tasks req) taskId x → findTask (tasks req1) x = None)
    ∧ deleteTask rid taskId s1 = (s1, reply error)
    ∧ (∀ d, markTaskDone rid taskId d s1 = (s1, reply error))
    ∧ (∀ r, markTaskFailed rid taskId r s1 = (s1, reply error))
    ∧ (∀ a b c, updateTask rid taskId a b c s1 = (s1, reply error))
    ∧ (∀ a b c d, addSubtask rid taskId a b c d s1 = (s1, reply error)).
Proof.
  intros Hf Htag. simpl.
  assert (Hs1 : is_Some (mkTaskMap (tasks req) !! taskId)
                ∧ (deleteTask rid taskId s).1
                  = putRequest k (setTasks (removeTaskAndDescendants (tasks req) taskId).1 req) s).
  { revert Htag. unfold deleteTask. rewrite Hf.
    destruct (findTask (tasks req) taskId) as [r|] eqn:Ht; [|done].
    assert (Hm : is_Some (mkTaskMap (tasks req) !! taskId)).
    { apply findTask_mkTaskMap. eauto. }
    destruct (removeTaskAndDescendants (tasks req) taskId) as [ts' removed].
    destruct removed; [|done]. done. }
  destruct Hs1 as [Hm ->].
  destruct (removeTaskAndDescendants_unfold (tasks req) taskId Hm) as (D & Hdesc & Heq).
  rewrite Heq. simpl.
  set (ts' := map (cleanUp D) _).
  assert (Hids : map id ts' = filter (λ x, x ∉ D) (map id (tasks req))).
  { unfold ts'. by rewrite map_id_cleanUp, map_filter_id, map_id_unlinkFromParent. }
  assert (Hgone : ∀ x, descendant (tasks req) taskId x → findTask ts' x = None).
  { intros x Hx. apply findTask_None. rewrite Hids. intros Hin.
    apply list_elem_of_filter in Hin as [Hn _]. by apply Hn, Hdesc. }
  assert (Hf1 : findRequest (putRequest k (setTasks ts' req) s) rid
                = Some (k, setTasks ts' req))
    by (by apply (findRequest_putRequest s rid k req)).
  assert (Ht1 : findTask ts' taskId = None) by (apply Hgone; constructor).
  exists (setTasks ts' req). split; [done|]. split; [done|].
  split; [|split; [|split; [|split]]].
  - unfold deleteTask. by rewrite Hf1; simpl; rewrite Ht1.
  - intros d. unfold markTaskDone. by rewrite Hf1; simpl; rewrite Ht1.
  - intros r. unfold markTaskFailed. by rewrite Hf1; simpl; rewrite Ht1.
  - intros a b c. unfold updateTask. by rewrite Hf1; simpl; rewrite Ht1.
  - intros a b c d. unfold addSubtask. rewrite Hf1; simpl.
    destruct (completed req); [done|]. by rewrite Ht1.
Qed.

Lemma deleteTask_is_final_witness :
  let s1 := (deleteTask "req-1" "task-2" Examples.deep).1 in
  ∃ req1, findRequest s1 "req-1" = Some (0, req1)
          ∧ findTask (tasks req1) "task-4" = None
          ∧ deleteTask "req-1" "task-2" s1 = (s1, reply error).
Proof.
  intros s1.
  destruct (deleteTask_is_final "req-1" "task-2" Examples.deep 0
              (mkRequest "req-1" "r" "r" Examples.deepTasks false))
    as (req1 & H1 & H2 & H3 & _).
  - reflexivity.
  - reflexivity.
  - exists req1. split; [exact H1|]. split; [|exact H3].
    apply H2. simpl.
    apply (descendant_step _ _ "task-3"); [|vm_compute; by left].
    apply (descendant_step _ _ "task-2"); [|vm_compute; by left].
    constructor.
Defined.

(** X22. [removeSubtask] is [deleteTask] behind a check: when it replies
    [subtask_removed] the file is the one that [deleteTask] on the same
    task gives, otherwise the file is unchanged; and without a
    [parentTaskId] it removes whatever [deleteTask] removes, subtask
    or not. *)
Theorem removeSubtask_as_deleteTask rid subtaskId parentTaskId s :
  (tag (removeSubtask rid subtaskId parentTaskId s).2 = subtask_removed →
     (removeSubtask rid subtaskId parentTaskId s).1 = (deleteTask rid subtaskId s).1
     ∧ tag (deleteTask rid subtaskId s).2 = task_deleted)
  ∧ (tag (removeSubtask rid subtaskId parentTaskId s).2 ≠ subtask_removed →
     removeSubtask rid subtaskId parentTaskId s = (s, reply error))
  ∧ (truthy parentTaskId = None →
     (removeSubtask rid subtaskId parentTaskId s).1 = (deleteTask rid subtaskId s).1
     ∧ (tag (removeSubtask rid subtaskId parentTaskId s).2 = subtask_removed
        ↔ tag (deleteTask rid subtaskId s).2 = task_deleted)).
Proof.
  unfold removeSubtask, deleteTask.
  destruct (findRequest s rid) as [[k req]|]; [|done].
  destruct (findTask (tasks req) subtaskId) as [r|]; [|done].
  destruct (truthy parentTaskId) as [pid|].
  - destruct (findTask (tasks req) pid) as [[p parentTask]|]; [|done].
    case_bool_decide; [|done].
    destruct (removeTaskAndDescendants (tasks req) subtaskId) as [ts' removed].
    by destruct removed.
  - destruct (removeTaskAndDescendants (tasks req) subtaskId) as [ts' removed].
    by destruct removed.
Qed.

Lemma removeSubtask_as_deleteTask_witness :
  (removeSubtask "req-1" "task-5" None Examples.deep).1
  = (deleteTask "req-1" "task-5" Examples.deep).1.
Proof.
  destruct (removeSubtask_as_deleteTask "req-1" "task-5" None Examples.deep)
    as (_ & _ & H).
  apply H. reflexivity.
Defined.

(** ** validate_dependencies: every cycle, and cycles only *)

Lemma dependsOnPath_snoc ts x y i t d :
  dependsOnPath ts x y → mkTaskMap ts !! y = Some (i, t) →
  d ∈ default [] (dependsOn t) → dependsOnPath ts x d.
Proof.
  intros Hp Hy Hd. induction Hp as [x|x j u e y Hx He _ IH].
  - eapply dependsOnPath_step; [done|done|constructor].
  - eapply dependsOnPath_step; [done|done|by apply IH].
Qed.

Lemma dependsOnPath_trans ts x y z :
  dependsOnPath ts x y → dependsOnPath ts y z → dependsOnPath ts x z.
Proof.
  intros Hxy Hyz. induction Hxy as [x|x j u e y Hx He _ IH]; [done|].
  eapply dependsOnPath_step; [done|done|by apply IH].
Qed.

Section CycleComplete.
Variable ts : list Task.
Variable C : string → Prop.
Hypothesis C_closed : ∀ x, C x →
  ∃ i t d, mkTaskMap ts !! x = Some (i, t) ∧ d ∈ default [] (dependsOn t)
           ∧ C d ∧ is_Some (mkTaskMap ts !! d).

(** The loop keeps the invariant and does not grow the stack. *)
Lemma visitDeps_inv rec x deps st st' flag :
  detectsIn C rec →
  visitDeps ts rec x deps st = Some (st', flag) →
  visitedOnStack C st → cycleFound st = false →
  visitedOnStack C st'
  ∧ (cycleFound st' = false → recursionStack st' ⊆ recursionStack st)
  ∧ (flag = true → cycleFound st' = true).
Proof.
  intros Hrec. revert st. induction deps as [|d deps IH]; intros st Hv Hinv Hcf; simpl in Hv.
  { injection Hv as <- <-. done. }
  destruct (decide (is_Some (mkTaskMap ts !! d))) as [Hd|Hd]; [|by eapply IH].
  destruct (decide (d ∈ visited st)) as [Hvis|Hvis].
  - destruct (decide (d ∈ recursionStack st)); [|by eapply IH].
    injection Hv as <- <-. simpl. split; [by left|]. done.
  - destruct (rec d st) as [st1|] eqn:Hr; [|done].
    destruct (Hrec d st st1 Hr Hinv Hvis Hcf) as (Hinv1 & Hst1 & _).
    destruct (cycleFound st1) eqn:Hcf1.
    + injection Hv as <- <-. split; [done|]. split; [congruence|done].
    + destruct (IH st1 Hv Hinv1 Hcf1) as (H1 & H2 & H3).
      split; [done|]. split; [|done]. intros Hc. etrans; [by apply H2|by apply Hst1].
Qed.

(** When a member of [C] is among the dependencies looped over, the loop
    ends with a cycle found. *)
Lemma visitDeps_found rec x deps st st' flag other :
  detectsIn C rec →
  other ∈ deps → is_Some (mkTaskMap ts !! other) → C other →
  visitDeps ts rec x deps st = Some (st', flag) →
  visitedOnStack C st → cycleFound st = false →
  cycleFound st' = true.
Proof.
  intros Hrec Hin Hdom Hother. revert st.
  induction deps as [|d deps IH]; intros st Hv Hinv Hcf; simpl in Hv.
  { by apply elem_of_nil in Hin. }
  assert (Hnext : d ≠ other → other ∈ deps).
  { intros Hne. apply elem_of_cons in Hin as [->|?]; done. }
  destruct (decide (is_Some (mkTaskMap ts !! d))) as [Hd|Hd].
  2: { eapply IH; [|done..]. apply Hnext. by intros ->. }
  destruct (decide (d ∈ visited st)) as [Hvis|Hvis].
  - destruct (decide (d ∈ recursionStack st)) as [Hs|Hs].
    { by injection Hv as <- <-. }
    eapply IH; [|done..]. apply Hnext. intros ->.
    destruct Hinv as [?|H1]; [congruence|]. by apply Hs, H1.
  - destruct (rec d st) as [st1|] eqn:Hr; [|done].
    destruct (Hrec d st st1 Hr Hinv Hvis Hcf) as (Hinv1 & _ & Hfound).
    destruct (cycleFound st1) eqn:Hcf1.
    + by injection Hv as <- <-.
    + eapply IH; [|done..]. apply Hnext. intros ->.
      by specialize (Hfound Hother).
Qed.

Lemma detectCycle_detectsIn fuel : detectsIn C (detectCycle ts fuel).
Proof.
  induction fuel as [|fuel IH]; intros x st st' Hv Hinv Hvis Hcf; [done|].
  simpl in Hv. rewrite Hcf in Hv.
  set (st1 := mkCycleState _ _ _ _) in Hv.
  assert (Hinv1 : visitedOnStack C st1).
  { destruct Hinv as [?|H1]; [congruence|]. right. simpl. intros z Hz Hzv.
    apply elem_of_union in Hzv as [Hzv|Hzv]; [set_solver|].
    apply elem_of_union. right. by apply H1. }
  destruct (visitDeps ts (detectCycle ts fuel) x _ st1) as [[st2 flag]|] eqn:Hloop; [|done].
  destruct (visitDeps_inv _ _ _ _ _ _ IH Hloop Hinv1 eq_refl) as (Hinv2 & Hst2 & Hflag).
  assert (Hfound : C x → cycleFound st2 = true).
  { intros Hx. destruct (C_closed x Hx) as (i & t & d & Hl & Hd & HCd & Hdk).
    rewrite Hl in Hloop.
    by eapply (visitDeps_found _ _ _ _ _ _ d IH Hd). }
  destruct flag; injection Hv as <-.
  - split; [done|]. split; [|done]. intros Hc. rewrite Hflag in Hc; done.
  - simpl. destruct (cycleFound st2) eqn:Hcf2.
    + split; [by left|]. split; [done|]. done.
    + assert (Hnx : ¬ C x) by (intros Hx; by specialize (Hfound Hx)).
      specialize (Hst2 eq_refl). simpl in Hst2.
      split; [|split].
      * destruct Hinv2 as [?|H1]; [congruence|]. right. simpl.
        intros z Hz Hzv. apply elem_of_difference. split; [by apply H1|].
        intros ->%elem_of_singleton. done.
      * intros _. set_solver.
      * intros Hx. by specialize (Hfound Hx).
Qed.

Lemma detectAll_detectsIn fuel l st st' :
  detectAll ts fuel l st = Some st' →
  visitedOnStack C st → recursionStack st = ∅ → cycleFound st = false →
  (∃ t, t ∈ l ∧ C (id t)) →
  cycleFound st' = true.
Proof.
  revert st. induction l as [|t l IH]; intros st Hv Hinv Hstack Hcf (ta & Hta & HC).
  { by apply elem_of_nil in Hta. }
  simpl in Hv. rewrite Hcf in Hv. simpl in Hv. rewrite andb_true_r in Hv.
  assert (Hnext : ¬ C (id t) → ∃ t', t' ∈ l ∧ C (id t')).
  { intros Hne. exists ta. split; [|done].
    apply elem_of_cons in Hta as [->|?]; done. }
  case_bool_decide as Hvis.
  - destruct (detectCycle ts fuel (id t) st) as [st1|] eqn:Hr; [|done].
    destruct (detectCycle_detectsIn fuel (id t) st st1 Hr Hinv Hvis Hcf) as (Hinv1 & Hst1 & Hf).
    destruct (cycleFound st1) eqn:Hcf1.
    + rewrite detectAll_found in Hv by done. by injection Hv as <-.
    + eapply (IH st1); [done..| |done|].
      * specialize (Hst1 eq_refl). rewrite Hstack in Hst1. set_solver.
      * apply Hnext. intros Hc. by specialize (Hf Hc).
  - eapply (IH st); [done..|]. apply Hnext. intros Hc.
    destruct Hinv as [?|H1]; [congruence|].
    apply (H1 _ Hc) in Hvis.
    rewrite Hstack in Hvis. by apply not_elem_of_empty in Hvis.
Qed.
End CycleComplete.

Section CycleSound.
Variable ts : list Task.

Lemma visitDeps_sound rec x deps st st' flag :
  detectsSoundly ts rec →
  (∀ d, d ∈ deps → ∃ i t, mkTaskMap ts !! x = Some (i, t) ∧ d ∈ default [] (dependsOn t)) →
  visitDeps ts rec x deps st = Some (st', flag) →
  cycleFound st = false → stackLeadsTo ts st x →
  soundStep ts st st' ∧ (flag = true → cycleFound st' = true).
Proof.
  intros Hrec. revert st. induction deps as [|d deps IH]; intros st Hdeps Hv Hcf Hstack;
    simpl in Hv.
  { injection Hv as <- <-. split; [|done]. split; [done|congruence]. }
  assert (Hdeps' : ∀ d', d' ∈ deps →
            ∃ i t, mkTaskMap ts !! x = Some (i, t) ∧ d' ∈ default [] (dependsOn t)).
  { intros d' Hd'. apply Hdeps. by right. }
  destruct (decide (is_Some (mkTaskMap ts !! d))) as [Hd|Hd]; [|by eapply IH].
  destruct (decide (d ∈ visited st)) as [Hvis|Hvis].
  - destruct (decide (d ∈ recursionStack st)) as [Hs|Hs]; [|by eapply IH].
    injection Hv as <- <-. simpl. split; [|done]. split; [done|]. intros _.
    exists x, d. split; [done|].
    destruct (Hdeps d) as (i & t & Hl & Hin); [by left|].
    exists i, t. split; [done|]. split; [done|]. by apply Hstack.
  - destruct (rec d st) as [st1|] eqn:Hr; [|done].
    assert (Hstack_d : stackLeadsTo ts st d).
    { intros y Hy. destruct (Hdeps d) as (i & t & Hl & Hin); [by left|].
      eapply dependsOnPath_snoc; [by apply Hstack|done..]. }
    destruct (Hrec d st st1 Hr Hcf Hstack_d) as [Hno Hyes].
    destruct (cycleFound st1) eqn:Hcf1.
    + injection Hv as <- <-. split; [|done]. split; [by rewrite Hcf1|]. by rewrite Hcf1.
    + destruct (Hno eq_refl) as [Hsub Hiss].
      destruct (IH st1 Hdeps' Hv Hcf1) as ([Hno2 Hyes2] & Hflag).
      { intros y Hy. apply Hstack. by apply Hsub. }
      split; [|done]. split.
      * intros Hc. destruct (Hno2 Hc) as [Hsub2 Hiss2]. split; [set_solver|congruence].
      * intros Hc. destruct (Hyes2 Hc) as (a & b & Hi & Hab). exists a, b.
        split; [congruence|done].
Qed.

Lemma detectCycle_sound fuel : detectsSoundly ts (detectCycle ts fuel).
Proof.
  induction fuel as [|fuel IH]; intros x st st' Hv Hcf Hstack; [done|].
  simpl in Hv. rewrite Hcf in Hv.
  set (st1 := mkCycleState _ _ _ _) in Hv.
  assert (Hstack1 : stackLeadsTo ts st1 x).
  { intros y Hy. unfold st1 in Hy. simpl in Hy.
    apply elem_of_union in Hy as [->%elem_of_singleton|Hy]; [constructor|by apply Hstack]. }
  destruct (visitDeps ts (detectCycle ts fuel) x _ st1) as [[st2 flag]|] eqn:Hloop; [|done].
  assert (Hdeps : ∀ d, d ∈ match mkTaskMap ts !! x with
                           | Some (_, task) => default [] (dependsOn task)
                           | None => []
                           end →
            ∃ i t, mkTaskMap ts !! x = Some (i, t) ∧ d ∈ default [] (dependsOn t)).
  { intros d Hd. destruct (mkTaskMap ts !! x) as [[i t]|]; [by eauto|].
    by apply elem_of_nil in Hd. }
  destruct (visitDeps_sound _ _ _ _ _ _ IH Hdeps Hloop eq_refl Hstack1)
    as ([Hno Hyes] & Hflag).
  destruct flag; injection Hv as <-.
  - split; [intros Hc; rewrite Hflag in Hc; done|]. intros Hc.
    destruct (Hyes Hc) as (a & b & Hi & Hab). by exists a, b.
  - simpl. split.
    + intros Hc. destruct (Hno Hc) as [Hsub Hiss]. unfold st1 in Hsub. simpl in Hsub.
      split; [set_solver|done].
    + intros Hc. destruct (Hyes Hc) as (a & b & Hi & Hab). by exists a, b.
Qed.

Lemma detectAll_sound fuel l st st' :
  detectAll ts fuel l st = Some st' →
  recursionStack st = ∅ → cycleFound st = false →
  soundStep ts st st'.
Proof.
  revert st. induction l as [|t l IH]; intros st Hv Hstack Hcf; simpl in Hv.
  { injection Hv as <-. split; [done|congruence]. }
  rewrite Hcf in Hv. simpl in Hv. rewrite andb_true_r in Hv.
  case_bool_decide as Hvis; [|by apply IH].
  destruct (detectCycle ts fuel (id t) st) as [st1|] eqn:Hr; [|done].
  destruct (detectCycle_sound fuel (id t) st st1 Hr Hcf) as [Hno Hyes].
  { intros y Hy. rewrite Hstack in Hy. by apply not_elem_of_empty in Hy. }
  destruct (cycleFound st1) eqn:Hcf1.
  - rewrite detectAll_found in Hv by done. injection Hv as <-.
    split; [by rewrite Hcf1|by rewrite Hcf1].
  - destruct (Hno eq_refl) as [Hsub Hiss].
    destruct (IH st1 Hv) as [Hno2 Hyes2]; [rewrite Hstack in Hsub; set_solver|done|].
    split.
    + intros Hc. destruct (Hno2 Hc) as [Hsub2 Hiss2]. split; [set_solver|congruence].
    + intros Hc. destruct (Hyes2 Hc) as (a & b & Hi & Hab). exists a, b.
      split; [congruence|done].
Qed.
End CycleSound.

(** The tasks on a cycle through [x]: they lead to [x] and [x] leads to
    them; each of them depends on one of them. *)
Lemma onCycle_closed ts x y :
  onCycle ts x y →
  ∀ z, dependsOnPath ts x z ∧ dependsOnPath ts z x →
    ∃ i t d, mkTaskMap ts !! z = Some (i, t) ∧ d ∈ default [] (dependsOn t)
             ∧ (dependsOnPath ts x d ∧ dependsOnPath ts d x)
             ∧ is_Some (mkTaskMap ts !! d).
Proof.
  intros (i & t & Hx & Hy & Hyx).
  assert (Hkey : ∀ d, dependsOnPath ts d x → is_Some (mkTaskMap ts !! d)).
  { intros d Hd. inversion Hd; subst; eauto. }
  intros z [Hxz Hzx]. inversion Hzx as [|? j u d ? Hz Hd Hdx]; subst.
  - exists i, t, y. split; [done|]. split; [done|]. split; [|by apply Hkey].
    split; [|done]. eapply dependsOnPath_step; [done|done|constructor].
  - exists j, u, d. split; [done|]. split; [done|]. split; [|by apply Hkey].
    split; [|done]. by eapply dependsOnPath_snoc.
Qed.

(** The outcome of the traversal of [validateDependencies]. *)
Lemma allIssues_cycles ts :
  (¬ (∃ x y, onCycle ts x y) ∧ allIssues ts = Some (danglingIssues ts))
  ∨ (∃ x y, onCycle ts x y
            ∧ allIssues ts = Some (danglingIssues ts ++ [circularIssue x y])).
Proof.
  unfold allIssues.
  destruct (detectAll_total ts (S (length ts)) ts (mkCycleState ∅ ∅ false (danglingIssues ts)))
    as (st' & Hv & _); [done|lia|].
  pose proof (detectAll_sound ts _ _ _ _ Hv eq_refl eq_refl) as [Hno Hyes].
  rewrite Hv. simpl in *.
  destruct (cycleFound st') eqn:Hcf.
  - right. destruct (Hyes eq_refl) as (x & y & Hi & Hxy). exists x, y.
    split; [done|]. by rewrite Hi.
  - left. destruct (Hno eq_refl) as [_ ->]. split; [|done].
    intros (x & y & Hxy).
    assert (cycleFound st' = true); [|congruence].
    eapply (detectAll_detectsIn ts (λ z, dependsOnPath ts x z ∧ dependsOnPath ts z x));
      [by apply (onCycle_closed ts x y)|exact Hv| |done|done|].
    + right. simpl. intros z _ Hz. by apply not_elem_of_empty in Hz.
    + destruct Hxy as (i & t & Hx & _).
      apply mkTaskMap_lookup_Some in Hx as [Hx Hid]. exists t.
      split; [apply list_elem_of_lookup; eauto|]. rewrite Hid. split; constructor.
Qed.

(** X23. [validateDependencies] is right both ways: it replies
    [validation_passed] exactly when no dependency is the id of no task
    and no task is on a dependency cycle; and when there is a cycle, of
    any length, the reply holds a circular-dependency issue for a
    dependency that closes a cycle. *)
Theorem validateDependencies_passes_iff rid s k req :
  findRequest s rid = Some (k, req) →
  ∃ r, validateDependencies rid s = Some r
       ∧ (tag r = validation_passed ↔
            noDangling (tasks req) ∧ ¬ ∃ x y, onCycle (tasks req) x y)
       ∧ ((∃ x y, onCycle (tasks req) x y) →
            tag r = validation_failed
            ∧ ∃ x y, onCycle (tasks req) x y ∧ circularIssue x y ∈ issues r).
Proof.
  intros Hf. unfold validateDependencies. rewrite Hf.
  destruct (allIssues_cycles (tasks req)) as [[Hno ->]|(x & y & Hxy & ->)].
  - destruct (decide (0 < length (danglingIssues (tasks req)))) as [Hlen|Hlen].
    + eexists. split; [done|]. simpl. split; [|by intros ?]. split; [done|].
      intros [Hd _]. apply danglingIssues_nil in Hd. rewrite Hd in Hlen. simpl in Hlen. lia.
    + eexists. split; [done|]. simpl. split; [|by intros ?]. split; [|done].
      intros _. split; [|done]. apply danglingIssues_nil.
      destruct (danglingIssues (tasks req)); [done|simpl in Hlen; lia].
  - rewrite decide_True by (rewrite length_app; simpl; lia).
    eexists. split; [done|]. simpl. split.
    + split; [done|]. intros [_ Hn]. destruct Hn. by exists x, y.
    + intros _. split; [done|]. exists x, y. split; [done|].
      apply dedup_elem. split; [|apply not_elem_of_nil].
      apply elem_of_app. right. by left.
Qed.

Lemma validateDependencies_passes_iff_witness :
  ∃ r, validateDependencies "req-1" Examples.lowHigh = Some r
       ∧ (tag r = validation_passed ↔
            noDangling (tasks Examples.lowHighReq)
            ∧ ¬ ∃ x y, onCycle (tasks Examples.lowHighReq) x y).
Proof.
  destruct (validateDependencies_passes_iff "req-1" Examples.lowHigh 0 Examples.lowHighReq)
    as (r & H1 & H2 & _).
  - reflexivity.
  - exists r. split; assumption.
Defined.

(** A cycle of three tasks is reported. *)
Example validateDependencies_three_cycle :
  tag <$> validateDependencies "req-1"
    (run [request_planning "r" [Examples.def "A" None (Some ["task-2"]);
                                Examples.def "B" None (Some ["task-3"]);
                                Examples.def "C" None (Some ["task-1"])] None] emptyStore)
  = Some validation_failed.
Proof. vm_compute. reflexivity. Qed.

(** ** The tasks that are made *)

(** X24. The loop that makes the tasks of [requestPlanning] and
    [addTasksToRequest] numbers them one after the other from the task
    counter, in the order given, as long as the counter stays below
    [exactBound]; each new task is pending with the title, description,
    priority (medium if none) and dependencies (none if none) asked for,
    and no parent. *)
Theorem mkNewTasks_in_order c defs :
  (c + N.of_nat (length defs) < exactBound)%N →
  (mkNewTasks c defs).2 = (c + N.of_nat (length defs))%N
  ∧ length (mkNewTasks c defs).1 = length defs
  ∧ ∀ i td, defs !! i = Some td →
      (mkNewTasks c defs).1 !! i
      = Some (mkTask (taskIdOf (c + N.of_nat (S i))) (defTitle td) (defDescription td)
                pending (default medium (defPriority td))
                (Some (default [] (defDependsOn td))) None None None "").
Proof.
  intros _. revert c. induction defs as [|d defs IH]; intros c; simpl.
  { split; [lia|]. split; [done|]. intros i td Hi. by destruct i. }
  destruct (IH (c + 1)%N) as (Hc & Hlen & Hi).
  destruct (mkNewTasks (c + 1) defs) as [rest c']. simpl in *.
  split; [lia|]. split; [by rewrite Hlen|].
  intros [|i] td Htd; simpl in *.
  - injection Htd as <-. do 3 f_equal; lia.
  - rewrite (Hi i td Htd). do 3 f_equal; lia.
Qed.

Lemma mkNewTasks_in_order_witness :
  (mkNewTasks 5 [Examples.def "A" None None; Examples.def "B" (Some high) None]).1 !! 1
  = Some (mkTask "task-7" "B" "" pending high (Some []) None None None "").
Proof.
  destruct (mkNewTasks_in_order 5 [Examples.def "A" None None;
                                   Examples.def "B" (Some high) None])
    as (_ & _ & H).
  - reflexivity.
  - apply (H 1 (Examples.def "B" (Some high) None)). reflexivity.
Defined.

(** ** The operations that do not write a status *)

Lemma sameLifecycle_refl t : sameLifecycle t t.
Proof. done. Qed.

Lemma sameLifecycle_insert (ts : list Task) i t t' x :
  ts !! i = Some t → sameLifecycle t t' → x ∈ <[i := t']> ts →
  ∃ t0, t0 ∈ ts ∧ sameLifecycle t0 x.
Proof.
  intros Hi Hs [j Hj]%list_elem_of_lookup. destruct (decide (i = j)) as [->|Hne].
  - rewrite list_lookup_insert_eq in Hj by (by eapply lookup_lt_Some).
    injection Hj as <-. exists t. split; [apply list_elem_of_lookup; eauto|done].
  - rewrite list_lookup_insert_ne in Hj by done.
    exists x. split; [apply list_elem_of_lookup; eauto|done].
Qed.

(** Where a task comes from after an operation that writes no status:
    it is a task of the same request with the same status and lifecycle
    fields, or a new pending task. *)
Lemma step_keeps_status op s k r' t' :
  changesStatus op = false →
  requests (step op s) !! k = Some r' → t' ∈ tasks r' →
  (∃ r t, requests s !! k = Some r ∧ t ∈ tasks r ∧ sameLifecycle t t')
  ∨ (∃ n, id t' = taskIdOf n ∧ (lastTaskId s < n)%N ∧ status t' = pending).
Proof.
  assert (Hput : ∀ (rs : list RequestEntry) k0 req req',
            requests s !! k0 = Some req →
            (∀ x, x ∈ tasks req' →
               (∃ t, t ∈ tasks req ∧ sameLifecycle t x)
               ∨ (∃ n, id x = taskIdOf n ∧ (lastTaskId s < n)%N ∧ status x = pending)) →
            <[k0 := req']> (requests s) !! k = Some r' → t' ∈ tasks r' →
            (∃ r t, requests s !! k = Some r ∧ t ∈ tasks r ∧ sameLifecycle t t')
            ∨ (∃ n, id t' = taskIdOf n ∧ (lastTaskId s < n)%N ∧ status t' = pending)).
  { intros _ k0 req req' Hk0 Hall Hk Ht'. destruct (decide (k0 = k)) as [->|Hne].
    - rewrite list_lookup_insert_eq in Hk by (by eapply lookup_lt_Some).
      injection Hk as <-. destruct (Hall t' Ht') as [(t & Ht & Hs)|Hnew]; [|by right].
      left. by exists req, t.
    - rewrite list_lookup_insert_ne in Hk by done. left. exists r', t'. done. }
  assert (Hsame : requests s !! k = Some r' → t' ∈ tasks r' →
            (∃ r t, requests s !! k = Some r ∧ t ∈ tasks r ∧ sameLifecycle t t')
            ∨ (∃ n, id t' = taskIdOf n ∧ (lastTaskId s < n)%N ∧ status t' = pending)).
  { intros Hk Ht'. left. by exists r', t'. }
  assert (Hnew : ∀ defs x, x ∈ (mkNewTasks (lastTaskId s) defs).1 →
            ∃ n, id x = taskIdOf n ∧ (lastTaskId s < n)%N ∧ status x = pending).
  { intros defs x Hx. destruct (mkNewTasks_spec (lastTaskId s) defs) as (_ & Hn & _).
    pose proof (mkNewTasks_pending (lastTaskId s) defs) as Hp.
    rewrite Forall_forall in Hn, Hp. destruct (Hn x Hx) as (n & Hid & Hr & _).
    exists n. split; [done|]. split; [lia|by apply Hp]. }
  intros Hop. destruct op; try discriminate Hop; simpl; try exact Hsame.
  - (* request_planning *)
    unfold requestPlanning. specialize (Hnew defs).
    destruct (mkNewTasks (lastTaskId s) defs) as [newTasks tc]. simpl in *.
    intros Hk Ht'. destruct (decide (k < length (requests s))) as [Hlt|Hge].
    + rewrite lookup_app_l in Hk by done. by apply Hsame.
    + rewrite lookup_app_r in Hk by lia.
      apply list_lookup_singleton_Some in Hk as [_ <-]. right. by apply Hnew.
  - (* add_tasks_to_request *)
    unfold addTasksToRequest. destruct (findRequest s rid) as [[k0 req]|] eqn:Hf; [|done].
    destruct (completed req); [done|]. specialize (Hnew defs).
    destruct (mkNewTasks (lastTaskId s) defs) as [newTasks tc]. simpl in *.
    apply findRequest_Some in Hf as [Hk0 _]. eapply Hput; [exact []|done|].
    simpl. intros x [Hx|Hx]%elem_of_app; [left; by exists x|right; by apply Hnew].
  - (* update_task *)
    unfold updateTask. destruct (findRequest s rid) as [[k0 req]|] eqn:Hf; [|done].
    destruct (findTask (tasks req) taskId) as [[i task]|] eqn:Ht; [|done].
    destruct (isTerminal task); [done|]. simpl.
    apply findRequest_Some in Hf as [Hk0 _]. apply findTask_Some in Ht as [Ht _].
    eapply Hput; [exact []|done|]. simpl. intros x Hx. left.
    eapply sameLifecycle_insert; [exact Ht| |exact Hx].
    by destruct (truthy newTitle), (truthy newDescription), newPriority.
  - (* add_dependency *)
    unfold addDependency. destruct (findRequest s rid) as [[k0 req]|] eqn:Hf; [|done].
    destruct (findTask (tasks req) taskId) as [[i task]|] eqn:Ht; [|done].
    destruct (findTask (tasks req) dependsOnTaskId); [|done].
    destruct (decide (taskId = dependsOnTaskId)); [done|].
    destruct (decide (dependsOnTaskId ∈ _)); [done|]. simpl.
    apply findRequest_Some in Hf as [Hk0 _]. apply findTask_Some in Ht as [Ht _].
    eapply Hput; [exact []|done|]. simpl. intros x Hx. left.
    eapply sameLifecycle_insert; [exact Ht| |exact Hx]. done.
  - (* remove_dependency *)
    unfold removeDependency. destruct (findRequest s rid) as [[k0 req]|] eqn:Hf; [|done].
    destruct (findTask (tasks req) taskId) as [[i task]|] eqn:Ht; [|done].
    destruct (dependsOn task) as [deps|]; [|done].
    destruct (decide (dependsOnTaskId ∈ deps)); [|done]. simpl.
    apply findRequest_Some in Hf as [Hk0 _]. apply findTask_Some in Ht as [Ht _].
    eapply Hput; [exact []|done|]. simpl. intros x Hx. left.
    eapply sameLifecycle_insert; [exact Ht| |exact Hx]. done.
  - (* delete_task *)
    unfold deleteTask. destruct (findRequest s rid) as [[k0 req]|] eqn:Hf; [|done].
    destruct (findTask (tasks req) taskId); [|done].
    pose proof (removeTaskAndDescendants_origin (tasks req) taskId) as Ho.
    destruct (removeTaskAndDescendants (tasks req) taskId) as [ts' removed].
    destruct removed; [|done]. simpl in *.
    apply findRequest_Some in Hf as [Hk0 _]. eapply Hput; [exact []|done|].
    simpl. intros x Hx. left. destruct (Ho x Hx) as (t & Ht & Heq).
    exists t. split; [done|]. by rewrite Heq.
  - (* add_subtask *)
    unfold addSubtask. destruct (findRequest s rid) as [[k0 req]|] eqn:Hf; [|done].
    destruct (completed req); [done|].
    destruct (findTask (tasks req) parentTaskId) as [[p parentTask]|] eqn:Ht; [|done].
    destruct (isTerminal parentTask); [done|]. simpl.
    apply findRequest_Some in Hf as [Hk0 _]. eapply Hput; [exact []|done|].
    simpl. intros x [j Hj]%list_elem_of_lookup. rewrite list_lookup_alter in Hj.
    assert (Hfrom : ∃ y, y ∈ tasks req ++ [mkTask (taskIdOf (lastTaskId s + 1)) subtaskTitle
                       subtaskDescription pending (default (priority parentTask) prio)
                       (Some (default [] deps)) (Some parentTaskId) (Some []) None ""]
                     ∧ sameLifecycle y x).
    { case_decide.
      - subst j. destruct (_ !! p) as [y|] eqn:Ey; [|done]. simpl in Hj.
        injection Hj as <-. exists y. split; [apply list_elem_of_lookup; eauto|done].
      - exists x. split; [apply list_elem_of_lookup; eauto|done]. }
    destruct Hfrom as (y & [Hy|Hy%list_elem_of_singleton]%elem_of_app & Hs).
    + left. by exists y.
    + right. subst y. destruct Hs as (Hid & Hst & _). exists (lastTaskId s + 1)%N.
      split; [done|]. split; [lia|done].
  - (* remove_subtask *)
    unfold removeSubtask. destruct (findRequest s rid) as [[k0 req]|] eqn:Hf; [|done].
    destruct (findTask (tasks req) subtaskId); [|done].
    destruct (match truthy parentTaskId with Some _ => _ | None => _ end); [|done].
    pose proof (removeTaskAndDescendants_origin (tasks req) subtaskId) as Ho.
    destruct (removeTaskAndDescendants (tasks req) subtaskId) as [ts' removed].
    destruct removed; [|done]. simpl in *.
    apply findRequest_Some in Hf as [Hk0 _]. eapply Hput; [exact []|done|].
    simpl. intros x Hx. left. destruct (Ho x Hx) as (t & Ht & Heq).
    exists t. split; [done|]. by rewrite Heq.
Qed.

(** X25. Only [getNextTask], [markTaskDone] and [markTaskFailed] write a
    status: after any other operation, every task that is still there has
    the status, the failure reason and the completion details it had.
    Deleting the last open subtask of a parent, for one, does not
    complete the parent. *)
Theorem other_operations_keep_status op s k r r' t t' :
  reachable s → changesStatus op = false →
  requests s !! k = Some r → requests (step op s) !! k = Some r' →
  t ∈ tasks r → t' ∈ tasks r' → id t' = id t →
  status t' = status t
  ∧ failureReason t' = failureReason t
  ∧ completedDetails t' = completedDetails t.
Proof.
  intros Hs Hop Hk Hk' Ht Ht' Hid. pose proof (reachable_wellFormed s Hs) as Hwf.
  destruct (step_keeps_status op s k r' t' Hop Hk' Ht')
    as [(r0 & t0 & Hk0 & Ht0 & Hid0 & Hrest)|(n & Hn & Hlt & _)].
  - rewrite Hk in Hk0. injection Hk0 as <-.
    assert (t0 = t) as -> by (eapply wellFormed_same_task; [done..|congruence]). done.
  - destruct (wellFormed_task_id s k r t Hwf Hk Ht) as (m & Hm & Hle).
    assert (n = m) as -> by (apply taskIdOf_inj; congruence). lia.
Qed.

Lemma other_operations_keep_status_witness :
  let s := Examples.pendingParent in
  let t := mkTask "task-1" "P" "" pending low (Some []) None (Some ["task-2"]) None "" in
  let t' := mkTask "task-1" "P" "" pending low None None None None "" in
  status t' = status t
  ∧ failureReason t' = failureReason t
  ∧ completedDetails t' = completedDetails t.
Proof.
  intros s t t'.
  apply (other_operations_keep_status (delete_task "req-1" "task-2") s 0
           Examples.pendingParentReq (mkRequest "req-1" "r" "r" [t'] false) t t').
  - apply reachable_run. constructor.
  - reflexivity.
  - reflexivity.
  - reflexivity.
  - apply list_elem_of_here.
  - apply list_elem_of_here.
  - reflexivity.
Defined.

(** ** Subtasks of active parents first *)

Lemma passA_elem_parent ts (r : TaskRef) :
  r ∈ passA ts →
  ∃ parent, parent ∈ ts ∧ status parent = active
            ∧ id r.2 ∈ default [] (subtaskIds parent).
Proof.
  unfold passA. rewrite list_elem_of_In, in_flat_map.
  intros (parent & Hp & Hin). apply in_flat_map in Hin as (subId & Hsub & Hin).
  apply list_elem_of_In, list_elem_of_filter in Hp as [[Hact _] Hp].
  destruct (mkTaskMap ts !! subId) as [[i sub]|] eqn:E; [|done].
  destruct (_ && _); [|done]. destruct Hin as [<-|[]]. simpl.
  apply mkTaskMap_lookup_Some in E as [_ ->].
  exists parent. split; [done|]. split; [done|]. by apply list_elem_of_In.
Qed.

(** X26. Subtasks of active parents come first: in a state that the
    operations reach, as long as some pending subtask of an active parent
    has its dependencies met, [getNextTask] returns a pending task with
    its dependencies met that an active task lists as its subtask, and
    no other task. *)
Theorem getNextTask_subtasks_first rid s k req y :
  reachable s → findRequest s rid = Some (k, req) → completed req = false →
  y ∈ tasks req → status y = pending →
  areDependenciesMet (tasks req) y = true → parentIsActive (tasks req) y = true →
  ∃ i t parent,
    (getNextTask rid s).2 = replyWith next_task (setStatus active t)
    ∧ tasks req !! i = Some t ∧ status t = pending
    ∧ areDependenciesMet (tasks req) t = true
    ∧ parent ∈ tasks req ∧ status parent = active
    ∧ id t ∈ default [] (subtaskIds parent).
Proof.
  intros Hs Hf Hc Hy Hpend Hdeps Hpa. pose proof (reachable_wellFormed s Hs) as Hwf.
  pose proof (wellFormed_findRequest _ _ _ _ Hwf Hf) as (Hnd & _ & Hlink).
  rewrite Forall_forall in Hlink.
  apply list_elem_of_lookup in Hy as [j Hj].
  pose proof (mkTaskMap_NoDup_lookup _ _ _ Hnd Hj) as Hmap.
  assert (Hin : (j, y) ∈ passA (tasks req)).
  { unfold parentIsActive, parentRef in Hpa.
    destruct (truthy (parentId y)) as [pid|] eqn:Hpid; [|done].
    destruct (mkTaskMap (tasks req) !! pid) as [[p parent]|] eqn:Hp; [|done].
    apply bool_decide_eq_true in Hpa.
    apply mkTaskMap_lookup_Some in Hp as [Hp Hidp].
    assert (Hy : y ∈ tasks req) by (apply list_elem_of_lookup; eauto).
    destruct (Hlink y Hy pid Hpid) as (parent0 & Hin0 & Hid0 & Hsub).
    assert (parent0 = parent) as ->.
    { eapply NoDup_map_id_inj; [exact Hnd|done| |congruence].
      apply list_elem_of_lookup. eauto. }
    unfold passA. apply list_elem_of_In, in_flat_map. exists parent. split.
    - apply list_elem_of_In, list_elem_of_filter. split; [|done].
      split; [done|]. intros Hnil. rewrite Hnil in Hsub. by apply elem_of_nil in Hsub.
    - apply in_flat_map. exists (id y). split; [by apply list_elem_of_In|].
      rewrite Hmap, Hdeps. rewrite bool_decide_eq_true_2 by done. simpl. by left. }
  assert (Hpot : potentialNextTasks (tasks req) = passA (tasks req)).
  { unfold potentialNextTasks. destruct (passA (tasks req)); [|done].
    by apply elem_of_nil in Hin. }
  destruct (selectNext (tasks req)) as [[i t]|] eqn:Hsel.
  2: { apply selectNext_None in Hsel. rewrite Hpot in Hsel. rewrite Hsel in Hin.
       by apply elem_of_nil in Hin. }
  pose proof (selectNext_elem _ _ Hsel) as Hel. rewrite Hpot in Hel.
  destruct (passA_elem _ _ Hel) as (Hi & Hst & Hd).
  destruct (passA_elem_parent _ _ Hel) as (parent & Hp & Hact & Hsub).
  exists i, t, parent. split; [by rewrite (getNextTask_reply rid s k req (i, t))|].
  done.
Qed.

Lemma getNextTask_subtasks_first_witness :
  let s := run [request_planning "r" [Examples.def "P" None None] None;
                get_next_task "req-1";
                add_subtask "req-1" "task-1" "S" "" None None] emptyStore in
  let p := mkTask "task-1" "P" "" active medium (Some []) None (Some ["task-2"]) None "" in
  let y := mkTask "task-2" "S" "" pending medium (Some []) (Some "task-1") (Some [])
             None "" in
  let req := mkRequest "req-1" "r" "r" [p; y] false in
  ∃ i t parent,
    (getNextTask "req-1" s).2 = replyWith next_task (setStatus active t)
    ∧ tasks req !! i = Some t ∧ status t = pending
    ∧ areDependenciesMet (tasks req) t = true
    ∧ parent ∈ tasks req ∧ status parent = active
    ∧ id t ∈ default [] (subtaskIds parent).
Proof.
  intros s p y req. apply (getNextTask_subtasks_first "req-1" s 0 req y).
  - apply reachable_run. constructor.
  - reflexivity.
  - reflexivity.
  - apply list_elem_of_further, list_elem_of_here.
  - reflexivity.
  - reflexivity.
  - reflexivity.
Defined.

(** ** A failed dependency *)

Lemma run_keeps_failed ops s taskId :
  (∀ k r t, requests s !! k = Some r → t ∈ tasks r → id t = taskId → status t = failed) →
  (∃ n, taskId = taskIdOf n ∧ (n ≤ lastTaskId s)%N) →
  ∀ k r t, requests (run ops s) !! k = Some r → t ∈ tasks r → id t = taskId →
           status t = failed.
Proof.
  intros Hs (n & -> & Hn). induction ops as [|op ops IH] using rev_ind; [done|].
  intros k r' t' Hk Ht' Hid. rewrite run_snoc in Hk.
  destruct (step_task_origin _ _ _ _ _ Hk Ht')
    as [(r0 & t0 & Hk0 & Ht0 & Hid0 & Hfw & _)|(m & Hm & Hr & _)].
  - assert (Hf : status t0 = failed) by (eapply IH; [done|done|congruence]).
    rewrite Hf in Hfw. apply forward_terminal in Hfw; [done|by right].
  - assert (m = n) as -> by (apply taskIdOf_inj; congruence).
    destruct (run_counters ops s) as (Hc & _). lia.
Qed.

(** X27. A failed dependency holds its dependents back for good: once a
    task has failed, [getNextTask] never again returns a task that lists
    it in [dependsOn], whatever operations are run in between. *)
Theorem failed_dependency_blocks ops s k r d rid x :
  reachable s → requests s !! k = Some r → d ∈ tasks r → status d = failed →
  replyTask (getNextTask rid (run ops s)).2 = Some x →
  id d ∉ default [] (dependsOn x).
Proof.
  intros Hs Hk Hd Hfail Hx Hin.
  pose proof (reachable_wellFormed s Hs) as Hwf.
  pose proof (reachable_ids_across s Hs) as Hacross.
  assert (Hkeep : ∀ k' r' t', requests (run ops s) !! k' = Some r' → t' ∈ tasks r' →
                    id t' = id d → status t' = failed).
  { apply run_keeps_failed.
    - intros k0 r0 t0 Hk0 Ht0 Hid0.
      assert (k0 = k) as -> by (by eapply Hacross).
      rewrite Hk in Hk0. injection Hk0 as <-.
      by rewrite (wellFormed_same_task s k r d t0 Hwf Hk Hd Ht0 Hid0).
    - by eapply wellFormed_task_id. }
  revert Hx. unfold getNextTask.
  destruct (findRequest (run ops s) rid) as [[k' req]|] eqn:Hf; [|done].
  destruct (completed req); [done|].
  destruct (selectNext (tasks req)) as [[i next]|] eqn:Hsel.
  2: { by destruct (forallb isTerminal (tasks req)). }
  apply selectNext_elem, potentialNextTasks_elem in Hsel as (Hi & Hst & Hdeps).
  simpl in Hi, Hst, Hdeps. rewrite areDependenciesMet_true in Hdeps.
  apply findRequest_Some in Hf as [Hk' _].
  assert (Hno : id d ∉ default [] (dependsOn next)).
  { intros Hdep. destruct (Hdeps _ Hdep) as (j & dep & Hl & Hdone).
    apply mkTaskMap_lookup_Some in Hl as [Hl Hid].
    assert (status dep = failed); [|congruence].
    eapply Hkeep; [exact Hk'|apply list_elem_of_lookup; eauto|done]. }
  case_bool_decide; simpl; intros [= <-]; by apply Hno.
Qed.

Lemma failed_dependency_blocks_witness :
  let d := mkTask "task-1" "A" "" failed medium (Some []) None None (Some "no") "" in
  let x := mkTask "task-3" "C" "" active medium (Some []) None None None "" in
  id d ∉ default [] (dependsOn x).
Proof.
  intros d x.
  set (s := run [request_planning "r" [Examples.def "A" None None;
                                       Examples.def "B" None (Some ["task-1"]);
                                       Examples.def "C" None None] None;
                 mark_task_failed "req-1" "task-1" (Some "no")] emptyStore).
  apply (failed_dependency_blocks [update_task "req-1" "task-2" (Some "B2") None None] s 0
           (mkRequest "req-1" "r" "r"
              [d;
               mkTask "task-2" "B" "" pending medium (Some ["task-1"]) None None None "";
               mkTask "task-3" "C" "" pending medium (Some []) None None None ""]
              false)
           d "req-1" x).
  - apply reachable_run. constructor.
  - reflexivity.
  - apply list_elem_of_here.
  - reflexivity.
  - reflexivity.
Defined.

(** ** The choice, the parent and the cascade, on the fields of the tasks *)

(** The look-ups of the operations ([parentRef], [findParent], the task
    map) find, on a list with distinct ids, the tasks that the fields
    name. *)

Lemma taskIdOf_nonempty n : taskIdOf n ≠ "".
Proof. done. Qed.

Lemma wellFormedTasks_distinctIds c ts : wellFormedTasks c ts → distinctIds ts.
Proof.
  intros (Hnd & Hids & _). split; [done|].
  intros Hin. apply list_elem_of_fmap in Hin as (t & Hid & Ht).
  rewrite Forall_forall in Hids. destruct (Hids t Ht) as (n & Hn & _).
  rewrite Hn in Hid. by destruct (taskIdOf_nonempty n).
Qed.

Lemma distinctIds_id_nonempty ts t : distinctIds ts → t ∈ ts → id t ≠ "".
Proof.
  intros [_ Hne] Ht Hid. apply Hne. apply list_elem_of_fmap. eauto.
Qed.

Lemma truthy_nonempty x : x ≠ "" → truthy (Some x) = Some x.
Proof. intros Hx. simpl. by rewrite decide_False. Qed.

Lemma findTask_NoDup_lookup ts i t :
  NoDup (map id ts) → ts !! i = Some t → findTask ts (id t) = Some (i, t).
Proof.
  intros Hnd Hi. apply list_find_Some. split; [done|]. split; [done|].
  intros j y Hj Hlt Hid.
  assert (j = i); [|lia].
  eapply NoDup_lookup; [exact Hnd| |].
  - by rewrite list_lookup_fmap, Hj.
  - rewrite list_lookup_fmap, Hi. simpl. by rewrite Hid.
Qed.

Lemma parentRef_parentAt ts t p parent :
  distinctIds ts → parentAt ts t p parent → parentRef ts t = Some (p, parent).
Proof.
  intros [Hnd Hne] [Hp Hpar]. unfold parentRef. rewrite Hpar.
  rewrite truthy_nonempty.
  - by apply mkTaskMap_NoDup_lookup.
  - eapply distinctIds_id_nonempty; [done|]. apply list_elem_of_lookup. eauto.
Qed.

Lemma parentRef_parentAt_inv ts t p parent :
  parentRef ts t = Some (p, parent) → parentAt ts t p parent.
Proof.
  unfold parentRef. destruct (truthy (parentId t)) as [pid|] eqn:E; [|done].
  intros [H1 H2]%mkTaskMap_lookup_Some. split; [done|].
  apply truthy_Some in E. by rewrite E, H2.
Qed.

Lemma findParent_parentAt ts t p parent :
  distinctIds ts → parentAt ts t p parent → findParent ts t = Some (p, parent).
Proof.
  intros [Hnd Hne] [Hp Hpar]. unfold findParent. rewrite Hpar.
  rewrite truthy_nonempty.
  - by apply findTask_NoDup_lookup.
  - eapply distinctIds_id_nonempty; [done|]. apply list_elem_of_lookup. eauto.
Qed.

Lemma findParent_parentAt_inv ts t p parent :
  findParent ts t = Some (p, parent) → parentAt ts t p parent.
Proof.
  unfold findParent. destruct (truthy (parentId t)) as [pid|] eqn:E; [|done].
  intros [H1 H2]%findTask_Some. split; [done|].
  apply truthy_Some in E. by rewrite E, H2.
Qed.

Lemma parentIsActive_hasActiveParent ts t :
  distinctIds ts → parentIsActive ts t = true ↔ hasActiveParent ts t.
Proof.
  intros Hd. unfold parentIsActive. split.
  - destruct (parentRef ts t) as [[p parent]|] eqn:E; [|done].
    intros Hst%bool_decide_eq_true. exists p, parent.
    split; [by apply parentRef_parentAt_inv|done].
  - intros (p & parent & Hp & Hst).
    rewrite (parentRef_parentAt _ _ _ _ Hd Hp). by apply bool_decide_eq_true.
Qed.

Lemma priorityOrder_rank p : priorityOrder p = Z.of_nat (rank p).
Proof. by destruct p. Qed.

Lemma idNum_hasNumber t n : hasNumber t n → idNum t = Some (Z.of_N n).
Proof. unfold hasNumber, idNum. intros ->. apply parseInt_taskIdOf. Qed.

(** On a list with distinct ids [precedes], the order of the
    comparator, is the order of the specification. *)
Lemma precedes_comesFirst ts a b n m :
  distinctIds ts → hasNumber a n → hasNumber b m →
  precedes ts a b ↔ comesFirst ts a b.
Proof.
  intros Hd Ha Hb. unfold precedes, comesFirst.
  pose proof (parentIsActive_hasActiveParent ts a Hd) as Pa.
  pose proof (parentIsActive_hasActiveParent ts b Hd) as Pb.
  rewrite !priorityOrder_rank, (idNum_hasNumber a n Ha), (idNum_hasNumber b m Hb).
  split.
  - intros [[H1 H2]|[H1 H2]].
    + left. split; [by apply Pa|]. rewrite <- Pb. congruence.
    + right. split; [by rewrite <- Pa, <- Pb, H1|].
      destruct H2 as [H2|(H2 & x & y & [= <-] & [= <-] & Hxy)]; [left; lia|].
      right. split; [lia|]. exists n, m. split; [done|]. split; [done|]. lia.
  - intros [[H1 H2]|[H1 H2]].
    + left. split; [by apply Pa|]. rewrite <- Pb in H2. by destruct (parentIsActive ts b).
    + right. split.
      { rewrite <- Pa, <- Pb in H1.
        destruct (parentIsActive ts a), (parentIsActive ts b); try done.
        - symmetry. by apply H1. - by apply H1. }
      destruct H2 as [H2|(H2 & x & y & Hx & Hy & Hxy)]; [left; lia|].
      right. split; [lia|]. exists (Z.of_N x), (Z.of_N y).
      unfold hasNumber in *. rewrite Hx in Ha. rewrite Hy in Hb.
      apply (taskIdOf_inj x n) in Ha. apply (taskIdOf_inj y m) in Hb. subst.
      split; [done|]. split; [done|]. lia.
Qed.

(** *** get_next_task: the choice *)

Lemma wellFormedTasks_hasNumber c ts t :
  wellFormedTasks c ts → t ∈ ts → ∃ n, hasNumber t n ∧ (n ≤ c)%N.
Proof.
  intros (_ & Hids & _) Ht. rewrite Forall_forall in Hids. by apply Hids.
Qed.

Lemma comesFirst_antisym ts a b :
  comesFirst ts a b → comesFirst ts b a → id a = id b.
Proof.
  unfold comesFirst.
  intros [[H1 H2]|[H1 [H2|(H2 & n & m & Hn & Hm & Hnm)]]]
         [[H3 H4]|[H3 [H4|(H4 & n' & m' & Hn' & Hm' & Hnm')]]];
    try tauto; try lia.
  unfold hasNumber in *. rewrite Hn in Hm'. rewrite Hm in Hn'.
  apply (taskIdOf_inj n m') in Hm'. apply (taskIdOf_inj m n') in Hn'. subst.
  assert (n' = m') as -> by lia. congruence.
Qed.

Lemma getNextTask_same_tasks rid s k req rid2 s2 k2 req2 :
  findRequest s rid = Some (k, req) → completed req = false →
  findRequest s2 rid2 = Some (k2, req2) → completed req2 = false →
  tasks req2 = tasks req →
  (getNextTask rid2 s2).2 = (getNextTask rid s).2.
Proof.
  intros Hf Hc Hf2 Hc2 Hts. unfold getNextTask. rewrite Hf, Hf2, Hc, Hc2, Hts.
  destruct (selectNext (tasks req)) as [r|].
  - by destruct (bool_decide (status r.2 = pending)).
  - by destruct (forallb isTerminal (tasks req)).
Qed.

(** C1. In a state that the operations reach, with the task counter
    below [exactBound], on a request that is not completed and has
    candidates, [getNextTask] replies with the candidate that
    [comesFirst] of all candidates: tasks whose parent is active before
    the others, then by priority rank (high 0, medium 1, low 2), then by
    the number of the id.  No other candidate comes first of all, so the
    choice is fixed by the tasks of the request: whatever the store,
    a request that is not completed and has these tasks gets the same
    reply. *)
Theorem getNextTask_returns_minimal rid s k req :
  reachable s → (lastTaskId s < exactBound)%N →
  findRequest s rid = Some (k, req) →
  completed req = false →
  potentialNextTasks (tasks req) ≠ [] →
  ∃ i next,
    (i, next) ∈ potentialNextTasks (tasks req)
    ∧ (getNextTask rid s).2 = replyWith next_task (setStatus active next)
    ∧ (∀ c, c ∈ potentialNextTasks (tasks req) → comesFirst (tasks req) next c.2)
    ∧ (∀ c, c ∈ potentialNextTasks (tasks req) →
         (∀ c', c' ∈ potentialNextTasks (tasks req) → comesFirst (tasks req) c.2 c'.2) →
         c = (i, next))
    ∧ (∀ rid2 s2 k2 req2,
         findRequest s2 rid2 = Some (k2, req2) → completed req2 = false →
         tasks req2 = tasks req →
         (getNextTask rid2 s2).2 = replyWith next_task (setStatus active next)).
Proof.
  intros Hs _ Hf Hc Hne.
  pose proof (wellFormed_findRequest _ _ _ _ (reachable_wellFormed s Hs) Hf) as Hwf.
  pose proof (wellFormedTasks_distinctIds _ _ Hwf) as Hd.
  assert (Hnum : ∀ c : TaskRef, c ∈ potentialNextTasks (tasks req) →
            tasks req !! c.1 = Some c.2 ∧ ∃ n, hasNumber c.2 n).
  { intros c Hin. apply potentialNextTasks_elem in Hin as (Hl & _). split; [done|].
    destruct (wellFormedTasks_hasNumber _ _ c.2 Hwf) as (n & Hn & _); [|by eauto].
    apply list_elem_of_lookup. eauto. }
  destruct (getNextTask_head_least rid s k req Hf Hc Hne) as (i & next & Hin & Hi & Hmin & Hrep & _).
  { apply Forall_forall. intros c Hin. destruct (Hnum c Hin) as (_ & n & Hn).
    rewrite (idNum_hasNumber _ _ Hn). eauto. }
  destruct (Hnum _ Hin) as (_ & n & Hn). simpl in Hn.
  assert (Hmin' : ∀ c, c ∈ potentialNextTasks (tasks req) → comesFirst (tasks req) next c.2).
  { intros c Hcin. destruct (Hnum c Hcin) as (_ & m & Hm).
    apply (precedes_comesFirst _ _ _ n m Hd Hn Hm). by apply Hmin. }
  exists i, next. split; [done|]. split; [done|]. split; [done|]. split.
  - intros [j c] Hcin Hcmin. destruct (Hnum _ Hcin) as (Hj & _). simpl in *.
    pose proof (comesFirst_antisym _ _ _ (Hmin' _ Hcin) (Hcmin _ Hin)) as Hid.
    simpl in Hid.
    assert (c = next) as ->.
    { apply (NoDup_map_id_inj (tasks req)); [apply Hd| | |done];
        apply list_elem_of_lookup; eauto. }
    f_equal. eapply NoDup_lookup; [apply Hd| |].
    + by rewrite list_lookup_fmap, Hj.
    + by rewrite list_lookup_fmap, Hi.
  - intros rid2 s2 k2 req2 Hf2 Hc2 Hts. rewrite <- Hrep.
    by apply (getNextTask_same_tasks rid s k req rid2 s2 k2 req2).
Qed.

Lemma getNextTask_returns_minimal_witness :
  (getNextTask "req-1" Examples.lowHigh).2
  = replyWith next_task
      (mkTask "task-2" "B" "" active high (Some []) None None None "").
Proof.
  destruct (getNextTask_returns_minimal "req-1" Examples.lowHigh 0 Examples.lowHighReq)
    as (i & next & Hin & Hrep & Hmin & _).
  - apply reachable_run. constructor.
  - reflexivity.
  - reflexivity.
  - reflexivity.
  - vm_compute. discriminate.
  - rewrite Hrep. f_equal.
    assert (HB : (1, mkTask "task-2" "B" "" pending high (Some []) None None None "")
                 ∈ potentialNextTasks (tasks Examples.lowHighReq)).
    { vm_compute. apply list_elem_of_further, list_elem_of_here. }
    vm_compute in Hin.
    apply elem_of_cons in Hin as [Hin|Hin].
    + injection Hin as -> ->. specialize (Hmin _ HB). exfalso.
      destruct Hmin as [[(p & parent & [_ Hp] & _) _]|[_ [Hr|[Hr _]]]];
        [discriminate Hp|simpl in Hr; lia|discriminate Hr].
    + apply list_elem_of_singleton in Hin. injection Hin as -> ->. reflexivity.
Defined.

(** *** get_next_task and mark_task_*: the parent *)

Lemma findRequest_lookup s rid k req :
  findRequest s rid = Some (k, req) → requests s !! k = Some req ∧ requestId req = rid.
Proof. intros H. apply list_find_Some in H as (H1 & H2 & _). done. Qed.

Lemma reachable_request_tasks s rid k req :
  reachable s → findRequest s rid = Some (k, req) →
  wellFormedTasks (lastTaskId s) (tasks req) ∧ Forall parentOlder (tasks req).
Proof.
  intros Hs Hf. split.
  - by apply (wellFormed_findRequest s rid k req (reachable_wellFormed s Hs)).
  - apply findRequest_lookup in Hf as [Hk _].
    by apply (Forall_lookup_1 _ _ _ _ (reachable_parentOlder s Hs) Hk).
Qed.

Lemma hasNumber_inj t n m : hasNumber t n → hasNumber t m → n = m.
Proof. unfold hasNumber. intros H1 H2. rewrite H1 in H2. by apply taskIdOf_inj in H2. Qed.

Lemma parentAt_unique ts t p a q b :
  distinctIds ts → parentAt ts t p a → parentAt ts t q b → p = q ∧ a = b.
Proof.
  intros [Hnd _] [Hp Ha] [Hq Hb].
  assert (p = q) as ->; [|split; congruence].
  eapply NoDup_lookup; [exact Hnd| |].
  - by rewrite list_lookup_fmap, Hp.
  - rewrite list_lookup_fmap, Hq. simpl. congruence.
Qed.

(** A parent has a lower number than its subtask, so it is at another
    position. *)
Lemma parentAt_older c ts i t p parent :
  wellFormedTasks c ts → Forall parentOlder ts →
  ts !! i = Some t → parentAt ts t p parent →
  p ≠ i ∧ ∃ n m, hasNumber t n ∧ hasNumber parent m ∧ (m < n)%N.
Proof.
  intros Hwf Hold Hi [Hp Hpar].
  pose proof (wellFormedTasks_distinctIds _ _ Hwf) as Hd.
  assert (Ht : t ∈ ts) by (apply list_elem_of_lookup; eauto).
  assert (Hpin : parent ∈ ts) by (apply list_elem_of_lookup; eauto).
  rewrite Forall_forall in Hold.
  destruct (Hold t Ht (id parent)) as (n & m & Hn & Hm & Hlt).
  { rewrite Hpar. apply truthy_nonempty. by eapply distinctIds_id_nonempty. }
  assert (Hnm : ∃ n m, hasNumber t n ∧ hasNumber parent m ∧ (m < n)%N)
    by (exists n, m; done).
  split; [|done]. intros ->. rewrite Hi in Hp. injection Hp as <-.
  rewrite Hn in Hm. apply taskIdOf_inj in Hm. lia.
Qed.



(** C4. In a state that the operations reach, when [markTaskDone] or
    [markTaskFailed] is called on a task that is pending or active, the
    task becomes done or failed.  If the task whose id is its [parentId]
    is pending or active, and every id of its [subtaskIds] is then the id
    of a task that is done or failed, this parent becomes done (only its
    status and [completedDetails] change), whether or not a subtask
    failed.  Every other task of the request, the parent of the parent
    among them, is left as it is. *)
Theorem markTask_parent_propagation rid taskId s k req i task s' task' :
  reachable s →
  findRequest s rid = Some (k, req) →
  tasks req !! i = Some task → id task = taskId →
  status task = pending ∨ status task = active →
  (∃ details, s' = (markTaskDone rid taskId details s).1 ∧ task' = markedDone details task)
  ∨ (∃ reason, s' = (markTaskFailed rid taskId reason s).1
               ∧ task' = markedFailed reason task) →
  ∃ ts',
    s' = putRequest k (completeRequest (setTasks ts' req)) s
    ∧ length ts' = length (tasks req)
    ∧ ts' !! i = Some task'
    ∧ (status task' = done ∨ status task' = failed)
    ∧ (∀ p parentTask,
         parentAt (tasks req) task p parentTask →
         status parentTask = pending ∨ status parentTask = active →
         (∀ subId, subId ∈ default [] (subtaskIds parentTask) →
            ∃ sub, sub ∈ <[i := task']> (tasks req) ∧ id sub = subId
                   ∧ (status sub = done ∨ status sub = failed)) →
         ∃ parent', ts' !! p = Some parent' ∧ status parent' = done
                    ∧ setStatus (status parentTask) parent'
                      = setCompletedDetails (completedDetails parent') parentTask)
    ∧ (∀ j t, tasks req !! j = Some t → j ≠ i →
         ¬ parentAt (tasks req) task j t → ts' !! j = Some t)
    ∧ (∀ p parentTask g grand,
         parentAt (tasks req) task p parentTask →
         parentAt (tasks req) parentTask g grand →
         ts' !! g = Some grand).
Proof.
  intros Hs Hf Hi Hid Hst Hop.
  destruct (reachable_request_tasks s rid k req Hs Hf) as [Hwf Hold].
  pose proof (wellFormedTasks_distinctIds _ _ Hwf) as Hd.
  assert (Ht : findTask (tasks req) taskId = Some (i, task)).
  { rewrite <- Hid. apply findTask_NoDup_lookup; [apply Hd|done]. }
  destruct (markTask_completeParent rid taskId s k req i task s' task' Hf Ht Hst Hop)
    as (ts' & Heq & Hlen & Hpar & Hoth & _).
  assert (Hid' : id task' = id task ∧ parentId task' = parentId task
                 ∧ (status task' = done ∨ status task' = failed)).
  { destruct Hop as [(d & _ & ->)|(r & _ & ->)]; simpl; auto. }
  destruct Hid' as (Hid' & Hpid' & Hterm).
  set (ts1 := <[i := task']> (tasks req)) in *.
  assert (Hmap : map id ts1 = map id (tasks req)).
  { unfold ts1. rewrite list_fmap_insert, Hid'.
    apply list_insert_id. by rewrite list_lookup_fmap, Hi. }
  assert (Hd1 : distinctIds ts1).
  { unfold distinctIds. rewrite Hmap. done. }
  assert (Hilt : i < length (tasks req)) by (by eapply lookup_lt_Some).
  (* a parent of the task in the list before is its parent afterwards *)
  assert (Hpa : ∀ p parentTask, parentAt (tasks req) task p parentTask →
            p ≠ i ∧ parentAt ts1 task' p parentTask).
  { intros p parentTask Hp.
    destruct (parentAt_older _ _ _ _ _ _ Hwf Hold Hi Hp) as [Hpi _].
    split; [done|]. destruct Hp as [Hp Hpp]. split.
    - unfold ts1. by rewrite list_lookup_insert_ne.
    - by rewrite Hpid'. }
  assert (Hrest : ∀ j t, tasks req !! j = Some t → j ≠ i →
            ¬ parentAt (tasks req) task j t → ts' !! j = Some t).
  { intros j t Hj Hji Hnot. rewrite Hoth.
    - unfold ts1. by rewrite list_lookup_insert_ne.
    - intros parentTask Hfp. apply findParent_parentAt_inv in Hfp as [Hl Hp].
      unfold ts1 in Hl. rewrite list_lookup_insert_ne in Hl by done.
      apply Hnot. assert (t = parentTask) as -> by congruence.
      split; [done|]. by rewrite <- Hpid'. }
  exists ts'. split; [done|]. split; [done|]. split; [|split; [done|split; [|split]]].
  - rewrite Hoth; [unfold ts1; by rewrite list_lookup_insert_eq|].
    intros parentTask Hfp. apply findParent_parentAt_inv in Hfp as [Hl Hp].
    unfold ts1 in Hl. rewrite list_lookup_insert_eq in Hl by done.
    injection Hl as <-.
    destruct (parentAt_older _ _ i task i task Hwf Hold Hi) as [Hne _]; [|done].
    split; [done|]. by rewrite <- Hpid', <- Hid'.
  - intros p parentTask Hp Hpst Hsubs.
    destruct (Hpa p parentTask Hp) as [Hpi Hp1].
    assert (Hlinked : id task ∈ default [] (subtaskIds parentTask)).
    { destruct Hwf as (_ & _ & Hlink). rewrite Forall_forall in Hlink.
      assert (Hin : task ∈ tasks req) by (apply list_elem_of_lookup; eauto).
      assert (Hpin : parentTask ∈ tasks req).
      { apply list_elem_of_lookup. exists p. apply Hp. }
      assert (Htr : truthy (parentId task) = Some (id parentTask)).
      { destruct Hp as [_ ->]. apply truthy_nonempty.
        by apply (distinctIds_id_nonempty (tasks req)). }
      destruct (Hlink task Hin (id parentTask) Htr) as (parent0 & Hin0 & Hid0 & Hsub0).
      assert (parent0 = parentTask) as ->; [|done].
      by apply (NoDup_map_id_inj (tasks req)); [apply Hd|..]. }
    destruct (subtaskIds parentTask) as [subs|] eqn:Esubs;
      [|by apply elem_of_nil in Hlinked].
    apply (Hpar p parentTask subs); [by apply findParent_parentAt|done|done|].
    apply Forall_forall. intros subId Hin.
    destruct (Hsubs subId Hin) as (sub & Hsin & Hsid & Hsst).
    apply list_elem_of_lookup in Hsin as [j Hj].
    exists j, sub. split; [|done]. rewrite <- Hsid.
    apply findTask_NoDup_lookup; [apply Hd1|done].
  - exact Hrest.
  - intros p parentTask g grand Hp Hg.
    destruct (parentAt_older _ _ _ _ _ _ Hwf Hold Hi Hp)
      as (Hpi & n & m & Hn & Hm & Hmn).
    destruct (parentAt_older _ _ _ _ _ _ Hwf Hold (proj1 Hp) Hg)
      as (Hgp & m' & l & Hm' & Hl & Hlm).
    assert (m' = m) as -> by (by eapply hasNumber_inj).
    apply Hrest; [apply Hg| |].
    + intros ->. destruct Hg as [Hg _]. rewrite Hi in Hg. injection Hg as <-.
      assert (l = n) by (by eapply hasNumber_inj). lia.
    + intros Hg'. by destruct (parentAt_unique _ _ _ _ _ _ Hd Hp Hg') as [? _].
Qed.

Lemma markTask_parent_propagation_witness :
  let s := Examples.threeLevels in
  let s' := (markTaskFailed "req-1" "task-3" None s).1 in
  ∃ ts' parent',
    s' = putRequest 0 (completeRequest (setTasks ts' Examples.threeLevelsReq)) s
    ∧ ts' !! 1 = Some parent' ∧ status parent' = done
    ∧ ts' !! 0 = Some Examples.taskG.
Proof.
  destruct (markTask_parent_propagation "req-1" "task-3" Examples.threeLevels 0
              Examples.threeLevelsReq 2 Examples.taskT
              (markTaskFailed "req-1" "task-3" None Examples.threeLevels).1
              (markedFailed None Examples.taskT))
    as (ts' & Heq & _ & _ & _ & Hpar & _ & Hgrand).
  - apply reachable_run. constructor.
  - reflexivity.
  - reflexivity.
  - reflexivity.
  - right. reflexivity.
  - right. exists None. split; reflexivity.
  - destruct (Hpar 1 Examples.taskP) as (parent' & Hp & Hst & _).
    + split; reflexivity.
    + right. reflexivity.
    + intros subId Hin. apply list_elem_of_singleton in Hin. subst subId.
      exists (markedFailed None Examples.taskT).
      split; [|split; [reflexivity|right; reflexivity]].
      do 2 apply list_elem_of_further. apply list_elem_of_here.
    + exists ts', parent'. split; [exact Heq|]. split; [exact Hp|]. split; [exact Hst|].
      apply (Hgrand 1 Examples.taskP 0 Examples.taskG); split; reflexivity.
Defined.

(** *** The cascading delete *)

Lemma reachesBySubtasks_is_task ts root x :
  root ∈ map id ts → reachesBySubtasks ts root x → x ∈ map id ts.
Proof.
  intros Hroot Hx. destruct Hx as [|t sub _ _ _ Hsub]; [done|].
  apply list_elem_of_fmap. eauto.
Qed.

(** On a list with distinct ids the loop collects the ids that are
    reached through [subtaskIds] in the sense of the specification. *)
Lemma descendant_reachesBySubtasks ts root x :
  NoDup (map id ts) → descendant ts root x ↔ reachesBySubtasks ts root x.
Proof.
  intros Hnd. split.
  - induction 1 as [|x subId _ IH Hsub]; [constructor|].
    unfold existingSubtasks in Hsub.
    destruct (mkTaskMap ts !! x) as [[i t]|] eqn:Ex; [|by apply elem_of_nil in Hsub].
    apply list_elem_of_filter in Hsub as [Hsome Hin].
    apply mkTaskMap_lookup_Some in Ex as [Hi <-].
    apply mkTaskMap_is_Some in Hsome as (sub & Hsub & <-).
    apply (reaches_subtask ts root t sub); [done| |done|done].
    apply list_elem_of_lookup. eauto.
  - induction 1 as [|t sub _ IH Ht Hin Hsub]; [constructor|].
    apply (descendant_step ts root (id t)); [done|].
    apply list_elem_of_lookup in Ht as [i Hi].
    unfold existingSubtasks. rewrite (mkTaskMap_NoDup_lookup ts i t Hnd Hi).
    apply list_elem_of_filter. split; [|done].
    apply mkTaskMap_is_Some. eauto.
Qed.

(** [unlinkFromParent] on a list with distinct ids: the task that the
    [parentId] of the root names loses the root's id from its
    [subtaskIds], and every other task is left as it is. *)
Lemma unlinkFromParent_at ts root j t :
  distinctIds ts → ts !! j = Some t →
  ∃ t1, unlinkFromParent ts root !! j = Some t1
        ∧ t1 = setSubtaskIds (subtaskIds t1) t
        ∧ ((∃ rootTask, rootTask ∈ ts ∧ id rootTask = root
                        ∧ parentId rootTask = Some (id t)) →
           default [] (subtaskIds t1) = filter (λ x, x ≠ root) (default [] (subtaskIds t)))
        ∧ ((¬ ∃ rootTask, rootTask ∈ ts ∧ id rootTask = root
                          ∧ parentId rootTask = Some (id t)) →
           subtaskIds t1 = subtaskIds t).
Proof.
  intros Hd Hj. pose proof Hd as [Hnd Hne].
  assert (Htin : t ∈ ts) by (apply list_elem_of_lookup; eauto).
  assert (Hsame : (∀ rootTask, rootTask ∈ ts → id rootTask = root →
                     parentId rootTask ≠ Some (id t)) →
            ∃ t1, ts !! j = Some t1 ∧ t1 = setSubtaskIds (subtaskIds t1) t
              ∧ ((∃ rootTask, rootTask ∈ ts ∧ id rootTask = root
                              ∧ parentId rootTask = Some (id t)) →
                 default [] (subtaskIds t1)
                 = filter (λ x, x ≠ root) (default [] (subtaskIds t)))
              ∧ ((¬ ∃ rootTask, rootTask ∈ ts ∧ id rootTask = root
                                ∧ parentId rootTask = Some (id t)) →
                 subtaskIds t1 = subtaskIds t)).
  { intros Hno. exists t. split; [done|]. split; [by destruct t|]. split; [|done].
    intros (rootTask & H1 & H2 & H3). by destruct (Hno rootTask H1 H2). }
  unfold unlinkFromParent.
  destruct (mkTaskMap ts !! root) as [[i rootTask]|] eqn:Er.
  2: { apply Hsame. intros rootTask Hin Hid _.
       assert (is_Some (mkTaskMap ts !! root)) as [? ?]; [|congruence].
       apply mkTaskMap_is_Some. eauto. }
  apply mkTaskMap_lookup_Some in Er as [Hi Hrid].
  assert (Hrin : rootTask ∈ ts) by (apply list_elem_of_lookup; eauto).
  assert (Huniq : ∀ r', r' ∈ ts → id r' = root → r' = rootTask).
  { intros r' Hr' Hid'. apply (NoDup_map_id_inj ts); [done..|congruence]. }
  destruct (truthy (parentId rootTask)) as [pid|] eqn:Et.
  2: { apply Hsame. intros r' Hr' Hid' Hp. rewrite (Huniq r' Hr' Hid') in Hp.
       rewrite Hp, truthy_nonempty in Et; [done|].
       by apply (distinctIds_id_nonempty ts). }
  apply truthy_Some in Et.
  destruct (mkTaskMap ts !! pid) as [[p parent]|] eqn:Ep.
  2: { apply Hsame. intros r' Hr' Hid' Hp. rewrite (Huniq r' Hr' Hid') in Hp.
       assert (is_Some (mkTaskMap ts !! pid)) as [? ?]; [|congruence].
       apply mkTaskMap_is_Some. exists t. split; [done|congruence]. }
  apply mkTaskMap_lookup_Some in Ep as [Hp Hpid].
  destruct (decide (p = j)) as [->|Hpj].
  - assert (parent = t) as -> by congruence.
    destruct (subtaskIds t) as [subs|] eqn:Es.
    + rewrite list_lookup_alter, decide_True, Hj by done. simpl.
      eexists. split; [done|]. split; [done|]. simpl. split.
      * intros _. by rewrite default_orDelete.
      * intros Hno. destruct Hno. exists rootTask. split; [done|]. split; [done|].
        congruence.
    + exists t. split; [done|]. split; [by destruct t|]. rewrite Es. done.
  - assert (Hno : ∀ r', r' ∈ ts → id r' = root → parentId r' ≠ Some (id t)).
    { intros r' Hr' Hid' Hpar. rewrite (Huniq r' Hr' Hid') in Hpar.
      apply Hpj. eapply NoDup_lookup; [exact Hnd| |].
      - by rewrite list_lookup_fmap, Hp.
      - rewrite list_lookup_fmap, Hj. simpl. congruence. }
    destruct (subtaskIds parent); [|by apply Hsame].
    rewrite list_lookup_alter_ne by done. by apply Hsame.
Qed.

(** C7. On a list with distinct, non-empty ids,
    [removeTaskAndDescendants] returns false exactly when no task has
    the root id, and then changes nothing.  Otherwise the ids removed
    are the root and the ids reached from it through [subtaskIds], and no
    others; each surviving task keeps its fields, except that the removed
    ids leave its [dependsOn], that its [parentId] is dropped when it is a
    removed id, and that the root's id leaves the [subtaskIds] of the task
    that the [parentId] of the root names. *)
Theorem removeTaskAndDescendants_cascade ts root :
  distinctIds ts →
  ((removeTaskAndDescendants ts root).2 = false ↔ ¬ ∃ t, t ∈ ts ∧ id t = root)
  ∧ ((¬ ∃ t, t ∈ ts ∧ id t = root) → (removeTaskAndDescendants ts root).1 = ts)
  ∧ ((∃ t, t ∈ ts ∧ id t = root) →
     ∃ D : gset string,
       let ts' := (removeTaskAndDescendants ts root).1 in
       (∀ x, x ∈ D ↔ reachesBySubtasks ts root x)
       ∧ map id ts' = filter (λ x, x ∉ D) (map id ts)
       ∧ (∀ t, t ∈ ts → id t ∉ D →
            ∃ t', t' ∈ ts'
              ∧ t' = setSubtaskIds (subtaskIds t')
                       (setParentId (parentId t') (setDependsOn (dependsOn t') t))
              ∧ default [] (dependsOn t') = filter (λ d, d ∉ D) (default [] (dependsOn t))
              ∧ (∀ pid, parentId t = Some pid → pid ∈ D → parentId t' = None)
              ∧ ((∀ pid, parentId t = Some pid → pid ∉ D) → parentId t' = parentId t)
              ∧ ((∃ rootTask, rootTask ∈ ts ∧ id rootTask = root
                              ∧ parentId rootTask = Some (id t)) →
                 default [] (subtaskIds t')
                 = filter (λ x, x ≠ root) (default [] (subtaskIds t)))
              ∧ ((¬ ∃ rootTask, rootTask ∈ ts ∧ id rootTask = root
                                ∧ parentId rootTask = Some (id t)) →
                 subtaskIds t' = subtaskIds t))
       ∧ (∀ t', t' ∈ ts' →
            (∀ d, d ∈ default [] (dependsOn t') → d ∉ D)
            ∧ (∀ pid, parentId t' = Some pid → pid ∉ D))).
Proof.
  intros Hd. pose proof Hd as [Hnd Hne].
  destruct (mkTaskMap ts !! root) as [r|] eqn:Hr.
  2: { assert (Hnex : ¬ ∃ t, t ∈ ts ∧ id t = root).
       { intros Hex. apply mkTaskMap_is_Some in Hex as [? Hex]. congruence. }
       rewrite removeTaskAndDescendants_absent by done. simpl.
       split; [done|]. split; [done|]. by intros ?. }
  assert (Hex : ∃ t, t ∈ ts ∧ id t = root) by (apply mkTaskMap_is_Some; eauto).
  destruct (removeTaskAndDescendants_unfold ts root) as (D & HD & Heq); [by eauto|].
  rewrite Heq. simpl.
  split; [split; [done|by intros []]|]. split; [by intros []|]. intros _.
  assert (HD' : ∀ x, x ∈ D ↔ reachesBySubtasks ts root x).
  { intros x. rewrite HD. by apply descendant_reachesBySubtasks. }
  assert (Hroot : root ∈ map id ts).
  { destruct Hex as (t & Ht & <-). apply list_elem_of_fmap. eauto. }
  assert (HDne : ∀ x, x ∈ D → x ≠ "").
  { intros x Hx%HD' ->. apply Hne. by apply (reachesBySubtasks_is_task ts root). }
  exists D. split; [done|]. split; [|split].
  - by rewrite map_id_cleanUp, map_filter_id, map_id_unlinkFromParent.
  - intros t Ht Hid. apply list_elem_of_lookup in Ht as [j Hj].
    destruct (unlinkFromParent_at ts root j t Hd Hj) as (t1 & H1 & H2 & H3 & H4).
    destruct (cleanUp_spec D t1) as (C1 & C2 & C3).
    assert (Hpar1 : parentId t1 = parentId t) by (by rewrite H2).
    assert (Hsub1 : subtaskIds (cleanUp D t1) = subtaskIds t1) by (by rewrite C1).
    exists (cleanUp D t1). split; [|split; [|split; [|split; [|split; [|split]]]]].
    + apply list_elem_of_fmap. exists t1. split; [done|].
      apply list_elem_of_filter. split; [by rewrite H2|].
      apply list_elem_of_lookup. eauto.
    + rewrite C1 at 1. rewrite H2 at 3. simpl. rewrite C1. simpl. done.
    + rewrite C2, H2. done.
    + intros pid Hpid Hin. rewrite C3, Hpar1, Hpid, truthy_nonempty by (by apply HDne).
      by rewrite decide_True.
    + intros Hall. rewrite C3, Hpar1.
      destruct (truthy (parentId t)) as [pid|] eqn:E; [|done].
      apply truthy_Some in E. rewrite decide_False; [done|]. by apply Hall.
    + intros Hp. rewrite Hsub1. by apply H3.
    + intros Hp. rewrite Hsub1. by apply H4.
  - intros t' Ht'. apply list_elem_of_fmap in Ht' as (t1 & -> & _).
    destruct (cleanUp_spec D t1) as (_ & C2 & C3). split.
    + intros d Hdep. rewrite C2 in Hdep. apply list_elem_of_filter in Hdep. tauto.
    + intros pid Hpid Hin. rewrite C3 in Hpid.
      destruct (truthy (parentId t1)) as [pid0|] eqn:E0.
      * destruct (decide (pid0 ∈ D)); [done|]. apply truthy_Some in E0. congruence.
      * destruct (parentId t1) as [x|] eqn:Ex; [|done]. injection Hpid as ->.
        simpl in E0. destruct (decide (pid = "")) as [->|]; [|done].
        by apply (HDne "").
Qed.

(** In the four levels of [Examples.deepTasks], what is reached from
    task-2 is task-2, task-3 and task-4. *)
Lemma reachesBySubtasks_deep x :
  reachesBySubtasks Examples.deepTasks "task-2" x
  ↔ x ∈ ["task-2"; "task-3"; "task-4"].
Proof.
  split.
  - induction 1 as [|t sub _ IH Ht Hin Hsub]; [by left|].
    unfold Examples.deepTasks in Ht.
    repeat (apply elem_of_cons in Ht as [->|Ht]); simpl in *.
    all: try (by apply elem_of_nil in Ht).
    all: try (by apply elem_of_nil in Hin).
    all: try (apply list_elem_of_singleton in Hin; rewrite Hin).
    all: try (by left); try (by right; left); try (by do 2 right; left).
  - assert (H2 : reachesBySubtasks Examples.deepTasks "task-2" "task-2") by constructor.
    assert (H3 : reachesBySubtasks Examples.deepTasks "task-2" "task-3").
    { apply (reaches_subtask _ _
               (mkTask "task-2" "b" "" active medium (Some []) (Some "task-1")
                  (Some ["task-3"]) None "")
               (mkTask "task-3" "c" "" done medium (Some []) (Some "task-2")
                  (Some ["task-4"]) None "ok")); [done|..].
      - apply list_elem_of_further, list_elem_of_here.
      - apply list_elem_of_here.
      - do 2 apply list_elem_of_further. apply list_elem_of_here. }
    assert (H4 : reachesBySubtasks Examples.deepTasks "task-2" "task-4").
    { apply (reaches_subtask _ _
               (mkTask "task-3" "c" "" done medium (Some []) (Some "task-2")
                  (Some ["task-4"]) None "ok")
               (mkTask "task-4" "d" "" pending medium (Some []) (Some "task-3")
                  (Some []) None "")); [done|..].
      - do 2 apply list_elem_of_further. apply list_elem_of_here.
      - apply list_elem_of_here.
      - do 3 apply list_elem_of_further. apply list_elem_of_here. }
    intros Hx. repeat (apply elem_of_cons in Hx as [->|Hx]); try done.
    by apply elem_of_nil in Hx.
Qed.

Lemma distinctIds_deepTasks : distinctIds Examples.deepTasks.
Proof.
  split.
  - refine (bool_decide_unpack _ _). vm_compute. exact I.
  - refine (bool_decide_unpack _ _). vm_compute. exact I.
Qed.

Lemma removeTaskAndDescendants_cascade_witness :
  let ts' := (removeTaskAndDescendants Examples.deepTasks "task-2").1 in
  map id ts' = ["task-1"; "task-5"]
  ∧ ∃ t1 t5, t1 ∈ ts' ∧ id t1 = "task-1" ∧ default [] (subtaskIds t1) = []
             ∧ t5 ∈ ts' ∧ id t5 = "task-5" ∧ default [] (dependsOn t5) = ["task-1"].
Proof.
  destruct (proj2 (proj2 (removeTaskAndDescendants_cascade Examples.deepTasks "task-2"
                            distinctIds_deepTasks)))
    as (D & HD & Hids & Hsurv & _).
  - eexists. split; [apply list_elem_of_further, list_elem_of_here|reflexivity].
  - assert (Hin : ∀ x, x ∈ ["task-2"; "task-3"; "task-4"] → x ∈ D).
    { intros x Hx. by apply HD, reachesBySubtasks_deep. }
    assert (Hout : ∀ x, x ∉ ["task-2"; "task-3"; "task-4"] → x ∉ D).
    { intros x Hx Hc. by apply Hx, reachesBySubtasks_deep, HD. }
    assert (H1 : "task-1" ∉ D).
    { apply Hout. refine (bool_decide_unpack _ _). vm_compute. exact I. }
    assert (H5 : "task-5" ∉ D).
    { apply Hout. refine (bool_decide_unpack _ _). vm_compute. exact I. }
    assert (H2 : "task-2" ∈ D) by (apply Hin; by left).
    assert (H3 : "task-3" ∈ D) by (apply Hin; right; by left).
    assert (H4 : "task-4" ∈ D) by (apply Hin; do 2 right; by left).
    split.
    + rewrite Hids. simpl. rewrite !filter_cons, filter_nil.
      rewrite (decide_True _ _ H1), (decide_True _ _ H5).
      rewrite (decide_False (P := "task-2" ∉ D)) by tauto.
      rewrite (decide_False (P := "task-3" ∉ D)) by tauto.
      rewrite (decide_False (P := "task-4" ∉ D)) by tauto.
      reflexivity.
    + destruct (Hsurv (mkTask "task-1" "a" "" active medium (Some []) None
                         (Some ["task-2"]) None ""))
        as (t1 & Ht1 & E1 & _ & _ & _ & Hs1 & _); [apply list_elem_of_here|exact H1|].
      destruct (Hsurv (mkTask "task-5" "e" "" pending low (Some ["task-3"; "task-1"])
                         None None None ""))
        as (t5 & Ht5 & E5 & Hd5 & _);
        [do 4 apply list_elem_of_further; apply list_elem_of_here|exact H5|].
      exists t1, t5. split; [exact Ht1|]. split; [by rewrite E1|]. split.
      { rewrite Hs1; [reflexivity|].
        eexists. split; [apply list_elem_of_further, list_elem_of_here|].
        split; reflexivity. }
      split; [exact Ht5|]. split; [by rewrite E5|].
      rewrite Hd5. simpl. rewrite !filter_cons, filter_nil.
      rewrite (decide_True _ _ H1).
      rewrite (decide_False (P := "task-3" ∉ D)) by tauto. reflexivity.
Defined.

Lemma findRequest_None s rid :
  findRequest s rid = None ↔ ¬ ∃ r, r ∈ requests s ∧ requestId r = rid.
Proof.
  unfold findRequest. rewrite list_find_None, Forall_forall. split.
  - intros H (r & Hr & Hid). by apply (H r).
  - intros H r Hr Hid. apply H. eauto.
Qed.

(** C10. [deleteTask] replies with an error exactly when no request
    has the request id or no task of the request has the task id, and
    then changes nothing.  In a state that the operations reach, a task
    that is found is deleted whatever its status: no task of the request
    is left with its id or with an id reached from it through
    [subtaskIds]; every other task is left, with the status and the
    lifecycle fields it had, the parent among them; and the [completed]
    flag of the request is what it was. *)
Theorem deleteTask_error_iff rid taskId s :
  (tag (deleteTask rid taskId s).2 = error ↔
     (¬ ∃ r, r ∈ requests s ∧ requestId r = rid)
     ∨ ∃ k req, findRequest s rid = Some (k, req)
                ∧ ¬ ∃ t, t ∈ tasks req ∧ id t = taskId)
  ∧ (tag (deleteTask rid taskId s).2 = error → (deleteTask rid taskId s).1 = s)
  ∧ (∀ k req task,
       reachable s →
       findRequest s rid = Some (k, req) → task ∈ tasks req → id task = taskId →
       ∃ req',
         (deleteTask rid taskId s).2 = reply task_deleted
         ∧ requests (deleteTask rid taskId s).1 = <[k := req']> (requests s)
         ∧ requests (deleteTask rid taskId s).1 !! k = Some req'
         ∧ completed req' = completed req
         ∧ (∀ x, reachesBySubtasks (tasks req) taskId x → x ∉ map id (tasks req'))
         ∧ (∀ t, t ∈ tasks req → ¬ reachesBySubtasks (tasks req) taskId (id t) →
              ∃ t', t' ∈ tasks req' ∧ sameLifecycle t t')
         ∧ (∀ t', t' ∈ tasks req' → ∃ t, t ∈ tasks req ∧ sameLifecycle t t')).
Proof.
  destruct (deleteTask_spec rid taskId s) as (Hiff & Herr & Hok).
  split; [|split; [done|]].
  { rewrite Hiff, findRequest_None. split.
    - intros [?|(k & req & Hf & Hn)]; [by left|right]. exists k, req. split; [done|].
      intros Hex%findTask_is_Some. rewrite Hn in Hex. by destruct Hex.
    - intros [?|(k & req & Hf & Hn)]; [by left|right]. exists k, req. split; [done|].
      destruct (findTask (tasks req) taskId) eqn:E; [|done].
      destruct Hn. apply findTask_is_Some. eauto. }
  intros k req task Hs Hf Htask Hid.
  destruct (reachable_request_tasks s rid k req Hs Hf) as [Hwf _].
  pose proof (wellFormedTasks_distinctIds _ _ Hwf) as [Hnd Hne].
  assert (is_Some (findTask (tasks req) taskId)) as [[i task0] Ht].
  { apply findTask_is_Some. eauto. }
  destruct (Hok k req i task0 Hf Ht) as (ts' & Hrem & Hdel & _ & _ & Horig).
  assert (Hm : is_Some (mkTaskMap (tasks req) !! taskId)).
  { apply mkTaskMap_is_Some. eauto. }
  destruct (removeTaskAndDescendants_unfold (tasks req) taskId Hm) as (D & HD & Heq).
  rewrite Hrem in Heq. injection Heq as Heq.
  destruct (findRequest_lookup _ _ _ _ Hf) as [Hk _].
  exists (setTasks ts' req). rewrite Hdel. simpl.
  split; [done|]. split; [done|]. split.
  { apply list_lookup_insert_eq. by eapply lookup_lt_Some. }
  split; [done|]. split; [|split].
  - intros x Hx Hin.
    assert (HxD : x ∈ D) by (by apply HD, descendant_reachesBySubtasks).
    rewrite Heq, map_id_cleanUp, map_filter_id in Hin.
    apply list_elem_of_filter in Hin as [Hn _]. done.
  - intros t Htin Hnot.
    assert (HtD : id t ∉ D).
    { intros Hc. by apply Hnot, descendant_reachesBySubtasks, HD. }
    destruct (removeTaskAndDescendants_survivor (tasks req) taskId D t Htin HtD)
      as (t' & Hin' & E & _).
    exists t'. split; [by rewrite Heq|]. rewrite E. done.
  - intros t' Hin'. destruct (Horig t' Hin') as (t & Htin & Hi & Hst & Hfr & Hcd).
    exists t. done.
Qed.

(** In [Examples.doneLevelsReq], what is reached from task-2 is task-2
    and task-3. *)
Lemma reachesBySubtasks_doneLevels x :
  reachesBySubtasks (tasks Examples.doneLevelsReq) "task-2" x
  → x ∈ ["task-2"; "task-3"].
Proof.
  induction 1 as [|t sub _ IH Ht Hin Hsub]; [by left|].
  simpl in Ht. repeat (apply elem_of_cons in Ht as [->|Ht]); simpl in *.
  all: try (by apply elem_of_nil in Ht).
  all: try (by apply elem_of_nil in Hin).
  all: try (apply list_elem_of_singleton in Hin; rewrite Hin).
  all: try (by left); try (by right; left).
Qed.

Lemma deleteTask_error_iff_witness :
  ∃ req' t1,
    (deleteTask "req-1" "task-2" Examples.doneLevels).2 = reply task_deleted
    ∧ requests (deleteTask "req-1" "task-2" Examples.doneLevels).1 !! 0 = Some req'
    ∧ completed req' = false
    ∧ ("task-2" ∉ map id (tasks req')) ∧ ("task-3" ∉ map id (tasks req'))
    ∧ t1 ∈ tasks req' ∧ id t1 = "task-1" ∧ status t1 = active.
Proof.
  destruct (proj2 (proj2 (deleteTask_error_iff "req-1" "task-2" Examples.doneLevels)) 0
              Examples.doneLevelsReq Examples.doneP)
    as (req' & Hrep & _ & Hk & Hc & Hgone & Hkept & _).
  - do 2 apply reachable_run. constructor.
  - reflexivity.
  - apply list_elem_of_further, list_elem_of_here.
  - reflexivity.
  - destruct (Hkept Examples.taskG) as (t1 & Ht1 & Hid & Hst & _).
    + apply list_elem_of_here.
    + intros Hr%reachesBySubtasks_doneLevels.
      repeat (apply elem_of_cons in Hr as [Hr|Hr]; [discriminate Hr|]).
      by apply elem_of_nil in Hr.
    + exists req', t1. split; [exact Hrep|]. split; [exact Hk|]. split; [exact Hc|].
      split; [|split; [|split; [exact Ht1|split; [exact Hid|exact Hst]]]].
      * apply Hgone. constructor.
      * apply (Hgone (id Examples.doneT)).
        apply (reaches_subtask _ _ Examples.doneP).
        -- constructor.
        -- apply list_elem_of_further, list_elem_of_here.
        -- apply list_elem_of_here.
        -- do 2 apply list_elem_of_further. apply list_elem_of_here.
Defined.
